(* ===== verification/_CoqProject ===== *)
-Q . S2P
Prelude.v
Text.v
Json.v
Grammar.v
Queue.v
Wakeup.v
Scheduling.v
Metrics.v
Effects.v
FileIO.v
Config.v
Report.v
Socket.v
Protocol.v
Server.v
Threads.v
Transfer.v
Upload.v
Client.v
Load.v
EndToEnd.v
Ownership.v
System.v
Demo.v
Launch.v
Lifecycle.v
History.v
Safety.v
