(* ===== verification/Prelude.v ===== *)
(** * Verification of the link-scheduling file server

    The program is a file server in C++ whose workers share the outgoing link
    under a scheduling policy (FCFS, SJF, round robin, deficit round robin), with
    the client that drives it.  A connection carries one request, [GET name],
    [PUT name size] or [HEALTH].  The acceptor thread accepts connections and puts
    their descriptors in a queue; parser threads take a descriptor, read the
    request line, check it, and put the request in the request queue; worker threads
    take a request as the policy says, serve one round of it within the budget of
    the scheduler, and put it back or finish it.  The worker that begins an upload
    first answers that the body may be sent.  An upload is staged in a file of its
    own, which is renamed at the end.  A signal stops the acceptor; the parsers and
    then the workers drain their queues.

    ** The files, and the code they model

    - [Prelude]: bytes, machine integers, exceptions, lists, and the automation.
    - [Text]: the parts of the C++ library that the code uses on text.
    - [Json], [Grammar]: the class [Parser] of [config.cpp], and the grammar that
      it decides.
    - [Config]: [config.h], [load_config] of [config.cpp].
    - [Queue]: [queue.h], [queue.cpp]: [Request], [RequestQueue], [FdQueue].
    - [Wakeup]: the condition variables of the two queues.
    - [Scheduling]: [scheduling.h], [scheduling.cpp]: [Scheduler].
    - [Metrics], [Report]: [metrics.h], [metrics.cpp]: recording; the CSV file and
      the summary.
    - [Effects]: the calls of the program and their meaning (below).
    - [FileIO]: [file_io.cpp], with the state of [std::ifstream].
    - [Socket]: [socket.cpp].
    - [Protocol]: [protocol.cpp], and the lines that the client sends and reads.
    - [Server]: [server.cpp]: [serve_get], [serve_put], one round of a request.
    - [Threads]: the bodies of the three loops of [main.cpp], [clock_ns.h].
    - [Transfer], [Upload]: whole downloads and uploads, over all their rounds.
    - [Client]: the transfers, the health check and the command line of
      [client.cpp]; [Load]: its load generator.
    - [EndToEnd]: the client, the parser and the worker together.
    - [Ownership], [System], [Safety], [Lifecycle]: the threads of [main.cpp] running
      concurrently; [History]: the request that each of them serves; [Demo]: a
      concrete run.
    - [Launch]: the command line of [main.cpp], what it establishes, and the end of
      [main].

    ** State and operations

    A class becomes a record of its protected fields, and a method, which holds the
    mutex from beginning to end, a function on it.  A wait on a condition variable
    is a function that has no result while its predicate is false: the caller is
    then not enabled ([Wakeup] models the sleeping threads and the notifications,
    and shows that the waits of the code do not miss their predicate).  Functions that throw return a [result].  Unsigned 64-bit
    arithmetic is written with [u64], [int] and [long long] with [i32] and [i64].

    Code that calls the operating system, a stream or a shared object is a program
    ([Effects.prog]), a tree of calls ([Effects.event]).  [Effects.handle] gives a
    call its meaning on a [world]: files, sockets, the shared objects of the server,
    and tapes from which every choice of the environment is read (what arrives and
    in which blocks, how much a [send] takes, which descriptors [accept] returns,
    which file operations fail, how time passes).  The theorems hold for every
    world, so for every behaviour of the environment that the tapes can express.
    [ids_given] is a history variable, and so are [performed] in [Load] and the list
    of served requests in [History.serving].

    [System.move] interleaves the threads call by call with the joins of [main], and
    [System.step] adds the signal; [System.reachable] is what the theorems on the
    running server quantify over.  [Ownership.own_step] is the discipline by which a
    thread owns a connection and a staging file; [System.invariant] is established
    from it by induction on steps.

    ** The theorems

    - End to end: [EndToEnd.download_end_to_end], [EndToEnd.upload_end_to_end].
      The client receives, or the server stores, exactly the file, however the
      bytes are cut on the way; [Transfer.get_is_served_completely] and
      [Upload.put_is_stored_completely] are the server's part under every policy,
      [Upload.broken_upload_is_cleaned_up] an upload that breaks off.
    - The running server: refinement of an abstract life of a connection
      ([Lifecycle.server_refines_lifecycle]), no deadlock, a clean shutdown, no
      sharing of connections or staging files, a file changes only by the staging and
      the commit of the upload that the calling thread serves ([Safety]), and the
      discipline of the threads ([Ownership]).
    - One round: [Server.serve_get_spec], and the packetization that nobody can see.
    - The scheduler: SJF, round robin with admissions in between, fairness of DRR,
      budget, accounting and termination ([Scheduling]); the queues keep order and
      lose nothing ([Queue]), and no notification is lost ([Wakeup]).
    - Reading and writing: the header of a request, the grammar of requests and its
      round trips, [send_all], lines of a file, file names.
    - Before and after: the JSON parser decides its grammar ([Grammar]), [load_config]
      decides what is a configuration ([Config]), the server starts only with
      typed and sensible parameters ([Launch]), the CSV file and the percentiles
      ([Report]), the load generator ([Load]).
    - Behaviour that surprises: under RR a download whose file shrinks can go round
      for ever and keep a shutdown from ending ([Safety.shrunk_download_never_ends]);
      an empty upload can be stored and reported as failed
      ([EndToEnd.empty_upload_reported_as_failed]); connections that were accepted
      before the signal are still admitted after it ([Safety.pushes_are_accepted]).

    ** Bounds

    A loop takes a bound where its recursion is not structural, and a theorem shows
    that the bound that the code's definition gives it is never reached, or that the
    loop ends for every larger one.  The loops that read a line add a byte per turn
    and stop at 8192, so that 8193 is enough; [send_all] and the loops that receive
    make progress in every turn, so that one more than the number of bytes is
    enough; a line of a file has a byte, so that a round selects and gathers at most
    as many lines as bytes; the parser of the configuration enters at most two
    nested calls per character.  No file is larger than 2^62 bytes
    ([Effects.max_file_size]), which keeps the sizes of the code from wrapping
    around.  The request id is an [int]: the theorem on staging files holds until
    it has wrapped around.

    ** Code outside the program

    Interfaces whose implementation is free: [Report.StdSort] is [std::sort], which
    orders equivalent elements as it likes (insertion sort is an instance); the
    system calls that create and connect a socket are parameters in [Socket] and
    [Client], what [tellg] gives for a directory one in [Client], the iteration of a
    directory one in [Load].  [std::stod] is modelled
    only by whether it throws, the rule of the GNU library.

    ** Not modelled

    - Buffering inside [std::ofstream]: a write reaches the file, or fails, when it
      is made; the error that only [close] would report is a finding.
    - The number of the descriptor of the listening socket: it is 3, and what the
      signal handler does by closing it is part of the tape of that socket.
    - The limit of [select]: [FD_SET] of a descriptor from [FD_SETSIZE] on is
      undefined, which is a finding.
    - Files that are open while their name changes: a read or a write goes to the
      path, not to the inode that was opened.
    - A failure of memory allocation; of [std::bad_alloc] and [std::length_error]
      only the second is modelled, and only where a size that is no file's size is
      allocated.
    - Console output, and of the summary the printed throughput, a floating-point
      quotient whose operands are modelled.
    - The seeds and draws of the random generators of the load generator: every draw
      is allowed.
    - [test_config.cpp], which only prints a configuration; the scripts, measured
      results and the build file. *)

From stdpp Require Export base gmap strings list sorting.
From Stdlib Require Export ZArith Lia.

Local Open Scope Z_scope.

(** ** Bytes and strings

    A [std::string], a [std::vector<char>] and the content of a file are all
    lists of bytes; [str] embeds a literal of the source. *)

Abbreviation bytes := (list Ascii.ascii).

Definition str (s : String.string) : bytes := String.list_ascii_of_string s.

(** The value of a byte as an [unsigned char]. *)
Definition code (c : Ascii.ascii) : Z := Z.of_N (Ascii.N_of_ascii c).

Definition chr (n : Z) : Ascii.ascii := Ascii.ascii_of_N (Z.to_N n).

(** [size()] of a string or vector. *)
Definition zlen {A} (l : list A) : Z := Z.of_nat (length l).

(** The first [n] elements and what is left after them, for a machine integer
    [n] (recursion on the list, so that a count such as 2^63 costs nothing). *)
Fixpoint ztake {A} (n : Z) (l : list A) : list A :=
  match l with
  | [] => []
  | x :: l' => if n <=? 0 then [] else x :: ztake (n - 1) l'
  end.

Fixpoint zdrop {A} (n : Z) (l : list A) : list A :=
  match l with
  | [] => []
  | x :: l' => if n <=? 0 then l else zdrop (n - 1) l'
  end.

(** ** Machine integers

    [std::uint64_t] and [std::size_t] are residues modulo 2^64; [int] and
    [long long] are two's complement values. *)

Definition u64 (z : Z) : Z := z mod 2 ^ 64.

Definition wrap_signed (w z : Z) : Z := (z + 2 ^ (w - 1)) mod 2 ^ w - 2 ^ (w - 1).

(** [static_cast<int>] and conversion to [std::streamoff]. *)
Definition i32 (z : Z) : Z := wrap_signed 32 z.
Definition i64 (z : Z) : Z := wrap_signed 64 z.

Definition is_u64 (z : Z) : Prop := 0 <= z < 2 ^ 64.

(** ** Exceptions

    A function that may throw a [std::exception] returns a [result]; [Throw]
    carries the text of [what()]. *)

Inductive result (A : Type) : Type :=
  | Ok (a : A)
  | Throw (what : bytes).
Arguments Ok {A} _.
Arguments Throw {A} _.

#[export] Instance result_ret : MRet result := fun A a => Ok a.
#[export] Instance result_bind : MBind result :=
  fun A B f m => match m with Ok a => f a | Throw e => Throw e end.

Definition is_ok {A} (r : result A) : bool :=
  match r with Ok _ => true | Throw _ => false end.

(** ** Field update

    [r <| f := v |>] assigns the field [f] of the structure [r]; [Eta] lists the
    fields of a structure once and the setter of a field is derived from it. *)

Class Eta (R : Type) := eta : R -> R.
Class Setter {R T : Type} (proj : R -> T) := upd : (T -> T) -> R -> R.

Ltac derive_setter :=
  match goal with
  | |- @Setter ?R _ ?proj =>
      let e := constr:(_ : Eta R) in
      let body := eval red in e in
      let abs := eval pattern proj in body in
      match abs with
      | ?F proj => let s := eval cbv beta in (fun f => F (fun r => f (proj r))) in exact s
      end
  end.

#[export] Hint Extern 0 (Setter _) => derive_setter : typeclass_instances.

Notation "r <| f := v |>" := (upd (proj := f) (fun _ => v) r)
  (at level 1, f at level 0, left associativity, format "r  <| f  :=  v |>").

Notation "r <| f ::= g |>" := (upd (proj := f) g r)
  (at level 1, f at level 0, left associativity, format "r  <| f  ::=  g |>").

(** ** Shared tactics *)

(** Compute field updates and projections. *)
Ltac field_simpl := unfold upd in *; cbn in *.

(** Case analysis on every boolean comparison or [match] of the goal. *)
Ltac split_matches :=
  repeat (case_match || case_decide); simplify_eq/=; try done.

(** Boolean comparisons of hypotheses and goal become propositions. *)
Ltac to_prop :=
  repeat match goal with
  | H : (_ <? _) = true |- _ => apply Z.ltb_lt in H
  | H : (_ <? _) = false |- _ => apply Z.ltb_ge in H
  | H : (_ <=? _) = true |- _ => apply Z.leb_le in H
  | H : (_ <=? _) = false |- _ => apply Z.leb_gt in H
  | H : (_ =? _) = true |- _ => apply Z.eqb_eq in H
  | H : (_ =? _) = false |- _ => apply Z.eqb_neq in H
  | H : (_ && _)%bool = true |- _ => apply andb_true_iff in H as [? ?]
  | H : (_ || _)%bool = false |- _ => apply orb_false_iff in H as [? ?]
  | H : negb _ = true |- _ => apply negb_true_iff in H
  | H : negb _ = false |- _ => apply negb_false_iff in H
  end.

(** Arithmetic on machine words: unfold the wrap-around and decide. *)
Ltac word := unfold u64, is_u64, zlen in *; lia.

#[global] Arguments zlen : simpl never.
#[global] Arguments u64 : simpl never.
#[global] Arguments i64 : simpl never.
#[global] Arguments i32 : simpl never.
#[global] Arguments str : simpl never.

Create HintDb lists discriminated.
Create HintDb words discriminated.
Create Rewrite HintDb len.

(** ** Machine integers: lemmas *)

Lemma u64_small z : is_u64 z -> u64 z = z.
Proof. unfold u64, is_u64. intros. by apply Z.mod_small. Qed.

Lemma u64_range z : is_u64 (u64 z).
Proof. unfold u64, is_u64. by apply Z.mod_pos_bound. Qed.

Lemma i32_small z : - 2 ^ 31 <= z < 2 ^ 31 -> i32 z = z.
Proof. unfold i32, wrap_signed. intros. rewrite Z.mod_small; change (32 - 1) with 31; lia. Qed.

Lemma i64_small z : - 2 ^ 63 <= z < 2 ^ 63 -> i64 z = z.
Proof. unfold i64, wrap_signed. intros. rewrite Z.mod_small; change (64 - 1) with 63; lia. Qed.

Lemma i32_range z : - 2 ^ 31 <= i32 z < 2 ^ 31.
Proof. unfold i32, wrap_signed. change (32 - 1) with 31.
  pose proof (Z.mod_pos_bound (z + 2 ^ 31) (2 ^ 32)). lia. Qed.

Lemma i32_add_1 z : i32 (i32 z + 1) = i32 (z + 1).
Proof.
  unfold i32, wrap_signed. change (32 - 1) with 31. f_equal.
  replace ((z + 2 ^ 31) mod 2 ^ 32 - 2 ^ 31 + 1 + 2 ^ 31) with ((z + 2 ^ 31) mod 2 ^ 32 + 1) by lia.
  rewrite Zplus_mod_idemp_l. f_equal. lia.
Qed.

#[export] Hint Resolve u64_range : words.

(** ** Lists with machine-integer counts: lemmas *)

Section zlists.
Context {A : Type}.
Implicit Types (l k : list A) (n m : Z).

Lemma zlen_nil : zlen (@nil A) = 0.
Proof. done. Qed.

Lemma zlen_cons x l : zlen (x :: l) = 1 + zlen l.
Proof. unfold zlen. simpl. lia. Qed.

Lemma zlen_app l k : zlen (l ++ k) = zlen l + zlen k.
Proof. unfold zlen. rewrite length_app. lia. Qed.

Lemma zlen_nonneg l : 0 <= zlen l.
Proof. unfold zlen. lia. Qed.

Lemma zlen_zero l : zlen l = 0 -> l = [].
Proof. destruct l; [done|]. rewrite zlen_cons. pose proof (zlen_nonneg l). lia. Qed.

Lemma ztake_take n l : ztake n l = take (Z.to_nat n) l.
Proof.
  revert n. induction l as [|x l IH]; intros n; simpl; [by rewrite take_nil|].
  destruct (Z.leb_spec n 0).
  - by replace (Z.to_nat n) with 0%nat by lia.
  - replace (Z.to_nat n) with (S (Z.to_nat (n - 1))) by lia. simpl. by rewrite IH.
Qed.

Lemma zdrop_drop n l : zdrop n l = drop (Z.to_nat n) l.
Proof.
  revert n. induction l as [|x l IH]; intros n; simpl; [by rewrite drop_nil|].
  destruct (Z.leb_spec n 0).
  - by replace (Z.to_nat n) with 0%nat by lia.
  - replace (Z.to_nat n) with (S (Z.to_nat (n - 1))) by lia. simpl. by rewrite IH.
Qed.

Lemma ztake_zdrop n l : ztake n l ++ zdrop n l = l.
Proof. rewrite ztake_take, zdrop_drop. apply take_drop. Qed.

Lemma ztake_all n l : zlen l <= n -> ztake n l = l.
Proof. intros. rewrite ztake_take. apply take_ge. unfold zlen in *. lia. Qed.

Lemma zdrop_all n l : zlen l <= n -> zdrop n l = [].
Proof. intros. rewrite zdrop_drop. apply drop_ge. unfold zlen in *. lia. Qed.

Lemma ztake_0 n l : n <= 0 -> ztake n l = [].
Proof. intros. rewrite ztake_take. by replace (Z.to_nat n) with 0%nat by lia. Qed.

Lemma zdrop_0 n l : n <= 0 -> zdrop n l = l.
Proof. intros. rewrite zdrop_drop. by replace (Z.to_nat n) with 0%nat by lia. Qed.

Lemma zlen_ztake n l : 0 <= n -> zlen (ztake n l) = Z.min n (zlen l).
Proof. intros. rewrite ztake_take. unfold zlen. rewrite length_take. lia. Qed.

Lemma zlen_zdrop n l : 0 <= n -> zlen (zdrop n l) = Z.max 0 (zlen l - n).
Proof. intros. rewrite zdrop_drop. unfold zlen. rewrite length_drop. lia. Qed.

Lemma ztake_app_exact n l k : n = zlen l -> ztake n (l ++ k) = l.
Proof.
  intros ->. rewrite ztake_take. unfold zlen. rewrite Nat2Z.id. apply take_app_length.
Qed.

Lemma zdrop_app_exact n l k : n = zlen l -> zdrop n (l ++ k) = k.
Proof.
  intros ->. rewrite zdrop_drop. unfold zlen. rewrite Nat2Z.id. apply drop_app_length.
Qed.

Lemma zdrop_zdrop n m l : 0 <= n -> 0 <= m -> zdrop n (zdrop m l) = zdrop (m + n) l.
Proof. intros. rewrite !zdrop_drop, drop_drop. f_equal. lia. Qed.

Lemma ztake_add n m l : 0 <= n -> 0 <= m -> ztake (n + m) l = ztake n l ++ ztake m (zdrop n l).
Proof.
  intros. rewrite !ztake_take, zdrop_drop.
  replace (Z.to_nat (n + m)) with (Z.to_nat n + Z.to_nat m)%nat by lia.
  by rewrite <- take_take_drop.
Qed.

End zlists.

#[global] Arguments ztake : simpl never.
#[global] Arguments zdrop : simpl never.

Lemma drop_cons_inv {A} (L : list A) i x l :
  drop i L = x :: l -> L !! i = Some x /\ drop (S i) L = l.
Proof.
  intros H. split.
  - rewrite <- (Nat.add_0_r i), <- lookup_drop, H. done.
  - replace (S i) with (i + 1)%nat by lia. rewrite <- drop_drop, H. done.
Qed.

#[export] Hint Resolve zlen_nonneg : lists.
#[export] Hint Rewrite @zlen_nil @zlen_cons @zlen_app : len.

(** Lengths of lists as linear arithmetic. *)
Ltac list_lia :=
  autorewrite with len in *;
  repeat match goal with
  | |- context [zlen ?l] =>
      lazymatch goal with H : 0 <= zlen l |- _ => fail | _ => pose proof (zlen_nonneg l) end
  | _ : context [zlen ?l] |- _ =>
      lazymatch goal with H : 0 <= zlen l |- _ => fail | _ => pose proof (zlen_nonneg l) end
  end; lia.

(** Two lists that agree end alike after the last occurrence of a separator. *)
Lemma app_last_inj {A} (x : A) l1 l2 d1 d2 :
  l1 ++ x :: d1 = l2 ++ x :: d2 -> x ∉ d1 -> x ∉ d2 -> l1 = l2 /\ d1 = d2.
Proof.
  revert l2. induction l1 as [|y l1 IH]; intros [|z l2] E H1 H2; simplify_eq/=.
  - done.
  - destruct H1. apply elem_of_app. right. by left.
  - destruct H2. apply elem_of_app. right. by left.
  - destruct (IH l2) as [-> ->]; done.
Qed.

(** Permutations of lists with decidable equality, by counting occurrences. *)
Ltac perm_lia :=
  lazymatch goal with
  | |- @Permutation ?A _ _ =>
      let dec := constr:((_ : EqDecision A)) in
      repeat match goal with
      | H : @Permutation A _ _ |- _ => rewrite (Permutation_count_occ dec) in H
      end;
      rewrite (Permutation_count_occ dec); intros x;
      repeat match goal with
      | H : forall y, count_occ dec _ y = count_occ dec _ y |- _ => specialize (H x)
      end;
      rewrite ?count_occ_app in *; lia
  end.

(** Two lists that agree begin alike up to the first occurrence of a separator. *)
Lemma app_first_inj {A} (x : A) l1 l2 d1 d2 :
  l1 ++ x :: d1 = l2 ++ x :: d2 -> x ∉ l1 -> x ∉ l2 -> l1 = l2 /\ d1 = d2.
Proof.
  revert l2. induction l1 as [|y l1 IH]; intros [|z l2] E H1 H2; simplify_eq/=.
  - done.
  - destruct H2. by left.
  - destruct H1. by left.
  - rewrite not_elem_of_cons in H1, H2. destruct (IH l2) as [-> ->]; tauto.
Qed.

(** A part without the separator ends before its first occurrence. *)
Lemma app_cut_inj {A} (x : A) l g d r :
  l ++ x :: d = g ++ r -> x ∉ g -> exists l', l = g ++ l' /\ l' ++ x :: d = r.
Proof.
  revert l. induction g as [|y g IH]; intros l E Hg; [by exists l|].
  rewrite not_elem_of_cons in Hg. destruct l as [|z l]; simplify_eq/=; [tauto|].
  destruct (IH l) as (l' & -> & <-); [done|tauto|]. by exists l'.
Qed.

(** ** Counting *)

Definition count_if {A} (P : A -> bool) (l : list A) : Z := zlen (filter (fun x => P x = true) l).

Lemma count_if_cons {A} (P : A -> bool) x l : count_if P (x :: l) = Z.b2z (P x) + count_if P l.
Proof.
  unfold count_if. destruct (P x) eqn:E.
  - rewrite filter_cons_True by done. rewrite zlen_cons. simpl. lia.
  - by rewrite filter_cons_False by congruence.
Qed.

Lemma count_if_app {A} (P : A -> bool) l k : count_if P (l ++ k) = count_if P l + count_if P k.
Proof. unfold count_if. by rewrite filter_app, zlen_app. Qed.

Lemma count_if_perm {A} (P : A -> bool) l k : l ≡ₚ k -> count_if P l = count_if P k.
Proof. unfold count_if, zlen. by intros ->. Qed.

Lemma count_if_all {A} (P : A -> bool) l : Forall (fun x => P x = true) l -> count_if P l = zlen l.
Proof. induction 1 as [|x l Hx _ IH]; [done|]. by rewrite count_if_cons, Hx, IH, zlen_cons. Qed.

Lemma count_if_none {A} (P : A -> bool) l : Forall (fun x => P x = false) l -> count_if P l = 0.
Proof. induction 1 as [|x l Hx _ IH]; [done|]. by rewrite count_if_cons, Hx, IH. Qed.

Lemma count_if_range {A} (P : A -> bool) l : 0 <= count_if P l <= zlen l.
Proof. unfold count_if, zlen. pose proof (length_filter (fun x => P x = true) l). lia. Qed.

Lemma count_if_elem {A} (P : A -> bool) x l : x ∈ l -> P x = true -> 0 < count_if P l.
Proof.
  intros (l1 & l2 & ->)%list_elem_of_split Hx. rewrite count_if_app, count_if_cons, Hx.
  pose proof (count_if_range P l1). pose proof (count_if_range P l2). simpl. lia.
Qed.

Lemma count_if_pos {A} (P : A -> bool) l : 0 < count_if P l -> exists x, x ∈ l /\ P x = true.
Proof.
  unfold count_if. destruct (filter _ l) as [|x k] eqn:E; [done|]. intros _. exists x.
  assert (x ∈ filter (fun x => P x = true) l) as H by (rewrite E; by left).
  by apply list_elem_of_filter in H as [? ?].
Qed.

Lemma count_if_insert {A} (P : A -> bool) l i x y :
  l !! i = Some x -> count_if P (<[i := y]> l) = count_if P l - Z.b2z (P x) + Z.b2z (P y).
Proof.
  intros Hi. destruct (list_elem_of_split_length l i x Hi) as (l1 & l2 & -> & ->).
  rewrite <- (Nat.add_0_r (length l1)) at 1. rewrite insert_app_r. simpl.
  rewrite !count_if_app, !count_if_cons. lia.
Qed.

(** ** Runs of a step relation *)

(** One step or none. *)
Definition stutter {A} (R : A -> A -> Prop) (x y : A) : Prop := x = y \/ R x y.

(** The states after the steps of a run. *)
Inductive trace {A} (R : A -> A -> Prop) (x : A) : list A -> Prop :=
  | trace_nil : trace R x []
  | trace_cons y l : R x y -> trace R y l -> trace R x (y :: l).
