(* ===== verification/Text.v ===== *)
(** The parts of the C++ standard library that the server uses on text: the
    character classes of [<cctype>] (classic locale), extraction of words from
    an [std::istringstream], [std::to_string] and [std::stoull], [std::stoll],
    [std::stoi]. *)

From S2P Require Import Prelude.

Local Open Scope Z_scope.

(** ** Character classes *)

Definition isspace (c : Ascii.ascii) : bool :=
  ((9 <=? code c) && (code c <=? 13)) || (code c =? 32).

Definition isdigit (c : Ascii.ascii) : bool := (48 <=? code c) && (code c <=? 57).

Definition toupper (c : Ascii.ascii) : Ascii.ascii :=
  if (97 <=? code c) && (code c <=? 122) then chr (code c - 32) else c.

Definition digit (c : Ascii.ascii) : Z := code c - 48.

(** Equality of strings. *)
Definition beq (a b : bytes) : bool := bool_decide (a = b).

(** ** Word extraction

    [extract s] is [stream >> word] on a stream whose unread characters are [s]:
    [None] when the extraction fails, otherwise the word and what is unread. *)

Fixpoint skip_space (s : bytes) : bytes :=
  match s with
  | c :: s' => if isspace c then skip_space s' else s
  | [] => []
  end.

Fixpoint span_word (s : bytes) : bytes * bytes :=
  match s with
  | [] => ([], [])
  | c :: s' =>
      if isspace c then ([], s)
      else let '(w, rest) := span_word s' in (c :: w, rest)
  end.

Definition extract (s : bytes) : option (bytes * bytes) :=
  match skip_space s with
  | [] => None
  | s' => Some (span_word s')
  end.

(** ** Numbers to text *)

Fixpoint to_digits (fuel : nat) (n : Z) (acc : bytes) : bytes :=
  match fuel with
  | O => acc
  | S fuel' =>
      let acc := chr (48 + n mod 10) :: acc in
      if n <? 10 then acc else to_digits fuel' (n / 10) acc
  end.

(** [std::to_string] of an unsigned 64-bit value: at most 20 digits. *)
Definition to_string (n : Z) : bytes := to_digits 20 n [].

(** [std::to_string] and [<<] of an [int]. *)
Definition to_string_int (n : Z) : bytes :=
  if n <? 0 then str "-" ++ to_string (- n) else to_string n.

(** ** Text to numbers *)

Definition dec_value (s : bytes) : Z := fold_left (fun acc c => acc * 10 + digit c) s 0.

Fixpoint span_digits (s : bytes) : bytes :=
  match s with
  | c :: s' => if isdigit c then c :: span_digits s' else []
  | [] => []
  end.

(** The sign and the digits that [strtoull], [strtoll] and [strtol] read. *)
Definition scan_number (s : bytes) : bool * bytes :=
  match skip_space s with
  | c :: s' =>
      if code c =? 45 then (true, span_digits s')
      else if code c =? 43 then (false, span_digits s')
      else (false, span_digits (c :: s'))
  | [] => (false, [])
  end.

(** A minus sign is accepted and negates modulo 2^64, as [strtoull] does. *)
Definition stoull (s : bytes) : result Z :=
  let '(neg, ds) := scan_number s in
  if beq ds [] then Throw (str "stoull")
  else if dec_value ds <? 2 ^ 64 then
    Ok (if (neg : bool) then u64 (- dec_value ds) else dec_value ds)
  else Throw (str "stoull").

Definition stoll (s : bytes) : result Z :=
  let '(neg, ds) := scan_number s in
  let v := if (neg : bool) then - dec_value ds else dec_value ds in
  if beq ds [] then Throw (str "stoll")
  else if (- 2 ^ 63 <=? v) && (v <? 2 ^ 63) then Ok v
  else Throw (str "stoll").

Definition stoi (s : bytes) : result Z :=
  let '(neg, ds) := scan_number s in
  let v := if (neg : bool) then - dec_value ds else dec_value ds in
  if beq ds [] then Throw (str "stoi")
  else if (- 2 ^ 31 <=? v) && (v <? 2 ^ 31) then Ok v
  else Throw (str "stoi").

(** ** Words of a line

    The words that repeated extraction yields. *)

Fixpoint words_from (cur s : bytes) : list bytes :=
  match s with
  | [] => match cur with [] => [] | _ => [rev cur] end
  | c :: s' =>
      if isspace c then
        match cur with [] => words_from [] s' | _ => rev cur :: words_from [] s' end
      else words_from (c :: cur) s'
  end.

Definition words (s : bytes) : list bytes := words_from [] s.

(** A word: characters other than white space, at least one. *)
Definition is_word (w : bytes) : Prop := w <> [] /\ Forall (fun c => isspace c = false) w.

#[export] Instance is_word_dec w : Decision (is_word w).
Proof. unfold is_word. apply _. Defined.

(** ** Lemmas *)

Lemma code_range c : 0 <= code c < 256.
Proof. unfold code. pose proof (Ascii.N_ascii_bounded c). lia. Qed.

Lemma code_chr n : 0 <= n < 256 -> code (chr n) = n.
Proof. intros. unfold code, chr. rewrite Ascii.N_ascii_embedding; lia. Qed.

Lemma beq_spec a b : beq a b = true <-> a = b.
Proof. apply bool_decide_eq_true. Qed.

Lemma beq_false a b : beq a b = false <-> a <> b.
Proof. apply bool_decide_eq_false. Qed.

Lemma isdigit_not_space c : isdigit c = true -> isspace c = false.
Proof.
  unfold isdigit, isspace. intros. to_prop.
  apply orb_false_iff. split; [apply andb_false_iff; right; apply Z.leb_gt|apply Z.eqb_neq]; lia.
Qed.

Lemma skip_space_not_space c s : isspace c = false -> skip_space (c :: s) = c :: s.
Proof. intros H. simpl. by rewrite H. Qed.

Lemma span_word_app w s :
  Forall (fun c => isspace c = false) w ->
  match s with [] => True | c :: _ => isspace c = true end ->
  span_word (w ++ s) = (w, s).
Proof.
  intros Hw Hs. induction Hw as [|c w Hc Hw IH]; simpl.
  - destruct s as [|c s]; simpl; [done|]. by rewrite Hs.
  - by rewrite Hc, IH.
Qed.

(** Extraction of a word that is followed by white space or by the end. *)
Lemma extract_word w s :
  is_word w -> match s with [] => True | c :: _ => isspace c = true end ->
  extract (w ++ s) = Some (w, s).
Proof.
  intros [Hne Hw] Hs. unfold extract.
  destruct w as [|c w]; [done|]. inversion_clear Hw as [|? ? Hc Hw'].
  rewrite <- app_comm_cons, skip_space_not_space by done. cbn [span_word].
  rewrite Hc, (span_word_app w s) by done. done.
Qed.

Lemma extract_space c s : isspace c = true -> extract (c :: s) = extract s.
Proof. intros H. unfold extract. simpl. by rewrite H. Qed.

Lemma extract_length s w rest : extract s = Some (w, rest) -> zlen w <= zlen s.
Proof.
  assert (Hsp : forall t, zlen (skip_space t) <= zlen t).
  { induction t as [|c t IH]; [done|]. simpl. destruct (isspace c); list_lia. }
  assert (Hw : forall t, zlen (span_word t).1 <= zlen t).
  { induction t as [|c t IH]; [done|]. simpl. destruct (isspace c); [list_lia|].
    destruct (span_word t). simpl in *. list_lia. }
  unfold extract. intros H. specialize (Hsp s). specialize (Hw (skip_space s)).
  destruct (skip_space s); [done|]. simplify_eq. rewrite H in Hw. simpl in Hw. lia.
Qed.

Lemma extract_nil : extract [] = None.
Proof. done. Qed.

Lemma words_from_cur cur s :
  cur <> [] -> words_from cur s = (rev cur ++ (span_word s).1) :: words (span_word s).2.
Proof.
  revert cur. induction s as [|c s IH]; intros cur Hc; simpl.
  - destruct cur; [done|]. by rewrite app_nil_r.
  - destruct (isspace c) eqn:E.
    + destruct cur; [done|]. simpl. rewrite app_nil_r. unfold words. simpl. by rewrite E.
    + rewrite IH by done. destruct (span_word s). simpl. by rewrite <- app_assoc.
Qed.

(** [words] is repeated extraction. *)
Lemma words_extract s :
  words s = match extract s with None => [] | Some (w, rest) => w :: words rest end.
Proof.
  unfold extract. induction s as [|c s IH]; [done|].
  unfold words in *. simpl. destruct (isspace c) eqn:E; [done|].
  rewrite words_from_cur by done. simpl. rewrite E. by destruct (span_word s).
Qed.

Lemma extract_is_word s w rest : extract s = Some (w, rest) -> is_word w.
Proof.
  unfold extract. induction s as [|c s IH]; [done|]. simpl.
  destruct (isspace c) eqn:E; [done|]. simpl. rewrite E.
  destruct (span_word s) as [w' rest'] eqn:Hs. intros. simplify_eq. split; [done|].
  constructor; [done|]. clear -Hs. revert w' rest Hs.
  induction s as [|d s IH]; intros w' rest; simpl; [intros; by simplify_eq|].
  destruct (isspace d) eqn:E; [intros; by simplify_eq|].
  destruct (span_word s) as [w'' rest''] eqn:Hs. intros. simplify_eq. constructor; eauto.
Qed.

Lemma words_nil_extract s : words s = [] -> extract s = None.
Proof. rewrite words_extract. by destruct (extract s) as [[w rest]|]. Qed.

Lemma words_cons_extract s w ws :
  words s = w :: ws -> exists rest, extract s = Some (w, rest) /\ words rest = ws /\ is_word w.
Proof.
  rewrite words_extract. destruct (extract s) as [[w' rest]|] eqn:E; [|done].
  intros. simplify_eq. eauto using extract_is_word.
Qed.

Lemma words_space c s : isspace c = true -> words (c :: s) = words s.
Proof. intros H. rewrite !words_extract. by rewrite extract_space. Qed.

Lemma words_word w c s : is_word w -> isspace c = true -> words (w ++ c :: s) = w :: words s.
Proof. intros Hw Hc. rewrite words_extract, extract_word by done. by rewrite words_space. Qed.

(** White space at the end of a line adds no word. *)
Lemma words_from_snoc_space cur s c :
  isspace c = true -> words_from cur (s ++ [c]) = words_from cur s.
Proof.
  intros Hc. revert cur. induction s as [|d s IH]; intros cur; simpl.
  - rewrite Hc. by destruct cur.
  - by rewrite !IH.
Qed.

(** ** Decimal text *)

Lemma to_digits_acc fuel n acc : to_digits fuel n acc = to_digits fuel n [] ++ acc.
Proof.
  revert n acc. induction fuel as [|fuel IH]; intros n acc; simpl; [done|].
  destruct (n <? 10); [done|]. rewrite IH, (IH _ [_]), <- app_assoc. done.
Qed.

Lemma dec_value_snoc s c : dec_value (s ++ [c]) = dec_value s * 10 + digit c.
Proof. unfold dec_value. by rewrite fold_left_app. Qed.

Lemma digit_chr k : 0 <= k < 10 -> digit (chr (48 + k)) = k /\ isdigit (chr (48 + k)) = true.
Proof.
  intros. unfold digit, isdigit. rewrite code_chr by lia. split; [lia|].
  apply andb_true_iff. rewrite !Z.leb_le. lia.
Qed.

Lemma to_digits_spec fuel n :
  0 <= n < 10 ^ Z.of_nat fuel -> (0 < fuel)%nat ->
  dec_value (to_digits fuel n []) = n /\ to_digits fuel n [] <> [] /\
  Forall (fun c => isdigit c = true) (to_digits fuel n []).
Proof.
  revert n. induction fuel as [|fuel IH]; intros n Hn Hf; [lia|]. simpl.
  pose proof (Z.mod_pos_bound n 10 ltac:(lia)) as Hm.
  destruct (digit_chr (n mod 10) Hm) as [Hd Hi].
  destruct (Z.ltb_spec n 10).
  - split_and!; [|done|by repeat constructor].
    unfold dec_value. simpl. rewrite Hd. apply Z.mod_small. lia.
  - rewrite to_digits_acc.
    assert (Hs : 0 <= n / 10 < 10 ^ Z.of_nat fuel).
    { rewrite Nat2Z.inj_succ, Z.pow_succ_r in Hn by lia.
      split; [apply Z.div_pos; lia|apply Z.div_lt_upper_bound; lia]. }
    assert (0 < fuel)%nat.
    { destruct fuel; [|lia]. simpl in Hn. lia. }
    destruct (IH (n / 10) Hs) as (Hv & Hne & Hall); [done|].
    split_and!.
    + rewrite dec_value_snoc, Hv, Hd. pose proof (Z.div_mod n 10). lia.
    + by destruct (to_digits fuel (n / 10) []).
    + apply Forall_app. by repeat constructor.
Qed.

(** Printing an unsigned value gives digits only, and they denote it. *)
Lemma to_string_spec n :
  is_u64 n -> dec_value (to_string n) = n /\ to_string n <> [] /\
  Forall (fun c => isdigit c = true) (to_string n).
Proof. unfold is_u64. intros. apply to_digits_spec; lia. Qed.

Lemma to_string_inj n m : is_u64 n -> is_u64 m -> to_string n = to_string m -> n = m.
Proof.
  intros Hn Hm E. destruct (to_string_spec n Hn) as [<- _], (to_string_spec m Hm) as [<- _].
  by rewrite E.
Qed.

Lemma to_digits_length fuel n acc :
  (length (to_digits fuel n acc) <= fuel + length acc)%nat.
Proof.
  revert n acc. induction fuel as [|fuel IH]; intros n acc; simpl; [lia|].
  destruct (n <? 10); simpl; [lia|]. specialize (IH (n / 10) (chr (48 + n mod 10) :: acc)).
  simpl in IH. lia.
Qed.

Lemma to_string_length n : zlen (to_string n) <= 20.
Proof.
  pose proof (to_digits_length 20 n []) as H. change (length (@nil Ascii.ascii)) with 0%nat in H.
  unfold to_string, zlen. lia.
Qed.

Lemma to_string_is_word n : is_u64 n -> is_word (to_string n).
Proof.
  intros H. destruct (to_string_spec n H) as (_ & Hne & Hd). split; [done|].
  eapply Forall_impl; [exact Hd|]. simpl. eauto using isdigit_not_space.
Qed.

Lemma span_digits_app ds s :
  Forall (fun c => isdigit c = true) ds ->
  match s with [] => True | c :: _ => isdigit c = false end ->
  span_digits (ds ++ s) = ds.
Proof.
  intros Hd Hs. induction Hd as [|c ds Hc Hd IH]; simpl.
  - destruct s as [|c s]; simpl; [done|]. by rewrite Hs.
  - by rewrite Hc, IH.
Qed.

Lemma scan_number_digits ds s :
  Forall (fun c => isdigit c = true) ds -> ds <> [] ->
  match s with [] => True | c :: _ => isdigit c = false end ->
  scan_number (ds ++ s) = (false, ds).
Proof.
  intros Hd Hne Hs. unfold scan_number. destruct ds as [|c ds]; [done|].
  inversion Hd as [|? ? Hc Hd']; subst.
  rewrite <- app_comm_cons, skip_space_not_space by by apply isdigit_not_space.
  assert (48 <= code c <= 57) by (unfold isdigit in Hc; to_prop; lia).
  destruct (Z.eqb_spec (code c) 45); [lia|]. destruct (Z.eqb_spec (code c) 43); [lia|].
  f_equal. by apply (span_digits_app (c :: ds) s).
Qed.

(** [stoull] on digits, whatever follows them. *)
Lemma stoull_digits ds s :
  Forall (fun c => isdigit c = true) ds -> ds <> [] ->
  match s with [] => True | c :: _ => isdigit c = false end ->
  stoull (ds ++ s) =
    if dec_value ds <? 2 ^ 64 then Ok (dec_value ds) else Throw (str "stoull").
Proof.
  intros Hd Hne Hs. unfold stoull. rewrite scan_number_digits by done.
  by rewrite (proj2 (beq_false ds [])).
Qed.

Lemma dec_value_nonneg ds : Forall (fun c => isdigit c = true) ds -> 0 <= dec_value ds.
Proof.
  induction ds as [|c ds IH] using rev_ind; intros H; [done|].
  apply Forall_app in H as [H Hc]. inversion_clear Hc as [|? ? Hd _].
  rewrite dec_value_snoc. specialize (IH H). unfold isdigit, digit in *. to_prop. lia.
Qed.

#[global] Arguments to_digits : simpl never.
