(* ===== verification/Json.v ===== *)
(** The JSON reader of the configuration, [src/config.cpp]: the class [Json] and
    the class [Parser], a recursive descent over the text.

    The position [pos_] in [text_] is represented by the text from that position
    on: a function takes it and returns the text from the new position on. *)

From S2P Require Import Prelude Text.
From Stdlib Require Import Ascii.

Local Open Scope Z_scope.

Module Json.

(** [struct Json], one constructor per [Type].  A [Number] has its [integer] when
    [number_is_int], and otherwise the text of its [real], which nothing reads.
    The [std::map] of an object is an association list without duplicate keys. *)
Inductive t :=
  | Null
  | Bool (boolean : bool)
  | Integer (integer : Z)
  | Real (token : bytes)
  | String (str : bytes)
  | Object (object : list (bytes * t))
  | Array (array : list t).

Definition is_object (j : t) : bool := match j with Object _ => true | _ => false end.
Definition is_array (j : t) : bool := match j with Array _ => true | _ => false end.
Definition is_string (j : t) : bool := match j with String _ => true | _ => false end.
Definition is_int (j : t) : bool := match j with Integer _ => true | _ => false end.

(** [object.find(key)]. *)
Fixpoint find (key : bytes) (object : list (bytes * t)) : option t :=
  match object with
  | [] => None
  | (k, v) :: object' => if beq k key then Some v else find key object'
  end.

Definition contains (key : bytes) (j : t) : bool :=
  match j with
  | Object object => match find key object with Some _ => true | None => false end
  | _ => false
  end.

(** [object.at(key)] throws [std::out_of_range] when the key is missing. *)
Definition at_ (key : bytes) (j : t) : result t :=
  match j with
  | Object object =>
      match find key object with Some v => Ok v | None => Throw (Prelude.str "map::at") end
  | _ => Throw (Prelude.str "map::at")
  end.

(** [object.emplace(key, value)] keeps the value that is already there. *)
Definition emplace (key : bytes) (value : t) (object : list (bytes * t)) : list (bytes * t) :=
  match find key object with
  | Some _ => object
  | None => object ++ [(key, value)]
  end.

End Json.

(** ** Characters *)

Definition quote : ascii := chr 34.
Definition backslash : ascii := chr 92.

(** [pos_ < text_.size() && text_[pos_] == c]. *)
Definition next_is (c : ascii) (s : bytes) : bool :=
  match s with d :: _ => Ascii.eqb d c | [] => false end.

(** [pos_ < text_.size() && std::isdigit(text_[pos_])]. *)
Definition next_is_digit (s : bytes) : bool :=
  match s with d :: _ => isdigit d | [] => false end.

(** [while (... isdigit ...) ++pos_]. *)
Fixpoint skip_digits (s : bytes) : bytes :=
  match s with
  | c :: s' => if isdigit c then skip_digits s' else s
  | [] => []
  end.

(** [text_.compare(pos_, n, word) == 0] for a word of [n] characters, and the
    text after it. *)
Fixpoint strip_prefix (word s : bytes) : option bytes :=
  match word, s with
  | [], _ => Some s
  | c :: word', d :: s' => if Ascii.eqb c d then strip_prefix word' s' else None
  | _, [] => None
  end.

(** [text_.substr(start, pos_ - start)]. *)
Definition token_between (start pos : bytes) : bytes :=
  take (length start - length pos) start.

(** ** Numbers that [std::stod] can represent *)

(** The digits of a number and its power of ten: the number is [m * 10 ^ e]. *)
Definition decimal (token : bytes) : Z * Z :=
  let s := if next_is "-" token then tail token else token in
  let whole := span_digits s in
  let s := skip_digits s in
  let frac := if next_is "." s then span_digits (tail s) else [] in
  let s := if next_is "." s then skip_digits (tail s) else s in
  let s := tail s in
  let e := if next_is "-" s then - dec_value (span_digits (tail s))
           else if next_is "+" s then dec_value (span_digits (tail s))
           else dec_value (span_digits s) in
  (dec_value (whole ++ frac), e - zlen frac).

(** [std::stod] throws [std::out_of_range] when [strtod] reports a range error:
    the number rounds to infinity, or its rounding is inexact and denormal (the
    GNU library on x86-64; ISO C leaves the second case to the implementation). *)
Definition stod_overflows (m e : Z) : bool :=
  if 0 <=? e then 2 ^ 1024 - 2 ^ 970 <=? m * 10 ^ e
  else (2 ^ 1024 - 2 ^ 970) * 10 ^ (- e) <=? m.

Definition stod_underflows (m e : Z) : bool :=
  if 0 <=? e then false
  else negb (m =? 0) && (m * 2 ^ 1076 <? (2 ^ 54 - 1) * 10 ^ (- e)) &&
       negb ((m * 2 ^ 1074) mod 10 ^ (- e) =? 0).

Definition stod_in_range (token : bytes) : bool :=
  let '(m, e) := decimal token in negb (stod_overflows m e || stod_underflows m e).

(** ** [Parser] *)

(** What a function of the parser gives: the value and the text from the new
    position on, or an exception; [None] when the bound on the recursion is too
    small, which is shown not to happen. *)
Abbreviation parsed A := (option (result (A * bytes))).

Definition malformed : bytes := str "error: malformed JSON".

(** [fail()]. *)
Definition fail {A} : parsed A := Some (Throw malformed).

Definition yield {A} (a : A) (s : bytes) : parsed A := Some (Ok (a, s)).

Definition and_then {A B} (m : parsed A) (k : A -> bytes -> parsed B) : parsed B :=
  match m with
  | Some (Ok (a, s)) => k a s
  | Some (Throw e) => Some (Throw e)
  | None => None
  end.

Notation "'let*' ( x , s ) := m 'in' k" := (and_then m (fun x s => k))
  (at level 10, x name, s name, k at level 200).

(** [skip_ws] is [skip_space]; [consume(c)] returns the text from the new
    position on when [c] comes next. *)
Definition consume (c : ascii) (s : bytes) : option bytes :=
  match skip_space s with
  | d :: s' => if Ascii.eqb d c then Some s' else None
  | [] => None
  end.

(** The escapes that stand for one character. *)
Definition escape (esc : ascii) : option ascii :=
  if Ascii.eqb esc quote || Ascii.eqb esc backslash || Ascii.eqb esc "/" then Some esc
  else if Ascii.eqb esc "b" then Some (chr 8)
  else if Ascii.eqb esc "f" then Some (chr 12)
  else if Ascii.eqb esc "n" then Some (chr 10)
  else if Ascii.eqb esc "r" then Some (chr 13)
  else if Ascii.eqb esc "t" then Some (chr 9)
  else None.

(** The loop of [parse_string], after the opening quote; [out] is [result.str]. *)
Fixpoint string_loop (out s : bytes) : parsed bytes :=
  match s with
  | [] => fail
  | c :: s =>
      if Ascii.eqb c quote then yield out s
      else if Ascii.eqb c backslash then
        match s with
        | [] => fail
        | esc :: s =>
            match escape esc with
            | Some x => string_loop (out ++ [x]) s
            | None =>
                if Ascii.eqb esc "u" then
                  match s with
                  | _ :: _ :: _ :: _ :: s => string_loop (out ++ ["?"%char]) s
                  | _ => fail
                  end
                else fail
            end
        end
      else if code c <? 32 then fail
      else string_loop (out ++ [c]) s
  end.

Definition parse_string (s : bytes) : parsed bytes :=
  match skip_space s with
  | c :: s => if Ascii.eqb c quote then string_loop [] s else fail
  | [] => fail
  end.

(** The fraction and the exponent of a number; the flag is [is_int]. *)
Definition read_frac (is_int : bool) (pos : bytes) : parsed bool :=
  if next_is "." pos then
    let pos := tail pos in
    if negb (next_is_digit pos) then fail else yield false (skip_digits pos)
  else yield is_int pos.

Definition read_exp (is_int : bool) (pos : bytes) : parsed bool :=
  if next_is "e" pos || next_is "E" pos then
    let pos := tail pos in
    let pos := if next_is "+" pos || next_is "-" pos then tail pos else pos in
    if negb (next_is_digit pos) then fail else yield false (skip_digits pos)
  else yield is_int pos.

Definition parse_number (s : bytes) : parsed Json.t :=
  let start := skip_space s in
  let pos := if next_is "-" start then tail start else start in
  if negb (next_is_digit pos) then fail
  else
    let pos := if next_is "0" pos then tail pos else skip_digits pos in
    let* (is_int, pos) := read_frac true pos in
    let* (is_int, pos) := read_exp is_int pos in
    let token := token_between start pos in
    if (is_int : bool) then
      match stoll token with
      | Ok n => yield (Json.Integer n) pos
      | Throw _ => fail
      end
    else if stod_in_range token then yield (Json.Real token) pos
    else fail.

Definition parse_bool (s : bytes) : parsed Json.t :=
  match strip_prefix (str "true") s with
  | Some s => yield (Json.Bool true) s
  | None =>
      match strip_prefix (str "false") s with
      | Some s => yield (Json.Bool false) s
      | None => fail
      end
  end.

Definition parse_null (s : bytes) : parsed Json.t :=
  match strip_prefix (str "null") s with
  | Some s => yield Json.Null s
  | None => fail
  end.

(** [parse_value], and the loops of [parse_object] and [parse_array] with the
    members read so far.  Of two nested calls the outer one has read a character,
    so that calls nested more than twice as deep as there are characters are
    enough. *)
Fixpoint parse_value (fuel : nat) (s : bytes) : parsed Json.t :=
  match fuel with
  | O => None
  | S fuel' =>
      match skip_space s with
      | [] => fail
      | c :: s' =>
          if Ascii.eqb c "{" then
            match consume "}" s' with
            | Some rest => yield (Json.Object []) rest
            | None => object_loop fuel' [] s'
            end
          else if Ascii.eqb c "[" then
            match consume "]" s' with
            | Some rest => yield (Json.Array []) rest
            | None => array_loop fuel' [] s'
            end
          else if Ascii.eqb c quote then
            let* (x, rest) := parse_string (c :: s') in yield (Json.String x) rest
          else if Ascii.eqb c "t" || Ascii.eqb c "f" then parse_bool (c :: s')
          else if Ascii.eqb c "n" then parse_null (c :: s')
          else if Ascii.eqb c "-" || isdigit c then parse_number (c :: s')
          else fail
      end
  end

with object_loop (fuel : nat) (object : list (bytes * Json.t)) (s : bytes) : parsed Json.t :=
  match fuel with
  | O => None
  | S fuel' =>
      let* (key, s) := parse_string s in
      match consume ":" s with
      | None => fail
      | Some s =>
          let* (value, s) := parse_value fuel' s in
          let object := Json.emplace key value object in
          match consume "}" s with
          | Some s => yield (Json.Object object) s
          | None =>
              match consume "," s with
              | Some s => object_loop fuel' object s
              | None => fail
              end
          end
      end
  end

with array_loop (fuel : nat) (array : list Json.t) (s : bytes) : parsed Json.t :=
  match fuel with
  | O => None
  | S fuel' =>
      let* (value, s) := parse_value fuel' s in
      let array := array ++ [value] in
      match consume "]" s with
      | Some s => yield (Json.Array array) s
      | None =>
          match consume "," s with
          | Some s => array_loop fuel' array s
          | None => fail
          end
      end
  end.

(** [Parser(text).parse()]. *)
Definition parse (text : bytes) : option (result Json.t) :=
  match parse_value (S (2 * length text)) text with
  | Some (Ok (value, s)) =>
      Some (match skip_space s with [] => Ok value | _ => Throw malformed end)
  | Some (Throw e) => Some (Throw e)
  | None => None
  end.
