(* ===== verification/Grammar.v ===== *)
(** The grammar of JSON texts, and the proof that the parser of the configuration
    accepts exactly its documents. *)

From S2P Require Import Prelude Text Json.
From Stdlib Require Import Ascii.

Local Open Scope Z_scope.

(** ** The grammar *)

Definition spaces (w : bytes) : Prop := Forall (fun c => isspace c = true) w.

Definition all_digits (ds : bytes) : Prop := ds <> [] /\ Forall (fun c => isdigit c = true) ds.

Definition whole_part (t : bytes) : Prop :=
  t = ["0"%char] \/ all_digits t /\ next_is "0" t = false.

Definition frac_part (t : bytes) : Prop :=
  t = [] \/ exists ds, t = "."%char :: ds /\ all_digits ds.

Definition exp_part (t : bytes) : Prop :=
  t = [] \/ exists e sg ds, t = e :: sg ++ ds /\ (e = "e"%char \/ e = "E"%char) /\
    (sg = [] \/ sg = ["+"%char] \/ sg = ["-"%char]) /\ all_digits ds.

(** A number in decimal notation; it is an integer when it has neither a
    fraction nor an exponent, and it must be representable. *)
Inductive number : Json.t -> bytes -> Prop :=
  | number_integer sg whole n :
      (sg = [] \/ sg = ["-"%char]) -> whole_part whole -> stoll (sg ++ whole) = Ok n ->
      number (Json.Integer n) (sg ++ whole)
  | number_real sg whole frac exp :
      (sg = [] \/ sg = ["-"%char]) -> whole_part whole -> frac_part frac -> exp_part exp ->
      frac ++ exp <> [] -> stod_in_range (sg ++ whole ++ frac ++ exp) = true ->
      number (Json.Real (sg ++ whole ++ frac ++ exp)) (sg ++ whole ++ frac ++ exp).

(** The text between the quotes of a string, and what it denotes; a [\u] escape
    is not decoded but replaced by a question mark. *)
Inductive string_body : bytes -> bytes -> Prop :=
  | body_end : string_body [] []
  | body_char c s t :
      32 <= code c -> c <> quote -> c <> backslash -> string_body s t ->
      string_body (c :: s) (c :: t)
  | body_escape e c s t :
      escape e = Some c -> string_body s t -> string_body (c :: s) (backslash :: e :: t)
  | body_unicode a b c d s t :
      string_body s t ->
      string_body ("?"%char :: s) (backslash :: "u"%char :: a :: b :: c :: d :: t).

(** The members of an object in order; the first one with a key counts. *)
Definition object_of (ms : list (bytes * Json.t)) (object : list (bytes * Json.t)) :=
  fold_left (fun o m => Json.emplace m.1 m.2 o) ms object.

Inductive value : Json.t -> bytes -> Prop :=
  | value_null : value Json.Null (str "null")
  | value_true : value (Json.Bool true) (str "true")
  | value_false : value (Json.Bool false) (str "false")
  | value_number j t : number j t -> value j t
  | value_string s t : string_body s t -> value (Json.String s) (quote :: t ++ [quote])
  | value_empty_object w : spaces w -> value (Json.Object []) ("{"%char :: w ++ ["}"%char])
  | value_object ms t : members ms t -> value (Json.Object (object_of ms [])) ("{"%char :: t)
  | value_empty_array w : spaces w -> value (Json.Array []) ("["%char :: w ++ ["]"%char])
  | value_array js t : elements js t -> value (Json.Array js) ("["%char :: t)

with members : list (bytes * Json.t) -> bytes -> Prop :=
  | members_last w1 key body w2 w3 j t w4 :
      spaces w1 -> string_body key body -> spaces w2 -> spaces w3 -> value j t -> spaces w4 ->
      members [(key, j)]
        (w1 ++ quote :: body ++ quote :: w2 ++ ":"%char :: w3 ++ t ++ w4 ++ ["}"%char])
  | members_more w1 key body w2 w3 j t w4 ms rest :
      spaces w1 -> string_body key body -> spaces w2 -> spaces w3 -> value j t -> spaces w4 ->
      members ms rest ->
      members ((key, j) :: ms)
        (w1 ++ quote :: body ++ quote :: w2 ++ ":"%char :: w3 ++ t ++ w4 ++ ","%char :: rest)

with elements : list Json.t -> bytes -> Prop :=
  | elements_last w1 j t w2 :
      spaces w1 -> value j t -> spaces w2 -> elements [j] (w1 ++ t ++ w2 ++ ["]"%char])
  | elements_more w1 j t w2 js rest :
      spaces w1 -> value j t -> spaces w2 -> elements js rest ->
      elements (j :: js) (w1 ++ t ++ w2 ++ ","%char :: rest).

(** A whole text. *)
Definition document (j : Json.t) (text : bytes) : Prop :=
  exists w1 t w2, text = w1 ++ t ++ w2 /\ spaces w1 /\ value j t /\ spaces w2.

Scheme value_mut := Minimality for value Sort Prop
  with members_mut := Minimality for members Sort Prop
  with elements_mut := Minimality for elements Sort Prop.
Combined Scheme grammar_ind from value_mut, members_mut, elements_mut.

(** ** The parts of a text *)

Lemma skip_space_split s : exists w, spaces w /\ s = w ++ skip_space s.
Proof.
  induction s as [|c s (w & Hw & E)]; [by exists []; split; [constructor|]|].
  simpl. destruct (isspace c) eqn:Hc.
  - exists (c :: w). split; [by constructor|]. simpl. by rewrite <- E.
  - by exists []; split; [constructor|].
Qed.

Lemma skip_space_app w s : spaces w -> skip_space (w ++ s) = skip_space s.
Proof. induction 1 as [|c w Hc Hw IH]; [done|]. simpl. by rewrite Hc. Qed.

Lemma skip_digits_split s :
  exists ds, Forall (fun c => isdigit c = true) ds /\ s = ds ++ skip_digits s /\
    (next_is_digit s = true -> ds <> []).
Proof.
  induction s as [|c s (ds & Hd & E & _)]; [by exists []; split_and!; [constructor| |]|].
  simpl. destruct (isdigit c) eqn:Hc.
  - exists (c :: ds). split_and!; [by constructor| |done]. simpl. by rewrite <- E.
  - by exists []; split_and!; [constructor| |].
Qed.

Lemma skip_digits_app ds s :
  Forall (fun c => isdigit c = true) ds -> next_is_digit s = false -> skip_digits (ds ++ s) = s.
Proof.
  intros Hd Hs. induction Hd as [|c ds Hc Hd IH]; simpl.
  - destruct s as [|c s]; simpl in *; [done|]. by rewrite Hs.
  - by rewrite Hc.
Qed.

Lemma next_is_true c s : next_is c s = true -> s = c :: tail s.
Proof. destruct s as [|d s]; simpl; [done|]. intros H. apply Ascii.eqb_eq in H. by subst. Qed.

Lemma token_between_app t s : token_between (t ++ s) s = t.
Proof.
  unfold token_between. rewrite length_app.
  replace (length t + length s - length s)%nat with (length t) by lia.
  apply take_app_length.
Qed.

Lemma strip_prefix_spec word s rest : strip_prefix word s = Some rest <-> s = word ++ rest.
Proof.
  revert s. induction word as [|c word IH]; intros s; simpl; [split; intros; by simplify_eq|].
  destruct s as [|d s]; [done|]. destruct (Ascii.eqb_spec c d) as [->|].
  - rewrite IH. split; intros; by simplify_eq.
  - split; intros; by simplify_eq.
Qed.

Lemma consume_spec c s rest :
  consume c s = Some rest -> exists w, spaces w /\ s = w ++ c :: rest.
Proof.
  unfold consume. destruct (skip_space_split s) as (w & Hw & E).
  destruct (skip_space s) as [|d s']; [done|]. destruct (Ascii.eqb_spec d c); [|done].
  intros. simplify_eq. eauto.
Qed.

Lemma consume_app w c d s :
  spaces w -> isspace d = false ->
  consume c (w ++ d :: s) = if Ascii.eqb d c then Some s else None.
Proof. intros Hw Hd. unfold consume. rewrite skip_space_app by done. simpl. by rewrite Hd. Qed.

(** ** Strings *)

Lemma string_loop_sound n out s x rest :
  (length s < n)%nat -> string_loop out s = Some (Ok (x, rest)) ->
  exists b t, x = out ++ b /\ s = t ++ quote :: rest /\ string_body b t.
Proof.
  revert out s. induction n as [|n IH]; intros out s Hn H; [lia|].
  destruct s as [|c s]; [done|]. simpl in H, Hn.
  destruct (Ascii.eqb_spec c quote) as [->|Hq].
  { unfold yield in H. simplify_eq. exists [], []. rewrite app_nil_r. by split_and!; [..|constructor]. }
  destruct (Ascii.eqb_spec c backslash) as [->|Hb].
  - destruct s as [|e s]; [done|]. simpl in Hn. destruct (escape e) as [y|] eqn:He.
    + apply IH in H as (b & t & -> & -> & Hs); [|lia].
      exists (y :: b), (backslash :: e :: t).
      rewrite <- app_assoc. by split_and!; [..|by apply body_escape].
    + destruct (Ascii.eqb_spec e "u") as [->|]; [|done].
      destruct s as [|a1 [|a2 [|a3 [|a4 s]]]]; try done. simpl in Hn.
      apply IH in H as (b & t & -> & -> & Hs); [|lia].
      exists ("?"%char :: b), (backslash :: "u"%char :: a1 :: a2 :: a3 :: a4 :: t).
      rewrite <- app_assoc. by split_and!; [..|by apply body_unicode].
  - destruct (Z.ltb_spec (code c) 32) as [|Hc]; [done|].
    apply IH in H as (b & t & -> & -> & Hs); [|lia].
    exists (c :: b), (c :: t). rewrite <- app_assoc. by split_and!; [..|by apply body_char].
Qed.

Lemma string_loop_complete b t out rest :
  string_body b t -> string_loop out (t ++ quote :: rest) = yield (out ++ b) rest.
Proof.
  intros H. revert out.
  induction H as [|c s t Hc Hq Hb _ IH|e c s t He _ IH|a1 a2 a3 a4 s t _ IH]; intros out; simpl.
  - by rewrite app_nil_r.
  - destruct (Ascii.eqb_spec c quote); [done|]. destruct (Ascii.eqb_spec c backslash); [done|].
    destruct (Z.ltb_spec (code c) 32); [lia|]. by rewrite IH, <- app_assoc.
  - by rewrite He, IH, <- app_assoc.
  - by rewrite IH, <- app_assoc.
Qed.

Lemma parse_string_sound s x rest :
  parse_string s = Some (Ok (x, rest)) ->
  exists w t, s = w ++ quote :: t ++ quote :: rest /\ spaces w /\ string_body x t.
Proof.
  unfold parse_string. destruct (skip_space_split s) as (w & Hw & E).
  destruct (skip_space s) as [|c s']; [done|]. destruct (Ascii.eqb_spec c quote) as [->|]; [|done].
  intros H. apply (string_loop_sound (S (length s'))) in H as (b & t & -> & -> & Hb); [|lia].
  by exists w, t.
Qed.

Lemma parse_string_complete w b t rest :
  spaces w -> string_body b t ->
  parse_string (w ++ quote :: t ++ quote :: rest) = yield b rest.
Proof.
  intros Hw Hb. unfold parse_string. rewrite skip_space_app by done. simpl.
  by apply (string_loop_complete b t []).
Qed.

(** ** Numbers *)

(** What may follow a value. *)
Definition delimited (s : bytes) : Prop :=
  match s with
  | [] => True
  | c :: _ => isspace c = true \/ c = ","%char \/ c = "}"%char \/ c = "]"%char
  end.

Lemma delimited_spaces w c s :
  spaces w -> c = ","%char \/ c = "}"%char \/ c = "]"%char -> delimited (w ++ c :: s).
Proof. intros Hw Hc. destruct Hw; simpl; auto. Qed.

Lemma delimited_all_spaces w : spaces w -> delimited w.
Proof. intros Hw. destruct Hw; simpl; auto. Qed.

(** No delimiter continues a number. *)
Definition ends_number (s : bytes) : Prop :=
  next_is_digit s = false /\ next_is "." s = false /\ next_is "e" s || next_is "E" s = false.

Lemma delimited_ends_number s : delimited s -> ends_number s.
Proof.
  destruct s as [|c s]; [done|]. unfold ends_number. simpl. intros H.
  destruct c as [[] [] [] [] [] [] [] []]; vm_compute in H |- *;
    solve [by repeat split | by destruct H as [H|[H|[H|H]]]].
Qed.

(** The three parts of a number, read one after the other. *)
Lemma whole_part_sound s :
  next_is_digit s = true ->
  exists t, whole_part t /\ s = t ++ (if next_is "0" s then tail s else skip_digits s).
Proof.
  intros Hd. destruct (next_is "0" s) eqn:E0.
  - exists ["0"%char]. split; [by left|]. by apply next_is_true.
  - destruct (skip_digits_split s) as (ds & Hds & E & Hne). exists ds. split; [|done].
    right. split; [by split; [apply Hne|]|]. specialize (Hne Hd). rewrite E in E0.
    by destruct ds.
Qed.

Lemma all_digits_next t s : all_digits t -> next_is_digit (t ++ s) = true.
Proof. intros [Hne Hd]. by destruct Hd. Qed.

Lemma whole_part_complete t s :
  whole_part t -> next_is_digit s = false ->
  next_is_digit (t ++ s) = true /\
  (if next_is "0" (t ++ s) then tail (t ++ s) else skip_digits (t ++ s)) = s.
Proof.
  intros [->|[Hd H0]] Hs; [done|]. split; [by apply all_digits_next|].
  assert (E : next_is "0" (t ++ s) = false) by (destruct Hd; by destruct t).
  rewrite E. apply skip_digits_app; [apply Hd|done].
Qed.

Lemma digits_sound s :
  next_is_digit s = true -> exists ds, all_digits ds /\ s = ds ++ skip_digits s.
Proof.
  intros H. destruct (skip_digits_split s) as (ds & Hds & E & Hne).
  exists ds. split; [split|]; auto.
Qed.

Lemma frac_sound i s i' rest :
  read_frac i s = Some (Ok (i', rest)) ->
  exists t, frac_part t /\ s = t ++ rest /\ i' = i && bool_decide (t = []).
Proof.
  unfold read_frac. destruct (next_is "." s) eqn:E.
  - apply next_is_true in E. destruct (next_is_digit (tail s)) eqn:Hd; [|done].
    apply digits_sound in Hd as (ds & Hds & Es). simpl. unfold yield. intros. simplify_eq.
    exists ("."%char :: ds). split_and!; [right; eauto| |by rewrite andb_false_r].
    rewrite E at 1. simpl. by rewrite Es at 1.
  - unfold yield. intros. simplify_eq. exists []. split_and!; [by left|done|].
    by rewrite andb_true_r.
Qed.

Lemma exp_sound i s i' rest :
  read_exp i s = Some (Ok (i', rest)) ->
  exists t, exp_part t /\ s = t ++ rest /\ i' = i && bool_decide (t = []).
Proof.
  unfold read_exp. destruct (next_is "e" s || next_is "E" s) eqn:E.
  - assert (exists e, (e = "e"%char \/ e = "E"%char) /\ s = e :: tail s) as (e & He & Es).
    { apply orb_true_iff in E as [E|E]; apply next_is_true in E; eauto. }
    set (p := if next_is "+" (tail s) || next_is "-" (tail s) then tail (tail s) else tail s).
    assert (exists sg, (sg = [] \/ sg = ["+"%char] \/ sg = ["-"%char]) /\ tail s = sg ++ p)
      as (sg & Hsg & Ep).
    { subst p. destruct (next_is "+" (tail s)) eqn:E1; [|destruct (next_is "-" (tail s)) eqn:E2].
      - exists ["+"%char]. split; [auto|]. by apply next_is_true.
      - exists ["-"%char]. split; [auto|]. by apply next_is_true.
      - exists []. auto. }
    cbv zeta. fold p. destruct (next_is_digit p) eqn:Hd; [|done].
    apply digits_sound in Hd as (ds & Hds & Ed). simpl. unfold yield. intros. simplify_eq.
    exists (e :: sg ++ ds). split_and!; [right; eauto 10| |by rewrite andb_false_r].
    rewrite Es at 1. rewrite Ep, Ed at 1. simpl. by rewrite <- app_assoc.
  - unfold yield. intros. simplify_eq. exists []. split_and!; [by left|done|].
    by rewrite andb_true_r.
Qed.

Lemma frac_complete i t s :
  frac_part t -> next_is_digit s = false -> next_is "." s = false ->
  read_frac i (t ++ s) = yield (i && bool_decide (t = [])) s.
Proof.
  unfold read_frac. intros [->|(ds & -> & Hds)] Hd Hs.
  - simpl. by rewrite Hs, andb_true_r.
  - simpl. rewrite all_digits_next by done. simpl. rewrite andb_false_r.
    by rewrite skip_digits_app by (done || apply Hds).
Qed.

Lemma exp_complete i t s :
  exp_part t -> next_is_digit s = false -> next_is "e" s || next_is "E" s = false ->
  read_exp i (t ++ s) = yield (i && bool_decide (t = [])) s.
Proof.
  unfold read_exp. intros [->|(e & sg & ds & -> & He & Hsg & Hds)] Hd Hs.
  - simpl. by rewrite Hs, andb_true_r.
  - assert (E : next_is "e" ((e :: sg ++ ds) ++ s) || next_is "E" ((e :: sg ++ ds) ++ s) = true)
      by by destruct He as [->| ->].
    rewrite E. simpl. rewrite andb_false_r, <- app_assoc.
    assert (Hp : (if next_is "+" (sg ++ ds ++ s) || next_is "-" (sg ++ ds ++ s)
                  then tail (sg ++ ds ++ s) else sg ++ ds ++ s) = ds ++ s).
    { destruct Hsg as [->|[->| ->]]; [|done|done]. simpl.
      destruct Hds as [Hne Hds]. destruct Hds as [|c ds Hc _]; [done|]. simpl.
      destruct (Ascii.eqb_spec c "+") as [->|]; [done|].
      by destruct (Ascii.eqb_spec c "-") as [->|]. }
    rewrite Hp, all_digits_next by done. simpl.
    by rewrite skip_digits_app by (done || apply Hds).
Qed.

(** A part of a number that is absent, or begins with a character that ends the
    parts before it. *)
Lemma frac_exp_next frac exp s :
  frac_part frac -> exp_part exp -> ends_number s ->
  next_is_digit (exp ++ s) = false /\ next_is "." (exp ++ s) = false /\
  next_is_digit (frac ++ exp ++ s) = false.
Proof.
  intros Hf He (Hs1 & Hs2 & _).
  assert (next_is_digit (exp ++ s) = false /\ next_is "." (exp ++ s) = false) as [? ?].
  { destruct He as [->|(e & sg & ds & -> & [->| ->] & _)]; done. }
  split_and!; [done..|]. by destruct Hf as [->|(ds & -> & _)].
Qed.

Lemma parse_number_sound s j rest :
  parse_number s = Some (Ok (j, rest)) ->
  exists w t, s = w ++ t ++ rest /\ spaces w /\ number j t.
Proof.
  unfold parse_number. destruct (skip_space_split s) as (w & Hw & E).
  set (start := skip_space s) in *. cbv zeta.
  set (p := if next_is "-" start then tail start else start).
  assert (exists sg, (sg = [] \/ sg = ["-"%char]) /\ start = sg ++ p) as (sg & Hsg & Es).
  { subst p. destruct (next_is "-" start) eqn:E1; [|by exists []; auto].
    exists ["-"%char]. split; [auto|]. by apply next_is_true. }
  destruct (next_is_digit p) eqn:Hd; [|done]. simpl.
  apply whole_part_sound in Hd as (whole & Hwh & Ep).
  set (p2 := if next_is "0" p then tail p else skip_digits p) in *.
  destruct (read_frac true p2) as [[[i1 p3]|]|] eqn:Ef; try done. simpl.
  destruct (read_exp i1 p3) as [[[i2 p4]|]|] eqn:Ee; try done. simpl.
  apply frac_sound in Ef as (frac & Hf & E2 & ->). apply exp_sound in Ee as (exp & He & E3 & ->).
  assert (Et : start = (sg ++ whole ++ frac ++ exp) ++ p4)
    by (rewrite Es, Ep, E2, E3; by rewrite <- !app_assoc).
  assert (Er : s = w ++ (sg ++ whole ++ frac ++ exp) ++ p4) by congruence.
  intros H. rewrite Et, token_between_app in H. clear E2 E3 Et Ep Es.
  destruct (decide (frac ++ exp = [])) as [[-> ->]%app_nil|Hne].
  - rewrite !bool_decide_eq_true_2 in H by done. simpl in H. rewrite !app_nil_r in H, Er.
    destruct (stoll (sg ++ whole)) as [n|] eqn:En; [|done]. unfold yield in H. simplify_eq.
    exists w, (sg ++ whole). by split_and!; [|done|constructor].
  - assert (Ei : true && bool_decide (frac = []) && bool_decide (exp = []) = false).
    { apply andb_false_iff. destruct frac; [right|left; done].
      apply bool_decide_eq_false. done. }
    rewrite Ei in H. destruct (stod_in_range _) eqn:Er'; [|done]. unfold yield in H. simplify_eq.
    exists w, (sg ++ whole ++ frac ++ exp). by split_and!; [|done|constructor].
Qed.

Lemma number_complete_sign w sg whole s :
  spaces w -> (sg = [] \/ sg = ["-"%char]) -> whole_part whole -> next_is_digit s = false ->
  skip_space (w ++ sg ++ whole ++ s) = sg ++ whole ++ s /\
  (if next_is "-" (sg ++ whole ++ s) then tail (sg ++ whole ++ s) else sg ++ whole ++ s) =
    whole ++ s.
Proof.
  intros Hw Hsg Hwh Hs. rewrite skip_space_app by done.
  destruct (whole_part_complete whole s Hwh Hs) as [Hd _].
  destruct Hsg as [->| ->]; [|done]. simpl.
  destruct (whole ++ s) as [|c r]; [done|]. simpl in *.
  rewrite isdigit_not_space by done.
  by destruct (Ascii.eqb_spec c "-") as [->|].
Qed.

Lemma parse_number_complete j t w rest :
  number j t -> spaces w -> delimited rest -> parse_number (w ++ t ++ rest) = yield j rest.
Proof.
  intros Hn Hw Hr. pose proof (delimited_ends_number rest Hr) as He.
  assert (forall sg whole frac exp,
    (sg = [] \/ sg = ["-"%char]) -> whole_part whole -> frac_part frac -> exp_part exp ->
    t = sg ++ whole ++ frac ++ exp ->
    parse_number (w ++ t ++ rest) =
      if bool_decide (frac ++ exp = []) then
        match stoll t with Ok n => yield (Json.Integer n) rest | Throw _ => fail end
      else if stod_in_range t then yield (Json.Real t) rest else fail) as Hall.
  { intros sg whole frac exp Hsg Hwh Hf Hx ->. rewrite <- !app_assoc.
    destruct (frac_exp_next frac exp rest Hf Hx He) as (Hd & Hp & Hd').
    unfold parse_number.
    destruct (number_complete_sign w sg whole (frac ++ exp ++ rest)) as [-> ->]; [done..|].
    destruct (whole_part_complete whole (frac ++ exp ++ rest)) as [-> ->]; [done..|]. simpl.
    rewrite frac_complete by done. simpl.
    rewrite exp_complete by (done || apply He). simpl.
    replace (sg ++ whole ++ frac ++ exp ++ rest) with ((sg ++ whole ++ frac ++ exp) ++ rest)
      by by rewrite <- !app_assoc.
    rewrite token_between_app. by destruct frac, exp. }
  destruct Hn as [sg whole n Hsg Hwh Hn|sg whole frac exp Hsg Hwh Hf Hx Hne Hin].
  - rewrite (Hall sg whole [] []) by (done || (by left) || by rewrite !app_nil_r).
    by rewrite Hn.
  - rewrite (Hall sg whole frac exp) by done.
    by rewrite bool_decide_eq_false_2, Hin by done.
Qed.

(** ** The parser accepts the grammar *)

(** What an accepted text is made of, for the three functions at once. *)
Definition sound_at (fuel : nat) : Prop :=
  (forall s j rest, parse_value fuel s = Some (Ok (j, rest)) ->
     exists w t, s = w ++ t ++ rest /\ spaces w /\ value j t) /\
  (forall o s j rest, object_loop fuel o s = Some (Ok (j, rest)) ->
     exists ms t, s = t ++ rest /\ members ms t /\ j = Json.Object (object_of ms o)) /\
  (forall a s j rest, array_loop fuel a s = Some (Ok (j, rest)) ->
     exists js t, s = t ++ rest /\ elements js t /\ j = Json.Array (a ++ js)).

(** Concatenations that differ only in their brackets. *)
Ltac text_eq := repeat (rewrite <- app_assoc || rewrite <- app_comm_cons); cbn [app].

Lemma and_then_ok {A B} (m : parsed A) (k : A -> bytes -> parsed B) b rest :
  and_then m k = Some (Ok (b, rest)) ->
  exists a s, m = Some (Ok (a, s)) /\ k a s = Some (Ok (b, rest)).
Proof. destruct m as [[[a s]|e]|]; [|done..]. eauto. Qed.

Lemma parse_bool_sound s j rest :
  parse_bool s = Some (Ok (j, rest)) -> exists t, s = t ++ rest /\ value j t.
Proof.
  unfold parse_bool, yield. intros H.
  destruct (strip_prefix (str "true") s) eqn:E1.
  { simplify_eq. apply strip_prefix_spec in E1. eexists. split; [exact E1|constructor]. }
  destruct (strip_prefix (str "false") s) eqn:E2; [|done].
  simplify_eq. apply strip_prefix_spec in E2. eexists. split; [exact E2|constructor].
Qed.

Lemma parse_null_sound s j rest :
  parse_null s = Some (Ok (j, rest)) -> exists t, s = t ++ rest /\ value j t.
Proof.
  unfold parse_null, yield. intros H. destruct (strip_prefix (str "null") s) eqn:E; [|done].
  simplify_eq. apply strip_prefix_spec in E. eexists. split; [exact E|constructor].
Qed.

Lemma object_loop_sound fuel o s j rest :
  sound_at fuel -> object_loop (S fuel) o s = Some (Ok (j, rest)) ->
  exists ms t, s = t ++ rest /\ members ms t /\ j = Json.Object (object_of ms o).
Proof.
  intros (IHv & IHo & _) H. simpl in H.
  apply and_then_ok in H as (key & s1 & (w1 & body & -> & Hw1 & Hb)%parse_string_sound & H).
  destruct (consume ":" s1) as [s2|] eqn:Ec; [|done].
  apply consume_spec in Ec as (w2 & Hw2 & ->).
  apply and_then_ok in H as (v & s3 & (w3 & t & -> & Hw3 & Hv)%IHv & H).
  destruct (consume "}" s3) as [s4|] eqn:E1.
  - apply consume_spec in E1 as (w4 & Hw4 & ->). unfold yield in H. simplify_eq.
    eexists [(key, v)], _. split_and!; [|by apply (members_last w1 key body w2 w3 v t w4)|done].
    by text_eq.
  - destruct (consume "," s3) as [s4|] eqn:E2; [|done].
    apply consume_spec in E2 as (w4 & Hw4 & ->).
    apply IHo in H as (ms & r & -> & Hms & ->).
    eexists ((key, v) :: ms), _.
    split_and!; [|by apply (members_more w1 key body w2 w3 v t w4)|done].
    by text_eq.
Qed.

Lemma array_loop_sound fuel a s j rest :
  sound_at fuel -> array_loop (S fuel) a s = Some (Ok (j, rest)) ->
  exists js t, s = t ++ rest /\ elements js t /\ j = Json.Array (a ++ js).
Proof.
  intros (IHv & _ & IHa) H. simpl in H.
  apply and_then_ok in H as (v & s3 & (w3 & t & -> & Hw3 & Hv)%IHv & H).
  destruct (consume "]" s3) as [s4|] eqn:E1.
  - apply consume_spec in E1 as (w4 & Hw4 & ->). unfold yield in H. simplify_eq.
    eexists [v], _. split_and!; [|by apply (elements_last w3 v t w4)|done].
    by text_eq.
  - destruct (consume "," s3) as [s4|] eqn:E2; [|done].
    apply consume_spec in E2 as (w4 & Hw4 & ->).
    apply IHa in H as (js & r & -> & Hjs & ->).
    eexists (v :: js), _. split_and!; [|by apply (elements_more w3 v t w4)|by rewrite <- app_assoc].
    by text_eq.
Qed.

Lemma parse_value_sound fuel s j rest :
  sound_at fuel -> parse_value (S fuel) s = Some (Ok (j, rest)) ->
  exists w t, s = w ++ t ++ rest /\ spaces w /\ value j t.
Proof.
  intros (IHv & IHo & IHa) H. simpl in H.
  destruct (skip_space_split s) as (w & Hw & E). exists w.
  destruct (skip_space s) as [|c s']; [done|].
  cut (exists t, c :: s' = t ++ rest /\ value j t).
  { intros (t & Et & Ht). exists t. by rewrite <- Et. }
  clear E Hw w s.
  destruct (Ascii.eqb_spec c "{") as [->|_].
  { destruct (consume "}" s') as [r|] eqn:Ec.
    - apply consume_spec in Ec as (w & Hw & ->). unfold yield in H. simplify_eq.
      eexists. split; [|by apply (value_empty_object w)]. simpl. by rewrite <- app_assoc.
    - apply IHo in H as (ms & t & -> & Hms & ->).
      eexists. split; [|by apply (value_object ms t)]. done. }
  destruct (Ascii.eqb_spec c "[") as [->|_].
  { destruct (consume "]" s') as [r|] eqn:Ec.
    - apply consume_spec in Ec as (w & Hw & ->). unfold yield in H. simplify_eq.
      eexists. split; [|by apply (value_empty_array w)]. simpl. by rewrite <- app_assoc.
    - apply IHa in H as (js & t & -> & Hjs & ->).
      eexists. split; [|by apply (value_array js t)]. done. }
  destruct (Ascii.eqb_spec c quote) as [->|_].
  { apply and_then_ok in H as (x & r & Hs & H). unfold yield in H. simplify_eq.
    apply (string_loop_sound (S (length s'))) in Hs as (b & t & -> & -> & Hb); [|lia].
    eexists. split; [|by apply (value_string b t)]. simpl. by rewrite <- app_assoc. }
  destruct (Ascii.eqb c "t" || Ascii.eqb c "f"); [by apply parse_bool_sound|].
  destruct (Ascii.eqb c "n"); [by apply parse_null_sound|].
  destruct (Ascii.eqb c "-" || isdigit c) eqn:Ed; [|done].
  assert (isspace c = false) as Hc.
  { apply orb_true_iff in Ed as [E%Ascii.eqb_eq|E]; [by subst|by apply isdigit_not_space]. }
  apply parse_number_sound in H as (w & t & E & Hw & Ht). exists t.
  destruct Hw as [|d w Hd Hw]; [|by simplify_eq/=; congruence]. split; [done|by constructor].
Qed.

Lemma parser_sound fuel : sound_at fuel.
Proof.
  induction fuel as [|fuel IH]; [done|]. split_and!; intros *.
  - by apply parse_value_sound.
  - by apply object_loop_sound.
  - by apply array_loop_sound.
Qed.

(** A value begins with a character that is neither white space nor a closing
    bracket. *)
Lemma value_head j t :
  value j t -> exists c t', t = c :: t' /\ isspace c = false /\ Ascii.eqb c "]" = false.
Proof.
  assert (Hnum : forall j t, number j t -> exists c t', t = c :: t' /\
    (c = "-"%char \/ isdigit c = true)).
  { intros j' t' H. assert (exists sg whole r, (sg = [] \/ sg = ["-"%char]) /\ whole_part whole /\
      t' = sg ++ whole ++ r) as (sg & whole & r & Hsg & Hwh & ->).
    { destruct H as [sg whole ? ? ? ?|sg whole frac exp ? ? ? ? ? ?];
        [exists sg, whole, []; by rewrite app_nil_r|by exists sg, whole, (frac ++ exp)]. }
    destruct Hsg as [->| ->]; [|by eauto].
    destruct Hwh as [->|[[Hne Hd] _]]; [by eauto|]. destruct Hd; [done|]. simpl. eauto. }
  intros [ | | |j' t' H|s t' _|w _|ms t' _|w _|js t' _]; try by eauto.
  apply Hnum in H as (c & r & -> & Hc). exists c, r. split; [done|].
  destruct Hc as [->|Hc]; [done|]. split; [by apply isdigit_not_space|].
  by destruct (Ascii.eqb_spec c "]") as [->|].
Qed.

(** What a text of the grammar is parsed to, for the three relations at once. *)
Definition accepted_value (j : Json.t) (t : bytes) : Prop :=
  forall w rest fuel, spaces w -> delimited rest -> (2 * length (w ++ t ++ rest) < fuel)%nat ->
    parse_value fuel (w ++ t ++ rest) = yield j rest.

Definition accepted_members (ms : list (bytes * Json.t)) (t : bytes) : Prop :=
  (forall rest, consume "}" (t ++ rest) = None) /\
  forall o rest fuel, (2 * length (t ++ rest) + 1 < fuel)%nat ->
    object_loop fuel o (t ++ rest) = yield (Json.Object (object_of ms o)) rest.

Definition accepted_elements (js : list Json.t) (t : bytes) : Prop :=
  (forall rest, consume "]" (t ++ rest) = None) /\
  forall a rest fuel, (2 * length (t ++ rest) + 1 < fuel)%nat ->
    array_loop fuel a (t ++ rest) = yield (Json.Array (a ++ js)) rest.

(** The lengths of the parts of a text, for the bounds. *)
Ltac length_lia := repeat (rewrite length_app in * || simpl length in *); lia.

(** [parse_value] after the white space. *)
Lemma accepted_at_head j c t :
  isspace c = false ->
  (forall rest fuel, delimited rest -> (2 * length ((c :: t) ++ rest) <= fuel)%nat ->
     parse_value (S fuel) ((c :: t) ++ rest) = yield j rest) ->
  accepted_value j (c :: t).
Proof.
  intros Hc H w rest fuel Hw Hr Hf. destruct fuel as [|fuel]; [lia|].
  rewrite <- (H rest fuel Hr); [|length_lia].
  simpl. rewrite skip_space_app by done. simpl. by rewrite Hc.
Qed.

Lemma accepted_number j t : number j t -> accepted_value j t.
Proof.
  intros Hn. destruct (value_head j t (value_number j t Hn)) as (c & t' & -> & Hc & _).
  apply accepted_at_head; [done|]. intros rest fuel Hr _.
  assert (Hd : c = "-"%char \/ isdigit c = true).
  { pose proof (parse_number_complete j (c :: t') [] [] Hn) as H. simpl in H.
    specialize (H (List.Forall_nil _) I). rewrite app_nil_r in H.
    unfold parse_number in H. rewrite skip_space_not_space in H by done. simpl in H.
    destruct (Ascii.eqb_spec c "-"); [by left|]. simpl in H. by destruct (isdigit c); [right|]. }
  change ((c :: t') ++ rest) with ([] ++ (c :: t') ++ rest).
  rewrite <- (parse_number_complete j (c :: t') [] rest Hn) by (done || constructor).
  cbn [parse_value app]. rewrite skip_space_not_space by done.
  assert (E : Ascii.eqb c "-" || isdigit c = true) by (by destruct Hd as [->| ->]; rewrite ?orb_true_r).
  rewrite E. clear -Hd.
  destruct c as [[] [] [] [] [] [] [] []]; try done; destruct Hd as [Hd|Hd]; done.
Qed.

Lemma accepted_string s t : string_body s t -> accepted_value (Json.String s) (quote :: t ++ [quote]).
Proof.
  intros Hb. apply accepted_at_head; [done|]. intros rest fuel Hr _.
  pose proof (parse_string_complete [] s t rest (List.Forall_nil _) Hb) as E.
  cbn [app] in E. text_eq. simpl. by rewrite E.
Qed.

Lemma consume_closing w c rest :
  spaces w -> isspace c = false -> consume c (w ++ c :: rest) = Some rest.
Proof. intros. rewrite consume_app by done. by rewrite Ascii.eqb_refl. Qed.

Lemma consume_other w c d rest :
  spaces w -> isspace d = false -> Ascii.eqb d c = false -> consume c (w ++ d :: rest) = None.
Proof. intros Hw Hd E. rewrite consume_app by done. by rewrite E. Qed.


Lemma accepted_word j word c t :
  word = c :: t -> isspace c = false ->
  (forall rest fuel, parse_value (S fuel) (word ++ rest) = yield j rest) -> accepted_value j word.
Proof. intros -> Hc H. by apply accepted_at_head. Qed.

Lemma accepted_object ms t :
  accepted_members ms t -> accepted_value (Json.Object (object_of ms [])) ("{"%char :: t).
Proof.
  intros [Hc Hl]. apply accepted_at_head; [done|]. intros rest fuel Hr Hf.
  simpl in *. rewrite Hc. apply Hl. length_lia.
Qed.

Lemma accepted_array js t :
  accepted_elements js t -> accepted_value (Json.Array js) ("["%char :: t).
Proof.
  intros [Hc Hl]. apply accepted_at_head; [done|]. intros rest fuel Hr Hf.
  simpl in *. rewrite Hc. apply (Hl []). length_lia.
Qed.

Lemma object_loop_member o w1 key body w2 w3 j t s fuel :
  spaces w1 -> string_body key body -> spaces w2 -> spaces w3 -> accepted_value j t ->
  delimited s ->
  (2 * length (w1 ++ quote :: body ++ quote :: w2 ++ ":"%char :: w3 ++ t ++ s) <= fuel)%nat ->
  object_loop (S fuel) o (w1 ++ quote :: body ++ quote :: w2 ++ ":"%char :: w3 ++ t ++ s) =
    match consume "}" s with
    | Some s => yield (Json.Object (Json.emplace key j o)) s
    | None =>
        match consume "," s with
        | Some s => object_loop fuel (Json.emplace key j o) s
        | None => fail
        end
    end.
Proof.
  intros Hw1 Hb Hw2 Hw3 Ht Hs Hf. cbn [object_loop].
  rewrite (parse_string_complete w1 key body) by done. cbn [and_then yield].
  rewrite consume_closing by done. rewrite Ht; [done..|length_lia].
Qed.

Lemma array_loop_element a w1 j t s fuel :
  spaces w1 -> accepted_value j t -> delimited s -> (2 * length (w1 ++ t ++ s) < fuel)%nat ->
  array_loop (S fuel) a (w1 ++ t ++ s) =
    match consume "]" s with
    | Some s => yield (Json.Array (a ++ [j])) s
    | None =>
        match consume "," s with
        | Some s => array_loop fuel (a ++ [j]) s
        | None => fail
        end
    end.
Proof. intros Hw1 Ht Hs Hf. cbn [array_loop]. by rewrite Ht. Qed.

Lemma grammar_accepted :
  (forall j t, value j t -> accepted_value j t) /\
  (forall ms t, members ms t -> accepted_members ms t) /\
  (forall js t, elements js t -> accepted_elements js t).
Proof.
  apply grammar_ind.
  - by eapply accepted_word.
  - by eapply accepted_word.
  - by eapply accepted_word.
  - apply accepted_number.
  - apply accepted_string.
  - intros w Hw. apply accepted_at_head; [done|]. intros rest fuel _ _. text_eq. simpl.
    by rewrite consume_closing.
  - intros ms t _. apply accepted_object.
  - intros w Hw. apply accepted_at_head; [done|]. intros rest fuel _ _. text_eq. simpl.
    by rewrite consume_closing.
  - intros js t _. apply accepted_array.
  - intros w1 key body w2 w3 j t w4 Hw1 Hb Hw2 Hw3 _ Hj Hw4. split.
    { intros rest. text_eq. by rewrite consume_other. }
    intros o rest [|fuel] Hf; [lia|]. revert Hf. text_eq. intros Hf.
    rewrite (object_loop_member o w1 key body w2 w3 j) by (done || (by apply delimited_spaces; auto) || length_lia).
    by rewrite consume_closing.
  - intros w1 key body w2 w3 j t w4 ms r Hw1 Hb Hw2 Hw3 _ Hj Hw4 _ [_ IH]. split.
    { intros rest. text_eq. by rewrite consume_other. }
    intros o rest [|fuel] Hf; [lia|]. revert Hf. text_eq. intros Hf.
    rewrite (object_loop_member o w1 key body w2 w3 j) by (done || (by apply delimited_spaces; auto) || length_lia).
    rewrite consume_other, consume_closing by done. rewrite IH; [done|length_lia].
  - intros w1 j t w2 Hw1 Hv Hj Hw2. split.
    { intros rest. destruct (value_head j t Hv) as (c & t' & -> & Hc & Hb).
      text_eq. by rewrite consume_other. }
    intros a rest [|fuel] Hf; [lia|]. revert Hf. text_eq. intros Hf.
    rewrite (array_loop_element a w1 j) by (done || (by apply delimited_spaces; auto) || length_lia).
    by rewrite consume_closing.
  - intros w1 j t w2 js r Hw1 Hv Hj Hw2 _ [_ IH]. split.
    { intros rest. destruct (value_head j t Hv) as (c & t' & -> & Hc & Hb).
      text_eq. by rewrite consume_other. }
    intros a rest [|fuel] Hf; [lia|]. revert Hf. text_eq. intros Hf.
    rewrite (array_loop_element a w1 j) by (done || (by apply delimited_spaces; auto) || length_lia).
    rewrite consume_other, consume_closing by done. rewrite IH; [by text_eq|length_lia].
Qed.

(** ** The parser always answers *)

(** A value, or the exception of [fail()]; the bound was large enough. *)
Definition decided {A} (m : parsed A) : Prop :=
  match m with Some (Ok _) => True | Some (Throw e) => e = malformed | None => False end.

Lemma decided_and_then {A B} (m : parsed A) (k : A -> bytes -> parsed B) :
  decided m -> (forall a s, m = Some (Ok (a, s)) -> decided (k a s)) -> decided (and_then m k).
Proof. destruct m as [[[a s]|e]|]; simpl; auto. Qed.

Lemma string_loop_decided n out s : (length s < n)%nat -> decided (string_loop out s).
Proof.
  revert out s. induction n as [|n IH]; intros out s Hn; [lia|].
  destruct s as [|c s]; [done|]. simpl in *. destruct (Ascii.eqb c quote); [done|].
  destruct (Ascii.eqb c backslash).
  - destruct s as [|e s]; [done|]. simpl in *. destruct (escape e); [apply IH; lia|].
    destruct (Ascii.eqb e "u"); [|done].
    destruct s as [|a1 [|a2 [|a3 [|a4 s]]]]; try done. simpl in *. apply IH. lia.
  - destruct (code c <? 32); [done|]. apply IH. lia.
Qed.

Lemma parse_string_decided s : decided (parse_string s).
Proof.
  unfold parse_string. destruct (skip_space s) as [|c s']; [done|].
  destruct (Ascii.eqb c quote); [|done].
  apply (string_loop_decided (S (length s'))). lia.
Qed.

Lemma parse_number_decided s : decided (parse_number s).
Proof.
  unfold parse_number, read_frac, read_exp. cbv zeta. destruct (negb _); [done|].
  apply decided_and_then; [by repeat case_match|]. intros.
  apply decided_and_then; [by repeat case_match|]. intros. by repeat case_match.
Qed.

(** What was read is gone. *)
Lemma parse_string_shorter s x rest :
  parse_string s = Some (Ok (x, rest)) -> (length rest < length s)%nat.
Proof. intros (w & t & -> & _)%parse_string_sound. length_lia. Qed.

Lemma parse_value_shorter fuel s j rest :
  parse_value fuel s = Some (Ok (j, rest)) -> (length rest < length s)%nat.
Proof.
  intros (w & t & -> & _ & (c & t' & -> & _)%value_head)%(proj1 (parser_sound fuel)). length_lia.
Qed.

Lemma consume_shorter c s rest : consume c s = Some rest -> (length rest < length s)%nat.
Proof. intros (w & _ & ->)%consume_spec. length_lia. Qed.

Lemma skip_space_length s : (length (skip_space s) <= length s)%nat.
Proof. destruct (skip_space_split s) as (w & _ & E). rewrite E at 2. length_lia. Qed.

Lemma parser_decided fuel :
  (forall s, (2 * length s < fuel)%nat -> decided (parse_value fuel s)) /\
  (forall o s, (2 * length s + 1 < fuel)%nat -> decided (object_loop fuel o s)) /\
  (forall a s, (2 * length s + 1 < fuel)%nat -> decided (array_loop fuel a s)).
Proof.
  induction fuel as [|fuel (IHv & IHo & IHa)]; [split_and!; intros; lia|]. split_and!.
  - intros s Hf. simpl. pose proof (skip_space_length s) as Hl.
    destruct (skip_space s) as [|c s']; [done|]. simpl in Hl.
    repeat match goal with |- context [if ?b then _ else _] => destruct b end; try done.
    + destruct (consume "}" s'); [done|]. apply IHo. lia.
    + destruct (consume "]" s'); [done|]. apply IHa. lia.
    + apply decided_and_then; [apply parse_string_decided|done].
    + unfold parse_bool. by repeat case_match.
    + unfold parse_null. by case_match.
    + apply parse_number_decided.
  - intros o s Hf. simpl. apply decided_and_then; [apply parse_string_decided|].
    intros key s1 H1%parse_string_shorter. destruct (consume ":" s1) as [s2|] eqn:H2; [|done].
    apply consume_shorter in H2. apply decided_and_then; [apply IHv; lia|].
    intros j s3 H3%parse_value_shorter. destruct (consume "}" s3); [done|].
    destruct (consume "," s3) as [s4|] eqn:H4; [|done]. apply consume_shorter in H4.
    apply IHo. lia.
  - intros a s Hf. simpl. apply decided_and_then; [apply IHv; lia|].
    intros j s3 H3%parse_value_shorter. destruct (consume "]" s3); [done|].
    destruct (consume "," s3) as [s4|] eqn:H4; [|done]. apply consume_shorter in H4.
    apply IHa. lia.
Qed.

(** ** Theorem *)

Lemma parse_document text j : parse text = Some (Ok j) <-> document j text.
Proof.
  unfold parse. set (fuel := S (2 * length text)). split.
  - destruct (parse_value fuel text) as [[[v s]|e]|] eqn:E; [|done..].
    apply (proj1 (parser_sound _)) in E as (w & t & -> & Hw & Hv).
    destruct (skip_space_split s) as (w2 & Hw2 & Es).
    destruct (skip_space s); [|done]. intros. simplify_eq. rewrite app_nil_r.
    by exists w, t, w2.
  - intros (w1 & t & w2 & -> & Hw1 & Hv & Hw2).
    assert (E : parse_value fuel (w1 ++ t ++ w2) = yield j w2).
    { apply (proj1 grammar_accepted j t Hv); [done|by apply delimited_all_spaces|]. subst fuel. lia. }
    rewrite E. simpl. rewrite <- (app_nil_r w2), skip_space_app by done. done.
Qed.

Lemma parse_answers text :
  match parse text with Some (Ok _) => True | r => r = Some (Throw malformed) end.
Proof.
  unfold parse. pose proof (proj1 (parser_decided (S (2 * length text))) text) as H.
  destruct (parse_value _ text) as [[[v s]|e]|]; simpl in H; [|f_equal; f_equal; apply H; lia|].
  - by destruct (skip_space s).
  - destruct H. lia.
Qed.

(** C18: the parser implements the grammar. For every text the parser returns a
    value or throws "malformed JSON" (its recursion is bounded by the length of
    the text), and it returns the value [j] exactly when the text is a JSON
    document that denotes [j]: white space anywhere between tokens, the first of
    several members with the same key, integers in the range of [long long],
    other numbers in the range of [double]. *)
Theorem parse_accepts_documents text :
  (forall j, parse text = Some (Ok j) <-> document j text) /\
  (parse text = Some (Throw malformed) <-> ~ exists j, document j text).
Proof.
  split; [intros j; apply parse_document|].
  pose proof (parse_answers text) as H.
  split.
  - intros E (j & Hj). apply parse_document in Hj. congruence.
  - intros Hno. destruct (parse text) as [[j|e]|] eqn:E; [|done..].
    destruct Hno. exists j. by apply parse_document.
Qed.
