(* ===== verification/Queue.v ===== *)
(** The admission queues of [src/queue.h] and [src/queue.cpp].

    [Request] is the job record that travels through the server.  A
    [RequestQueue] is the monitor between the parser pool and the workers, an
    [FdQueue] the one between the acceptor and the parsers.  Every public method
    runs under the mutex of its object, so it is one function on the protected
    fields.  [wait_pop] and [wait_pop_best] wait on a condition variable: their
    result is [None] in a state where the wait predicate is false, and the call
    is then not enabled. *)

From S2P Require Import Prelude.

Local Open Scope Z_scope.

(** ** Data *)

Inductive Operation := GET | PUT | HEALTH.

#[export] Instance Operation_eq_dec : EqDecision Operation.
Proof. solve_decision. Defined.

(** [==] on operations. *)
Definition op_eqb (a b : Operation) : bool :=
  match a, b with
  | GET, GET | PUT, PUT | HEALTH, HEALTH => true
  | _, _ => false
  end.

Record Request := mkRequest {
  request_id : Z;
  client_fd : Z;
  op : Operation;
  filename : bytes;
  total_bytes : Z;
  offset : Z;
  rounds : Z;
  forfeited_bytes : Z;
  deficit : Z;
  a14_events : Z;
  arrival_ns : Z;
  start_ns : Z;
  finish_ns : Z;
  pending_bytes : bytes;
  pending_offset : Z;
  staging_filename : bytes;
  response_sent : bool
}.

#[export] Instance eta_Request : Eta Request := fun r =>
  mkRequest (request_id r) (client_fd r) (op r) (filename r) (total_bytes r)
    (offset r) (rounds r) (forfeited_bytes r) (deficit r) (a14_events r)
    (arrival_ns r) (start_ns r) (finish_ns r) (pending_bytes r)
    (pending_offset r) (staging_filename r) (response_sent r).

(** The default member initialisers. *)
Definition new_Request : Request :=
  mkRequest 0 (-1) GET [] 0 0 0 0 0 0 0 0 0 [] 0 [] false.

(** The bytes of the request that are still to be transferred: the expression
    that [get_budget], [account] and [should_requeue] all compute. *)
Definition remaining (r : Request) : Z :=
  if offset r <? total_bytes r then u64 (total_bytes r - offset r) else 0.

(** ** [RequestQueue] *)

Module RequestQueue.

Record t := mk {
  queue_ : list Request;
  closed_ : bool;
  inflight_ : Z
}.

#[export] Instance eta_t : Eta t := fun q => mk (queue_ q) (closed_ q) (inflight_ q).

Definition new : t := mk [] false 0.

Definition push (request : Request) (q : t) : bool * t :=
  if closed_ q then (false, q)
  else (true, q <| queue_ := queue_ q ++ [request] |>).

(** The predicate of [cv_.wait]. *)
Definition wait_ready (q : t) : bool :=
  match queue_ q with
  | [] => closed_ q && (inflight_ q =? 0)
  | _ => true
  end.

Definition wait_pop (q : t) : option (option Request * t) :=
  if wait_ready q then
    match queue_ q with
    | [] => Some (None, q)
    | r :: rest =>
        Some (Some r, q <| queue_ := rest |> <| inflight_ := u64 (inflight_ q + 1) |>)
    end
  else None.

Definition try_pop (q : t) : option Request * t :=
  match queue_ q with
  | [] => (None, q)
  | r :: rest =>
      (Some r, q <| queue_ := rest |> <| inflight_ := u64 (inflight_ q + 1) |>)
  end.

(** The [for] loop of [wait_pop_best]: [i] is the position of [it] and
    [best_it] the position and value of the best request so far. *)
Fixpoint best_loop (compare : Request -> Request -> bool)
    (best_it : nat * Request) (i : nat) (l : list Request) : nat * Request :=
  match l with
  | [] => best_it
  | r :: l' =>
      best_loop compare (if compare r best_it.2 then (i, r) else best_it) (S i) l'
  end.

Definition wait_pop_best (compare : Request -> Request -> bool) (q : t)
    : option (option Request * t) :=
  if wait_ready q then
    match queue_ q with
    | [] => Some (None, q)
    | r :: rest =>
        let best_it := best_loop compare (0%nat, r) 1%nat rest in
        Some (Some best_it.2,
              q <| queue_ := delete best_it.1 (queue_ q) |>
                <| inflight_ := u64 (inflight_ q + 1) |>)
    end
  else None.

Definition release (q : t) : t :=
  if 0 <? inflight_ q then q <| inflight_ := inflight_ q - 1 |> else q.

Definition requeue (request : Request) (q : t) : bool * t :=
  let q := release q in
  (true, q <| queue_ := queue_ q ++ [request] |>).

Definition complete (q : t) : t := release q.

Definition size (q : t) : Z := zlen (queue_ q).

Definition empty (q : t) : bool :=
  match queue_ q with [] => true | _ => false end.

Definition close (q : t) : t := q <| closed_ := true |>.

Definition is_closed (q : t) : bool := closed_ q.

(** A call of a method together with the value it returned. *)
Inductive call :=
  | Push (r : Request) (accepted : bool)
  | WaitPop (r : option Request)
  | WaitPopBest (compare : Request -> Request -> bool) (r : option Request)
  | TryPop (r : option Request)
  | Requeue (r : Request)
  | Complete
  | Close.

(** [perform c q] is the state after the call, when the call is enabled in [q]
    and returns the recorded value. *)
Inductive perform : call -> t -> t -> Prop :=
  | perform_push r b q q' : push r q = (b, q') -> perform (Push r b) q q'
  | perform_wait_pop o q q' : wait_pop q = Some (o, q') -> perform (WaitPop o) q q'
  | perform_wait_pop_best c o q q' :
      wait_pop_best c q = Some (o, q') -> perform (WaitPopBest c o) q q'
  | perform_try_pop o q q' : try_pop q = (o, q') -> perform (TryPop o) q q'
  | perform_requeue r q q' : requeue r q = (true, q') -> perform (Requeue r) q q'
  | perform_complete q : perform Complete q (complete q)
  | perform_close q : perform Close q (close q).

(** A sequence of calls, in the order in which the mutex was taken. *)
Inductive history : list call -> t -> t -> Prop :=
  | history_nil q : history [] q q
  | history_cons c h q1 q2 q3 :
      perform c q1 q2 -> history h q2 q3 -> history (c :: h) q1 q3.

(** The requests that a sequence of calls put in and took out, in order. *)
Definition put_in (c : call) : list Request :=
  match c with
  | Push r true => [r]
  | Requeue r => [r]
  | _ => []
  end.

Definition taken_out (c : call) : list Request :=
  match c with
  | WaitPop (Some r) | WaitPopBest _ (Some r) | TryPop (Some r) => [r]
  | _ => []
  end.

(** The calls that end the service round of a popped request. *)
Definition returned (c : call) : Z :=
  match c with Requeue _ | Complete => 1 | _ => 0 end.

Definition is_wait_pop_best (c : call) : bool :=
  match c with WaitPopBest _ _ => true | _ => false end.

(** [h] never returns more rounds than it has popped: the discipline that
    [worker_thread] keeps (see the file Threads). *)
Fixpoint balanced (busy : Z) (h : list call) : Prop :=
  match h with
  | [] => True
  | c :: h' =>
      let busy' := busy + zlen (taken_out c) - returned c in
      0 <= busy' < 2 ^ 64 /\ balanced busy' h'
  end.

Fixpoint busy_after (busy : Z) (h : list call) : Z :=
  match h with
  | [] => busy
  | c :: h' => busy_after (busy + zlen (taken_out c) - returned c) h'
  end.

End RequestQueue.

(** ** [FdQueue] *)

Module FdQueue.

Record t := mk {
  queue_ : list Z;
  closed_ : bool
}.

#[export] Instance eta_t : Eta t := fun q => mk (queue_ q) (closed_ q).

Definition new : t := mk [] false.

Definition push (fd : Z) (q : t) : bool * t :=
  if closed_ q then (false, q)
  else (true, q <| queue_ := queue_ q ++ [fd] |>).

Definition wait_ready (q : t) : bool :=
  match queue_ q with [] => closed_ q | _ => true end.

Definition wait_pop (q : t) : option (option Z * t) :=
  if wait_ready q then
    match queue_ q with
    | [] => Some (None, q)
    | fd :: rest => Some (Some fd, q <| queue_ := rest |>)
    end
  else None.

Definition close (q : t) : t := q <| closed_ := true |>.

End FdQueue.

(** ** Theorems on [RequestQueue] *)

(** The contract of the comparator of [wait_pop_best]: a strict weak order, as
    [std::min_element] and its kin ask for. *)
Class StrictWeakOrder {A} (lt : A -> A -> bool) : Prop := {
  swo_irrefl x : lt x x = false;
  swo_asym x y : lt x y = true -> lt y x = false;
  swo_cotrans x y z : lt x z = true -> lt x y = true \/ lt y z = true
}.

Lemma swo_trans_l {A} (lt : A -> A -> bool) `{!StrictWeakOrder lt} x y z :
  lt x y = true -> lt z y = false -> lt x z = true.
Proof. intros Hxy Hzy. destruct (swo_cotrans x z y Hxy); congruence. Qed.

Lemma swo_nlt_trans {A} (lt : A -> A -> bool) `{!StrictWeakOrder lt} x y z :
  lt y x = false -> lt z y = false -> lt z x = false.
Proof.
  intros Hyx Hzy. destruct (lt z x) eqn:E; [|done].
  destruct (swo_cotrans z y x E); congruence.
Qed.

Module RequestQueueFacts.
Import RequestQueue.

(** The result of [best_loop] is an element of the list it scans, with its
    position. *)
Lemma best_loop_lookup compare L l i j b :
  drop i L = l -> L !! j = Some b ->
  L !! (best_loop compare (j, b) i l).1 = Some (best_loop compare (j, b) i l).2.
Proof.
  revert i j b. induction l as [|r l IH]; intros i j b Hd Hb; simpl; [done|].
  destruct (drop_cons_inv L i r l Hd) as [Hr Hl].
  destruct (compare r b); by apply IH.
Qed.

(** It is the first minimum: nothing is better than it, and it is better than
    everything before it. *)
Lemma best_loop_minimum compare `{!StrictWeakOrder compare} L l i j b :
  drop i L = l -> L !! j = Some b ->
  (forall k x, (k < j)%nat -> L !! k = Some x -> compare b x = true) ->
  (forall k x, (k < i)%nat -> L !! k = Some x -> compare x b = false) ->
  let m := best_loop compare (j, b) i l in
  (forall k x, (k < m.1)%nat -> L !! k = Some x -> compare m.2 x = true) /\
  (forall k x, L !! k = Some x -> compare x m.2 = false).
Proof.
  revert i j b. induction l as [|r l IH]; intros i j b Hd Hb Hbefore Hmin; simpl.
  { split; [done|]. intros k x Hx. apply (Hmin k); [|done].
    apply lookup_lt_Some in Hx. apply (f_equal length) in Hd.
    rewrite length_drop in Hd. simpl in Hd. lia. }
  destruct (drop_cons_inv L i r l Hd) as [Hr Hl].
  destruct (compare r b) eqn:E; apply IH; try done; intros k x Hk Hx.
  - apply (swo_trans_l _ r b x E). by apply (Hmin k).
  - destruct (decide (k = i)) as [->|]; [simplify_eq; apply swo_irrefl|].
    apply (swo_nlt_trans _ r b x); [by apply swo_asym|]. apply (Hmin k); [lia|done].
  - destruct (decide (k = i)) as [->|]; [by simplify_eq|]. apply (Hmin k); [lia|done].
Qed.

Lemma wait_pop_best_inv compare q o q' :
  wait_pop_best compare q = Some (o, q') ->
  (o = None /\ q' = q /\ queue_ q = []) \/
  (exists i r, o = Some r /\ queue_ q !! i = Some r /\
     q' = mk (delete i (queue_ q)) (closed_ q) (u64 (inflight_ q + 1))).
Proof.
  unfold wait_pop_best. destruct (wait_ready q); [|done].
  destruct (queue_ q) as [|r0 rest] eqn:E; intros; simplify_eq; [by left|right].
  eexists _, _. split; [done|]. split; [|done].
  apply (best_loop_lookup compare (r0 :: rest) rest 1 0 r0); done.
Qed.

(** What one call does to the content of the queue. *)
Lemma perform_fifo c q q' :
  perform c q q' -> is_wait_pop_best c = false ->
  queue_ q ++ put_in c = taken_out c ++ queue_ q'.
Proof.
  destruct 1 as [r b q q' H|o q q' H|cmp o q q' H|o q q' H|r q q' H|q|q]; simpl; intros Hb;
    try done.
  - unfold push in H. destruct (closed_ q); simplify_eq/=; by rewrite ?app_nil_r.
  - unfold wait_pop in H. destruct (wait_ready q), (queue_ q) eqn:E; simplify_eq/=;
      by rewrite ?E, ?app_nil_r.
  - unfold try_pop in H. destruct (queue_ q) eqn:E; simplify_eq/=; by rewrite ?E, ?app_nil_r.
  - unfold requeue, release in H. destruct (0 <? inflight_ q); by simplify_eq/=.
  - unfold complete, release. destruct (0 <? inflight_ q); by rewrite app_nil_r.
  - by rewrite app_nil_r.
Qed.

Lemma perform_conserves c q q' :
  perform c q q' -> queue_ q ++ put_in c ≡ₚ taken_out c ++ queue_ q'.
Proof.
  intros H. destruct (is_wait_pop_best c) eqn:E.
  - destruct H as [| |cmp o q q' H| | | |]; try done. simpl. rewrite app_nil_r.
    destruct (wait_pop_best_inv _ _ _ _ H) as [(-> & -> & _)|(i & r & -> & Hi & ->)]; [done|].
    simpl. by apply delete_Permutation.
  - by rewrite (perform_fifo c q q' H E).
Qed.

(** What one call does to [inflight_] and [closed_]. *)
Lemma perform_inflight c q q' :
  perform c q q' -> 0 <= inflight_ q -> balanced (inflight_ q) [c] ->
  inflight_ q' = inflight_ q + zlen (taken_out c) - returned c.
Proof.
  intros H Hq [Hb _].
  destruct H as [r b q q' H|o q q' H|cmp o q q' H|o q q' H|r q q' H|q|q]; simpl in *.
  - unfold push in H. destruct (closed_ q), b; simplify_eq/=; list_lia.
  - unfold wait_pop in H. destruct (wait_ready q), (queue_ q); simplify_eq/=;
      autorewrite with len in *; rewrite ?u64_small; unfold is_u64; lia.
  - destruct (wait_pop_best_inv _ _ _ _ H) as [(-> & -> & _)|(i & r & -> & _ & ->)]; simpl in *;
      autorewrite with len in *; rewrite ?u64_small; unfold is_u64; lia.
  - unfold try_pop in H. destruct (queue_ q); simplify_eq/=;
      autorewrite with len in *; rewrite ?u64_small; unfold is_u64; lia.
  - unfold requeue, release in H. destruct (Z.ltb_spec 0 (inflight_ q)); simplify_eq/=; list_lia.
  - unfold complete, release. destruct (Z.ltb_spec 0 (inflight_ q)); simpl; list_lia.
  - list_lia.
Qed.

Lemma perform_closed c q q' : perform c q q' -> c = Close \/ closed_ q' = closed_ q.
Proof.
  destruct 1 as [r b q q' H|o q q' H|cmp o q q' H|o q q' H|r q q' H|q|q]; [right..|by left].
  - unfold push in H. repeat case_match; by simplify_eq.
  - unfold wait_pop in H. repeat case_match; by simplify_eq.
  - destruct (wait_pop_best_inv _ _ _ _ H) as [(-> & -> & _)|(i & r & -> & _ & ->)]; done.
  - unfold try_pop in H. repeat case_match; by simplify_eq.
  - unfold requeue, release in H. repeat case_match; by simplify_eq.
  - unfold complete, release. by case_match.
Qed.

Lemma balanced_cons b c h :
  balanced b (c :: h) -> balanced b [c] /\ balanced (b + zlen (taken_out c) - returned c) h.
Proof. intros [H1 H2]. repeat split; (exact H2 || lia). Qed.

(** No call changes a drained queue, apart from re-reading that it is drained. *)
Lemma perform_drained c q q' :
  perform c q q' -> queue_ q = [] -> closed_ q = true -> inflight_ q = 0 ->
  balanced 0 [c] -> q' = q /\ taken_out c = [] /\ put_in c = [] /\ returned c = 0.
Proof.
  destruct 1 as [r b q q' H|o q q' H|cmp o q q' H|o q q' H|r q q' H|q|q];
    intros Hq Hcl Hn [Hb _]; simpl in *.
  - unfold push in H. rewrite Hcl in H. by simplify_eq.
  - unfold wait_pop in H. rewrite Hq in H. destruct (wait_ready q); by simplify_eq.
  - destruct (wait_pop_best_inv _ _ _ _ H) as [(-> & -> & _)|(i & r & -> & Hi & _)]; [done|].
    by rewrite Hq in Hi.
  - unfold try_pop in H. rewrite Hq in H. by simplify_eq.
  - list_lia.
  - list_lia.
  - destruct q; by simplify_eq/=.
Qed.

(** Selection: when the comparator is a strict weak order,
    [wait_pop_best] on a queue that is not empty takes a request that no waiting
    request beats and that beats every request that was admitted before it (so
    ties go to the earliest), leaves the others in their order and counts one
    more request in flight. *)
Lemma wait_pop_best_takes_first_minimum compare `{!StrictWeakOrder compare} q r q' :
  wait_pop_best compare q = Some (Some r, q') ->
  exists before after,
    queue_ q = before ++ r :: after /\ queue_ q' = before ++ after /\
    Forall (fun x => compare r x = true) before /\
    Forall (fun x => compare x r = false) (before ++ after) /\
    closed_ q' = closed_ q /\ inflight_ q' = u64 (inflight_ q + 1).
Proof.
  unfold wait_pop_best. destruct (wait_ready q); [|done].
  destruct (queue_ q) as [|r0 rest] eqn:E; intros; simplify_eq.
  set (m := best_loop compare (0%nat, r0) 1 rest).
  assert (Hm : (r0 :: rest) !! m.1 = Some m.2) by (by apply best_loop_lookup).
  destruct (best_loop_minimum compare (r0 :: rest) rest 1 0 r0) as [Hb Hmin]; [done|done|lia| |].
  { intros k x Hk Hx. assert (k = 0%nat) as -> by lia. simplify_eq/=. apply swo_irrefl. }
  fold m in Hb, Hmin. destruct (list_elem_of_split_length _ _ _ Hm) as (l1 & l2 & Hl & Hlen).
  exists l1, l2. cbn. rewrite Hl. repeat split.
  - rewrite Hlen. by rewrite delete_middle.
  - apply Forall_lookup. intros k x Hx. apply (Hb k).
    + rewrite Hlen. by eapply lookup_lt_Some.
    + rewrite Hl. by apply lookup_app_l_Some.
  - apply Forall_forall. intros x Hx. apply elem_of_app in Hx.
    assert (x ∈ r0 :: rest) as [k Hk]%list_elem_of_lookup_1.
    { rewrite Hl. apply elem_of_app. destruct Hx; [by left|]. right. by right. }
    by apply (Hmin k).
Qed.

(** C30: FIFO.  Over any sequence of calls other than [wait_pop_best], what the
    queue held followed by what was put in is exactly what was taken out
    followed by what is left: requests leave in the order in which they were
    admitted or requeued, none lost, none duplicated. *)
Theorem history_is_fifo h q q' :
  history h q q' -> Forall (fun c => is_wait_pop_best c = false) h ->
  queue_ q ++ concat (map put_in h) = concat (map taken_out h) ++ queue_ q'.
Proof.
  induction 1 as [q|c h q1 q2 q3 Hc Hh IH]; intros Hf; simpl; [by rewrite app_nil_r|].
  inversion_clear Hf as [|? ? Hb Hf'].
  rewrite app_assoc, (perform_fifo c q1 q2 Hc Hb), <- !app_assoc. by rewrite IH.
Qed.

(** C31: conservation.  Whatever the policy, every request put in was taken out
    or is still waiting, with its multiplicity. *)
Theorem history_conserves_requests h q q' :
  history h q q' ->
  queue_ q ++ concat (map put_in h) ≡ₚ concat (map taken_out h) ++ queue_ q'.
Proof.
  induction 1 as [q|c h q1 q2 q3 Hc Hh IH]; simpl; [by rewrite app_nil_r|].
  rewrite app_assoc, (perform_conserves c q1 q2 Hc), <- !app_assoc. by rewrite IH.
Qed.

(** C26: shutdown.  A worker that is told that the queue is finished
    ([wait_pop] returns false) is right for ever: the queue was closed and
    empty with nothing in flight, and no later sequence of calls that returns
    only rounds it has popped can put a request in or take one out. *)
Theorem drained_queue_stays_drained q q1 h q2 :
  wait_pop q = Some (None, q1) -> history h q1 q2 -> balanced (inflight_ q1) h ->
  (queue_ q = [] /\ closed_ q = true /\ inflight_ q = 0) /\
  q2 = q /\ concat (map taken_out h) = [] /\ concat (map put_in h) = [].
Proof.
  unfold wait_pop, wait_ready. intros Hw.
  destruct (queue_ q) eqn:E; [|done].
  destruct (closed_ q) eqn:C, (Z.eqb_spec (inflight_ q) 0) as [N|]; simplify_eq/=.
  intros Hh Hb. split; [done|]. revert Hb. rewrite N.
  induction Hh as [q|c h q1 q2 q3 Hc Hh IH]; intros Hb; [done|].
  apply balanced_cons in Hb as [Hb1 Hb2].
  destruct (perform_drained c q1 q2 Hc E C N Hb1) as (-> & Ht & Hp & Hr).
  rewrite Ht, Hr in Hb2. destruct (IH C E N) as (-> & Ht' & Hp'); [exact Hb2|].
  simpl. by rewrite Ht, Hp, Ht', Hp'.
Qed.

(** [inflight_] counts the requests between a pop and the [requeue] or
    [complete] that ends the round, without wrap-around. *)
Theorem inflight_counts_rounds h q q' :
  history h q q' -> 0 <= inflight_ q -> balanced (inflight_ q) h ->
  inflight_ q' = busy_after (inflight_ q) h.
Proof.
  induction 1 as [|c h q1 q2 q3 Hc Hh IH]; intros H0 Hb; [done|].
  apply balanced_cons in Hb as [Hb1 Hb2].
  pose proof (perform_inflight c q1 q2 Hc H0 Hb1) as E. simpl. rewrite <- E in *.
  apply IH; [|done]. destruct Hb1 as [? _]. lia.
Qed.

(** ** A concrete history *)

(** Two requests are admitted, one of them takes two rounds. *)
Definition sample (id : Z) : Request := new_Request <| request_id := id |>.

Definition sample_history : list call :=
  [Push (sample 1) true; Push (sample 2) true; WaitPop (Some (sample 1)); Requeue (sample 1);
   WaitPop (Some (sample 2)); Complete].

Definition sample_end : t := mk [sample 1] false 0.

Lemma sample_runs : history sample_history new sample_end.
Proof. repeat (eapply history_cons; [by constructor|]). apply history_nil. Qed.

Lemma fifo_witness :
  queue_ new ++ concat (map put_in sample_history) =
  concat (map taken_out sample_history) ++ queue_ sample_end.
Proof. apply (history_is_fifo sample_history new sample_end sample_runs). by repeat constructor. Defined.

Lemma conserves_witness :
  queue_ new ++ concat (map put_in sample_history) ≡ₚ
  concat (map taken_out sample_history) ++ queue_ sample_end.
Proof. exact (history_conserves_requests sample_history new sample_end sample_runs). Defined.

Lemma drained_witness :
  let q := mk [] true 0 in
  history [Push (sample 3) false; TryPop None] q q /\
  concat (map taken_out [Push (sample 3) false; TryPop None]) = [].
Proof.
  cbv zeta. set (q := mk [] true 0).
  assert (history [Push (sample 3) false; TryPop None] q q) as H.
  { repeat (eapply history_cons; [by constructor|]). apply history_nil. }
  split; [done|]. apply (drained_queue_stays_drained q q _ q eq_refl H). by vm_compute.
Defined.

Lemma inflight_witness : inflight_ sample_end = busy_after 0 sample_history.
Proof.
  apply (inflight_counts_rounds sample_history new sample_end sample_runs); [done|by vm_compute].
Defined.

End RequestQueueFacts.
