(* ===== verification/Wakeup.v ===== *)
(** The condition variables of the two queues ([cv_] in [src/queue.h] and
    [src/queue.cpp]): no wakeup is lost.

    The other files take a wait for a call that is enabled as soon as its predicate
    holds.  Here a waiting thread sleeps until it is notified, a notification that
    the code makes after it has released the mutex is a step of its own, and it
    wakes one sleeper or all.  The theorem says that this makes no difference: a
    thread that sleeps although it need not is not left alone.

    [Monitor] is what the argument needs of a class whose methods share a mutex and
    a condition variable; [RequestQueue] and [FdQueue] are instances. *)

From S2P Require Import Prelude Text Queue.

Local Open Scope Z_scope.

(** ** Monitors *)

(** What a method does to the condition variable: nothing, a notification after the
    mutex has been released ([notify_all] or [notify_one]), or [notify_all] while it
    is held. *)
Inductive notice := Silent | After (all : bool) | Within.

(** [items] is how many waits can return an element; [finished] says that the
    others return without one. *)
Class Monitor (S : Type) := {
  ready : S -> bool;
  items : S -> Z;
  finished : S -> bool;
  take : S -> S -> Prop;              (* a wait, once its predicate holds *)
  method : S -> S -> notice -> Prop;  (* any other method *)
  bounded : S -> Prop;                (* no counter is about to wrap around *)
  items_nonneg s : 0 <= items s;
  ready_spec s : ready s = true <-> 0 < items s \/ finished s = true;
  take_enabled s : ready s = true -> exists s', take s s';
  take_spec s s' :
    bounded s -> take s s' ->
    items s' <= Z.max 0 (items s - 1) /\ (finished s' = true -> finished s = true);
  method_spec s s' n :
    bounded s -> method s s' n ->
    match n with
    | Silent => items s' <= items s /\ (finished s' = true -> finished s = true)
    | After false => items s' <= items s + 1 /\ (finished s' = true -> finished s = true)
    | _ => True
    end
}.

(** Where a thread is: outside of the class, asleep in [cv_.wait], woken (it will
    test the predicate again), about to notify. *)
Inductive waiter := Outside | Asleep | Woken | Notifying (all : bool).

#[export] Instance waiter_eq_dec : EqDecision waiter.
Proof. solve_decision. Defined.

Definition wake (w : waiter) : waiter := match w with Asleep => Woken | _ => w end.

Record monitored (S : Type) := mkMonitored {
  shared : S;
  waiters : list waiter
}.
Arguments mkMonitored {S} shared waiters.
Arguments shared {S} m.
Arguments waiters {S} m.

(** Thread [i] moves. *)
Inductive thread_step {S} `{Monitor S} (i : nat) : monitored S -> monitored S -> Prop :=
  (* a wait begins, or goes on after a wakeup: it returns, or it goes to sleep *)
  | wait_returns s s' ws w :
      ws !! i = Some w -> w = Outside \/ w = Woken -> ready s = true -> take s s' ->
      thread_step i (mkMonitored s ws) (mkMonitored s' (<[i := Outside]> ws))
  | wait_sleeps s ws w :
      ws !! i = Some w -> w = Outside \/ w = Woken -> ready s = false ->
      thread_step i (mkMonitored s ws) (mkMonitored s (<[i := Asleep]> ws))
  | spurious_wakeup s ws :
      ws !! i = Some Asleep ->
      thread_step i (mkMonitored s ws) (mkMonitored s (<[i := Woken]> ws))
  | method_silent s s' ws :
      ws !! i = Some Outside -> method s s' Silent ->
      thread_step i (mkMonitored s ws) (mkMonitored s' ws)
  | method_after s s' ws all :
      ws !! i = Some Outside -> method s s' (After all) ->
      thread_step i (mkMonitored s ws) (mkMonitored s' (<[i := Notifying all]> ws))
  | method_within s s' ws :
      ws !! i = Some Outside -> method s s' Within ->
      thread_step i (mkMonitored s ws) (mkMonitored s' (map wake ws))
  | notify_one_wakes s ws j :
      ws !! i = Some (Notifying false) -> ws !! j = Some Asleep ->
      thread_step i (mkMonitored s ws) (mkMonitored s (<[j := Woken]> (<[i := Outside]> ws)))
  | notify_one_finds_none s ws :
      ws !! i = Some (Notifying false) -> Asleep ∉ ws ->
      thread_step i (mkMonitored s ws) (mkMonitored s (<[i := Outside]> ws))
  | notify_all_wakes s ws :
      ws !! i = Some (Notifying true) ->
      thread_step i (mkMonitored s ws) (mkMonitored s (map wake (<[i := Outside]> ws))).

Definition monitor_step {S} `{Monitor S} (m m' : monitored S) : Prop :=
  bounded (shared m) /\ exists i, thread_step i m m'.

(** [threads] threads, all outside. *)
Definition fresh_monitor {S} (s : S) (threads : nat) : monitored S :=
  mkMonitored s (replicate threads Outside).

Definition is_woken (w : waiter) : bool := match w with Woken => true | _ => false end.
Definition notifies (all : bool) (w : waiter) : bool :=
  match w with Notifying all' => Bool.eqb all all' | _ => false end.

(** As long as a thread sleeps, all are about to be woken, or for every element
    there is a thread that has been woken or is about to be. *)
Definition covered {S} `{Monitor S} (m : monitored S) : Prop :=
  Asleep ∈ waiters m ->
  0 < count_if (notifies true) (waiters m) \/
  (items (shared m) <= count_if is_woken (waiters m) + count_if (notifies false) (waiters m) /\
   finished (shared m) = false).

(** A thread that sleeps although its predicate holds is not left alone: another
    one has been woken or is notifying, and can move. *)
Definition attended {S} `{Monitor S} (m : monitored S) : Prop :=
  Asleep ∈ waiters m -> ready (shared m) = true ->
  exists i w m', waiters m !! i = Some w /\ (w = Woken \/ exists all, w = Notifying all) /\
    thread_step i m m'.

(** ** The invariant *)

Section monitor.
Context {S} `{HS : Monitor S}.

Lemma not_asleep_after_wake (ws : list waiter) : Asleep ∉ map wake ws.
Proof. intros (w & E & _)%list_elem_of_fmap. by destruct w. Qed.

Lemma asleep_insert (i : nat) w (ws : list waiter) : w <> Asleep -> Asleep ∈ <[i := w]> ws -> Asleep ∈ ws.
Proof.
  intros Hw (j & Hj)%list_elem_of_lookup.
  apply list_lookup_insert_Some in Hj as [(_ & E & _)|[_ Hj]]; [congruence|].
  by eapply list_elem_of_lookup_2.
Qed.

Lemma still_open (b b' : bool) : (b' = true -> b = true) -> b = false -> b' = false.
Proof. destruct b, b'; auto using eq_sym. Qed.

Lemma covered_step i m m' : bounded (shared m) -> covered m -> thread_step i m m' -> covered m'.
Proof.
  intros Hb Hc Hstep.
  destruct Hstep as [s s' ws w Hi Hw Hr Ht|s ws w Hi Hw Hr|s ws Hi|s s' ws Hi Hm|s s' ws all Hi Hm
    |s s' ws Hi Hm|s ws j Hi Hj|s ws Hi Hn|s ws Hi]; unfold covered in *; simpl in *; intros Ha.
  - apply asleep_insert in Ha; [|done]. specialize (Hc Ha).
    destruct (take_spec _ _ Hb Ht) as [Hitems Hfin].
    rewrite !(count_if_insert _ _ _ _ _ Hi). pose proof (items_nonneg s).
    destruct Hc as [Hall|[Hle Hf]]; [left|right]; destruct Hw as [-> | ->]; simpl; try lia;
      (split; [|by eapply still_open]).
    + pose proof (count_if_range is_woken ws). pose proof (count_if_range (notifies false) ws). lia.
    + pose proof (count_if_elem is_woken Woken ws ltac:(by eapply list_elem_of_lookup_2) eq_refl).
      pose proof (count_if_range (notifies false) ws). lia.
  - right. rewrite !(count_if_insert _ _ _ _ _ Hi).
    assert (Hitems : ~ (0 < items s \/ finished s = true)) by (rewrite <- ready_spec; congruence).
    pose proof (count_if_range (notifies false) ws). pose proof (count_if_range is_woken ws).
    split; [|by apply not_true_is_false; auto]. destruct Hw as [-> | ->]; simpl; [lia|].
    pose proof (count_if_elem is_woken Woken ws ltac:(by eapply list_elem_of_lookup_2) eq_refl). lia.
  - specialize (Hc ltac:(by eapply list_elem_of_lookup_2)).
    rewrite !(count_if_insert _ _ _ _ _ Hi). simpl. destruct Hc as [?|[? ?]]; [left|right]; [lia|].
    split; [lia|done].
  - specialize (Hc Ha). destruct (method_spec _ _ _ Hb Hm) as [Hitems Hfin].
    destruct Hc as [?|[? Hf]]; [by left|right]. split; [lia|]. by eapply still_open.
  - apply asleep_insert in Ha; [|done]. specialize (Hc Ha). rewrite !(count_if_insert _ _ _ _ _ Hi).
    pose proof (count_if_range (notifies true) ws). destruct all; simpl; [left; lia|].
    destruct (method_spec _ _ _ Hb Hm) as [Hitems Hfin].
    destruct Hc as [?|[? Hf]]; [left; lia|right]. split; [lia|]. by eapply still_open.
  - by apply not_asleep_after_wake in Ha.
  - assert (Hne : i <> j) by congruence.
    assert (Hj' : <[i := Outside]> ws !! j = Some Asleep) by (by rewrite list_lookup_insert_ne).
    specialize (Hc ltac:(by eapply list_elem_of_lookup_2)).
    rewrite !(count_if_insert _ _ _ _ _ Hj'), !(count_if_insert _ _ _ _ _ Hi). simpl.
    destruct Hc as [?|[? ?]]; [left; lia|right]. split; [lia|done].
  - by apply asleep_insert in Ha.
  - by apply not_asleep_after_wake in Ha.
Qed.

Lemma covered_fresh s threads : covered (fresh_monitor s threads).
Proof. intros Ha. simpl in Ha. by apply elem_of_replicate in Ha as [? _]. Qed.

Lemma covered_reachable s threads m : rtc monitor_step (fresh_monitor s threads) m -> covered m.
Proof.
  intros H. assert (Hrtc : forall m1, rtc monitor_step m1 m -> covered m1 -> covered m).
  { induction 1 as [|m1 m2 m3 [Hb [i Hs]] _ IH]; [done|]. intros Hc. by eapply IH, covered_step. }
  by apply (Hrtc _ H), covered_fresh.
Qed.

(** A woken or notifying thread can move. *)
Lemma woken_moves i m w :
  waiters m !! i = Some w -> w = Woken \/ (exists all, w = Notifying all) ->
  exists m', thread_step i m m'.
Proof.
  destruct m as [s ws]. simpl. intros Hi [-> | [all ->]].
  - destruct (ready s) eqn:Hr.
    + destruct (take_enabled s Hr) as [s' Ht]. eexists. eapply wait_returns; eauto.
    + eexists. eapply wait_sleeps; eauto.
  - destruct all; [eexists; by apply notify_all_wakes|].
    destruct (decide (Asleep ∈ ws)) as [(j & Hj)%list_elem_of_lookup|H]; eexists.
    + by eapply notify_one_wakes.
    + by apply notify_one_finds_none.
Qed.

Lemma covered_attended m : covered m -> attended m.
Proof.
  intros Hc Ha Hr. assert (exists w, w ∈ waiters m /\ (w = Woken \/ exists all, w = Notifying all))
    as (w & (i & Hi)%list_elem_of_lookup & Hw).
  2: { destruct (woken_moves i m w Hi Hw) as [m' Hm']. by exists i, w, m'. }
  assert (Hcount : 0 < count_if is_woken (waiters m) \/ 0 < count_if (notifies false) (waiters m) \/
    0 < count_if (notifies true) (waiters m)).
  { apply ready_spec in Hr. destruct (Hc Ha) as [?|[? Hf]]; [auto|].
    destruct Hr as [?|?]; [|congruence].
    pose proof (count_if_range is_woken (waiters m)).
    destruct (decide (0 < count_if is_woken (waiters m))); [auto|]. right. left. lia. }
  destruct Hcount as [H|[H|H]]; apply count_if_pos in H as (w & Hw & E); exists w;
    (split; [done|]); destruct w as [| | |all]; try done; eauto.
Qed.

End monitor.

(** ** [RequestQueue] *)

Section request_queue.
Import RequestQueue.

(** Nothing is left to wait for: the predicate holds of an empty queue. *)
Definition rq_finished (q : t) : bool := empty q && closed_ q && (inflight_ q =? 0).

(** The two waits of the class. *)
Inductive rq_take (q : t) : t -> Prop :=
  | rq_wait_pop r q' : wait_pop q = Some (r, q') -> rq_take q q'
  | rq_wait_pop_best compare r q' : wait_pop_best compare q = Some (r, q') -> rq_take q q'.

(** The other methods, with the notifications they make. *)
Inductive rq_method (q : t) : t -> notice -> Prop :=
  | rq_push_refused r q' : push r q = (false, q') -> rq_method q q' Silent
  | rq_push r q' : push r q = (true, q') -> rq_method q q' (After false)
  | rq_try_pop r q' : try_pop q = (r, q') -> rq_method q q' Silent
  | rq_requeue r b q' : requeue r q = (b, q') -> rq_method q q' (After false)
  | rq_complete : rq_method q (complete q) Within
  | rq_observe : rq_method q q Silent
  | rq_close : rq_method q (close q) (After true).

(** Fewer rounds are in progress than the counter can count. *)
Definition rq_bounded (q : t) : Prop := 0 <= inflight_ q < 2 ^ 64 - 1.

(** Taking a request. *)
Lemma rq_taken q q' :
  rq_bounded q -> zlen (queue_ q') = zlen (queue_ q) - 1 ->
  inflight_ q' = u64 (inflight_ q + 1) ->
  zlen (queue_ q') <= Z.max 0 (zlen (queue_ q) - 1) /\ rq_finished q' = false.
Proof.
  unfold rq_bounded. intros Hb Hl Hi. split; [lia|]. unfold rq_finished.
  rewrite Hi, u64_small by (unfold is_u64; lia).
  destruct (Z.eqb_spec (inflight_ q + 1) 0); [lia|]. by rewrite andb_false_r.
Qed.

(** A queue with a request is not finished. *)
Lemma rq_unfinished q r l : queue_ q = l ++ [r] -> rq_finished q = false.
Proof. unfold rq_finished, empty. intros ->. by destruct l. Qed.

Lemma popped_shape (o : option Request) q q' :
  (wait_pop q = Some (o, q') \/ (exists compare, wait_pop_best compare q = Some (o, q')) \/
   try_pop q = (o, q')) ->
  (q' = q /\ queue_ q = []) \/
  (zlen (queue_ q') = zlen (queue_ q) - 1 /\ inflight_ q' = u64 (inflight_ q + 1)).
Proof.
  intros [H|[[compare H]|H]].
  - unfold wait_pop in H. destruct (wait_ready q); [|done].
    destruct (queue_ q) as [|x l] eqn:Eq; simplify_eq; [by left|right]. rewrite zlen_cons.
    split; [simpl; lia|done].
  - apply RequestQueueFacts.wait_pop_best_inv in H as [(_ & -> & ?)|(i & r & _ & Hi & ->)];
      [by left|right]. simpl. split; [|done]. apply lookup_lt_Some in Hi as Hlt.
    unfold zlen. rewrite length_delete by done. lia.
  - unfold try_pop in H. destruct (queue_ q) as [|x l] eqn:Eq; simplify_eq; [by left|right].
    rewrite zlen_cons. split; [simpl; lia|done].
Qed.

Lemma popped_spec (o : option Request) q q' :
  rq_bounded q ->
  (wait_pop q = Some (o, q') \/ (exists compare, wait_pop_best compare q = Some (o, q')) \/
   try_pop q = (o, q')) ->
  zlen (queue_ q') <= Z.max 0 (zlen (queue_ q) - 1) /\
  (rq_finished q' = true -> rq_finished q = true).
Proof.
  intros Hb [[-> Hq]|[Hl Hi]]%popped_shape; [split; [by rewrite Hq|done]|].
  destruct (rq_taken q q' Hb Hl Hi) as [H1 H2]. split; [done|congruence].
Qed.

Lemma rq_take_spec q q' :
  rq_bounded q -> rq_take q q' ->
  zlen (queue_ q') <= Z.max 0 (zlen (queue_ q) - 1) /\
  (rq_finished q' = true -> rq_finished q = true).
Proof. intros Hb [r q1 H|compare r q1 H]; eapply popped_spec; eauto. Qed.

Lemma rq_ready_spec q :
  wait_ready q = true <-> 0 < zlen (queue_ q) \/ rq_finished q = true.
Proof.
  unfold wait_ready, rq_finished, empty. destruct (queue_ q) as [|r l]; simpl.
  - split; [auto|]. intros [H|?]; [by vm_compute in H|done].
  - rewrite zlen_cons. pose proof (zlen_nonneg l). split; [left; lia|done].
Qed.

Lemma rq_take_enabled q : wait_ready q = true -> exists q', rq_take q q'.
Proof.
  intros Hr. assert (exists r q', wait_pop q = Some (r, q')) as (r & q' & H).
  { unfold wait_pop. rewrite Hr. destruct (queue_ q); eauto. }
  exists q'. by eapply rq_wait_pop.
Qed.

Lemma rq_method_spec q q' n :
  rq_bounded q -> rq_method q q' n ->
  match n with
  | Silent => zlen (queue_ q') <= zlen (queue_ q) /\ (rq_finished q' = true -> rq_finished q = true)
  | After false =>
      zlen (queue_ q') <= zlen (queue_ q) + 1 /\ (rq_finished q' = true -> rq_finished q = true)
  | _ => True
  end.
Proof.
  intros Hb [r q1 H|r q1 H|r q1 H|r b q1 H| | |]; try done.
  - unfold push in H. destruct (closed_ q); by simplify_eq.
  - unfold push in H. destruct (closed_ q); simplify_eq. simpl. rewrite zlen_app.
    split; [done|]. by erewrite rq_unfinished.
  - destruct (popped_spec r q q1 Hb) as [? ?]; [auto|]. split; [|done].
    pose proof (zlen_nonneg (queue_ q)). lia.
  - unfold requeue in H. simplify_eq. simpl. rewrite zlen_app.
    assert (queue_ (release q) = queue_ q) as -> by (unfold release; by destruct (0 <? inflight_ q)).
    split; [done|]. by erewrite rq_unfinished.
Qed.

#[export] Instance rq_monitor : Monitor t := {
  ready := wait_ready;
  items q := zlen (queue_ q);
  finished := rq_finished;
  take := rq_take;
  method := rq_method;
  bounded := rq_bounded;
  items_nonneg q := zlen_nonneg (queue_ q);
  ready_spec := rq_ready_spec;
  take_enabled := rq_take_enabled;
  take_spec := rq_take_spec;
  method_spec := rq_method_spec
}.

End request_queue.

(** ** [FdQueue] *)

Section fd_queue.
Import FdQueue.

Inductive fd_take (q : t) : t -> Prop :=
  | fd_wait_pop r q' : wait_pop q = Some (r, q') -> fd_take q q'.

Inductive fd_method (q : t) : t -> notice -> Prop :=
  | fd_push_refused fd q' : push fd q = (false, q') -> fd_method q q' Silent
  | fd_push fd q' : push fd q = (true, q') -> fd_method q q' (After false)
  | fd_close : fd_method q (close q) (After true).

Lemma fd_ready_spec q : wait_ready q = true <-> 0 < zlen (queue_ q) \/ closed_ q = true.
Proof.
  unfold wait_ready. destruct (queue_ q) as [|fd l].
  - split; [auto|]. intros [H|?]; [by vm_compute in H|done].
  - rewrite zlen_cons. pose proof (zlen_nonneg l). split; [left; lia|done].
Qed.

Lemma fd_take_enabled q : wait_ready q = true -> exists q', fd_take q q'.
Proof.
  intros Hr. assert (exists r q', wait_pop q = Some (r, q')) as (r & q' & H).
  { unfold wait_pop. rewrite Hr. destruct (queue_ q); eauto. }
  exists q'. by eapply fd_wait_pop.
Qed.

Lemma fd_take_spec q q' :
  True -> fd_take q q' ->
  zlen (queue_ q') <= Z.max 0 (zlen (queue_ q) - 1) /\ (closed_ q' = true -> closed_ q = true).
Proof.
  intros _ [r q1 H]. unfold wait_pop in H. destruct (wait_ready q); [|done].
  destruct (queue_ q) as [|fd l] eqn:Eq; simplify_eq; [by rewrite Eq|].
  rewrite zlen_cons. simpl. split; [lia|done].
Qed.

Lemma fd_method_spec q q' n :
  True -> fd_method q q' n ->
  match n with
  | Silent => zlen (queue_ q') <= zlen (queue_ q) /\ (closed_ q' = true -> closed_ q = true)
  | After false =>
      zlen (queue_ q') <= zlen (queue_ q) + 1 /\ (closed_ q' = true -> closed_ q = true)
  | _ => True
  end.
Proof.
  intros _ [fd q1 H|fd q1 H|]; [| |done]; unfold push in H; destruct (closed_ q) eqn:Ec; simplify_eq;
    [done|]. simpl. rewrite zlen_app. by rewrite Ec.
Qed.

#[export] Instance fd_monitor : Monitor t := {
  ready := wait_ready;
  items q := zlen (queue_ q);
  finished := closed_;
  take := fd_take;
  method := fd_method;
  bounded _ := True;
  items_nonneg q := zlen_nonneg (queue_ q);
  ready_spec := fd_ready_spec;
  take_enabled := fd_take_enabled;
  take_spec := fd_take_spec;
  method_spec := fd_method_spec
}.

End fd_queue.

(** ** The theorem *)

(** C15: no lost wakeup. However the calls of any number of threads interleave with
    the notifications, which for most methods come after the mutex has been
    released, and with spurious wakeups: while a thread sleeps in one of the two
    queues, either all sleepers are about to be woken, or for every element of the
    queue a thread has been woken or is about to be. A thread that sleeps although
    the predicate of its wait holds is therefore never left alone: some other
    thread has been woken or is notifying, and can move. (As long as fewer
    rounds are in progress than [inflight_] can count, see [rq_bounded].) *)
Theorem no_lost_wakeup threads :
  (forall m : monitored RequestQueue.t,
    rtc monitor_step (fresh_monitor RequestQueue.new threads) m -> covered m /\ attended m) /\
  (forall m : monitored FdQueue.t,
    rtc monitor_step (fresh_monitor FdQueue.new threads) m -> covered m /\ attended m).
Proof.
  split; intros m Hm%covered_reachable; (split; [done|by apply covered_attended]).
Qed.

(** A worker sleeps, and a parser has pushed a request and is about to notify. *)
Definition sleeping_worker : monitored RequestQueue.t :=
  mkMonitored (RequestQueue.mk [new_Request] false 0) [Asleep; Notifying false].

Lemma sleeping_worker_reachable :
  rtc monitor_step (fresh_monitor RequestQueue.new 2) sleeping_worker.
Proof.
  apply (rtc_l _ _ (mkMonitored RequestQueue.new [Asleep; Outside])).
  - split; [done|]. exists 0%nat.
    apply (wait_sleeps 0 RequestQueue.new [Outside; Outside] Outside); auto.
  - apply rtc_once. split; [done|]. exists 1%nat.
    apply (method_after 1 RequestQueue.new (RequestQueue.mk [new_Request] false 0) [Asleep; Outside] false);
      [done|]. by apply (rq_push _ new_Request).
Qed.

Lemma no_lost_wakeup_witness :
  (Asleep ∈ waiters sleeping_worker /\ ready (shared sleeping_worker) = true) /\
  exists i w m', waiters sleeping_worker !! i = Some w /\
    (w = Woken \/ exists all, w = Notifying all) /\ thread_step i sleeping_worker m'.
Proof.
  split; [split; [by left|done]|].
  apply (no_lost_wakeup 2); [apply sleeping_worker_reachable|by left|done].
Defined.
