(* ===== verification/Scheduling.v ===== *)
(** The scheduler of [src/scheduling.h] and [src/scheduling.cpp]: which request
    is served next and how many bytes it may transfer in this round. *)

From S2P Require Import Prelude Queue.

Local Open Scope Z_scope.

Inductive SchedulingPolicy := FCFS | SJF | RR | DRR.

#[export] Instance SchedulingPolicy_eq_dec : EqDecision SchedulingPolicy.
Proof. solve_decision. Defined.

(** [==] on policies. *)
Definition policy_eqb (a b : SchedulingPolicy) : bool :=
  match a, b with
  | FCFS, FCFS | SJF, SJF | RR, RR | DRR, DRR => true
  | _, _ => false
  end.

Record ScheduleDecision := mkDecision {
  request : Request;
  budget : Z;
  valid : bool
}.

Record Scheduler := mkScheduler {
  policy_ : SchedulingPolicy;
  quantum_ : Z
}.

(** The constructor, which throws [std::invalid_argument]. *)
Definition new_Scheduler (policy : SchedulingPolicy) (quantum : Z) : result Scheduler :=
  if (policy_eqb policy RR || policy_eqb policy DRR) && (quantum =? 0)
  then Throw (str "RR/DRR requires a non-zero quantum")
  else Ok (mkScheduler policy quantum).

(** The comparator that [next] passes to [wait_pop_best]. *)
Definition sjf_compare (a b : Request) : bool :=
  if negb (total_bytes a =? total_bytes b) then total_bytes a <? total_bytes b
  else arrival_ns a <? arrival_ns b.

Definition get_budget (s : Scheduler) (r : Request) : Z * Request :=
  let remaining := remaining r in
  if remaining =? 0 then (0, r)
  else
    match policy_ s with
    | FCFS => (remaining, r)
    | SJF => (remaining, r)
    | RR => (Z.min remaining (quantum_ s), r)
    | DRR =>
        let r := r <| deficit := u64 (deficit r + quantum_ s) |> in
        (Z.min remaining (deficit r), r)
    end.

(** How [next] takes a request from the queue. *)
Definition select (s : Scheduler) (q : RequestQueue.t)
    : option (option Request * RequestQueue.t) :=
  match policy_ s with
  | FCFS => RequestQueue.wait_pop q
  | SJF => RequestQueue.wait_pop_best sjf_compare q
  | RR => RequestQueue.wait_pop q
  | DRR => RequestQueue.wait_pop q
  end.

(** What [next] makes of the request it took. *)
Definition decide_on (s : Scheduler) (taken : option Request) : ScheduleDecision :=
  match taken with
  | None => mkDecision new_Request 0 false
  | Some r => let '(b, r') := get_budget s r in mkDecision r' b true
  end.

Definition next (s : Scheduler) (q : RequestQueue.t)
    : option (ScheduleDecision * RequestQueue.t) :=
  '(taken, q') ← select s q; Some (decide_on s taken, q').

Definition account (s : Scheduler) (bytes_processed : Z) (r : Request) : Request :=
  let r := r <| rounds := u64 (rounds r + 1) |> in
  let remaining := remaining r in
  let actual := Z.min bytes_processed remaining in
  let r := r <| offset := u64 (offset r + actual) |> in
  if policy_eqb (policy_ s) DRR then
    if deficit r <=? actual then r <| deficit := 0 |>
    else r <| deficit := u64 (deficit r - actual) |>
  else r.

Definition should_requeue (r : Request) : bool := 0 <? remaining r.

(** ** Well-formed jobs

    The counters are 64-bit values and the transfer has not run past its end. *)

Definition wf_request (r : Request) : Prop :=
  0 <= offset r <= total_bytes r /\ total_bytes r < 2 ^ 64 /\ is_u64 (deficit r).

Definition wf_scheduler (s : Scheduler) : Prop :=
  is_u64 (quantum_ s) /\ (policy_ s = RR \/ policy_ s = DRR -> 0 < quantum_ s).

(** The quantum fits in what is left of the deficit counter. *)
Definition deficit_fits (s : Scheduler) (r : Request) : Prop :=
  policy_ s = DRR -> deficit r + quantum_ s < 2 ^ 64.

(** One round as seen by the scheduler: the budget is granted, the transfer
    processes [n] bytes and the round is accounted for. *)
Definition round (s : Scheduler) (n : Z) (r : Request) : Request :=
  account s n (get_budget s r).2.

(** Rounds that use the whole budget, as those of a PUT do, until the job is
    not requeued: the number of rounds with the result.  As in the loop of
    [worker_thread], [should_requeue] is asked after the round. *)
Fixpoint full_rounds (fuel : nat) (s : Scheduler) (r : Request) : option (nat * Request) :=
  match fuel with
  | O => None
  | S fuel' =>
      let r' := round s (get_budget s r).1 r in
      if should_requeue r' then '(k, r'') ← full_rounds fuel' s r'; Some (S k, r'')
      else Some (1%nat, r')
  end.

(** ** Lemmas *)

Lemma remaining_wf r : wf_request r -> remaining r = total_bytes r - offset r.
Proof.
  unfold wf_request, remaining. intros ([? ?] & ? & ?).
  destruct (Z.ltb_spec (offset r) (total_bytes r)); [|lia]. apply u64_small. word.
Qed.

Lemma new_Scheduler_wf p q s :
  new_Scheduler p q = Ok s -> is_u64 q -> wf_scheduler s.
Proof.
  unfold new_Scheduler, wf_scheduler, is_u64. intros H Hq.
  destruct (Z.eqb_spec q 0) as [->|]; destruct p; simplify_eq/=; split; try done;
    intros [?|?]; (done || lia).
Qed.

#[export] Instance sjf_compare_order : StrictWeakOrder sjf_compare.
Proof.
  unfold sjf_compare.
  split; intros *; repeat match goal with |- context [?a =? ?b] => destruct (Z.eqb_spec a b) end;
    simpl; rewrite ?Z.ltb_lt, ?Z.ltb_ge; lia.
Qed.

(** The budget of a round on a well-formed job. *)
Definition granted (s : Scheduler) (r : Request) : Z :=
  match policy_ s with
  | FCFS | SJF => total_bytes r - offset r
  | RR => Z.min (total_bytes r - offset r) (quantum_ s)
  | DRR => Z.min (total_bytes r - offset r) (deficit r + quantum_ s)
  end.

(** A job served in several rounds, [ns] being the bytes processed in each. *)
Fixpoint rounds_of (s : Scheduler) (ns : list Z) (r : Request) : Request :=
  match ns with
  | [] => r
  | n :: ns' => rounds_of s ns' (round s n r)
  end.

(** Every round finds work left and stays within the budget it was given. *)
Fixpoint within_budget (s : Scheduler) (ns : list Z) (r : Request) : Prop :=
  match ns with
  | [] => True
  | n :: ns' =>
      should_requeue r = true /\ deficit_fits s r /\ 0 <= n <= granted s r /\
      within_budget s ns' (round s n r)
  end.

(** What the parsers push, one request after the other. *)
Definition push_all (arrivals : list Request) (q : RequestQueue.t) : RequestQueue.t :=
  foldl (fun q r => (RequestQueue.push r q).2) q arrivals.

(** One turn of a worker's loop without the transfer: pop by [next], process
    [service r] bytes of the request, then requeue it or complete it.  The
    requests [meanwhile] are admitted between the pop and the requeue. *)
Definition serve_one (s : Scheduler) (service : Request -> Z) (meanwhile : list Request)
    (q : RequestQueue.t) : option (Request * RequestQueue.t) :=
  '(d, q) ← next s q;
  if valid d then
    let r := account s (service (request d)) (request d) in
    let q := push_all meanwhile q in
    Some (request d,
      if should_requeue r then (RequestQueue.requeue r q).2 else RequestQueue.complete q)
  else None.

(** One turn per entry of [arrivals]: the requests admitted between the end of
    the turn before and the pop, and those admitted during the turn.  The
    result is the requests in the order they were served, and the queue. *)
Fixpoint serve_times (s : Scheduler) (service : Request -> Z)
    (arrivals : list (list Request * list Request)) (q : RequestQueue.t)
    : option (list Request * RequestQueue.t) :=
  match arrivals with
  | [] => Some ([], q)
  | (before, meanwhile) :: arrivals' =>
      '(r, q) ← serve_one s service meanwhile (push_all before q);
      '(rs, q) ← serve_times s service arrivals' q;
      Some (r :: rs, q)
  end.

(** A queue that was closed admits nothing. *)
Definition admitted (closed : bool) (arrivals : list Request) : list Request :=
  if closed then [] else arrivals.

(** What one round makes of a waiting job, [None] once it is finished. *)
Definition after_round (s : Scheduler) (service : Request -> Z) (r : Request) : list Request :=
  let granted := (get_budget s r).2 in
  let r' := account s (service granted) granted in
  if should_requeue r' then [r'] else [].

Lemma should_requeue_wf r : wf_request r -> should_requeue r = (offset r <? total_bytes r).
Proof.
  intros H. unfold should_requeue. rewrite remaining_wf by done.
  destruct H as [? _]. destruct (Z.ltb_spec 0 (total_bytes r - offset r)),
    (Z.ltb_spec (offset r) (total_bytes r)); (done || lia).
Qed.

(** [get_budget] on a well-formed unfinished job. *)
Lemma get_budget_granted s r :
  wf_scheduler s -> wf_request r -> deficit_fits s r -> offset r < total_bytes r ->
  get_budget s r =
    (granted s r,
     if policy_eqb (policy_ s) DRR then r <| deficit := deficit r + quantum_ s |> else r).
Proof.
  intros [Hq _] Hr Hfit Hlt. unfold get_budget, granted. rewrite remaining_wf by done.
  destruct Hr as (? & ? & ?).
  destruct (Z.eqb_spec (total_bytes r - offset r) 0); [lia|].
  unfold deficit_fits in Hfit. destruct (policy_ s); simpl; try done.
  specialize (Hfit eq_refl). rewrite u64_small by word. done.
Qed.

(** [account] on a well-formed job. *)
Lemma account_wf s n r :
  wf_request r -> 0 <= n ->
  account s n r =
    r <| rounds := u64 (rounds r + 1) |>
      <| offset := Z.min (offset r + n) (total_bytes r) |>
      <| deficit := if policy_eqb (policy_ s) DRR
                    then Z.max 0 (deficit r - Z.min n (total_bytes r - offset r))
                    else deficit r |>.
Proof.
  intros Hr Hn. unfold account.
  replace (remaining (r <| rounds := _ |>)) with (remaining r) by done.
  rewrite remaining_wf by done. destruct Hr as (? & ? & ?).
  destruct r as [id fd o f tot off rd fo de a14 ar st fi pb po sg rs]. cbn in *.
  rewrite (u64_small (off + _)) by word.
  replace (off + Z.min n (tot - off)) with (Z.min (off + n) tot) by lia.
  destruct (policy_eqb (policy_ s) DRR); cbn; [|done].
  destruct (Z.leb_spec de (Z.min n (tot - off))); cbn; [by rewrite Z.max_l by lia|].
  rewrite u64_small by word. by rewrite Z.max_r by lia.
Qed.

Lemma account_keeps_wf s n r : wf_request r -> 0 <= n -> wf_request (account s n r).
Proof.
  intros Hr Hn. rewrite account_wf by done. destruct Hr as (? & ? & ?).
  unfold wf_request. cbn. destruct (policy_eqb (policy_ s) DRR); word.
Qed.

Lemma granted_range s r :
  wf_scheduler s -> wf_request r -> offset r < total_bytes r ->
  0 < granted s r <= total_bytes r - offset r.
Proof.
  intros [Hq Hpos] (? & ? & ?) Hlt. unfold granted. destruct (policy_ s) eqn:E; try lia.
  - assert (0 < quantum_ s) by (apply Hpos; by left). lia.
  - assert (0 < quantum_ s) by (apply Hpos; by right). word.
Qed.

(** One round of a well-formed unfinished job within its budget. *)
Lemma round_within s n r :
  wf_scheduler s -> wf_request r -> deficit_fits s r -> offset r < total_bytes r ->
  0 <= n <= granted s r ->
  round s n r =
    r <| rounds := u64 (rounds r + 1) |> <| offset := offset r + n |>
      <| deficit := if policy_eqb (policy_ s) DRR
                    then deficit r + quantum_ s - n else deficit r |>.
Proof.
  intros Hs Hr Hfit Hlt Hn. unfold round. rewrite get_budget_granted by done. cbn [snd].
  pose proof (granted_range s r Hs Hr Hlt). unfold granted in *.
  destruct Hr as (? & ? & ?), Hs as [? ?]. unfold deficit_fits in Hfit.
  destruct (policy_ s) eqn:E; try specialize (Hfit eq_refl);
    (rewrite account_wf; [|unfold wf_request; cbn; word|lia]); rewrite E;
    destruct r as [id fd o f tot off rd fo de a14 ar st fi pb po sg rs]; field_simpl;
    rewrite Z.min_l by lia; try done.
  f_equal. lia.
Qed.

Lemma round_keeps_wf s n r :
  wf_scheduler s -> wf_request r -> deficit_fits s r -> offset r < total_bytes r ->
  0 <= n <= granted s r -> wf_request (round s n r).
Proof.
  intros Hs Hr Hfit Hlt Hn. rewrite round_within by done.
  pose proof (granted_range s r Hs Hr Hlt). unfold granted in *.
  destruct Hr as (? & ? & ?), Hs as [? ?]. unfold deficit_fits in Hfit.
  unfold wf_request; cbn. destruct (policy_ s) eqn:E; cbn; try word.
  specialize (Hfit eq_refl). word.
Qed.

(** ** Which request is served *)

Lemma decide_on_Some s r : decide_on s (Some r) = mkDecision (get_budget s r).2 (get_budget s r).1 true.
Proof. unfold decide_on. by destruct (get_budget s r). Qed.

Lemma next_valid s q d q' :
  next s q = Some (d, q') -> valid d = true ->
  exists r, select s q = Some (Some r, q') /\ d = decide_on s (Some r).
Proof.
  unfold next. destruct (select s q) as [[[r|] q'']|]; simpl; intros ? Hv;
    simplify_eq; eauto.
Qed.

(** C27: SJF.  A valid decision is about a waiting request with the fewest
    declared bytes; among those it arrived first, and among equal arrivals it
    is the one that has waited in the queue longest; it may transfer all that
    remains, and the other requests keep their order. *)
Theorem next_sjf_serves_shortest s q d q' :
  policy_ s = SJF -> next s q = Some (d, q') -> valid d = true ->
  exists before after,
    RequestQueue.queue_ q = before ++ request d :: after /\
    RequestQueue.queue_ q' = before ++ after /\
    budget d = remaining (request d) /\
    Forall (fun x => total_bytes (request d) < total_bytes x \/
      total_bytes (request d) = total_bytes x /\ arrival_ns (request d) < arrival_ns x) before /\
    Forall (fun x => total_bytes (request d) < total_bytes x \/
      total_bytes (request d) = total_bytes x /\ arrival_ns (request d) <= arrival_ns x) after.
Proof.
  intros Hp Hn Hv. destruct (next_valid s q d q' Hn Hv) as (r & Hsel & ->).
  unfold select in Hsel. rewrite Hp in Hsel.
  destruct (RequestQueueFacts.wait_pop_best_takes_first_minimum _ _ _ _ Hsel)
    as (before & after & Hq & Hq' & Hb & Hm & _).
  assert (Hg : get_budget s r = (remaining r, r)).
  { unfold get_budget. rewrite Hp. destruct (Z.eqb_spec (remaining r) 0) as [->|]; done. }
  rewrite decide_on_Some, Hg. exists before, after. cbn. split_and!; try done.
  - eapply Forall_impl; [exact Hb|]. simpl. unfold sjf_compare. intros x.
    destruct (Z.eqb_spec (total_bytes r) (total_bytes x)); simpl; rewrite Z.ltb_lt; lia.
  - apply Forall_app in Hm as [_ Hm]. eapply Forall_impl; [exact Hm|].
    simpl. unfold sjf_compare. intros x.
    destruct (Z.eqb_spec (total_bytes x) (total_bytes r)); simpl; rewrite Z.ltb_ge; lia.
Qed.

(** FCFS, RR and DRR take the request at the head of the queue, whatever
    its size. *)
Theorem next_serves_head s q d q' :
  policy_ s <> SJF -> next s q = Some (d, q') -> valid d = true ->
  exists r, RequestQueue.queue_ q = r :: RequestQueue.queue_ q' /\
    request d = (get_budget s r).2 /\ budget d = (get_budget s r).1 /\
    RequestQueue.inflight_ q' = u64 (RequestQueue.inflight_ q + 1).
Proof.
  intros Hp Hn Hv. destruct (next_valid s q d q' Hn Hv) as (r & Hsel & ->).
  exists r. rewrite decide_on_Some.
  assert (Hpop : RequestQueue.wait_pop q = Some (Some r, q')).
  { unfold select in Hsel. by destruct (policy_ s). }
  unfold RequestQueue.wait_pop in Hpop. destruct (RequestQueue.wait_ready q); [|done].
  destruct (RequestQueue.queue_ q); by simplify_eq/=.
Qed.

(** C36: the budget.  A well-formed unfinished request is always granted at
    least one byte and never more than it has left: everything under FCFS and
    SJF, at most one quantum under RR, at most the deficit plus one quantum
    under DRR; only DRR touches the request, and only its deficit. *)
Theorem get_budget_spec s r :
  wf_scheduler s -> wf_request r -> deficit_fits s r -> offset r < total_bytes r ->
  let '(b, r') := get_budget s r in
  b = granted s r /\ 0 < b <= total_bytes r - offset r /\
  (policy_ s = RR -> b <= quantum_ s) /\
  (policy_ s = DRR -> b <= deficit r' /\ deficit r' = deficit r + quantum_ s) /\
  r' <| deficit := deficit r |> = r.
Proof.
  intros Hs Hr Hfit Hlt. rewrite get_budget_granted by done.
  pose proof (granted_range s r Hs Hr Hlt). unfold granted in *.
  destruct r as [id fd o f tot off rd fo de a14 ar st fi pb po sg rs].
  destruct (policy_ s); field_simpl; split_and!; intros; (done || lia).
Qed.

(** C37: accounting.  [account] keeps a job well formed, advances it by the bytes
    processed but never past its declared size, and the job is requeued exactly
    while bytes remain. *)
Theorem account_spec s n r :
  wf_request r -> 0 <= n ->
  let r' := account s n r in
  wf_request r' /\ offset r' = Z.min (offset r + n) (total_bytes r) /\
  total_bytes r' = total_bytes r /\ rounds r' = u64 (rounds r + 1) /\
  should_requeue r' = (offset r + n <? total_bytes r).
Proof.
  intros Hr Hn r'. assert (Hw : wf_request r') by by apply account_keeps_wf.
  split; [done|]. rewrite should_requeue_wf by done. unfold r'. rewrite account_wf by done.
  destruct Hr as (? & ? & ?).
  destruct r as [id fd o f tot off rd fo de a14 ar st fi pb po sg rs]. field_simpl.
  split_and!; try done.
  destruct (Z.ltb_spec (off + n) tot), (Z.ltb_spec (Z.min (off + n) tot) tot); (done || lia).
Qed.

Lemma rounds_of_offset s ns r :
  wf_scheduler s -> wf_request r -> within_budget s ns r ->
  wf_request (rounds_of s ns r) /\ total_bytes (rounds_of s ns r) = total_bytes r /\
  (policy_ s = DRR ->
   offset (rounds_of s ns r) + deficit (rounds_of s ns r) =
     offset r + deficit r + zlen ns * quantum_ s).
Proof.
  intros Hs. revert r. induction ns as [|n ns IH]; intros r Hr Hw; simpl.
  { split_and!; try done. intros _. unfold zlen. simpl. lia. }
  destruct Hw as (Hq & Hfit & Hn & Hw).
  assert (Hlt : offset r < total_bytes r).
  { rewrite should_requeue_wf in Hq by done. by apply Z.ltb_lt. }
  destruct (IH (round s n r)) as (H1 & H2 & H3); [by apply round_keeps_wf|done|].
  rewrite round_within in * by done.
  destruct r as [id fd o f tot off rd fo de a14 ar st fi pb po sg rs]. split_and!; [done..|].
  intros Hp. rewrite (H3 Hp), Hp. field_simpl. list_lia.
Qed.

(** C25: DRR is fair.  After the same number of rounds under DRR, however long
    the lines that were sent, two jobs that started without deficit have been
    served the same number of bytes up to the difference of their deficits. *)
Theorem drr_equal_rounds_equal_service s ns1 ns2 r1 r2 :
  policy_ s = DRR -> wf_scheduler s -> length ns1 = length ns2 ->
  wf_request r1 -> wf_request r2 -> deficit r1 = 0 -> deficit r2 = 0 ->
  within_budget s ns1 r1 -> within_budget s ns2 r2 ->
  let r1' := rounds_of s ns1 r1 in
  let r2' := rounds_of s ns2 r2 in
  (offset r1' - offset r1) + deficit r1' = zlen ns1 * quantum_ s /\
  (offset r1' - offset r1) - (offset r2' - offset r2) = deficit r2' - deficit r1'.
Proof.
  intros Hp Hs Hl Hr1 Hr2 Hd1 Hd2 Hw1 Hw2. simpl.
  destruct (rounds_of_offset s ns1 r1 Hs Hr1 Hw1) as (_ & _ & H1).
  destruct (rounds_of_offset s ns2 r2 Hs Hr2 Hw2) as (_ & _ & H2).
  specialize (H1 Hp). specialize (H2 Hp).
  assert (zlen ns1 = zlen ns2) by (unfold zlen; lia). nia.
Qed.

(** ** How long a transfer takes *)

(** The budgets that cover what a job has left. *)
Definition budgets_left (s : Scheduler) (r : Request) : Z :=
  let left := total_bytes r - offset r in
  match policy_ s with
  | FCFS | SJF => if left =? 0 then 0 else 1
  | RR | DRR => (left + quantum_ s - 1) / quantum_ s
  end.

(** The rounds that a job needs when each uses its whole budget: an empty job
    needs one as well. *)
Definition rounds_needed (s : Scheduler) (r : Request) : Z := Z.max 1 (budgets_left s r).

Lemma budgets_left_done s r :
  wf_scheduler s -> offset r = total_bytes r -> budgets_left s r = 0.
Proof.
  intros [_ Hq] E. unfold budgets_left. rewrite E, Z.sub_diag.
  destruct (policy_ s); try done; rewrite Z.div_small; try done;
    specialize (Hq ltac:(tauto)); lia.
Qed.

Lemma budgets_left_nonneg s r : wf_scheduler s -> wf_request r -> 0 <= budgets_left s r.
Proof.
  intros [_ Hq] [? _]. unfold budgets_left.
  destruct (policy_ s); try (destruct (_ =? 0); lia);
    specialize (Hq ltac:(tauto)); apply Z.div_pos; lia.
Qed.

Lemma budgets_left_pos s r :
  wf_scheduler s -> wf_request r -> offset r < total_bytes r -> 0 < budgets_left s r.
Proof.
  intros [_ Hq] [? _] Hlt. unfold budgets_left.
  destruct (policy_ s); try (by destruct (Z.eqb_spec (total_bytes r - offset r) 0); lia);
    specialize (Hq ltac:(tauto)); apply Z.div_str_pos; lia.
Qed.

(** One more chunk of at most [q]. *)
Lemma ceil_step left q :
  0 < q -> 0 < left -> (left + q - 1) / q = (left - Z.min left q + q - 1) / q + 1.
Proof.
  intros Hq Hl. destruct (Z.min_spec left q) as [[? ->]|[? ->]].
  - rewrite Z.sub_diag, (Z.div_small (0 + _ - _)) by lia.
    symmetry. apply Z.div_unique with (left - 1); lia.
  - replace (left + q - 1) with ((left - q + q - 1) + 1 * q) by lia.
    rewrite Z.div_add by lia. lia.
Qed.

Lemma budgets_left_step s r :
  wf_scheduler s -> wf_request r -> (policy_ s = DRR -> deficit r = 0) ->
  offset r < total_bytes r ->
  let r' := round s (granted s r) r in
  budgets_left s r = budgets_left s r' + 1 /\
  (policy_ s = DRR -> offset r' < total_bytes r' -> deficit r' = 0).
Proof.
  intros Hs Hr Hd Hlt r'.
  assert (Hfit : deficit_fits s r).
  { intros Hp. rewrite (Hd Hp). destruct Hs as [? _]. word. }
  pose proof (granted_range s r Hs Hr Hlt) as Hg.
  subst r'. rewrite round_within by (done || lia).
  destruct r as [id fd o f tot off rd fo de a14 ar st fi pb po sg rs].
  destruct Hs as [Hq Hpos]. unfold budgets_left, granted in *. field_simpl.
  rewrite Z.sub_add_distr.
  destruct (policy_ s) eqn:E; split; try done.
  - rewrite Z.sub_diag. by destruct (Z.eqb_spec (tot - off) 0); [lia|].
  - rewrite Z.sub_diag. by destruct (Z.eqb_spec (tot - off) 0); [lia|].
  - apply ceil_step; [apply Hpos; tauto|lia].
  - rewrite (Hd eq_refl), Z.add_0_l. apply ceil_step; [apply Hpos; tauto|lia].
  - intros _. rewrite (Hd eq_refl). cbn [policy_eqb]. lia.
Qed.

(** A round on a job that has nothing left changes neither its size nor its
    offset. *)
Lemma empty_round s r :
  wf_request r -> offset r = total_bytes r ->
  let r' := round s (get_budget s r).1 r in
  offset r' = total_bytes r /\ total_bytes r' = total_bytes r /\ wf_request r'.
Proof.
  intros Hr E r'. subst r'. unfold round.
  assert (get_budget s r = (0, r)) as ->.
  { unfold get_budget. by rewrite remaining_wf, E, Z.sub_diag by done. }
  cbn [fst snd]. split_and!; [| |by apply account_keeps_wf].
  all: rewrite account_wf by (done || lia).
  all: destruct r as [id fd o f tot off rd fo de a14 ar st fi pb po sg rs].
  all: field_simpl; cbn in E; lia.
Qed.

(** C35: termination.  A job whose rounds use their whole budget (a PUT, whose
    bytes may be cut anywhere) is not requeued again, all its bytes being
    transferred, after exactly one round under FCFS and SJF and after the
    quotient of its size by the quantum, rounded up, under RR and, when it
    starts without deficit, under DRR; an empty job takes exactly one round
    under every policy. *)
Theorem full_rounds_complete s r fuel :
  wf_scheduler s -> wf_request r -> (policy_ s = DRR -> deficit r = 0) ->
  rounds_needed s r <= Z.of_nat fuel ->
  exists r', full_rounds fuel s r = Some (Z.to_nat (rounds_needed s r), r') /\
    offset r' = total_bytes r /\ total_bytes r' = total_bytes r.
Proof.
  intros Hs. revert r. induction fuel as [|fuel IH]; intros r Hr Hd Hfuel;
    unfold rounds_needed in Hfuel; [lia|]. cbn [full_rounds]. cbv zeta.
  destruct (Z.ltb_spec (offset r) (total_bytes r)) as [Hlt|Hge].
  2: { assert (offset r = total_bytes r) as E by (destruct Hr; lia).
    destruct (empty_round s r Hr E) as (Ho & Ht & Hw). cbv zeta in *.
    rewrite should_requeue_wf, Ho, Ht, Z.ltb_irrefl by done.
    unfold rounds_needed. rewrite budgets_left_done by done. eauto. }
  destruct (budgets_left_step s r) as [Hstep Hd2]; try done.
  assert (Hfit : deficit_fits s r) by (intros Hp; rewrite (Hd Hp); destruct Hs as [? _]; word).
  pose proof (granted_range s r Hs Hr Hlt) as Hg.
  rewrite get_budget_granted by done. cbn [fst].
  set (r1 := round s (granted s r) r) in *.
  assert (Hw : wf_request r1) by (apply round_keeps_wf; (done || lia)).
  pose proof (budgets_left_nonneg s r1 Hs Hw) as Hnn.
  assert (total_bytes r1 = total_bytes r) as E
    by (subst r1; rewrite round_within by (done || lia); by destruct r).
  rewrite should_requeue_wf by done. unfold rounds_needed in *.
  destruct (Z.ltb_spec (offset r1) (total_bytes r1)) as [Hmore|Hdone].
  - pose proof (budgets_left_pos s r1 Hs Hw Hmore).
    destruct (IH r1 Hw ltac:(auto)) as (r' & -> & Ho & Ht); [lia|].
    exists r'. rewrite Hstep, <- E, Ho, Ht. split; [|done]. cbn. repeat f_equal. lia.
  - assert (offset r1 = total_bytes r1) as Eo by (destruct Hw; lia).
    rewrite (budgets_left_done s r1) in Hstep by done. rewrite Hstep. exists r1.
    split; [done|]. by rewrite <- E.
Qed.

(** ** Round robin *)

Lemma push_all_mk arrivals l cl n :
  push_all arrivals (RequestQueue.mk l cl n) = RequestQueue.mk (l ++ admitted cl arrivals) cl n.
Proof.
  unfold push_all, admitted. revert l. induction arrivals as [|r arrivals IH]; intros l; simpl.
  - by destruct cl; rewrite app_nil_r.
  - unfold RequestQueue.push at 2. cbn [RequestQueue.closed_].
    destruct cl; cbn [snd]; [done|]. field_simpl. by rewrite IH, <- app_assoc.
Qed.

Lemma serve_one_head s service meanwhile r l cl n :
  policy_ s <> SJF -> 0 <= n -> n + 1 < 2 ^ 64 ->
  serve_one s service meanwhile (RequestQueue.mk (r :: l) cl n) =
    Some ((get_budget s r).2,
      RequestQueue.mk (l ++ admitted cl meanwhile ++ after_round s service r) cl n).
Proof.
  intros Hp H0 Hn. unfold serve_one, next, after_round.
  assert (select s (RequestQueue.mk (r :: l) cl n) =
    Some (Some r, RequestQueue.mk l cl (n + 1))) as ->.
  { unfold select, RequestQueue.wait_pop. field_simpl. rewrite u64_small by word.
    by destruct (policy_ s). }
  cbn [mbind option_bind]. rewrite decide_on_Some. cbn [valid request].
  rewrite push_all_mk. do 2 f_equal.
  unfold RequestQueue.requeue, RequestQueue.complete, RequestQueue.release. field_simpl.
  destruct (Z.ltb_spec 0 (n + 1)); [|lia].
  destruct (should_requeue _); field_simpl;
    rewrite ?app_nil_r, ?Z.add_simpl_r, <- ?app_assoc; done.
Qed.

(** C28: round robin.  Under FCFS, RR and DRR, a worker that makes as many
    turns as there are requests waiting serves each of them exactly once, in
    the order of the queue, whatever is admitted before and during each turn.
    In the queue that results, what was admitted up to a turn is ahead of what
    that turn requeues, what is admitted after it is behind, the unfinished
    ones keep their order, and nothing is in flight; a queue that was closed
    admits nothing but is served and requeued in the same way. *)
Theorem serve_times_is_round_robin s service l added arrivals cl :
  policy_ s <> SJF -> length arrivals = length l ->
  serve_times s service arrivals (RequestQueue.mk (l ++ added) cl 0) =
    Some (map (fun r => (get_budget s r).2) l,
      RequestQueue.mk
        (added ++ concat (zip_with (fun '(before, meanwhile) r =>
           admitted cl before ++ admitted cl meanwhile ++ after_round s service r) arrivals l))
        cl 0).
Proof.
  intros Hp. revert added arrivals. induction l as [|r l IH]; intros added arrivals Hl;
    destruct arrivals as [|[before meanwhile] arrivals]; try done; simpl.
  - by rewrite app_nil_r.
  - rewrite push_all_mk. cbn [app]. rewrite serve_one_head by (done || lia).
    cbn [mbind option_bind]. rewrite <- !app_assoc, IH by (simpl in Hl; lia).
    cbn [mbind option_bind]. by rewrite <- !app_assoc.
Qed.

(** ** Concrete jobs *)

Definition job (id total arrival : Z) : Request :=
  new_Request <| request_id := id |> <| total_bytes := total |> <| arrival_ns := arrival |>.

Definition sample_queue : RequestQueue.t :=
  RequestQueue.mk [job 1 900 10; job 2 30 40; job 3 30 20; job 4 30 20] false 0.

Lemma sjf_witness :
  exists d q' before after,
    next (mkScheduler SJF 0) sample_queue = Some (d, q') /\
    RequestQueue.queue_ sample_queue = before ++ request d :: after /\
    request_id (request d) = 3 /\ length before = 2%nat.
Proof.
  eexists _, _.
  destruct (next_sjf_serves_shortest (mkScheduler SJF 0) sample_queue
    (mkDecision (job 3 30 20) 30 true)
    (RequestQueue.mk [job 1 900 10; job 2 30 40; job 4 30 20] false 1))
    as (before & after & Hq & Hq' & Hb & _); [reflexivity..|].
  exists before, after. split; [reflexivity|]. split; [exact Hq|]. split; [reflexivity|].
  destruct before as [|? [|? [|? [|? ?]]]]; simplify_eq/=; reflexivity.
Defined.

Lemma head_witness :
  exists r, RequestQueue.queue_ sample_queue = r :: [job 2 30 40; job 3 30 20; job 4 30 20] /\
    request_id r = 1.
Proof.
  destruct (next_serves_head (mkScheduler RR 100) sample_queue (mkDecision (job 1 900 10) 100 true)
    (RequestQueue.mk [job 2 30 40; job 3 30 20; job 4 30 20] false 1))
    as (r & Hq & _); [discriminate|reflexivity|reflexivity|].
  exists r. split; [exact Hq|]. cbn in Hq. by simplify_eq.
Defined.

Definition drr : Scheduler := mkScheduler DRR 100.

Lemma drr_wf : wf_scheduler drr.
Proof. split; cbn; [word|lia]. Qed.

Lemma job_wf id total arrival : is_u64 total -> wf_request (job id total arrival).
Proof. unfold wf_request; cbn. word. Qed.

Lemma drr_fits id total arrival : deficit_fits drr (job id total arrival).
Proof. intros _. cbn. lia. Qed.

Lemma get_budget_witness :
  fst (get_budget drr (job 1 900 10)) = 100 /\
  deficit (snd (get_budget drr (job 1 900 10))) = 0 + 100.
Proof.
  generalize (get_budget_spec drr (job 1 900 10) drr_wf (job_wf 1 900 10 ltac:(word))
    (drr_fits 1 900 10) ltac:(done)).
  destruct (get_budget drr (job 1 900 10)) as [b r'].
  intros (Hb & _ & _ & Hd & _). split; [exact Hb|]. exact (proj2 (Hd eq_refl)).
Defined.

Lemma account_witness : should_requeue (account drr 950 (job 1 900 10)) = false.
Proof.
  destruct (account_spec drr 950 (job 1 900 10) (job_wf 1 900 10 ltac:(word)) ltac:(lia))
    as (_ & _ & _ & _ & H). exact H.
Defined.

Lemma drr_fair_witness :
  let r1' := rounds_of drr [0; 170; 40] (job 1 900 10) in
  let r2' := rounds_of drr [100; 100; 100] (job 2 800 10) in
  (offset r1' - 0) - (offset r2' - 0) = deficit r2' - deficit r1'.
Proof.
  apply (drr_equal_rounds_equal_service drr [0; 170; 40] [100; 100; 100]
    (job 1 900 10) (job 2 800 10)); try reflexivity; try exact drr_wf;
    try (apply job_wf; word); cbn [within_budget]; unfold deficit_fits;
    split_and!; first [by vm_compute | intros _; by vm_compute].
Defined.

Lemma full_rounds_witness :
  (exists r', full_rounds 10 drr (job 1 950 10) = Some (10%nat, r') /\ offset r' = 950) /\
  (exists r', full_rounds 10 drr (job 1 0 10) = Some (1%nat, r') /\ offset r' = 0).
Proof.
  split.
  2: { destruct (full_rounds_complete drr (job 1 0 10) 10 drr_wf (job_wf 1 0 10 ltac:(word))
      ltac:(done) ltac:(vm_compute; discriminate)) as (r' & H1 & H2 & _).
    exists r'. split; [exact H1|exact H2]. }
  destruct (full_rounds_complete drr (job 1 950 10) 10 drr_wf (job_wf 1 950 10 ltac:(word))
    ltac:(done) ltac:(vm_compute; discriminate)) as (r' & H1 & H2 & _).
  exists r'. split; [exact H1|exact H2].
Defined.

(** A request that is admitted between two turns goes ahead of the second
    job and behind the first. *)
Lemma round_robin_witness :
  serve_times (mkScheduler RR 50) (fun _ => 50) [([], []); ([job 9 40 50], [])]
      (RequestQueue.mk [job 1 900 10; job 2 80 40] false 0) =
    Some ([job 1 900 10; job 2 80 40],
      RequestQueue.mk [account (mkScheduler RR 50) 50 (job 1 900 10); job 9 40 50;
        account (mkScheduler RR 50) 50 (job 2 80 40)] false 0).
Proof.
  exact (serve_times_is_round_robin (mkScheduler RR 50) (fun _ => 50)
    [job 1 900 10; job 2 80 40] [] [([], []); ([job 9 40 50], [])] false ltac:(done) eq_refl).
Defined.
