(* ===== verification/Metrics.v ===== *)
(** Completed requests, [src/metrics.h] and the recording of [src/metrics.cpp]: the
    record that is kept of each.  The report is in the file Report. *)

From S2P Require Import Prelude Text Queue.

Local Open Scope Z_scope.

Record RequestMetrics := mkRequestMetrics {
  m_request_id : Z;
  m_op : Operation;
  m_filename : bytes;
  m_total_bytes : Z;
  m_arrival_ns : Z;
  m_start_ns : Z;
  m_finish_ns : Z;
  m_rounds : Z;
  m_forfeited_bytes : Z;
  m_a14_events : Z
}.

(** [Metrics::record] fills the record from the request and appends it to
    [records_], which is the list below. *)
Definition metrics_of (r : Request) : RequestMetrics := {|
  m_request_id := request_id r;
  m_op := op r;
  m_filename := filename r;
  m_total_bytes := total_bytes r;
  m_arrival_ns := arrival_ns r;
  m_start_ns := start_ns r;
  m_finish_ns := finish_ns r;
  m_rounds := rounds r;
  m_forfeited_bytes := forfeited_bytes r;
  m_a14_events := a14_events r
|}.

Definition record (r : Request) (records_ : list RequestMetrics) : list RequestMetrics :=
  records_ ++ [metrics_of r].

Definition completed_requests (records_ : list RequestMetrics) : Z := zlen records_.
