(* ===== verification/Effects.v ===== *)
(** The interface between the server and its environment.

    A function of the server that calls the operating system, reads a clock,
    uses a file stream or a shared object is a [prog]: a finite tree whose nodes
    are the calls ([event]) and whose branches are their results.  The trees say
    what the code does for every result of every call; nothing in them depends
    on how the environment computes it.

    [handle] gives the calls a meaning on a [world].  The shared objects of the
    server (the two queues, the id counter, the metrics) are its own code and
    are exact.  The file system is a map from paths to files.  Every choice of
    the environment (what arrives on a socket and when, how many bytes a [send]
    accepts, which descriptor [accept] returns, which file operations fail, how
    the clock advances) is read from a tape in the world, so that a statement
    about all worlds is a statement about all behaviours of the environment. *)

From S2P Require Import Prelude Text Queue Metrics.

Local Open Scope Z_scope.

(** ** Calls *)

(** Result of [recv]: an error (-1) or the bytes that it stored; none at the end
    of the stream. *)
Inductive recv_result :=
  | RecvError
  | Received (bs : bytes).

(** A path leads to a regular file or to a directory ([st_size] given). *)
Inductive node :=
  | File (content : bytes)
  | Directory (st_size : Z).

Inductive event : Type -> Type :=
  (* clocks: seconds and nanoseconds of CLOCK_MONOTONIC; steady_clock in ns *)
  | ClockGettime : event (Z * Z)
  | SteadyNow : event Z
  (* sockets *)
  | Select (fd timeout_ns : Z) : event Z
  | Recv (fd size : Z) : event recv_result
  | Send (fd : Z) (data : bytes) : event Z
  | CloseFd (fd : Z) : event unit
  | AcceptFd (listen_fd : Z) : event Z
  (* files *)
  | Stat (path : bytes) : event (option Z)
  | OpenRead (path : bytes) : event (option node)
  | OpenTrunc (path : bytes) : event bool
  | OpenUpdate (path : bytes) : event bool
  | WriteAt (path : bytes) (pos : Z) (data : bytes) : event bool
  | Rename (from to : bytes) : event Z
  | Remove (path : bytes) : event unit
  (* objects shared by the threads of the server *)
  | FdPush (fd : Z) : event bool
  | FdWaitPop : event (option Z)
  | FdClose : event unit
  | RqPush (r : Request) : event bool
  | RqWaitPop : event (option Request)
  | RqWaitPopBest (compare : Request -> Request -> bool) : event (option Request)
  | RqRequeue (r : Request) : event bool
  | RqComplete : event unit
  | RqSize : event Z
  | RqClose : event unit
  | FetchAddRequestId : event Z
  | RecordMetrics (r : Request) : event unit
  | ReadShutdownFlag : event bool.

(** ** Programs *)

(** [OutOfFuel] marks a loop that was cut off by the bound its definition takes;
    the theorems show that it is never reached with the bound they state.  It
    stands as well for a program that ends its process by an exception. *)
Inductive prog (R : Type) : Type :=
  | Ret (r : R)
  | Vis {A : Type} (e : event A) (k : A -> prog R)
  | OutOfFuel.
Arguments Ret {R} r.
Arguments Vis {R A} e k.
Arguments OutOfFuel {R}.

Definition call {A} (e : event A) : prog A := Vis e Ret.

(** An exception that nothing catches: the program does not return, the process is
    aborted. *)
Definition uncaught_exception {R} : prog R := OutOfFuel.

#[export] Instance prog_ret : MRet prog := fun R r => Ret r.

#[export] Instance prog_bind : MBind prog :=
  fun R S f => fix bind (p : prog R) : prog S :=
    match p with
    | Ret r => f r
    | Vis e k => Vis e (fun a => bind (k a))
    | OutOfFuel => OutOfFuel
    end.

(** ** Worlds *)

(** What happens on the receiving side of a connection, in order. *)
Inductive rx_event :=
  | Arrive (bs : bytes)   (* bytes become readable *)
  | Quiet                 (* nothing arrives before the timeout *)
  | SelectError
  | RecvFails
  | PeerClosed.           (* end of stream *)

(** How [send] behaves: it accepts at most that many bytes, at least one
    ([Accept n] accepts up to [n + 1]), or it fails. *)
Inductive tx_event :=
  | Accept (n : nat)
  | SendFails.

Record sock := mkSock {
  rx : list rx_event;
  tx : list tx_event;
  sent : bytes
}.

#[export] Instance eta_sock : Eta sock := fun s => mkSock (rx s) (tx s) (sent s).

(** What happens on the listening socket. *)
Inductive listen_event :=
  | NoConnection
  | ListenSelectError
  | AcceptFails
  | Connection (fd : Z) (rx : list rx_event) (tx : list tx_event).

Record world := mkWorld {
  files : gmap bytes node;
  socks : gmap Z sock;
  closed_socks : list (Z * sock);
  listening : list listen_event;
  now : Z;
  ticks : list Z;
  faults : list bool;
  request_queue : RequestQueue.t;
  fd_queue : FdQueue.t;
  next_request_id : Z;
  ids_given : Z;  (* history variable: how often the counter was advanced *)
  records_ : list RequestMetrics;
  shutdown_flag : bool
}.

#[export] Instance eta_world : Eta world := fun w =>
  mkWorld (files w) (socks w) (closed_socks w) (listening w) (now w) (ticks w)
    (faults w) (request_queue w) (fd_queue w) (next_request_id w) (ids_given w) (records_ w)
    (shutdown_flag w).

(** The listening socket; connections have other descriptors. *)
Definition listen_socket : Z := 3.

(** A world in which nothing has happened yet. *)
Definition initial_world : world :=
  mkWorld ∅ ∅ [] [] 0 [] [] RequestQueue.new FdQueue.new 1 0 [] false.

(** ** Meaning of the calls *)

(** Reading a clock lets time pass by the next tick, never backwards. *)
Definition tick (w : world) : world :=
  match ticks w with
  | [] => w
  | t :: ts => w <| now := now w + Z.max 0 t |> <| ticks := ts |>
  end.

Definition wait_ns (d : Z) (w : world) : world := w <| now := now w + Z.max 0 d |>.

Definition set_sock (fd : Z) (s : sock) (w : world) : world := w <| socks ::= <[fd := s]> |>.

Definition select_listen (w : world) : Z * world :=
  match listening w with
  | [] => (0, w)
  | NoConnection :: l => (0, w <| listening := l |>)
  | ListenSelectError :: l => (-1, w <| listening := l |>)
  | _ => (1, w)
  end.

Definition select_sock (fd timeout_ns : Z) (w : world) : Z * world :=
  match socks w !! fd with
  | None => (-1, w)
  | Some s =>
      match rx s with
      | Quiet :: l => (0, wait_ns timeout_ns (set_sock fd (s <| rx := l |>) w))
      | SelectError :: l => (-1, set_sock fd (s <| rx := l |>) w)
      | _ => (1, w)
      end
  end.

(** [recv] of at most [size] bytes; without a preceding [select] it waits
    through the quiet periods. *)
Fixpoint recv_rx (size : Z) (l : list rx_event) : recv_result * list rx_event :=
  match l with
  | [] => (Received [], [])
  | Arrive bs :: l' =>
      if zlen bs <=? size then (Received bs, l')
      else (Received (ztake size bs), Arrive (zdrop size bs) :: l')
  | RecvFails :: l' => (RecvError, l')
  | PeerClosed :: l' => (Received [], l')
  | _ :: l' => recv_rx size l'
  end.

Definition recv_sock (fd size : Z) (w : world) : recv_result * world :=
  match socks w !! fd with
  | None => (RecvError, w)
  | Some s => let '(r, l) := recv_rx size (rx s) in (r, set_sock fd (s <| rx := l |>) w)
  end.

(** [send] of [data]: the count it returns and the socket after it. *)
Definition send_bytes (data : bytes) (s : sock) : Z * sock :=
  match tx s with
  | [] => (zlen data, s <| sent := sent s ++ data |>)
  | Accept n :: l =>
      let k := Z.min (zlen data) (Z.of_nat n + 1) in
      (k, s <| tx := l |> <| sent := sent s ++ ztake k data |>)
  | SendFails :: l => (-1, s <| tx := l |>)
  end.

Definition send_sock (fd : Z) (data : bytes) (w : world) : Z * world :=
  match socks w !! fd with
  | None => (-1, w)
  | Some s => let '(n, s') := send_bytes data s in (n, set_sock fd s' w)
  end.

Definition close_sock (fd : Z) (w : world) : world :=
  match socks w !! fd with
  | None => w
  | Some s => w <| socks ::= delete fd |> <| closed_socks ::= fun l => (fd, s) :: l |>
  end.

(** [accept] never returns a descriptor that is in use. *)
Definition accept_sock (w : world) : Z * world :=
  match listening w with
  | Connection fd r t :: l =>
      let w := w <| listening := l |> in
      if (fd <=? listen_socket) || bool_decide (is_Some (socks w !! fd)) then (-1, w)
      else (fd, set_sock fd (mkSock r t []) w)
  | _ :: l => (-1, w <| listening := l |>)
  | [] => (-1, w)
  end.

(** Does the next file operation fail? *)
Definition next_fault (w : world) : bool * world :=
  match faults w with
  | [] => (false, w)
  | b :: l => (b, w <| faults := l |>)
  end.

Definition node_size (n : node) : Z :=
  match n with File c => zlen c | Directory size => size end.

(** Overwriting [data] at [pos], with zeros in a gap before it. *)
Definition overwrite (pos : Z) (data content : bytes) : bytes :=
  ztake pos content ++ replicate (Z.to_nat (pos - zlen content)) (chr 0) ++ data ++
  zdrop (pos + zlen data) content.

Definition open_read (path : bytes) (w : world) : option node * world :=
  let '(fault, w) := next_fault w in
  (if fault : bool then None else files w !! path, w).

Definition open_trunc (path : bytes) (w : world) : bool * world :=
  let '(fault, w) := next_fault w in
  if fault : bool then (false, w)
  else
    match files w !! path with
    | Some (Directory _) => (false, w)
    | _ => (true, w <| files ::= <[path := File []]> |>)
    end.

Definition open_update (path : bytes) (w : world) : bool * world :=
  let '(fault, w) := next_fault w in
  (match files w !! path with Some (File _) => negb fault | _ => false end, w).

(** A write that would make a file larger than this fails ([EFBIG]), as does one
    at a negative position ([EINVAL]). *)
Definition max_file_size : Z := 2 ^ 62.

Definition write_at (path : bytes) (pos : Z) (data : bytes) (w : world) : bool * world :=
  let '(fault, w) := next_fault w in
  if fault || (pos <? 0) || (max_file_size <? pos + zlen data) then (false, w)
  else
    match files w !! path with
    | Some (File c) => (true, w <| files ::= <[path := File (overwrite pos data c)]> |>)
    | _ => (true, w)
    end.

Definition rename_file (from to : bytes) (w : world) : Z * world :=
  let '(fault, w) := next_fault w in
  match fault, files w !! from, files w !! to with
  | false, Some (File c), Some (File _) | false, Some (File c), None =>
      (0, w <| files ::= fun m => <[to := File c]> (delete from m) |>)
  | _, _, _ => (-1, w)
  end.

(** Does [path] lie below the directory [dir]? *)
Definition lies_in (dir path : bytes) : bool :=
  (zlen dir + 1 <? zlen path) && beq (ztake (zlen dir + 1) path) (dir ++ str "/").

Definition empty_directory (path : bytes) (w : world) : bool :=
  forallb (fun entry => negb (lies_in path entry.1)) (map_to_list (files w)).

(** [std::remove]: a file or an empty directory; its result is not used. *)
Definition remove_file (path : bytes) (w : world) : world :=
  let '(fault, w) := next_fault w in
  match fault, files w !! path with
  | false, Some (File _) => w <| files ::= delete path |>
  | false, Some (Directory _) => if empty_directory path w then w <| files ::= delete path |> else w
  | _, _ => w
  end.

(** A call that waits ([wait_pop]) is not enabled, [None], while its condition
    does not hold. *)
Definition handle {A} (e : event A) (w : world) : option (A * world) :=
  match e in event A return option (A * world) with
  | ClockGettime =>
      let w := tick w in Some ((now w / 1000000000, now w mod 1000000000), w)
  | SteadyNow => let w := tick w in Some (now w, w)
  | Select fd t =>
      Some (if fd =? listen_socket then select_listen w else select_sock fd t w)
  | Recv fd size => Some (recv_sock fd size w)
  | Send fd data => Some (send_sock fd data w)
  | CloseFd fd => Some (tt, close_sock fd w)
  | AcceptFd _ => Some (accept_sock w)
  | Stat path => Some (node_size <$> files w !! path, w)
  | OpenRead path => Some (open_read path w)
  | OpenTrunc path => Some (open_trunc path w)
  | OpenUpdate path => Some (open_update path w)
  | WriteAt path pos data => Some (write_at path pos data w)
  | Rename a b => Some (rename_file a b w)
  | Remove path => Some (tt, remove_file path w)
  | FdPush fd => let '(b, q) := FdQueue.push fd (fd_queue w) in Some (b, w <| fd_queue := q |>)
  | FdWaitPop => '(o, q) ← FdQueue.wait_pop (fd_queue w); Some (o, w <| fd_queue := q |>)
  | FdClose => Some (tt, w <| fd_queue ::= FdQueue.close |>)
  | RqPush r =>
      let '(b, q) := RequestQueue.push r (request_queue w) in Some (b, w <| request_queue := q |>)
  | RqWaitPop =>
      '(o, q) ← RequestQueue.wait_pop (request_queue w); Some (o, w <| request_queue := q |>)
  | RqWaitPopBest compare =>
      '(o, q) ← RequestQueue.wait_pop_best compare (request_queue w);
      Some (o, w <| request_queue := q |>)
  | RqRequeue r =>
      let '(b, q) := RequestQueue.requeue r (request_queue w) in
      Some (b, w <| request_queue := q |>)
  | RqComplete => Some (tt, w <| request_queue ::= RequestQueue.complete |>)
  | RqSize => Some (RequestQueue.size (request_queue w), w)
  | RqClose => Some (tt, w <| request_queue ::= RequestQueue.close |>)
  | FetchAddRequestId =>
      Some (next_request_id w,
            w <| next_request_id := i32 (next_request_id w + 1) |> <| ids_given ::= Z.succ |>)
  | RecordMetrics r => Some (tt, w <| records_ ::= record r |>)
  | ReadShutdownFlag => Some (shutdown_flag w, w)
  end.

(** ** Running one program alone *)

Inductive outcome (R : Type) : Type :=
  | Done (r : R) (w : world)
  | Blocked
  | FuelExhausted.
Arguments Done {R} r w.
Arguments Blocked {R}.
Arguments FuelExhausted {R}.

Fixpoint run {R} (p : prog R) (w : world) : outcome R :=
  match p with
  | Ret r => Done r w
  | Vis e k =>
      match handle e w with
      | Some (a, w') => run (k a) w'
      | None => Blocked
      end
  | OutOfFuel => FuelExhausted
  end.

(** ** Properties that hold for every result of every call

    [follows Q p s]: whatever results that are [possible] the calls of [p]
    return, the automaton [auto] started in [s] accepts the sequence of calls and
    results, [p] is not cut off for want of fuel, and when it ends with [r] in
    state [s'], [Q r s'] holds. *)
Section follows.
Context {S : Type} (possible : forall A, event A -> A -> Prop).
Context (auto : forall A, event A -> A -> S -> option S).

Fixpoint follows {R} (Q : R -> S -> Prop) (p : prog R) (s : S) : Prop :=
  match p with
  | Ret r => Q r s
  | Vis e k =>
      forall a, possible _ e a ->
      match auto _ e a s with Some s' => follows Q (k a) s' | None => False end
  | OutOfFuel => False
  end.

Lemma follows_bind {R R'} (Q : R' -> S -> Prop) (p : prog R) (f : R -> prog R') s :
  follows (fun r s' => follows Q (f r) s') p s -> follows Q (p ≫= f) s.
Proof.
  revert s. induction p as [r|A e k IH|]; intros s; simpl; [done| |done].
  intros H a Ha. specialize (H a Ha). destruct (auto A e a s); [|done]. by apply IH.
Qed.

Lemma follows_mono {R} (Q Q' : R -> S -> Prop) (p : prog R) s :
  (forall r s', Q r s' -> Q' r s') -> follows Q p s -> follows Q' p s.
Proof.
  intros HQ. revert s. induction p as [r|A e k IH|]; intros s; simpl; [apply HQ| |done].
  intros H a Ha. specialize (H a Ha). destruct (auto A e a s); [|done]. by apply IH.
Qed.

Lemma follows_bind_mono {R R'} (P : R -> S -> Prop) (Q : R' -> S -> Prop)
    (p : prog R) (f : R -> prog R') s :
  follows P p s -> (forall r s', P r s' -> follows Q (f r) s') -> follows Q (p ≫= f) s.
Proof. intros Hp Hf. apply follows_bind. by eapply follows_mono; [|exact Hp]. Qed.

Lemma follows_call {A R} (Q : R -> S -> Prop) (e : event A) (f : A -> prog R) s :
  (forall a, possible _ e a ->
   match auto _ e a s with Some s' => follows Q (f a) s' | None => False end) ->
  follows Q (call e ≫= f) s.
Proof. done. Qed.

End follows.

(** ** Running: lemmas *)

Lemma run_bind {R R'} (p : prog R) (f : R -> prog R') w :
  run (p ≫= f) w =
    match run p w with
    | Done r w' => run (f r) w'
    | Blocked => Blocked
    | FuelExhausted => FuelExhausted
    end.
Proof.
  revert w. induction p as [r|A e k IH|]; intros w; simpl; [done| |done].
  destruct (handle e w) as [[a w']|]; [apply IH|done].
Qed.

Lemma run_call {A} (e : event A) w :
  run (call e) w = match handle e w with Some (a, w') => Done a w' | None => Blocked end.
Proof. unfold call. simpl. by destruct (handle e w) as [[a w']|]. Qed.

Lemma run_ret {R} (r : R) w : run (Ret r) w = Done r w.
Proof. done. Qed.

(** Clock readings advance. *)
Lemma tick_mono w : now w <= now (tick w).
Proof. unfold tick. destruct (ticks w); field_simpl; lia. Qed.
