(* ===== verification/FileIO.v ===== *)
(** File access, [src/file_io.h] and [src/file_io.cpp], over a model of
    [std::ifstream] on the content that the file has when it is opened. *)

From S2P Require Import Prelude Text Queue Metrics Effects.

Local Open Scope Z_scope.

Definition newline : Ascii.ascii := chr 10.

(** ** [std::ifstream] *)

(** [if_content] is [None] for a directory: it opens, and every read fails. *)
Record ifstream := mkIfstream {
  if_content : option bytes;
  if_pos : Z;
  if_eof : bool;
  if_fail : bool;
  if_bad : bool
}.

#[export] Instance eta_ifstream : Eta ifstream := fun s =>
  mkIfstream (if_content s) (if_pos s) (if_eof s) (if_fail s) (if_bad s).

(** The constructor; [None] when [is_open()] is false. *)
Definition if_open (path : bytes) : prog (option ifstream) :=
  n ← call (OpenRead path);
  Ret (match n with
       | None => None
       | Some (File c) => Some (mkIfstream (Some c) 0 false false false)
       | Some (Directory _) => Some (mkIfstream None 0 false false false)
       end).

Definition if_good (s : ifstream) : bool := negb (if_eof s || if_fail s || if_bad s).

(** [operator!] and [fail()]. *)
Definition if_failed (s : ifstream) : bool := if_fail s || if_bad s.

(** [seekg(pos)]: clears [eofbit]; a negative position fails, one past the end
    does not. *)
Definition if_seekg (pos : Z) (s : ifstream) : ifstream :=
  let s := s <| if_eof := false |> in
  if if_failed s then s
  else if pos <? 0 then s <| if_fail := true |>
  else s <| if_pos := pos |>.

(** The characters up to the next newline, and whether there is one. *)
Fixpoint split_line (s : bytes) : bytes * bool :=
  match s with
  | [] => ([], false)
  | c :: s' =>
      if decide (c = newline) then ([], true)
      else let '(l, nl) := split_line s' in (c :: l, nl)
  end.

(** [std::getline(stream, line)]: the new value of [line]. *)
Definition if_getline (s : ifstream) : bytes * ifstream :=
  if negb (if_good s) then ([], s <| if_fail := true |>)
  else
    match if_content s with
    | None => ([], s <| if_bad := true |>)
    | Some c =>
        let '(line, found) := split_line (zdrop (if_pos s) c) in
        if (found : bool) then (line, s <| if_pos := if_pos s + zlen line + 1 |>)
        else
          let s := s <| if_pos := if_pos s + zlen line |> <| if_eof := true |> in
          (line, if beq line [] then s <| if_fail := true |> else s)
    end.

(** [tellg()]: at the end of the file its sentry sets [failbit]. *)
Definition if_tellg (s : ifstream) : Z * ifstream :=
  let s := if if_good s then s else s <| if_fail := true |> in
  (if if_failed s then -1 else if_pos s, s).

(** [read(buffer, n)]: the bytes stored ([gcount()] is their number). *)
Definition if_read (n : Z) (s : ifstream) : bytes * ifstream :=
  if negb (if_good s) then ([], s <| if_fail := true |>)
  else
    match if_content s with
    | None => ([], s <| if_bad := true |>)
    | Some c =>
        let got := ztake n (zdrop (if_pos s) c) in
        let s := s <| if_pos := if_pos s + zlen got |> in
        (got, if zlen got <? n then s <| if_eof := true |> <| if_fail := true |> else s)
    end.

(** ** [file_io.cpp] *)

Definition has_slash (s : bytes) : bool := existsb (fun c => code c =? 47) s.

Definition is_valid_filename (filename : bytes) : bool :=
  if beq filename [] then false
  else if beq filename (str ".") || beq filename (str "..") then false
  else if has_slash filename then false
  else true.

Definition is_path_safe (filename : bytes) : bool := is_valid_filename filename.

Definition file_exists (filepath : bytes) : prog bool :=
  st ← call (Stat filepath);
  Ret (match st with Some _ => true | None => false end).

Definition get_file_size (filepath : bytes) : prog Z :=
  st ← call (Stat filepath);
  Ret (match st with Some st_size => u64 st_size | None => 0 end).

Definition read_file_chunk (filepath : bytes) (offset size : Z) : prog bytes :=
  file ← if_open filepath;
  match file with
  | None => Ret []
  | Some file => Ret (if_read size (if_seekg (i64 offset) file)).1
  end.

(** [None] when it returns false; otherwise the new [offset] and the [line]. *)
Definition read_file_line (filepath : bytes) (offset : Z) : prog (option (Z * bytes)) :=
  file ← if_open filepath;
  match file with
  | None => Ret None
  | Some file =>
      let file := if_seekg (i64 offset) file in
      if negb (if_good file) then Ret None
      else
        let '(line, file) := if_getline file in
        if if_failed file then Ret None
        else
          let '(new_position, file) := if_tellg file in
          offset ← (if new_position =? -1 then get_file_size filepath
                    else Ret (u64 new_position));
          let line := if negb (if_eof file) then line ++ [newline] else line in
          Ret (Some (offset, line))
  end.

(** A single [write] of a fresh stream starts at the beginning of the file. *)
Definition write_file_data (filepath data : bytes) : prog bool :=
  is_open ← call (OpenTrunc filepath);
  if negb is_open then Ret false
  else
    good ← (if beq data [] then Ret true else call (WriteAt filepath 0 data));
    Ret good.

(** ** Specification of reading by lines *)

(** The line at the head of [s], with its newline. *)
Definition first_line (s : bytes) : bytes :=
  let '(line, found) := split_line s in
  if (found : bool) then line ++ [newline] else line.

(** All lines of [s]. *)
Fixpoint lines_fuel (fuel : nat) (s : bytes) : list bytes :=
  match fuel, s with
  | S fuel', _ :: _ => first_line s :: lines_fuel fuel' (zdrop (zlen (first_line s)) s)
  | _, _ => []
  end.

Definition lines (s : bytes) : list bytes := lines_fuel (length s) s.

(** The lines that a caller collects that reads from [offset] until the end. *)
Fixpoint read_all_lines (fuel : nat) (filepath : bytes) (offset : Z) : prog (list bytes) :=
  match fuel with
  | O => OutOfFuel
  | S fuel' =>
      r ← read_file_line filepath offset;
      match r with
      | None => Ret []
      | Some (offset', line) =>
          ls ← read_all_lines fuel' filepath offset';
          Ret (line :: ls)
      end
  end.

(** ** Lemmas *)

Lemma split_line_spec s :
  match split_line s with
  | (l, true) => exists rest, s = l ++ newline :: rest /\ newline ∉ l
  | (l, false) => s = l /\ newline ∉ l
  end.
Proof.
  induction s as [|c s IH]; simpl; [by split; [|apply not_elem_of_nil]|].
  case_decide as H.
  - subst. exists s. by split; [|apply not_elem_of_nil].
  - destruct (split_line s) as [l [|]].
    + destruct IH as (rest & -> & Hl). exists rest. split; [done|].
      rewrite not_elem_of_cons. by split.
    + destruct IH as [-> Hl]. split; [done|]. rewrite not_elem_of_cons. by split.
Qed.

Lemma first_line_prefix s : first_line s ++ zdrop (zlen (first_line s)) s = s.
Proof.
  unfold first_line. pose proof (split_line_spec s) as H.
  destruct (split_line s) as [l [|]].
  - destruct H as (rest & -> & _).
    replace (l ++ newline :: rest) with ((l ++ [newline]) ++ rest) by by rewrite <- app_assoc.
    by rewrite zdrop_app_exact.
  - destruct H as [-> _]. rewrite zdrop_all by lia. by rewrite app_nil_r.
Qed.

Lemma first_line_nonempty s : s <> [] -> 0 < zlen (first_line s).
Proof.
  unfold first_line. pose proof (split_line_spec s) as H. destruct (split_line s) as [l [|]].
  - list_lia.
  - destruct H as [-> _]. destruct l; [done|]. intros _. list_lia.
Qed.

Lemma first_line_length s : zlen (first_line s) <= zlen s.
Proof.
  rewrite <- (first_line_prefix s) at 2. list_lia.
Qed.

Lemma first_line_nil : first_line [] = [].
Proof. done. Qed.

(** A file operation that is not made to fail. *)
Lemma next_fault_none w : faults w = [] -> next_fault w = (false, w).
Proof. unfold next_fault. by intros ->. Qed.

Lemma run_open_read path c w :
  faults w = [] -> files w !! path = Some (File c) ->
  run (if_open path) w = Done (Some (mkIfstream (Some c) 0 false false false)) w.
Proof.
  intros Hf Hp. unfold if_open. rewrite run_bind, run_call. cbn [handle].
  unfold open_read. rewrite next_fault_none by done. by rewrite Hp.
Qed.

(** The world in which a file has the given content. *)
Definition set_file (path content : bytes) (w : world) : world :=
  w <| files ::= <[path := File content]> |>.

Lemma set_file_id path content w :
  files w !! path = Some (File content) -> set_file path content w = w.
Proof. intros H. destruct w. unfold set_file. field_simpl. by rewrite insert_id. Qed.

(** Appending to a file. *)
Lemma run_append path content data w :
  files w !! path = Some (File content) -> faults w = [] ->
  zlen content + zlen data <= max_file_size ->
  run (call (WriteAt path (zlen content) data)) w = Done true (set_file path (content ++ data) w).
Proof.
  intros Hp Hf Hm. rewrite run_call. cbn [handle]. unfold write_at.
  rewrite next_fault_none by done. pose proof (zlen_nonneg content).
  rewrite (proj2 (Z.ltb_ge _ _)), (proj2 (Z.ltb_ge _ _)) by lia. cbn [orb]. rewrite Hp.
  unfold overwrite, set_file. rewrite ztake_all, zdrop_all by list_lia. rewrite Z.sub_diag, app_nil_r.
  done.
Qed.

Lemma run_open_trunc path w :
  faults w = [] -> (forall d, files w !! path <> Some (Directory d)) ->
  run (call (OpenTrunc path)) w = Done true (set_file path [] w).
Proof.
  intros Hf Hd. rewrite run_call. cbn [handle]. unfold open_trunc.
  rewrite next_fault_none by done. destruct (files w !! path) as [[c|d]|] eqn:E; try done.
  by destruct (Hd d).
Qed.

(** [read_file_line] on a file that is there: the line at [offset] and the offset
    of the next one, or nothing at the end. *)
Lemma run_read_file_line path c offset w :
  faults w = [] -> files w !! path = Some (File c) ->
  zlen c < 2 ^ 63 -> 0 <= offset <= zlen c ->
  run (read_file_line path offset) w =
    Done (let line := first_line (zdrop offset c) in
          if offset <? zlen c then Some (offset + zlen line, line) else None) w.
Proof.
  intros Hf Hp Hc Ho. unfold read_file_line. rewrite run_bind, (run_open_read path c) by done.
  rewrite i64_small by lia. unfold if_seekg. field_simpl.
  destruct (Z.ltb_spec offset 0) as [|_]; [lia|]. field_simpl.
  unfold if_getline. field_simpl.
  pose proof (zlen_zdrop offset c ltac:(lia)) as Hlen.
  pose proof (split_line_spec (zdrop offset c)) as Hs. unfold first_line.
  destruct (split_line (zdrop offset c)) as [l [|]].
  - destruct Hs as (rest & E & _). rewrite E in Hlen. field_simpl.
    destruct (Z.ltb_spec offset (zlen c)) as [_|]; [|list_lia].
    destruct (Z.eqb_spec (offset + zlen l + 1) (-1)); [list_lia|]. field_simpl.
    rewrite u64_small by (unfold is_u64; list_lia). do 3 f_equal. list_lia.
  - destruct Hs as [<- _]. destruct (beq (zdrop offset c) []) eqn:Hb; field_simpl.
    + apply beq_spec in Hb. rewrite Hb in *.
      destruct (Z.ltb_spec offset (zlen c)) as [H|]; [list_lia|done].
    + apply beq_false in Hb. rewrite Hp. field_simpl. rewrite u64_small by word.
      destruct (Z.ltb_spec offset (zlen c)) as [H|]; [|destruct (zdrop offset c); [done|list_lia]].
      do 3 f_equal. list_lia.
Qed.

(** ** Lines *)

Lemma lines_fuel_enough fuel fuel' s :
  (length s <= fuel)%nat -> (length s <= fuel')%nat -> lines_fuel fuel s = lines_fuel fuel' s.
Proof.
  revert fuel' s. induction fuel as [|fuel IH]; intros [|fuel'] s H H';
    destruct s as [|c s]; simpl in *; try done; try lia.
  f_equal. assert (Hpos : 0 < zlen (first_line (c :: s))) by by apply first_line_nonempty.
  pose proof (zlen_zdrop (zlen (first_line (c :: s))) (c :: s) ltac:(lia)) as Hl.
  unfold zlen in *. cbn [length] in *. apply IH; lia.
Qed.

Lemma lines_nil : lines [] = [].
Proof. done. Qed.

Lemma lines_step s :
  s <> [] -> lines s = first_line s :: lines (zdrop (zlen (first_line s)) s).
Proof.
  intros Hs. pose proof (first_line_nonempty s Hs) as Hpos.
  pose proof (zlen_zdrop (zlen (first_line s)) s ltac:(lia)) as Hl.
  unfold lines. destruct s as [|c s]; [done|]. cbn [length lines_fuel]. f_equal.
  unfold zlen in *. cbn [length] in *. apply lines_fuel_enough; lia.
Qed.

(** Induction along the lines of a text. *)
Lemma lines_ind (P : bytes -> Prop) :
  P [] -> (forall s, s <> [] -> P (zdrop (zlen (first_line s)) s) -> P s) -> forall s, P s.
Proof.
  intros H0 Hs s. remember (length s) as n eqn:Hn.
  revert s Hn. induction (lt_wf n) as [n _ IH]; intros s ->.
  destruct s as [|c s]; [done|]. apply Hs; [done|].
  pose proof (first_line_nonempty (c :: s) ltac:(done)).
  pose proof (zlen_zdrop (zlen (first_line (c :: s))) (c :: s) ltac:(lia)) as Hl.
  eapply IH; [|done]. unfold zlen in *. cbn [length] in *. lia.
Qed.

Lemma concat_lines s : concat (lines s) = s.
Proof.
  induction s as [|s Hs IH] using lines_ind; [done|].
  rewrite lines_step by done. simpl. rewrite IH. apply first_line_prefix.
Qed.

(** A complete line: text without newline, then one newline. *)
Definition is_line (l : bytes) : Prop := exists t, l = t ++ [newline] /\ newline ∉ t.

Lemma first_line_shape s :
  s <> [] -> is_line (first_line s) \/ (first_line s = s /\ newline ∉ s).
Proof.
  intros Hs. unfold first_line. pose proof (split_line_spec s) as H.
  destruct (split_line s) as [l [|]].
  - destruct H as (rest & _ & Hl). left. by exists l.
  - destruct H as [-> Hl]. by right.
Qed.

(** The lines of a text, in order, are the text; each of them is not empty
    and ends at its first newline, except that the last one may have none. *)
Theorem lines_partition s :
  concat (lines s) = s /\ Forall (fun l => l <> []) (lines s) /\
  exists complete rest, lines s = complete ++ rest /\ Forall is_line complete /\
    (rest = [] \/ exists last, rest = [last] /\ newline ∉ last).
Proof.
  split; [apply concat_lines|].
  induction s as [|s Hs (IH & complete & rest & Hl & Hc & Hr)] using lines_ind.
  { split; [constructor|]. exists [], []. split_and!; [done|constructor|by left]. }
  rewrite lines_step by done. pose proof (first_line_nonempty s Hs). split.
  { constructor; [|done]. intros E. rewrite E in *. list_lia. }
  destruct (first_line_shape s Hs) as [Hline|[E Hn]].
  - exists (first_line s :: complete), rest. rewrite Hl. split_and!; [done|by constructor|done].
  - exists [], [s]. rewrite E, zdrop_all by lia. split_and!; [done|constructor|]. right. by exists s.
Qed.

(** C38: reading line by line.  Reading a file from [offset] with
    [read_file_line], each call continuing at the offset the last one returned,
    yields exactly the lines of the rest of the file and then stops; a call more
    than the number of bytes is enough. *)
Theorem read_all_lines_spec fuel path c offset w :
  faults w = [] -> files w !! path = Some (File c) -> zlen c < 2 ^ 63 ->
  0 <= offset <= zlen c -> zlen c - offset < Z.of_nat fuel ->
  run (read_all_lines fuel path offset) w = Done (lines (zdrop offset c)) w.
Proof.
  intros Hf Hp Hc. revert offset. induction fuel as [|fuel IH]; intros offset Ho Hfuel; [lia|].
  cbn [read_all_lines]. rewrite run_bind, (run_read_file_line path c) by done. cbv zeta.
  destruct (Z.ltb_spec offset (zlen c)) as [Hlt|Hge].
  - pose proof (zlen_zdrop offset c ltac:(lia)) as Hl.
    assert (Hne : zdrop offset c <> []) by (intros E; rewrite E in Hl; list_lia).
    pose proof (first_line_nonempty _ Hne). pose proof (first_line_length (zdrop offset c)).
    rewrite run_bind, IH by lia. rewrite (lines_step _ Hne), zdrop_zdrop by lia. done.
  - rewrite zdrop_all by lia. done.
Qed.

(** A name is accepted exactly when it is not empty, is neither the directory itself
    nor its parent and contains no slash, so that the path built from it names a file
    directly inside the served directory. *)
Theorem is_valid_filename_spec name :
  is_valid_filename name = true <->
  name <> [] /\ name <> str "." /\ name <> str ".." /\ chr 47 ∉ name.
Proof.
  unfold is_valid_filename, has_slash.
  assert (Hs : existsb (fun c => code c =? 47) name = true <-> chr 47 ∈ name).
  { rewrite existsb_exists, list_elem_of_In. split.
    - intros (c & Hc & E). apply Z.eqb_eq in E.
      assert (c = chr 47) as <-; [|done].
      unfold code, chr in *. rewrite <- (Ascii.ascii_N_embedding c).
      replace 47 with (Z.of_N (Ascii.N_of_ascii c)) by done. by rewrite N2Z.id.
    - intros H. exists (chr 47). by split. }
  destruct (beq name []) eqn:E1; [apply beq_spec in E1 as ->; by split; [|intros [? _]]|].
  apply beq_false in E1.
  destruct (beq name (str ".")) eqn:E2;
    [apply beq_spec in E2 as ->; by split; [|intros (_ & ? & _)]|].
  apply beq_false in E2.
  destruct (beq name (str "..")) eqn:E3;
    [apply beq_spec in E3 as ->; by split; [|intros (_ & _ & ? & _)]|].
  apply beq_false in E3. cbn [orb].
  destruct (existsb _ name) eqn:E4; split; try done.
  - intros (_ & _ & _ & H). by destruct H; apply Hs.
  - intros _. split_and!; try done. intros H. by apply Hs in H.
Qed.

(** Write, then read.  What [write_file_data] stored (up to the largest size of a
    file) is what [read_file_chunk] returns, for every window of the file; other files
    are untouched. *)
Theorem write_read_roundtrip path data w offset size :
  faults w = [] -> (forall d, files w !! path <> Some (Directory d)) ->
  0 <= offset < 2 ^ 63 -> zlen data <= max_file_size ->
  exists w', run (write_file_data path data) w = Done true w' /\
    run (read_file_chunk path offset size) w' =
      Done (ztake size (zdrop offset data)) w' /\
    forall other, other <> path -> files w' !! other = files w !! other.
Proof.
  intros Hf Hd Ho Hl. unfold write_file_data.
  set (w1 := w <| files ::= <[path := File []]> |>).
  set (w2 := if beq data [] then w1 else w1 <| files ::= <[path := File data]> |>).
  exists w2. rewrite run_bind, run_call. cbn [handle].
  assert (open_trunc path w = (true, w1)) as ->.
  { unfold open_trunc. rewrite next_fault_none by done.
    destruct (files w !! path) as [[c|d]|] eqn:E; try done. by destruct (Hd d). }
  cbn [negb]. rewrite run_bind.
  assert (run (if beq data [] then Ret true else call (WriteAt path 0 data)) w1 = Done true w2) as ->.
  { subst w2. destruct (beq data []); [done|]. rewrite run_call. cbn [handle].
    unfold write_at. rewrite next_fault_none by done. change (0 <? 0) with false. cbn [orb].
    rewrite (proj2 (Z.ltb_ge _ _)) by lia. subst w1. field_simpl.
    rewrite lookup_insert_eq. unfold overwrite. simpl. by rewrite app_nil_r. }
  assert (Hw2 : files w2 !! path = Some (File data) /\ faults w2 = [] /\
    forall other, other <> path -> files w2 !! other = files w !! other).
  { subst w2 w1. destruct (beq data []) eqn:E.
    - apply beq_spec in E. subst. field_simpl. rewrite lookup_insert_eq. split_and!; try done.
      intros. by rewrite lookup_insert_ne.
    - field_simpl. rewrite lookup_insert_eq. split_and!; try done.
      intros. by rewrite !lookup_insert_ne. }
  destruct Hw2 as (Hp & Hf2 & Hother). split_and!; [done| |done].
  unfold read_file_chunk. rewrite run_bind, (run_open_read path data) by done.
  rewrite i64_small by lia. unfold if_seekg, if_read. field_simpl.
  destruct (Z.ltb_spec offset 0); [lia|]. done.
Qed.

(** ** Concrete files *)

Definition two_lines : bytes := str "one" ++ [newline] ++ str "two".

Lemma read_all_lines_witness :
  run (read_all_lines 9 (str "d/a") 0) (initial_world <| files := {[str "d/a" := File two_lines]} |>) =
  Done [str "one" ++ [newline]; str "two"]
    (initial_world <| files := {[str "d/a" := File two_lines]} |>).
Proof. by apply (read_all_lines_spec 9 (str "d/a") two_lines 0). Defined.

Lemma write_read_witness :
  exists w', run (write_file_data (str "d/a") two_lines) initial_world = Done true w' /\
    run (read_file_chunk (str "d/a") 4 2) w' = Done (str "tw") w' /\
    forall other, other <> str "d/a" -> files w' !! other = files initial_world !! other.
Proof. by apply (write_read_roundtrip (str "d/a") two_lines initial_world 4 2). Defined.
