(* ===== verification/Config.v ===== *)
(** The configuration file, [src/config.h] and [load_config] of [src/config.cpp]:
    the checks of the parsed text, and what they are a decision procedure for. *)

From S2P Require Import Prelude Text Json Grammar Queue Metrics Effects FileIO.

Local Open Scope Z_scope.

(** ** Data *)

Record ServerConfig := mkServerConfig {
  server_ip : bytes;
  server_port : Z;
  server_threads : Z;
  client_threads : Z
}.

Record BackendConfig := mkBackendConfig {
  backend_ip : bytes;
  backend_port : Z
}.

Record LoadBalancerConfig := mkLoadBalancerConfig {
  lb_ip : bytes;
  lb_port : Z;
  health_interval_ms : Z;
  backends : list BackendConfig
}.

Record Config := mkConfig {
  server : ServerConfig;
  load_balancer : LoadBalancerConfig;
  has_load_balancer : bool
}.

(** The default member initialisers. *)
Definition no_load_balancer : LoadBalancerConfig := mkLoadBalancerConfig [] 0 0 [].

(** ** [load_config] *)

Definition missing (field : bytes) : bytes :=
  str "error: missing required field '" ++ field ++ str "'".

Definition invalid_type (field : bytes) : bytes :=
  str "error: invalid type for field '" ++ field ++ str "'".

Definition invalid_value (field : bytes) : bytes :=
  str "error: invalid value for field '" ++ field ++ str "'".

(** The checks of a required field that is a string, [prefix] being its path in
    the messages, and of one that is an integer, which is narrowed to [int]. *)
Definition string_field (object : Json.t) (prefix key : bytes) : result bytes :=
  if negb (Json.contains key object) then Throw (missing (prefix ++ key))
  else
    v ← Json.at_ key object;
    match v with Json.String s => Ok s | _ => Throw (invalid_type (prefix ++ key)) end.

Definition int_field (object : Json.t) (prefix key : bytes) : result Z :=
  if negb (Json.contains key object) then Throw (missing (prefix ++ key))
  else
    v ← Json.at_ key object;
    match v with Json.Integer n => Ok (i32 n) | _ => Throw (invalid_type (prefix ++ key)) end.

(** [port <= 0 || port > 65535]. *)
Definition bad_port (port : Z) : bool := (port <=? 0) || (65535 <? port).

Definition server_of_json (server : Json.t) : result ServerConfig :=
  let prefix := str "server." in
  ip ← string_field server prefix (str "ip");
  port ← int_field server prefix (str "port");
  server_threads ← int_field server prefix (str "server_threads");
  client_threads ← int_field server prefix (str "client_threads");
  if bad_port port then Throw (invalid_type (str "server.port"))
  else if server_threads <=? 0 then Throw (invalid_type (str "server.server_threads"))
  else if client_threads <=? 0 then Throw (invalid_type (str "server.client_threads"))
  else Ok (mkServerConfig ip port server_threads client_threads).

Definition backend_of_json (i : nat) (backend : Json.t) : result BackendConfig :=
  let prefix := str "load_balancer.backends[" ++ to_string (Z.of_nat i) ++ str "]" in
  if negb (Json.is_object backend) then Throw (invalid_type prefix)
  else
    ip ← string_field backend (prefix ++ str ".") (str "ip");
    port ← int_field backend (prefix ++ str ".") (str "port");
    if bad_port port then Throw (invalid_value (prefix ++ str ".port"))
    else Ok (mkBackendConfig ip port).

(** The [for] loop over the backends. *)
Fixpoint backends_loop (i : nat) (array : list Json.t) : result (list BackendConfig) :=
  match array with
  | [] => Ok []
  | backend :: array' =>
      parsed ← backend_of_json i backend;
      rest ← backends_loop (S i) array';
      Ok (parsed :: rest)
  end.

Definition backends_of_json (object : Json.t) : result (list BackendConfig) :=
  let key := str "backends" in
  if negb (Json.contains key object) then Throw (missing (str "load_balancer.backends"))
  else
    backends ← Json.at_ key object;
    match backends with
    | Json.Array array =>
        if negb (zlen array =? 4)
        then Throw (str "error: field 'load_balancer.backends' must contain exactly four entries")
        else backends_loop 0 array
    | _ => Throw (str "error: field 'load_balancer.backends' must contain exactly four entries")
    end.

Definition load_balancer_of_json (load_balancer : Json.t) : result LoadBalancerConfig :=
  let prefix := str "load_balancer." in
  if negb (Json.is_object load_balancer) then Throw (invalid_type (str "load_balancer"))
  else
    ip ← string_field load_balancer prefix (str "ip");
    port ← int_field load_balancer prefix (str "port");
    health_interval_ms ← int_field load_balancer prefix (str "health_interval_ms");
    backends ← backends_of_json load_balancer;
    if bad_port port then Throw (invalid_value (str "load_balancer.port"))
    else if health_interval_ms <=? 0
    then Throw (invalid_value (str "load_balancer.health_interval_ms"))
    else Ok (mkLoadBalancerConfig ip port health_interval_ms backends).

(** [load_config] from the parsed text on. *)
Definition config_of_json (require_load_balancer : bool) (root : Json.t) : result Config :=
  if negb (Json.is_object root) then Throw (missing (str "server"))
  else if negb (Json.contains (str "server") root) then Throw (missing (str "server"))
  else
    server ← Json.at_ (str "server") root;
    if negb (Json.is_object server) then Throw (invalid_type (str "server"))
    else
      server ← server_of_json server;
      if negb (Json.contains (str "load_balancer") root) then
        if require_load_balancer then Throw (missing (str "load_balancer"))
        else Ok (mkConfig server no_load_balancer false)
      else
        load_balancer ← Json.at_ (str "load_balancer") root;
        load_balancer ← load_balancer_of_json load_balancer;
        Ok (mkConfig server load_balancer true).

(** [ss << in.rdbuf(); ss.str()]: a directory can be opened but not read. *)
Definition rest_of_file (file : ifstream) : bytes :=
  match if_content file with Some c => zdrop (if_pos file) c | None => [] end.

Definition load_config (config_path : bytes) (require_load_balancer : bool)
    : prog (result Config) :=
  file ← if_open config_path;
  match file with
  | None => Ret (Throw (str "error: could not open config file '" ++ config_path ++ str "'"))
  | Some file =>
      match parse (rest_of_file file) with
      | None => OutOfFuel
      | Some (Throw e) => Ret (Throw e)
      | Some (Ok root) => Ret (config_of_json require_load_balancer root)
      end
  end.

(** ** What a configuration says *)

Definition field (key : bytes) (j : Json.t) : option Json.t :=
  match j with Json.Object object => Json.find key object | _ => None end.

(** A field that is an integer, seen as an [int]. *)
Definition int_at (key : bytes) (j : Json.t) (n : Z) : Prop :=
  exists i, field key j = Some (Json.Integer i) /\ n = i32 i.

Definition is_port (n : Z) : Prop := 1 <= n <= 65535.

Record describes_server (j : Json.t) (c : ServerConfig) : Prop := {
  ds_ip : field (str "ip") j = Some (Json.String (server_ip c));
  ds_port : int_at (str "port") j (server_port c);
  ds_server_threads : int_at (str "server_threads") j (server_threads c);
  ds_client_threads : int_at (str "client_threads") j (client_threads c);
  ds_is_port : is_port (server_port c);
  ds_workers : 1 <= server_threads c;
  ds_clients : 1 <= client_threads c
}.

Record describes_backend (j : Json.t) (c : BackendConfig) : Prop := {
  db_ip : field (str "ip") j = Some (Json.String (backend_ip c));
  db_port : int_at (str "port") j (backend_port c);
  db_is_port : is_port (backend_port c)
}.

Record describes_load_balancer (j : Json.t) (c : LoadBalancerConfig) : Prop := {
  dl_ip : field (str "ip") j = Some (Json.String (lb_ip c));
  dl_port : int_at (str "port") j (lb_port c);
  dl_interval : int_at (str "health_interval_ms") j (health_interval_ms c);
  dl_is_port : is_port (lb_port c);
  dl_positive : 1 <= health_interval_ms c;
  dl_backends : exists array, field (str "backends") j = Some (Json.Array array) /\
    length array = 4%nat /\ Forall2 describes_backend array (backends c)
}.

Definition describes (require_load_balancer : bool) (root : Json.t) (c : Config) : Prop :=
  (exists j, field (str "server") root = Some j /\ describes_server j (server c)) /\
  match field (str "load_balancer") root with
  | None => require_load_balancer = false /\ has_load_balancer c = false /\
            load_balancer c = no_load_balancer
  | Some j => has_load_balancer c = true /\ describes_load_balancer j (load_balancer c)
  end.

(** ** Lemmas *)

Lemma result_bind_ok {A B} (m : result A) (k : A -> result B) b :
  mbind k m = Ok b <-> exists a, m = Ok a /\ k a = Ok b.
Proof. destruct m as [a|e]; simpl; split; [eauto| |done|]; intros (? & ? & ?); by simplify_eq. Qed.

Lemma contains_field key j : Json.contains key j = true <-> is_Some (field key j).
Proof.
  destruct j; simpl; try by split; [|intros []].
  destruct (Json.find key object); split; [eauto|done|done|by intros []].
Qed.

Lemma at_field key j v : Json.at_ key j = Ok v <-> field key j = Some v.
Proof. destruct j; simpl; try done. destruct (Json.find key object); split; intros; by simplify_eq. Qed.

(** The two checks of a field, contained and of the right type, in one. *)
Lemma checked_field {A} (k : Json.t -> result A) key j e a :
  (if negb (Json.contains key j) then Throw e else v ← Json.at_ key j; k v) = Ok a <->
  exists v, field key j = Some v /\ k v = Ok a.
Proof.
  destruct (Json.contains key j) eqn:E; simpl.
  - rewrite result_bind_ok. split; intros (v & Hv & Hk); exists v; by rewrite at_field in *.
  - split; [done|]. intros (v & Hv & _). assert (Json.contains key j = true); [|congruence].
    apply contains_field. eauto.
Qed.

Lemma string_field_ok j prefix key s :
  string_field j prefix key = Ok s <-> field key j = Some (Json.String s).
Proof.
  unfold string_field. rewrite checked_field. split.
  - intros (v & Hv & H). destruct v; by simplify_eq.
  - eauto.
Qed.

Lemma int_field_ok j prefix key n : int_field j prefix key = Ok n <-> int_at key j n.
Proof.
  unfold int_field, int_at. rewrite checked_field. split.
  - intros (v & Hv & H). destruct v; simplify_eq. eauto.
  - intros (i & Hi & ->). eauto.
Qed.

Lemma bad_port_spec n : bad_port n = false <-> is_port n.
Proof. unfold bad_port, is_port. rewrite orb_false_iff, Z.leb_gt, Z.ltb_ge. lia. Qed.

(** A check that throws. *)
Lemma check_ok {A} (b : bool) e (m : result A) a :
  (if b then Throw e else m) = Ok a <-> b = false /\ m = Ok a.
Proof. destruct b; split; [done|by intros []|done|by intros []]. Qed.

Lemma is_object_field key j v : field key j = Some v -> Json.is_object j = true.
Proof. by destruct j. Qed.

(** ** Decoding accepts exactly the described configurations *)

Lemma server_of_json_ok j c : server_of_json j = Ok c <-> describes_server j c.
Proof.
  unfold server_of_json. rewrite result_bind_ok. split.
  - intros (ip & Hip%string_field_ok & H).
    apply result_bind_ok in H as (port & Hport%int_field_ok & H).
    apply result_bind_ok in H as (st & Hst%int_field_ok & H).
    apply result_bind_ok in H as (ct & Hct%int_field_ok & H).
    apply check_ok in H as [Hp%bad_port_spec H]. apply check_ok in H as [Hs%Z.leb_gt H].
    apply check_ok in H as [Hc%Z.leb_gt H]. simplify_eq. split; simpl; (done || lia).
  - intros [Hip Hport Hst Hct Hp Hs Hc]. destruct c as [ip port st ct]. simpl in *.
    exists ip. split; [by apply string_field_ok|].
    apply result_bind_ok. exists port. split; [by apply int_field_ok|].
    apply result_bind_ok. exists st. split; [by apply int_field_ok|].
    apply result_bind_ok. exists ct. split; [by apply int_field_ok|].
    rewrite !check_ok, bad_port_spec, !Z.leb_gt. split_and!; (done || lia).
Qed.

Lemma backend_of_json_ok i j c : backend_of_json i j = Ok c <-> describes_backend j c.
Proof.
  unfold backend_of_json. rewrite check_ok, result_bind_ok. split.
  - intros (_ & ip & Hip%string_field_ok & H).
    apply result_bind_ok in H as (port & Hport%int_field_ok & H).
    apply check_ok in H as [Hp%bad_port_spec H]. by simplify_eq.
  - intros [Hip Hport Hp]. destruct c as [ip port]. simpl in *.
    split; [by rewrite (is_object_field _ _ _ Hip)|].
    exists ip. split; [by apply string_field_ok|].
    apply result_bind_ok. exists port. split; [by apply int_field_ok|].
    by rewrite check_ok, bad_port_spec.
Qed.

Lemma backends_loop_ok i array cs :
  backends_loop i array = Ok cs <-> Forall2 describes_backend array cs.
Proof.
  revert i cs. induction array as [|j array IH]; intros i cs; simpl.
  - split; [intros; by simplify_eq|]. by intros ->%Forall2_nil_inv_l.
  - rewrite result_bind_ok. split.
    + intros (c & Hc%backend_of_json_ok & H). apply result_bind_ok in H as (r & Hr%IH & H).
      simplify_eq. by constructor.
    + intros (c & r & Hc & Hr & ->)%Forall2_cons_inv_l. exists c.
      split; [by apply backend_of_json_ok|]. apply result_bind_ok. exists r. by rewrite IH.
Qed.

Lemma backends_of_json_ok j cs :
  backends_of_json j = Ok cs <->
  exists array, field (str "backends") j = Some (Json.Array array) /\ length array = 4%nat /\
    Forall2 describes_backend array cs.
Proof.
  unfold backends_of_json. rewrite checked_field. split.
  - intros (v & Hv & H). destruct v; try done. apply check_ok in H as [Hl H].
    exists array. split; [done|]. split; [to_prop; word|by apply backends_loop_ok in H].
  - intros (array & Ha & Hl & Hb). exists (Json.Array array). split; [done|].
    apply check_ok. unfold zlen. rewrite Hl. split; [done|by apply backends_loop_ok].
Qed.

Lemma load_balancer_of_json_ok j c :
  load_balancer_of_json j = Ok c <-> describes_load_balancer j c.
Proof.
  unfold load_balancer_of_json. rewrite check_ok, result_bind_ok. split.
  - intros (_ & ip & Hip%string_field_ok & H).
    apply result_bind_ok in H as (port & Hport%int_field_ok & H).
    apply result_bind_ok in H as (ms & Hms%int_field_ok & H).
    apply result_bind_ok in H as (bs & Hbs%backends_of_json_ok & H).
    apply check_ok in H as [Hp%bad_port_spec H]. apply check_ok in H as [Hi%Z.leb_gt H].
    simplify_eq. split; simpl; (done || lia).
  - intros [Hip Hport Hms Hp Hi Hbs]. destruct c as [ip port ms bs]. simpl in *.
    split; [by rewrite (is_object_field _ _ _ Hip)|].
    exists ip. split; [by apply string_field_ok|].
    apply result_bind_ok. exists port. split; [by apply int_field_ok|].
    apply result_bind_ok. exists ms. split; [by apply int_field_ok|].
    apply result_bind_ok. exists bs. split; [by apply backends_of_json_ok|].
    rewrite !check_ok, bad_port_spec, Z.leb_gt. split_and!; (done || lia).
Qed.

Lemma config_of_json_ok required root c :
  config_of_json required root = Ok c <-> describes required root c.
Proof.
  unfold config_of_json, describes. rewrite check_ok, checked_field.
  destruct (field (str "load_balancer") root) as [lb|] eqn:El.
  - assert (Hc : Json.contains (str "load_balancer") root = true) by (apply contains_field; eauto).
    rewrite Hc. simpl. split.
    + intros (_ & sj & Hsj & H). apply check_ok in H as [_ H].
      apply result_bind_ok in H as (sc & Hsc%server_of_json_ok & H).
      apply result_bind_ok in H as (lb' & Hlb%at_field & H).
      apply result_bind_ok in H as (lc & Hlc%load_balancer_of_json_ok & H). simplify_eq. simpl. eauto.
    + intros ((sj & Hsj & Hsc) & Hh & Hlc). destruct c as [sc lc has]. simpl in *. subst.
      split; [by rewrite (is_object_field _ _ _ Hsj)|]. exists sj. split; [done|].
      apply check_ok. split; [by rewrite (is_object_field _ _ _ (ds_ip _ _ Hsc))|].
      apply result_bind_ok. exists sc. split; [by apply server_of_json_ok|].
      apply result_bind_ok. exists lb. split; [by apply at_field|].
      apply result_bind_ok. exists lc. by rewrite load_balancer_of_json_ok.
  - assert (Hc : Json.contains (str "load_balancer") root = false).
    { apply not_true_iff_false. rewrite contains_field, El. by intros []. }
    rewrite Hc. simpl. split.
    + intros (_ & sj & Hsj & H). apply check_ok in H as [_ H].
      apply result_bind_ok in H as (sc & Hsc%server_of_json_ok & H).
      destruct required; [done|]. simplify_eq. simpl. split_and!; eauto.
    + intros ((sj & Hsj & Hsc) & -> & Hh & Hlc). destruct c as [sc lc has]. simpl in *. subst.
      split; [by rewrite (is_object_field _ _ _ Hsj)|]. exists sj. split; [done|].
      apply check_ok. split; [by rewrite (is_object_field _ _ _ (ds_ip _ _ Hsc))|].
      apply result_bind_ok. exists sc. by rewrite server_of_json_ok.
Qed.

(** Every configuration that is accepted has a port and thread counts that the
    rest of the server can rely on. *)
Lemma describes_server_range j c :
  describes_server j c ->
  is_port (server_port c) /\ 1 <= server_threads c < 2 ^ 31 /\ 1 <= client_threads c < 2 ^ 31.
Proof.
  intros [_ _ (st & _ & Hs) (ct & _ & Hc) Hp ? ?]. pose proof (i32_range st).
  pose proof (i32_range ct). split_and!; (done || lia).
Qed.

(** ** Theorems *)

(** C17: the configuration file. [load_config] returns a configuration exactly when
    the file holds a JSON document with the required fields, of the right types
    and in range as [int]s (a load balancer only if it is present, and then with
    exactly four backends); the configuration has the values of these fields.
    In every other case, a missing file included, it throws, and it always
    returns. *)
Theorem load_config_spec path required w :
  faults w = [] ->
  exists res, run (load_config path required) w = Done res w /\
    forall c, res = Ok c <->
      exists text j, files w !! path = Some (File text) /\ document j text /\
        describes required j c.
Proof.
  intros Hf. unfold load_config. rewrite run_bind. unfold if_open. rewrite run_bind, run_call.
  cbn [handle]. unfold open_read. rewrite next_fault_none by done. rewrite run_ret.
  destruct (files w !! path) as [[text|size]|]; cbn [run]; [|eexists; split; [done|]..].
  - change (rest_of_file _) with (zdrop 0 text). rewrite zdrop_0 by done.
    pose proof (parse_answers text) as Ha. pose proof (parse_document text) as Hd.
    destruct (parse text) as [[root|e]|] eqn:E; simplify_eq; cbn [run];
      (eexists; split; [done|]); intros c.
    + rewrite config_of_json_ok. split.
      * intros H. exists text, root. by rewrite <- Hd.
      * intros (t & j & Ht & Hj & H). simplify_eq. apply Hd in Hj. by simplify_eq.
    + split; [done|]. intros (t & j & Ht & Hj & _). simplify_eq. by apply Hd in Hj.
  - intros c. split; [done|]. by intros (t & j & Ht & _).
  - intros c. split; [done|]. by intros (t & j & Ht & _).
Qed.

(** ** Example: the values of [src/config.json] *)

(** A string literal of a JSON text. *)
Definition quoted (s : bytes) : bytes := [quote] ++ s ++ [quote].

Definition sample_text (port : bytes) : bytes :=
  str "{ " ++ quoted (str "server") ++ str ": { " ++
    quoted (str "ip") ++ str ": " ++ quoted (str "127.0.0.1") ++ str ", " ++
    quoted (str "port") ++ str ": " ++ port ++ str ", " ++
    quoted (str "server_threads") ++ str ": 4, " ++
    quoted (str "client_threads") ++ str ": 8 } }".

Definition sample_config (port : Z) : Config :=
  mkConfig (mkServerConfig (str "127.0.0.1") port 4 8) no_load_balancer false.

Definition sample_file (text : bytes) : world :=
  initial_world <| files := {[str "config.json" := File text]} |>.

Lemma load_config_witness :
  exists res,
    run (load_config (str "config.json") false) (sample_file (sample_text (str "9000"))) =
      Done res (sample_file (sample_text (str "9000"))) /\
    forall c, res = Ok c <->
      exists text j,
        files (sample_file (sample_text (str "9000"))) !! str "config.json" = Some (File text) /\
        document j text /\ describes false j c.
Proof. apply load_config_spec. done. Defined.

Example sample_is_accepted :
  run (load_config (str "config.json") false) (sample_file (sample_text (str "9000"))) =
    Done (Ok (sample_config 9000)) (sample_file (sample_text (str "9000"))).
Proof. by vm_compute. Qed.

(** A number is narrowed to [int] before its range is checked: port 2^32 + 80 is
    accepted as port 80. *)
Example wide_port_is_truncated :
  run (load_config (str "config.json") false) (sample_file (sample_text (str "4294967376"))) =
    Done (Ok (sample_config 80)) (sample_file (sample_text (str "4294967376"))).
Proof. by vm_compute. Qed.
