(* ===== verification/Report.v ===== *)
(** The report at the end of the server, [src/metrics.cpp]: the CSV file of the
    completed requests and the summary, whose percentiles are computed with a rank
    in floating point. *)

From S2P Require Import Prelude Text Queue Metrics Effects FileIO.

Local Open Scope Z_scope.

(** ** [std::sort]

    The order of equivalent elements is unspecified, so that sorting is an
    interface; insertion sort is an instance of it. *)

Class StdSort := {
  std_sort {A : Type} : (A -> A -> bool) -> list A -> list A;
  std_sort_perm {A} (lt : A -> A -> bool) l : std_sort lt l ≡ₚ l;
  std_sort_sorted {A} (lt : A -> A -> bool) l :
    StrictWeakOrder lt -> StronglySorted (fun x y => lt y x = false) (std_sort lt l)
}.

Fixpoint sort_insert {A} (lt : A -> A -> bool) (x : A) (l : list A) : list A :=
  match l with
  | [] => [x]
  | y :: l' => if lt y x then y :: sort_insert lt x l' else x :: l
  end.

Definition insertion_sort {A} (lt : A -> A -> bool) (l : list A) : list A :=
  foldr (sort_insert lt) [] l.

Lemma sort_insert_perm {A} (lt : A -> A -> bool) x l : sort_insert lt x l ≡ₚ x :: l.
Proof.
  induction l as [|y l IH]; simpl; [done|]. destruct (lt y x); [|done]. rewrite IH. apply Permutation_swap.
Qed.

Lemma sort_insert_sorted {A} (lt : A -> A -> bool) `{!StrictWeakOrder lt} x l :
  StronglySorted (fun x y => lt y x = false) l ->
  StronglySorted (fun x y => lt y x = false) (sort_insert lt x l).
Proof.
  induction 1 as [|y l Hl IH Hy]; simpl; [by repeat constructor|].
  destruct (lt y x) eqn:E.
  - constructor; [done|]. apply Forall_forall. intros z Hz. rewrite sort_insert_perm in Hz.
    apply elem_of_cons in Hz as [->|Hz]; [by apply swo_asym|]. by eapply Forall_forall in Hy.
  - constructor; [by constructor|]. constructor; [done|].
    eapply Forall_impl; [exact Hy|]. intros z Hz. by eapply swo_nlt_trans.
Qed.

#[export] Instance insertion_std_sort : StdSort.
Proof.
  refine {| std_sort A lt l := insertion_sort lt l |}.
  - intros A lt l. induction l as [|x l IH]; [done|]. simpl. by rewrite sort_insert_perm, IH.
  - intros A lt l Hlt. induction l as [|x l IH]; [constructor|]. by apply sort_insert_sorted.
Defined.

Section report.
Context `{!StdSort}.

(** ** [write_csv] *)

Definition snapshot (w : list RequestMetrics) : list RequestMetrics := w.

Definition by_request_id (a b : RequestMetrics) : bool := m_request_id a <? m_request_id b.

Definition op_name (o : Operation) : bytes :=
  match o with GET => str "GET" | PUT => str "PUT" | HEALTH => str "UNKNOWN" end.

Definition csv_header : bytes :=
  str "request_id,op,filename,bytes,rounds," ++
  str "forfeited_bytes,arrival_ns,start_ns,finish_ns" ++ [newline].

Definition csv_row (row : RequestMetrics) : bytes :=
  to_string_int (m_request_id row) ++ str "," ++
  op_name (m_op row) ++ str "," ++
  m_filename row ++ str "," ++
  to_string (m_total_bytes row) ++ str "," ++
  to_string (m_rounds row) ++ str "," ++
  to_string (m_forfeited_bytes row) ++ str "," ++
  to_string (m_arrival_ns row) ++ str "," ++
  to_string (m_start_ns row) ++ str "," ++
  to_string (m_finish_ns row) ++ [newline].

(** The loop over the rows: once a write has failed, the stream stays bad and
    writes nothing more. *)
Fixpoint write_rows (path : bytes) (pos : Z) (rows : list RequestMetrics) : prog bool :=
  match rows with
  | [] => Ret true
  | row :: rows' =>
      good ← call (WriteAt path pos (csv_row row));
      if negb good then Ret false else write_rows path (pos + zlen (csv_row row)) rows'
  end.

Definition write_csv (records_ : list RequestMetrics) (path : bytes) : prog bool :=
  is_open ← call (OpenTrunc path);
  if negb is_open then Ret false
  else
    good ← call (WriteAt path 0 csv_header);
    if negb good then Ret false
    else
      let rows := std_sort by_request_id (snapshot records_) in
      write_rows path (zlen csv_header) rows.

(** ** [print_summary] *)

(** A positive [double] is [m * 2 ^ e] with [m] below 2^53; the result of an
    operation is rounded to the nearest, ties to even. *)
Definition round53 (m e : Z) : Z * Z :=
  if m <? 2 ^ 53 then (m, e)
  else
    let d := Z.log2 m - 52 in
    let q := m / 2 ^ d in
    let r := m mod 2 ^ d in
    let up := if r =? 2 ^ (d - 1) then Z.odd q else 2 ^ (d - 1) <? r in
    (if up then q + 1 else q, e + d).

(** [a / b] for positive integers below 2^53: enough bits of the quotient, and one
    more that says whether it is inexact. *)
Definition double_div (a b : Z) : Z * Z :=
  let k := 55 + Z.log2 b in
  let q := a * 2 ^ k / b in
  let sticky := if (a * 2 ^ k) mod b =? 0 then 0 else 1 in
  round53 (2 * q + sticky) (- k - 1).

Definition double_mul (x y : Z * Z) : Z * Z := round53 (x.1 * y.1) (x.2 + y.2).

(** [std::ceil], as an integer. *)
Definition double_ceil (x : Z * Z) : Z :=
  let '(m, e) := x in
  if 0 <=? e then m * 2 ^ e else (m + 2 ^ (- e) - 1) / 2 ^ (- e).

(** [nearest_rank]; the percentile is a [double] with an integer value, and so is
    the count of values. *)
Definition nearest_rank (values : list Z) (percentile : Z) : Z :=
  match values with
  | [] => 0
  | _ =>
      let values := std_sort Z.ltb values in
      let n := zlen values in
      let index := u64 (double_ceil (double_mul (double_div percentile 100) (n, 0)) - 1) in
      nth (Z.to_nat (Z.min index (n - 1))) values 0
  end.

(** What the summary prints, but for the throughput, of which it has the two
    operands: the count of requests and the window in nanoseconds. *)
Record Summary := mkSummary {
  completed_count : Z;
  waiting_p50 : Z;
  waiting_p99 : Z;
  response_p50 : Z;
  response_p99 : Z;
  window_ns : Z;
  a14_total : Z;
  forfeited_total : Z
}.

Definition wait_of (row : RequestMetrics) : Z :=
  if m_arrival_ns row <=? m_start_ns row then m_start_ns row - m_arrival_ns row else 0.

Definition response_of (row : RequestMetrics) : Z :=
  if m_arrival_ns row <=? m_finish_ns row then m_finish_ns row - m_arrival_ns row else 0.

(** [None] when there is nothing to report but the count. *)
Definition print_summary (records_ : list RequestMetrics) : Z * option Summary :=
  let rows := snapshot records_ in
  (zlen rows,
   match rows with
   | [] => None
   | front :: _ =>
       let min_arrival := fold_left (fun a row => Z.min a (m_arrival_ns row)) rows (m_arrival_ns front) in
       let max_finish := fold_left (fun a row => Z.max a (m_finish_ns row)) rows (m_finish_ns front) in
       let waiting := map wait_of rows in
       let response := map response_of rows in
       Some (mkSummary (zlen rows) (nearest_rank waiting 50) (nearest_rank waiting 99)
         (nearest_rank response 50) (nearest_rank response 99) (u64 (max_finish - min_arrival))
         (fold_left (fun a row => u64 (a + m_a14_events row)) rows 0)
         (fold_left (fun a row => u64 (a + m_forfeited_bytes row)) rows 0))
   end).

End report.

(** ** The rank that is computed in floating point *)

Lemma ceil_div_unique a b k : 0 < b -> (k - 1) * b < a <= k * b -> (a + b - 1) / b = k.
Proof.
  intros Hb Ha. symmetry. apply (Z.div_unique_pos _ _ _ (a + b - 1 - b * k)); lia.
Qed.

(** A rounded value is within half a unit of the exact one. *)
Lemma round_half q d m :
  0 < d -> q = m / 2 ^ d -> 0 <= m ->
  let r := m mod 2 ^ d in
  let up := if r =? 2 ^ (d - 1) then Z.odd q else 2 ^ (d - 1) <? r in
  let q' := if up then q + 1 else q in
  - 2 ^ (d - 1) <= q' * 2 ^ d - m <= 2 ^ (d - 1).
Proof.
  intros Hd -> Hm r up q'. pose proof (Z.div_mod m (2 ^ d) ltac:(lia)) as Hdiv. fold r in Hdiv.
  pose proof (Z.mod_pos_bound m (2 ^ d) ltac:(lia)) as Hr. fold r in Hr.
  assert (Hpow : 2 ^ d = 2 * 2 ^ (d - 1)) by (rewrite <- Z.pow_succ_r by lia; f_equal; lia).
  subst q' up. destruct (Z.eqb_spec r (2 ^ (d - 1))).
  - destruct (Z.odd _); nia.
  - destruct (Z.ltb_spec (2 ^ (d - 1)) r); nia.
Qed.

Lemma percent_ceil p n :
  100 * ((p * n + 99) / 100 - 1) < p * n <= 100 * ((p * n + 99) / 100).
Proof.
  pose proof (Z.div_mod (p * n + 99) 100 ltac:(lia)).
  pose proof (Z.mod_pos_bound (p * n + 99) 100 ltac:(lia)). lia.
Qed.

(** The product of a percentage, [m0 / 2^53] with an error of at most 8 / 100
    units, and a count has the exact ceiling. *)
Lemma product_ceil p m0 n :
  2 ^ 52 <= m0 < 2 ^ 53 -> 0 <= p * 2 ^ 53 - 100 * m0 <= 8 -> 0 < n < 2 ^ 40 ->
  double_ceil (double_mul (m0, -53) (n, 0)) = (p * n + 99) / 100.
Proof.
  intros Hm0 Hc Hn. set (c := p * 2 ^ 53 - 100 * m0) in *.
  set (k := (p * n + 99) / 100).
  pose proof (percent_ceil p n) as Hk. fold k in Hk.
  assert (HM : 100 * (m0 * n) = p * n * 2 ^ 53 - c * n) by (subst c; lia).
  assert (Hcn : 0 <= c * n < 8 * 2 ^ 40) by nia.
  unfold double_mul, round53. cbn [fst snd]. set (M := m0 * n) in *.
  change (-53 + 0) with (-53).
  destruct (Z.ltb_spec M (2 ^ 53)).
  { cbn [double_ceil]. change (0 <=? -53) with false. cbv iota. change (- -53) with 53.
    apply ceil_div_unique; [lia|]. lia. }
  assert (Hpos : 0 < M) by lia.
  pose proof (Z.log2_spec M Hpos) as Hlog.
  assert (HlogM : 53 <= Z.log2 M <= 92).
  { split; [apply Z.log2_le_pow2; lia|]. apply Z.lt_succ_r, Z.log2_lt_pow2; [lia|].
    change (Z.succ 92) with (53 + 40). rewrite Z.pow_add_r by lia. subst M. nia. }
  set (d := Z.log2 M - 52). assert (Hd : 1 <= d <= 40) by lia.
  pose proof (round_half (M / 2 ^ d) d M ltac:(lia) eq_refl ltac:(lia)) as Hq. cbv zeta in Hq.
  cbv zeta. match goal with |- double_ceil (?x, _) = _ => set (q := x) in * end.
  unfold double_ceil. destruct (Z.leb_spec 0 (-53 + d)); [lia|].
  replace (- (-53 + d)) with (53 - d) by lia.
  assert (Hhalf : 0 < 2 ^ (d - 1) <= 2 ^ 39) by (split; [lia|apply Z.pow_le_mono_r; lia]).
  assert (Hpow : 2 ^ d = 2 * 2 ^ (d - 1)) by (rewrite <- Z.pow_succ_r by lia; f_equal; lia).
  assert (H53 : 2 ^ 53 = 2 ^ (53 - d) * 2 ^ d) by (rewrite <- Z.pow_add_r by lia; f_equal; lia).
  apply ceil_div_unique; [lia|]. set (u := 2 ^ (53 - d)) in *.
  assert (Hlow : (k - 1) * 2 ^ 53 + 2 ^ (d - 1) < M) by lia.
  assert (Hup : M <= k * 2 ^ 53) by lia.
  rewrite H53 in Hlow, Hup. split; nia.
Qed.

Lemma rank_exact p n :
  p = 50 \/ p = 99 -> 0 < n < 2 ^ 40 ->
  double_ceil (double_mul (double_div p 100) (n, 0)) = (p * n + 99) / 100.
Proof.
  intros [-> | ->] Hn.
  - change (double_div 50 100) with (2 ^ 52, -53). by apply product_ceil.
  - change (double_div 99 100) with (8917127262193582, -53). by apply product_ceil.
Qed.

(** ** Theorems *)

Section theorems.
Context `{Hstd : !StdSort}.

#[local] Instance ltb_order : StrictWeakOrder Z.ltb.
Proof. split; intros; rewrite ?Z.ltb_lt, ?Z.ltb_ge in *; lia. Qed.

(** Around a position of a sorted list. *)
Lemma sorted_around (l1 l2 : list Z) v :
  StronglySorted (fun x y => (y <? x) = false) (l1 ++ v :: l2) ->
  Forall (fun x => x <= v) l1 /\ Forall (fun x => v <= x) l2.
Proof.
  induction l1 as [|x l1 IH]; simpl; intros H; apply StronglySorted_inv in H as [H Hx].
  - split; [constructor|]. eapply Forall_impl; [exact Hx|]. intros y Hy. by apply Z.ltb_ge.
  - destruct (IH H) as [H1 H2]. split; [|done]. constructor; [|done].
    apply Forall_app in Hx as [_ Hx]. inversion_clear Hx as [|? ? Hv _]. by apply Z.ltb_ge.
Qed.

Lemma nearest_rank_at values p :
  p = 50 \/ p = 99 -> 0 < zlen values < 2 ^ 40 ->
  nearest_rank values p =
  nth (Z.to_nat ((p * zlen values + 99) / 100 - 1)) (std_sort Z.ltb values) 0.
Proof.
  intros Hp Hn. destruct values as [|x l]; [change (zlen (@nil Z)) with 0 in Hn; lia|].
  unfold nearest_rank. set (values := x :: l) in *. cbv zeta.
  replace (zlen (std_sort Z.ltb values)) with (zlen values)
    by (unfold zlen; by rewrite (std_sort_perm Z.ltb values)).
  rewrite rank_exact by done. pose proof (percent_ceil p (zlen values)).
  rewrite u64_small by (unfold is_u64; lia). by rewrite Z.min_l by lia.
Qed.

(** C22: percentiles. [nearest_rank], which computes the rank in floating point,
    returns the percentile of the nearest-rank method exactly: one of the values,
    with at least that percentage of the values up to it and less than that
    percentage below it. *)
Theorem nearest_rank_spec values p :
  p = 50 \/ p = 99 -> 0 < zlen values < 2 ^ 40 ->
  let v := nearest_rank values p in
  v ∈ values /\
  100 * count_if (fun x => x <? v) values < p * zlen values <= 100 * count_if (fun x => x <=? v) values.
Proof.
  intros Hp Hn. pose proof (std_sort_perm Z.ltb values) as Hperm.
  rewrite (nearest_rank_at values p Hp Hn). cbv zeta.
  set (sorted := std_sort Z.ltb values) in *. set (k := (p * zlen values + 99) / 100).
  assert (Hlen : zlen sorted = zlen values) by (unfold zlen; by rewrite Hperm).
  pose proof (percent_ceil p (zlen values)) as Hk. fold k in Hk.
  destruct (nth_split sorted 0 (n := Z.to_nat (k - 1))) as (l1 & l2 & Es & Hl1).
  { unfold zlen in *. lia. }
  set (v := nth (Z.to_nat (k - 1)) sorted 0) in *. clearbody v.
  pose proof (std_sort_sorted Z.ltb values _) as Hsort. fold sorted in Hsort. rewrite Es in Hsort, Hperm.
  destruct (sorted_around _ _ _ Hsort) as [H1 H2].
  assert (Hz1 : zlen l1 = k - 1) by (unfold zlen; lia).
  split; [rewrite <- Hperm; apply elem_of_app; right; by left|].
  rewrite <- !(count_if_perm _ _ _ Hperm). rewrite !count_if_app.
  change (v :: l2) with ([v] ++ l2). rewrite !count_if_app.
  rewrite (count_if_none (fun x => x <? v) [v]), (count_if_none (fun x => x <? v) l2);
    [|eapply Forall_impl; [exact H2|]; intros y Hy; apply Z.ltb_ge, Hy
     |repeat constructor; apply Z.ltb_irrefl].
  rewrite (count_if_all (fun x => x <=? v) l1), (count_if_all (fun x => x <=? v) [v]);
    [|repeat constructor; apply Z.leb_refl
     |eapply Forall_impl; [exact H1|]; intros y Hy; apply Z.leb_le, Hy].
  pose proof (count_if_range (fun x => x <? v) l1). pose proof (count_if_range (fun x => x <=? v) l2).
  change (zlen [v]) with 1. lia.
Qed.

Instance by_request_id_order : StrictWeakOrder by_request_id.
Proof. unfold by_request_id. split; intros; rewrite ?Z.ltb_lt, ?Z.ltb_ge in *; lia. Qed.

Definition csv_text (rows : list RequestMetrics) : bytes := concat (map csv_row rows).

Lemma run_write_rows path rows content w :
  files w !! path = Some (File content) -> faults w = [] ->
  zlen content + zlen (csv_text rows) <= max_file_size ->
  run (write_rows path (zlen content) rows) w = Done true (set_file path (content ++ csv_text rows) w).
Proof.
  revert content w. induction rows as [|row rows IH]; intros content w Hp Hf Hl;
    unfold csv_text in *; cbn [write_rows map concat] in *.
  - by rewrite app_nil_r, set_file_id.
  - pose proof (zlen_nonneg (concat (map csv_row rows))). rewrite zlen_app in Hl.
    rewrite run_bind, (run_append path content) by (done || lia). cbn [negb].
    rewrite <- zlen_app, (IH (content ++ csv_row row)); [|apply lookup_insert_eq|done|].
    + f_equal. rewrite <- app_assoc. unfold set_file. destruct w. field_simpl. by rewrite insert_insert_eq.
    + rewrite zlen_app. lia.
Qed.

(** C23: the CSV file. After [write_csv] the file is the header line and one line
    for each completed request, no request lost or duplicated, in the order of the
    request ids; no other file changes. *)
Theorem write_csv_spec records_ path w :
  faults w = [] -> (forall d, files w !! path <> Some (Directory d)) ->
  zlen csv_header + zlen (csv_text records_) <= max_file_size ->
  exists rows w', run (write_csv records_ path) w = Done true w' /\
    files w' = <[path := File (csv_header ++ csv_text rows)]> (files w) /\
    rows ≡ₚ records_ /\
    StronglySorted (fun a b => m_request_id a <= m_request_id b) rows.
Proof.
  intros Hf Hd Hl. unfold write_csv. rewrite run_bind, run_open_trunc by done. cbn [negb].
  set (w1 := set_file path [] w). rewrite run_bind.
  change 0 with (zlen (@nil Ascii.ascii)).
  assert (H1 : files w1 !! path = Some (File [])) by apply lookup_insert_eq.
  pose proof (zlen_nonneg (csv_text records_)).
  rewrite (run_append path [] csv_header w1 H1) by (done || (rewrite zlen_nil; lia)). cbn [negb app].
  set (rows := std_sort by_request_id (snapshot records_)). cbv zeta.
  assert (Hperm : rows ≡ₚ records_) by apply std_sort_perm.
  assert (Hlen : zlen (csv_text rows) = zlen (csv_text records_)).
  { unfold csv_text, zlen. by rewrite Hperm. }
  rewrite (run_write_rows path rows csv_header); [|apply lookup_insert_eq|done|lia].
  exists rows. eexists. split; [done|]. split; [|split; [done|]].
  - change (<[path := File (csv_header ++ csv_text rows)]> (<[path := File csv_header]>
      (<[path := File []]> (files w))) = <[path := File (csv_header ++ csv_text rows)]> (files w)).
    by rewrite !insert_insert_eq.
  - pose proof (std_sort_sorted by_request_id (snapshot records_) _) as Hs. fold rows in Hs.
    clear -Hs. induction Hs as [|a l _ IH Ha]; constructor; [done|].
    eapply Forall_impl; [exact Ha|]. intros b Hb. by apply Z.ltb_ge.
Qed.

End theorems.

Lemma nearest_rank_witness :
  let v := nearest_rank [5; 1; 4; 2] 50 in
  v = 2 /\ v ∈ [5; 1; 4; 2] /\
  100 * count_if (fun x => x <? v) [5; 1; 4; 2] < 50 * 4 <= 100 * count_if (fun x => x <=? v) [5; 1; 4; 2].
Proof. split; [by vm_compute|]. apply (nearest_rank_spec [5; 1; 4; 2] 50); [by left|by vm_compute]. Defined.

Definition sample_record (id : Z) : RequestMetrics :=
  mkRequestMetrics id GET (str "a") 7 1 2 3 1 0 0.

Lemma write_csv_witness :
  exists rows w', run (write_csv [sample_record 2; sample_record 1] (str "m.csv")) initial_world =
      Done true w' /\
    files w' = <[str "m.csv" := File (csv_header ++ csv_text rows)]> ∅ /\
    rows ≡ₚ [sample_record 2; sample_record 1] /\
    StronglySorted (fun a b => m_request_id a <= m_request_id b) rows.
Proof. apply (write_csv_spec [sample_record 2; sample_record 1] (str "m.csv") initial_world); done. Defined.
