(* ===== verification/Socket.v ===== *)
(** Byte transport on a connection, [src/socket.h] and [src/socket.cpp]:
    the listening socket, sending everything, receiving with a timeout, reading the
    header line. *)

From S2P Require Import Prelude Text Queue Metrics Effects FileIO.

Local Open Scope Z_scope.

(** ** [socket.cpp] *)

(** [htons] takes a [uint16_t]. *)
Definition u16 (z : Z) : Z := z mod 2 ^ 16.

(** The calls that make a listening socket; [bind] is given the address that
    [inet_pton] has converted. *)
Section listening.
Context (socket_ : prog Z) (setsockopt : Z -> prog Z) (inet_pton : bytes -> prog Z).
Context (bind_ : Z -> bytes -> Z -> prog Z) (listen_ : Z -> Z -> prog Z).

Definition close_and_fail (fd : Z) : prog Z := _ ← call (CloseFd fd); Ret (-1).

Definition create_listening_socket (ip : bytes) (port : Z) : prog Z :=
  listen_socket ← socket_;
  if listen_socket <? 0 then Ret (-1)
  else
    reuse ← setsockopt listen_socket;
    if reuse <? 0 then close_and_fail listen_socket
    else
      converted ← inet_pton ip;
      if converted <=? 0 then close_and_fail listen_socket
      else
        bound ← bind_ listen_socket ip (u16 port);
        if bound <? 0 then close_and_fail listen_socket
        else
          listening ← listen_ listen_socket 128;
          if listening <? 0 then close_and_fail listen_socket
          else Ret listen_socket.

End listening.

Definition accept_connection (listen_socket : Z) : prog Z :=
  client_socket ← call (AcceptFd listen_socket);
  if client_socket <? 0 then Ret (-1) else Ret client_socket.

(** The result of [send] is -1 or the number of bytes it took. *)
Definition send_data (fd : Z) (data : bytes) : prog Z := call (Send fd data).

Definition recv_data_with_timeout (fd size timeout_ms : Z) : prog recv_result :=
  let tv_sec := timeout_ms ÷ 1000 in
  let tv_usec := Z.rem timeout_ms 1000 * 1000 in
  select_result ← call (Select fd (tv_sec * 1000000000 + tv_usec * 1000));
  if select_result <? 0 then Ret RecvError
  else if select_result =? 0 then Ret (Received [])
  else call (Recv fd size).

(** The [for] loop of [read_header_line] over a received block: the new [line],
    and the bytes after the newline when there is one. *)
Fixpoint scan_header (line block : bytes) : bytes * option bytes :=
  match block with
  | [] => (line, None)
  | c :: block' =>
      let line := line ++ [c] in
      if decide (c = newline) then (line, Some block') else scan_header line block'
  end.

(** The [while] loop; every turn adds a byte, so that 8192 turns fill [line]. *)
Fixpoint read_header_loop (fuel : nat) (fd deadline : Z) (line : bytes) : prog (bytes * bytes) :=
  if zlen line <? 8192 then
    match fuel with
    | O => OutOfFuel
    | S fuel' =>
        now ← call SteadyNow;
        if deadline <=? now then Ret ([], [])
        else
          let remaining := (deadline - now) ÷ 1000000 in
          let remaining_ms := i32 (if 0 <? remaining then remaining else 1) in
          n ← recv_data_with_timeout fd 4096 remaining_ms;
          match n with
          | RecvError | Received [] => Ret ([], [])
          | Received block =>
              match scan_header line block with
              | (line, Some leftover) => Ret (line, leftover)
              | (line, None) => read_header_loop fuel' fd deadline line
              end
          end
    end
  else Ret ([], []).

(** The line and [leftover]; the empty line on a timeout or an error. *)
Definition read_header_line (fd timeout_ms : Z) : prog (bytes * bytes) :=
  now ← call SteadyNow;
  read_header_loop (Z.to_nat 8193) fd (now + timeout_ms * 1000000) [].

(** The [while] loop of [send_all]; every turn sends a byte or fails. *)
Fixpoint send_all_loop (fuel : nat) (fd : Z) (data : bytes) (bytes_sent : Z) : prog bool :=
  if bytes_sent <? zlen data then
    match fuel with
    | O => OutOfFuel
    | S fuel' =>
        n ← call (Send fd (zdrop bytes_sent data));
        if n <? 0 then Ret false
        else send_all_loop fuel' fd data (u64 (bytes_sent + n))
    end
  else Ret true.

Definition send_all (fd : Z) (data : bytes) : prog bool :=
  send_all_loop (S (length data)) fd data 0.

Definition close_socket (fd : Z) : prog unit :=
  if 0 <=? fd then call (CloseFd fd) else Ret tt.

(** ** Specification *)

(** What a socket that behaves as [tx] says makes of [data]: whether all of it
    was accepted, the part that was, and the rest of the tape. *)
Fixpoint deliver (tx : list tx_event) (data : bytes) : bool * bytes * list tx_event :=
  match data, tx with
  | [], _ => (true, [], tx)
  | _, [] => (true, data, [])
  | _, SendFails :: l => (false, [], l)
  | _, Accept n :: l =>
      let k := Z.of_nat n + 1 in
      let '(ok, more, l') := deliver l (zdrop k data) in
      (ok, ztake k data ++ more, l')
  end.

(** [data] went out on [fd] and nothing else happened, and no send is going to
    fail there. *)
Definition sent_on (fd : Z) (data : bytes) (w w' : world) : Prop :=
  exists s t, socks w !! fd = Some s /\ (SendFails ∉ t) /\
    w' = set_sock fd (mkSock (rx s) t (sent s ++ data)) w.

(** The connection is open and sends on it do not fail. *)
Definition sendable (fd : Z) (w : world) : Prop :=
  exists s, socks w !! fd = Some s /\ SendFails ∉ tx s.

(** The bytes that arrive according to a tape. *)
Fixpoint arrived (l : list rx_event) : bytes :=
  match l with
  | [] => []
  | Arrive bs :: l' => bs ++ arrived l'
  | PeerClosed :: _ => []
  | _ :: l' => arrived l'
  end.

(** Nothing arrives next: the connection stays quiet, fails or has ended. *)
Definition stops (l : list rx_event) : Prop :=
  match l with Arrive _ :: _ => False | _ => True end.

(** Only blocks with bytes in them arrive. *)
Definition real_arrivals (l : list rx_event) : Prop :=
  Forall (fun e => e <> Arrive []) l.

(** How reading a header line can end, from the tape [l] with the bytes of
    [line] read already to the tape [l'] at time [t].

    It gives up for one of three reasons: nothing more arrives after blocks
    that hold no newline; 8192 bytes without a newline have been read; or the
    deadline has passed and there has been no newline. *)
Definition gives_up (deadline : Z) (line : bytes) (l l' : list rx_event) (t : Z) : Prop :=
  (exists blocks l0, l = map Arrive blocks ++ l0 /\ (newline ∉ concat blocks) /\
     zlen (line ++ concat blocks) < 8192 /\ stops l0) \/
  (exists got, arrived l = got ++ arrived l' /\ (newline ∉ got) /\
     (8192 <= zlen (line ++ got) \/ deadline <= t)).

(** It has read a line before the deadline: what precedes the first newline,
    with the newline; the line, [leftover] and what has not been read yet make
    up what had arrived. *)
Definition reads_line (deadline : Z) (line : bytes) (l l' : list rx_event) (t : Z)
    (res leftover : bytes) : Prop :=
  exists text, res = text ++ [newline] /\ (newline ∉ text) /\ zlen res <= 12288 /\
    line ++ arrived l = res ++ leftover ++ arrived l' /\ t < deadline.

(** ** Lemmas *)

Lemma deliver_all tx data :
  SendFails ∉ tx ->
  exists t, deliver tx data = (true, data, t) /\ SendFails ∉ t.
Proof.
  revert data. induction tx as [|[n|] tx IH]; intros data Hok.
  - exists []. by destruct data.
  - apply not_elem_of_cons in Hok as [_ Hok].
    destruct (IH (zdrop (Z.of_nat n + 1) data) Hok) as (t & Ht & Hf).
    destruct data as [|c data]; [exists (Accept n :: tx)|exists t].
    + split; [done|]. by apply not_elem_of_cons.
    + cbn [deliver]. rewrite Ht. by rewrite ztake_zdrop.
  - by apply not_elem_of_cons in Hok as [? _].
Qed.

Lemma deliver_prefix tx data ok part t :
  deliver tx data = (ok, part, t) ->
  exists rest, data = part ++ rest /\ (ok = true <-> rest = []) /\
    (ok = false -> SendFails ∈ tx).
Proof.
  revert data ok part t. induction tx as [|[n|] tx IH]; intros data ok part t;
    destruct data as [|c data]; simpl; intros H; simplify_eq; try (by eexists).
  - eexists. by rewrite app_nil_r.
  - destruct (deliver tx (zdrop (Z.of_nat n + 1) (c :: data))) as [[ok' more] l'] eqn:E.
    simplify_eq. destruct (IH _ _ _ _ E) as (rest & H1 & H2 & H3).
    exists rest. rewrite <- app_assoc, <- H1, ztake_zdrop. split_and!; [done|done|].
    intros. right. auto.
  - eexists. split_and!; [done|done|]. by left.
Qed.

Lemma send_bytes_deliver data s :
  data <> [] ->
  let '(n, s') := send_bytes data s in
  let '(ok, part, t) := deliver (tx s) data in
  if n <? 0 then ok = false /\ s' = mkSock (rx s) t (sent s) /\ part = []
  else
    0 < n <= zlen data /\ rx s' = rx s /\ sent s' = sent s ++ ztake n data /\
    deliver (tx s') (zdrop n data) = (ok, zdrop n part, t) /\
    ztake n part = ztake n data.
Proof.
  intros Hne. assert (Hpos : 0 < zlen data) by (destruct data; [done|list_lia]).
  destruct s as [r t0 o]. unfold send_bytes. field_simpl.
  destruct t0 as [|[n|] l]; field_simpl.
  - destruct (Z.ltb_spec (zlen data) 0); [lia|]. destruct data as [|c data]; [done|].
    cbn [deliver]. rewrite zdrop_all, ztake_all by lia. split_and!; (done || lia).
  - set (m := Z.min (zlen data) (Z.of_nat n + 1)).
    destruct (Z.ltb_spec m 0); [lia|].
    assert (ztake m data = ztake (Z.of_nat n + 1) data /\
      zdrop m data = zdrop (Z.of_nat n + 1) data) as [Ht Hd].
    { subst m. destruct (Z.min_spec (zlen data) (Z.of_nat n + 1)) as [[? ->]|[? ->]]; [|done].
      by rewrite !ztake_all, !zdrop_all by lia. }
    destruct data as [|c data]; [done|]. cbn [deliver].
    destruct (deliver l (zdrop (Z.of_nat n + 1) (c :: data))) as [[ok more] l'] eqn:E.
    assert (Hm : m = zlen (ztake (Z.of_nat n + 1) (c :: data))) by (rewrite zlen_ztake; lia).
    rewrite Hd, E. split_and!; try done; try lia.
    + by rewrite zdrop_app_exact.
    + rewrite ztake_app_exact by done. by rewrite <- Ht.
  - destruct data; [done|]. by cbn [deliver].
Qed.

Lemma set_sock_id fd s w : socks w !! fd = Some s -> set_sock fd s w = w.
Proof.
  intros H. destruct w. unfold set_sock. field_simpl. by rewrite insert_id.
Qed.

Lemma set_sock_twice fd s s' w : set_sock fd s' (set_sock fd s w) = set_sock fd s' w.
Proof. destruct w. unfold set_sock. field_simpl. by rewrite insert_insert_eq. Qed.

Lemma lookup_set_sock fd s w : socks (set_sock fd s w) !! fd = Some s.
Proof. destruct w. unfold set_sock. field_simpl. by rewrite lookup_insert_eq. Qed.

(** One turn of the loop of [send_all] and the rest of it. *)
Lemma run_send_all_loop fuel fd data bytes_sent s w :
  socks w !! fd = Some s -> zlen data < 2 ^ 64 -> 0 <= bytes_sent <= zlen data ->
  zlen data - bytes_sent <= Z.of_nat fuel ->
  run (send_all_loop fuel fd data bytes_sent) w =
    let '(ok, part, t) := deliver (tx s) (zdrop bytes_sent data) in
    Done ok (set_sock fd (mkSock (rx s) t (sent s ++ part)) w).
Proof.
  revert bytes_sent s w. induction fuel as [|fuel IH]; intros bytes_sent s w Hs Hl Hb Hfuel;
    cbn [send_all_loop]; destruct (Z.ltb_spec bytes_sent (zlen data)) as [Hlt|Hge]; try lia.
  1, 3: rewrite zdrop_all by lia; destruct s as [r [|e t] o]; simpl; rewrite app_nil_r;
    by rewrite set_sock_id.
  pose proof (zlen_zdrop bytes_sent data ltac:(lia)) as Hlen.
  assert (Hne : zdrop bytes_sent data <> []) by (intros E; rewrite E in Hlen; list_lia).
  pose proof (send_bytes_deliver (zdrop bytes_sent data) s Hne) as Hd.
  rewrite run_bind, run_call. cbn [handle]. unfold send_sock. rewrite Hs.
  destruct (send_bytes (zdrop bytes_sent data) s) as [n s'].
  destruct (deliver (tx s) (zdrop bytes_sent data)) as [[ok part] t].
  destruct (Z.ltb_spec n 0) as [Hn|Hn].
  { destruct Hd as (-> & -> & ->). by rewrite app_nil_r. }
  destruct Hd as (Hn' & Hrx & Hsent & Hdel & Hpart). rewrite zdrop_zdrop in Hdel by lia.
  rewrite u64_small by word. rewrite (IH (bytes_sent + n) s'); [|apply lookup_set_sock|lia..].
  rewrite Hdel, set_sock_twice, Hrx, Hsent, <- app_assoc, <- Hpart, ztake_zdrop. done.
Qed.

(** C33: [send_all].  However the kernel splits the transfer, [send_all]
    terminates; what it sent is a prefix of the data in order, all of it exactly
    when it returns true, and it returns true unless a [send] failed. *)
Theorem send_all_spec fd data s w :
  socks w !! fd = Some s -> zlen data < 2 ^ 64 ->
  exists ok part rest t,
    run (send_all fd data) w = Done ok (set_sock fd (mkSock (rx s) t (sent s ++ part)) w) /\
    data = part ++ rest /\ (ok = true <-> rest = []) /\ (ok = false -> SendFails ∈ tx s).
Proof.
  intros Hs Hl. destruct (deliver (tx s) data) as [[ok part] t] eqn:E.
  destruct (deliver_prefix _ _ _ _ _ E) as (rest & H1 & H2 & H3).
  exists ok, part, rest, t. split; [|done]. unfold send_all.
  rewrite (run_send_all_loop _ _ _ _ s) by (done || unfold zlen in *; lia).
  rewrite zdrop_0 by lia. by rewrite E.
Qed.

(** The form the callers use: nothing fails, everything goes out. *)
Lemma run_send_all fd data w :
  sendable fd w -> zlen data < 2 ^ 64 ->
  exists w', run (send_all fd data) w = Done true w' /\ sent_on fd data w w'.
Proof.
  intros (s & Hs & Hok) Hl. destruct (deliver_all (tx s) data Hok) as (t & Ht & Hf).
  exists (set_sock fd (mkSock (rx s) t (sent s ++ data)) w). split; [|by exists s, t].
  unfold send_all. rewrite (run_send_all_loop _ _ _ _ s) by (done || unfold zlen in *; lia).
  rewrite zdrop_0 by lia. by rewrite Ht.
Qed.

Lemma sent_on_sendable fd data w w' : sent_on fd data w w' -> sendable fd w'.
Proof. intros (s & t & _ & Ht & ->). eexists. split; [apply lookup_set_sock|done]. Qed.

Lemma sent_on_trans fd d1 d2 w1 w2 w3 :
  sent_on fd d1 w1 w2 -> sent_on fd d2 w2 w3 -> sent_on fd (d1 ++ d2) w1 w3.
Proof.
  intros (s & t & Hs & Ht & ->) (s' & t' & Hs' & Ht' & ->).
  rewrite lookup_set_sock in Hs'. simplify_eq. exists s, t'. split_and!; [done|done|].
  rewrite set_sock_twice. cbn. by rewrite app_assoc.
Qed.

Lemma sent_on_nothing fd w : sendable fd w -> sent_on fd [] w w.
Proof.
  intros (s & Hs & Hok). exists s, (tx s). split_and!; [done|done|].
  rewrite app_nil_r. destruct s. by rewrite set_sock_id.
Qed.

Lemma sent_on_files fd data w w' :
  sent_on fd data w w' -> files w' = files w /\ faults w' = faults w.
Proof. by intros (s & t & _ & _ & ->). Qed.

(** ** Reading the header *)

Lemma scan_header_spec line block :
  match scan_header line block with
  | (l, Some leftover) => exists text, l = line ++ text ++ [newline] /\ (newline ∉ text) /\
      block = text ++ newline :: leftover
  | (l, None) => l = line ++ block /\ newline ∉ block
  end.
Proof.
  revert line. induction block as [|c block IH]; intros line; simpl.
  { rewrite app_nil_r. split; [done|]. apply not_elem_of_nil. }
  case_decide as Hc.
  - subst. exists []. split_and!; [done|apply not_elem_of_nil|done].
  - specialize (IH (line ++ [c])). destruct (scan_header (line ++ [c]) block) as [l [leftover|]].
    + destruct IH as (text & -> & Ht & ->). exists (c :: text). rewrite <- app_assoc.
      split_and!; [done| |done]. by apply not_elem_of_cons.
    + destruct IH as [-> Hb]. rewrite <- app_assoc. split; [done|]. by apply not_elem_of_cons.
Qed.

(** [bs] are the first bytes of the block at the head of the tape, and [l'] is
    the tape without them. *)
Definition block_taken (bs : bytes) (l l' : list rx_event) : Prop :=
  exists rest tl, l = Arrive (bs ++ rest) :: tl /\
    l' = match rest with [] => tl | _ => Arrive rest :: tl end.

Lemma block_taken_arrived bs l l' : block_taken bs l l' -> arrived l = bs ++ arrived l'.
Proof.
  intros (rest & tl & -> & ->). cbn. rewrite <- app_assoc. by destruct rest.
Qed.

Lemma block_taken_real bs l l' : block_taken bs l l' -> real_arrivals l -> real_arrivals l'.
Proof.
  intros (rest & tl & -> & ->) H. inversion_clear H as [|? ? _ Htl].
  destruct rest; [done|]. by constructor.
Qed.

(** Blocks after the one that was taken are blocks of the whole tape. *)
Lemma block_taken_blocks bs l l' blocks l0 :
  block_taken bs l l' -> l' = map Arrive blocks ++ l0 -> stops l0 ->
  exists blocks', l = map Arrive blocks' ++ l0 /\ concat blocks' = bs ++ concat blocks.
Proof.
  intros (rest & tl & -> & El') E Hstop. rewrite El' in E. destruct rest as [|c rest].
  - exists (bs :: blocks). rewrite app_nil_r, E. done.
  - destruct blocks as [|b blocks]; simpl in E; [by subst l0|]. simplify_eq.
    exists ((bs ++ c :: rest) :: blocks). split; [done|]. cbn [concat].
    by rewrite <- app_assoc.
Qed.

(** What a call of [recv_data_with_timeout] returns and does to the tape. *)
Lemma run_recv_data fd size timeout_ms s w :
  socks w !! fd = Some s -> fd <> listen_socket -> 0 < size -> real_arrivals (rx s) ->
  exists r w' s',
    run (recv_data_with_timeout fd size timeout_ms) w = Done r w' /\
    socks w' !! fd = Some s' /\
    match r with
    | RecvError | Received [] => stops (rx s)
    | Received bs => zlen bs <= size /\ block_taken bs (rx s) (rx s') /\ now w' = now w
    end.
Proof.
  intros Hs Hfd Hsize Hr. unfold recv_data_with_timeout. rewrite run_bind, run_call.
  cbn [handle]. rewrite (proj2 (Z.eqb_neq _ _) Hfd). unfold select_sock. rewrite Hs.
  assert (Hrecv : forall r l, recv_rx size (rx s) = (r, l) ->
    run (call (Recv fd size)) w = Done r (set_sock fd (s <| rx := l |>) w)).
  { intros r l E. rewrite run_call. cbn [handle]. unfold recv_sock. by rewrite Hs, E. }
  pose proof (lookup_set_sock fd) as Hlook.
  destruct (rx s) as [|[bs| | | |] l] eqn:E; cbn.
  - eexists _, _, _. split; [by apply Hrecv|]. by rewrite Hlook.
  - inversion_clear Hr as [|? ? He _]. destruct (Z.leb_spec (zlen bs) size).
    + eexists _, _, _. split; [apply Hrecv; simpl; by rewrite (proj2 (Z.leb_le _ _))|].
      rewrite Hlook. split; [done|]. destruct bs as [|c bs]; [done|].
      split_and!; [done| |done]. exists [], l. by rewrite app_nil_r.
    + eexists _, _, _. split; [apply Hrecv; simpl; by rewrite (proj2 (Z.leb_gt _ _))|].
      rewrite Hlook. split; [done|].
      pose proof (zlen_ztake size bs ltac:(lia)). pose proof (zlen_zdrop size bs ltac:(lia)).
      destruct (ztake size bs) as [|c b] eqn:Et; [list_lia|]. rewrite <- Et in *.
      split_and!; [lia| |done]. exists (zdrop size bs), l. rewrite ztake_zdrop.
      split; [done|]. by destruct (zdrop size bs); [list_lia|].
  - eexists (Received []), _, (s <| rx := l |>). split; [done|].
    unfold wait_ns. field_simpl. by rewrite lookup_insert_eq.
  - eexists RecvError, _, (s <| rx := l |>). split; [done|]. by rewrite Hlook.
  - eexists _, _, _. split; [by apply Hrecv|]. by rewrite Hlook.
  - eexists _, _, _. split; [by apply Hrecv|]. by rewrite Hlook.
Qed.

(** Reading on after a block without a newline. *)
Lemma gives_up_block deadline line bs l1 l2 l' t :
  block_taken bs l1 l2 -> newline ∉ bs ->
  gives_up deadline (line ++ bs) l2 l' t -> gives_up deadline line l1 l' t.
Proof.
  intros Hb Hbs [(blocks & l0 & E & Hnl & Hlen & Hstop)|(got & Ha & Hnl & Hwhy)].
  - destruct (block_taken_blocks _ _ _ _ _ Hb E Hstop) as (blocks' & -> & Ec).
    left. exists blocks', l0. rewrite Ec, not_elem_of_app, app_assoc. done.
  - right. exists (bs ++ got). rewrite (block_taken_arrived _ _ _ Hb), Ha.
    rewrite not_elem_of_app, !app_assoc. done.
Qed.

Lemma run_read_header_loop fuel fd deadline line s w :
  socks w !! fd = Some s -> fd <> listen_socket -> real_arrivals (rx s) ->
  newline ∉ line -> 8192 - zlen line < Z.of_nat fuel ->
  exists line' leftover w' s',
    run (read_header_loop fuel fd deadline line) w = Done (line', leftover) w' /\
    socks w' !! fd = Some s' /\
    (line' = [] /\ leftover = [] /\ gives_up deadline line (rx s) (rx s') (now w') \/
     reads_line deadline line (rx s) (rx s') (now w') line' leftover).
Proof.
  revert line s w. induction fuel as [|fuel IH]; intros line s w Hs Hfd Hr Hline Hfuel;
    cbn [read_header_loop]; destruct (Z.ltb_spec (zlen line) 8192) as [Hlt|Hge]; try lia.
  1, 3: exists [], [], w, s; split_and!; [done|done|]; left; split_and!; [done|done|]; right;
    exists []; rewrite app_nil_r; split_and!; [done|apply not_elem_of_nil|by left].
  rewrite run_bind, run_call. cbn [handle].
  assert (Hs' : socks (tick w) !! fd = Some s) by (unfold tick; by destruct (ticks w)).
  cbv beta zeta iota. destruct (Z.leb_spec deadline (now (tick w))) as [Hlate|Hearly].
  { exists [], [], (tick w), s. split_and!; [done|done|]. left. split_and!; [done|done|]. right.
    exists []. rewrite app_nil_r. split_and!; [done|apply not_elem_of_nil|by right]. }
  cbv zeta. rewrite run_bind.
  match goal with |- context [recv_data_with_timeout fd 4096 ?t] => set (ms := t) end.
  destruct (run_recv_data fd 4096 ms s (tick w) Hs' Hfd ltac:(lia) Hr)
    as (r & w' & s' & -> & Hw' & Hm).
  destruct r as [|[|c block]].
  1, 2: exists [], [], w', s'; split_and!; [done|done|]; left; split_and!; [done|done|]; left;
    exists [], (rx s); rewrite app_nil_r; split_and!; try done; apply not_elem_of_nil.
  destruct Hm as (Hsize & Hb & Hnow). pose proof (block_taken_arrived _ _ _ Hb) as Ha.
  pose proof (block_taken_real _ _ _ Hb Hr) as Hr'.
  pose proof (scan_header_spec line (c :: block)) as Hscan.
  destruct (scan_header line (c :: block)) as [l [leftover|]].
  - destruct Hscan as (text & -> & Ht & E). exists (line ++ text ++ [newline]), leftover, w', s'.
    split_and!; [done|done|]. right. exists (line ++ text). rewrite Ha, E in *.
    split_and!; [by rewrite <- app_assoc|by rewrite not_elem_of_app|list_lia| |lia].
    by rewrite <- !app_assoc.
  - destruct Hscan as [-> Hnl].
    destruct (IH (line ++ c :: block) s' w') as (line' & leftover & w'' & s'' & Hrun & Hw'' & Hres);
      [done|done|done|by rewrite not_elem_of_app|list_lia|].
    exists line', leftover, w'', s''. split_and!; [done|done|].
    destruct Hres as [(-> & -> & Hup)|(text & -> & Ht & Hl & E & Hn)].
    + left. split_and!; [done|done|]. by eapply gives_up_block.
    + right. exists text. rewrite Ha. rewrite <- app_assoc in E. done.
Qed.

(** C34: the request header.  However the bytes of a connection are cut into
    blocks and delayed, [read_header_line] terminates.  It returns the bytes up
    to the first newline, at most 12288 of them, as the line, and as [leftover]
    those that were received with them, so that the line, the leftover and what
    the connection still delivers are exactly what it delivered; then the
    deadline has not passed.  Or it returns the empty line and no leftover, and
    then only for a reason: the connection fell quiet, failed or ended before a
    newline, 8192 bytes came without a newline, or the deadline passed before a
    newline was read. *)
Theorem read_header_line_spec fd timeout_ms s w :
  socks w !! fd = Some s -> fd <> listen_socket -> real_arrivals (rx s) ->
  let deadline := now (tick w) + timeout_ms * 1000000 in
  exists line leftover w' s',
    run (read_header_line fd timeout_ms) w = Done (line, leftover) w' /\
    socks w' !! fd = Some s' /\
    (line = [] /\ leftover = [] /\ gives_up deadline [] (rx s) (rx s') (now w') \/
     reads_line deadline [] (rx s) (rx s') (now w') line leftover).
Proof.
  intros Hs Hfd Hr deadline. unfold read_header_line. rewrite run_bind, run_call. cbn [handle].
  assert (Hs' : socks (tick w) !! fd = Some s) by (unfold tick; by destruct (ticks w)).
  apply (run_read_header_loop (Z.to_nat 8193) fd _ [] s (tick w) Hs' Hfd Hr);
    [apply not_elem_of_nil|]. rewrite Z2Nat.id by lia. done.
Qed.

(** ** The listening socket *)

(** [create_listening_socket] returns an open socket, or it fails and leaves no
    socket behind, whichever of its calls fails. *)
Section listening.
Context (socket_ : prog Z) (setsockopt : Z -> prog Z) (inet_pton : bytes -> prog Z).
Context (bind_ : Z -> bytes -> Z -> prog Z) (listen_ : Z -> Z -> prog Z).

(** The call returns and opens and closes nothing. *)
Definition leaves_sockets (p : prog Z) : Prop :=
  forall w, exists r w', run p w = Done r w' /\ socks w' = socks w.

Context (Hsocket : forall w, exists fd w', run socket_ w = Done fd w' /\
  ((fd < 0 /\ socks w' = socks w) \/
   exists c, 0 <= fd /\ socks w !! fd = None /\ socks w' = <[fd := c]> (socks w))).
Context (Hsetsockopt : forall fd, leaves_sockets (setsockopt fd)).
Context (Hinet_pton : forall ip, leaves_sockets (inet_pton ip)).
Context (Hbind : forall fd ip port, leaves_sockets (bind_ fd ip port)).
Context (Hlisten : forall fd backlog, leaves_sockets (listen_ fd backlog)).

(** [fd] has been opened since [w0]. *)
Definition opened_since (w0 : world) (fd : Z) (w : world) : Prop :=
  socks w0 !! fd = None /\ exists c, socks w = <[fd := c]> (socks w0).

Definition open_or_nothing (w0 : world) (p : prog Z) (w : world) : Prop :=
  exists r w', run p w = Done r w' /\
    ((r = -1 /\ socks w' = socks w0) \/ (0 <= r /\ opened_since w0 r w')).

Lemma close_and_fail_cleans w0 fd w :
  opened_since w0 fd w -> open_or_nothing w0 (close_and_fail fd) w.
Proof.
  intros (Hn & c & Hc). eexists (-1), _. split; [done|]. left. split; [done|].
  unfold close_sock. rewrite Hc, lookup_insert_eq. destruct w; cbn in *. rewrite Hc.
  by rewrite delete_insert_id.
Qed.

(** A call that can fail, then the rest. *)
Lemma after_call w0 fd w (p : prog Z) (bad : Z -> bool) k :
  opened_since w0 fd w -> leaves_sockets p ->
  (forall w', opened_since w0 fd w' -> open_or_nothing w0 k w') ->
  open_or_nothing w0 (r ← p; if bad r then close_and_fail fd else k) w.
Proof.
  intros Ho Hp Hk. destruct (Hp w) as (r & w' & Hr & Hs). unfold open_or_nothing.
  rewrite run_bind, Hr.
  assert (opened_since w0 fd w') by (destruct Ho as (? & c & ?); split; [done|]; exists c; by rewrite Hs).
  destruct (bad r); [by apply close_and_fail_cleans|by apply Hk].
Qed.

Lemma create_listening_socket_spec ip port w :
  open_or_nothing w
    (create_listening_socket socket_ setsockopt inet_pton bind_ listen_ ip port) w.
Proof.
  unfold create_listening_socket, open_or_nothing. rewrite run_bind.
  destruct (Hsocket w) as (fd & w1 & -> & [[Hfd Hs]|(c & Hfd & Hn & Hs)]).
  { destruct (Z.ltb_spec fd 0); [|lia]. eexists _, _. split; [done|]. by left. }
  destruct (Z.ltb_spec fd 0); [lia|]. assert (opened_since w fd w1) by (split; [done|by exists c]).
  apply (after_call w fd w1 _ (fun r => r <? 0)); [done|done|]. intros w2 ?.
  apply (after_call w fd w2 _ (fun r => r <=? 0)); [done|done|]. intros w3 ?.
  apply (after_call w fd w3 _ (fun r => r <? 0)); [done|done|]. intros w4 ?.
  apply (after_call w fd w4 _ (fun r => r <? 0)); [done|done|]. intros w5 ?.
  exists fd, w5. split; [done|]. by right.
Qed.

End listening.

(** ** Concrete connections *)

(** A connection that delivers [blocks] and accepts two bytes at the first send. *)
Definition sample_sock (blocks : list bytes) : sock := mkSock (map Arrive blocks) [Accept 1] [].

Definition sample_conn (blocks : list bytes) : world :=
  initial_world <| socks := {[4 := sample_sock blocks]} |>.

(** The first [send] accepts two bytes and the second fails. *)
Lemma send_all_witness :
  let c := mkSock [] [Accept 1; SendFails] [] in
  let w := initial_world <| socks := {[4 := c]} |> in
  exists ok part rest t,
    run (send_all 4 (str "hello")) w = Done ok (set_sock 4 (mkSock [] t part) w) /\
    str "hello" = part ++ rest /\ (ok = true <-> rest = []) /\ (ok = false -> SendFails ∈ tx c).
Proof.
  intros c w.
  destruct (send_all_spec 4 (str "hello") c w)
    as (ok & part & rest & t & H1 & H2 & H3); [done|done|]. by exists ok, part, rest, t.
Defined.

(** Three blocks and a clock that stands still: the line is found in the second
    block, and what follows it there is the leftover. *)
Lemma header_witness :
  let blocks := [str "GE"; str "T a" ++ [newline] ++ str "x"; str "y"] in
  exists w' s',
    run (read_header_line 4 1000) (sample_conn blocks) =
      Done (str "GET a" ++ [newline], str "x") w' /\
    socks w' !! 4 = Some s' /\
    reads_line 1000000000 [] (rx (sample_sock blocks)) (rx s') (now w')
      (str "GET a" ++ [newline]) (str "x").
Proof.
  intros blocks.
  destruct (read_header_line_spec 4 1000 (sample_sock blocks) (sample_conn blocks))
    as (line & leftover & w' & s' & Hrun & Hs' & Hcase); [done|done|by repeat constructor|].
  assert (match run (read_header_line 4 1000) (sample_conn blocks) with
    | Done r _ => r = (str "GET a" ++ [newline], str "x") | _ => False end) as E by by vm_compute.
  rewrite Hrun in E. injection E as -> ->. exists w', s'. split; [exact Hrun|].
  split; [exact Hs'|]. destruct Hcase as [(? & _)|Hcase]; [discriminate|exact Hcase].
Defined.
