(* ===== verification/Protocol.v ===== *)
(** The wire protocol, [src/protocol.h] and [src/protocol.cpp]: parsing of the
    request header and the two kinds of response.  The lines that
    [src/client.cpp] sends and the way it reads a status line are here too,
    because the round trips between the two sides are about both. *)

From S2P Require Import Prelude Text Queue Metrics Effects FileIO Socket.

Local Open Scope Z_scope.

(** ** Requests *)

Definition is_eol (c : Ascii.ascii) : bool := (code c =? 10) || (code c =? 13).

Fixpoint skip_eol (s : bytes) : bytes :=
  match s with
  | c :: s' => if is_eol c then skip_eol s' else s
  | [] => []
  end.

(** [while (back() == '\n' || back() == '\r') pop_back()]. *)
Definition strip_eol (line : bytes) : bytes := rev (skip_eol (rev line)).

Definition parse_request_header (header_line : bytes) (fd : Z) : result Request :=
  let line := strip_eol header_line in
  if beq line [] then Throw (str "empty request")
  else
    match extract line with
    | None => Throw (str "missing operation")
    | Some (word, iss) =>
        let operation := map toupper word in
        let request := new_Request <| client_fd := fd |> in
        if beq operation (str "HEALTH") then
          match extract iss with
          | Some _ => Throw (str "HEALTH takes no arguments")
          | None => Ok (request <| op := HEALTH |> <| filename := [] |> <| total_bytes := 0 |>)
          end
        else if beq operation (str "GET") then
          match extract iss with
          | None => Throw (str "GET requires filename")
          | Some (name, iss) =>
              match extract iss with
              | Some _ => Throw (str "GET takes exactly one filename")
              | None => Ok (request <| op := GET |> <| filename := name |> <| total_bytes := 0 |>)
              end
          end
        else if beq operation (str "PUT") then
          match extract iss with
          | None => Throw (str "PUT requires filename")
          | Some (name, iss) =>
              match extract iss with
              | None => Throw (str "PUT requires byte count")
              | Some (byte_string, iss) =>
                  match extract iss with
                  | Some _ => Throw (str "PUT takes filename and byte count only")
                  | None =>
                      if beq byte_string [] || negb (forallb isdigit byte_string)
                      then Throw (str "invalid byte count")
                      else
                        match stoull byte_string with
                        | Throw _ => Throw (str "invalid byte count")
                        | Ok n =>
                            Ok (request <| op := PUT |> <| filename := name |>
                                  <| total_bytes := n |>)
                        end
                  end
              end
          end
        else Throw (str "unknown operation: " ++ operation)
    end.

(** ** Responses *)

Definition ok_line (value : Z) : bytes := str "OK " ++ to_string value ++ [newline].

Definition err_line (reason : bytes) : bytes := str "ERR " ++ reason ++ [newline].

(** A failed send is reported on [std::cerr] only. *)
Definition send_response (fd value : Z) : prog unit :=
  _ ← send_all fd (ok_line value); Ret tt.

Definition send_error (fd : Z) (reason : bytes) : prog unit :=
  _ ← send_all fd (err_line reason); Ret tt.

(** ** The client's side of the wire *)

Definition get_request (name : bytes) : bytes := str "GET " ++ name ++ [newline].

Definition put_request (name : bytes) (size : Z) : bytes :=
  str "PUT " ++ name ++ str " " ++ to_string size ++ [newline].

(** [response.rfind("OK ", 0) == 0] and [stoull(response.substr(3))]. *)
Definition parse_ok_line (response : bytes) : option Z :=
  if beq (ztake 3 response) (str "OK ") then
    match stoull (zdrop 3 response) with Ok n => Some n | Throw _ => None end
  else None.

(** ** Grammar *)

(** The requests that a header with the given words denotes. *)
Definition request_of_words (ws : list bytes) (fd : Z) : option Request :=
  let request := new_Request <| client_fd := fd |> in
  match ws with
  | [word] =>
      if beq (map toupper word) (str "HEALTH")
      then Some (request <| op := HEALTH |>) else None
  | [word; name] =>
      if beq (map toupper word) (str "GET")
      then Some (request <| op := GET |> <| filename := name |>) else None
  | [word; name; count] =>
      if beq (map toupper word) (str "PUT") && forallb isdigit count && (dec_value count <? 2 ^ 64)
      then Some (request <| op := PUT |> <| filename := name |> <| total_bytes := dec_value count |>)
      else None
  | _ => None
  end.

(** ** Lemmas *)

Lemma is_eol_isspace c : is_eol c = true -> isspace c = true.
Proof.
  unfold is_eol, isspace. intros H. apply orb_true_iff. left. apply andb_true_iff.
  rewrite !Z.leb_le. apply orb_true_iff in H as [H|H]; apply Z.eqb_eq in H; lia.
Qed.

Lemma strip_eol_length line : zlen (strip_eol line) <= zlen line.
Proof.
  assert (forall t, zlen (skip_eol t) <= zlen t) as H.
  { induction t as [|c t IH]; [done|]. simpl. destruct (is_eol c); list_lia. }
  unfold strip_eol. specialize (H (rev line)). unfold zlen in *. by rewrite !length_rev in *.
Qed.

(** The text of an error is not much longer than the header. *)
Lemma parse_request_header_error_length header fd e :
  parse_request_header header fd = Throw e -> zlen e <= zlen header + 64.
Proof.
  pose proof (strip_eol_length header) as Hs. pose proof (zlen_nonneg header) as Hn.
  unfold parse_request_header. destruct (beq _ _); [by intros; simplify_eq/=; unfold zlen; simpl; lia|].
  destruct (extract (strip_eol header)) as [[op rest]|] eqn:E.
  2: { intros. simplify_eq. unfold zlen in *. simpl. lia. }
  apply extract_length in E. intros H. repeat case_match; simplify_eq;
    try (unfold zlen in *; simpl; lia).
  unfold zlen in *. simpl. rewrite length_map. lia.
Qed.

Lemma words_strip_eol line : words (strip_eol line) = words line.
Proof.
  unfold strip_eol. rewrite <- (rev_involutive line) at 2.
  induction (rev line) as [|c s IH]; simpl; [done|].
  destruct (is_eol c) eqn:E; [|done].
  rewrite IH. unfold words. by rewrite words_from_snoc_space by by apply is_eol_isspace.
Qed.

Lemma forallb_digits s : forallb isdigit s = true <-> Forall (fun c => isdigit c = true) s.
Proof.
  rewrite forallb_forall, Forall_forall. by setoid_rewrite list_elem_of_In.
Qed.

Lemma stoull_all_digits s :
  forallb isdigit s = true -> s <> [] ->
  stoull s = if dec_value s <? 2 ^ 64 then Ok (dec_value s) else Throw (str "stoull").
Proof.
  intros Hd Hne. apply forallb_digits in Hd.
  rewrite <- (app_nil_r s) at 1. by apply stoull_digits.
Qed.

(** The words of a line, one extraction at a time: [w] is the word, [rest] what
    is unread, [Hne] says that the word is not empty. *)
Ltac extract_step s w rest Hne :=
  let Hw := fresh "Hw" in
  rewrite (words_extract s);
  destruct (extract s) as [[w rest]|] eqn:Hw;
  [ pose proof (proj1 (extract_is_word _ _ _ Hw)) as Hne | ].

Lemma parse_request_header_words header fd r :
  parse_request_header header fd = Ok r <-> request_of_words (words header) fd = Some r.
Proof.
  unfold parse_request_header, request_of_words. rewrite <- (words_strip_eol header).
  destruct (beq (strip_eol header) []) eqn:E0; [apply beq_spec in E0; by rewrite E0|].
  set (line := strip_eol header). extract_step line opw s1 Hn1; [|done].
  destruct (beq (map toupper opw) (str "HEALTH")) eqn:E1.
  { apply beq_spec in E1. extract_step s1 w1 s2 Hn2; [|naive_solver].
    extract_step s2 w2 s3 Hn3; rewrite E1; [|naive_solver].
    extract_step s3 w3 s4 Hn4; naive_solver. }
  destruct (beq (map toupper opw) (str "GET")) eqn:E2.
  { apply beq_spec in E2. extract_step s1 name s2 Hn2; [|naive_solver].
    extract_step s2 w2 s3 Hn3; [|naive_solver].
    extract_step s3 w3 s4 Hn4; rewrite ?E2; naive_solver. }
  destruct (beq (map toupper opw) (str "PUT")) eqn:E3.
  { extract_step s1 name s2 Hn2; [|naive_solver].
    extract_step s2 count s3 Hn3; [|naive_solver].
    extract_step s3 w3 s4 Hn4; [naive_solver|].
    rewrite (proj2 (beq_false count []) Hn3).
    destruct (forallb isdigit count) eqn:Hd; simpl; [|naive_solver].
    rewrite stoull_all_digits by done.
    destruct (dec_value count <? 2 ^ 64); naive_solver. }
  extract_step s1 w1 s2 Hn2; [|naive_solver]. extract_step s2 w2 s3 Hn3; [|naive_solver].
  extract_step s3 w3 s4 Hn4; naive_solver.
Qed.

(** C32: the grammar of requests.  A header is accepted exactly when its words,
    wherever the white space is, are HEALTH alone, GET and one name, or PUT, one
    name and a decimal count below 2^64, the operation in any case; the parsed
    request carries the descriptor, the name and the count, and every other
    field has its initial value. *)
Theorem parse_request_header_spec header fd r :
  parse_request_header header fd = Ok r <-> request_of_words (words header) fd = Some r.
Proof. apply parse_request_header_words. Qed.

Lemma space_is_space : isspace (chr 32) = true.
Proof. done. Qed.

Lemma newline_is_space : isspace newline = true.
Proof. done. Qed.

Lemma words_get_request name : is_word name -> words (get_request name) = [str "GET"; name].
Proof.
  intros Hn. unfold get_request.
  change (str "GET " ++ name ++ [newline]) with (str "GET" ++ chr 32 :: (name ++ [newline])).
  rewrite words_word by (done || compute_done).
  by rewrite words_word.
Qed.

Lemma words_put_request name n :
  is_word name -> is_u64 n -> words (put_request name n) = [str "PUT"; name; to_string n].
Proof.
  intros Hn Hu. unfold put_request.
  change (str "PUT " ++ ?s) with (str "PUT" ++ chr 32 :: s).
  change (str " " ++ ?s) with (chr 32 :: s).
  rewrite words_word by (done || compute_done).
  rewrite words_word by done. by rewrite words_word by (done || by apply to_string_is_word).
Qed.

Lemma parse_get_request name fd :
  is_word name ->
  parse_request_header (get_request name) fd =
    Ok (new_Request <| client_fd := fd |> <| op := GET |> <| filename := name |>).
Proof. intros Hn. apply parse_request_header_words. by rewrite words_get_request. Qed.

Lemma parse_put_request name n fd :
  is_word name -> is_u64 n ->
  parse_request_header (put_request name n) fd =
    Ok (new_Request <| client_fd := fd |> <| op := PUT |> <| filename := name |>
          <| total_bytes := n |>).
Proof.
  intros Hn Hu. destruct (to_string_spec n Hu) as (Hv & _ & Hd).
  assert (Hnum : forallb isdigit (to_string n) && (dec_value (to_string n) <? 2 ^ 64) = true).
  { apply andb_true_iff. rewrite forallb_digits, Z.ltb_lt, Hv. unfold is_u64 in Hu. split; [done|lia]. }
  apply parse_request_header_words.
  rewrite words_put_request by done. cbn [request_of_words].
  replace (beq (map toupper (str "PUT")) (str "PUT")) with true by done.
  rewrite andb_true_l, Hnum, Hv. done.
Qed.

Lemma parse_ok_line_ok n : is_u64 n -> parse_ok_line (ok_line n) = Some n.
Proof.
  intros Hu. destruct (to_string_spec n Hu) as (Hv & Hne & Hd). unfold parse_ok_line, ok_line.
  rewrite ztake_app_exact, zdrop_app_exact by done. rewrite (proj2 (beq_spec _ _) eq_refl).
  rewrite stoull_digits by done. rewrite Hv.
  destruct (Z.ltb_spec n (2 ^ 64)) as [_|]; [done|]. unfold is_u64 in Hu. lia.
Qed.

(** C39: requests round trip.  The header that the client sends for a name
    without white space, and for a PUT of any 64-bit size, is parsed by the
    server into exactly that request. *)
Theorem client_request_roundtrip name n fd :
  is_word name -> is_u64 n ->
  parse_request_header (get_request name) fd =
    Ok (new_Request <| client_fd := fd |> <| op := GET |> <| filename := name |>) /\
  parse_request_header (put_request name n) fd =
    Ok (new_Request <| client_fd := fd |> <| op := PUT |> <| filename := name |>
          <| total_bytes := n |>).
Proof. intros Hn Hu. split; [by apply parse_get_request|by apply parse_put_request]. Qed.

(** C40: responses round trip.  The client reads from the status line of
    [send_response] exactly the value that the server sent, and it takes no
    error line for a success. *)
Theorem server_response_roundtrip n reason :
  is_u64 n ->
  parse_ok_line (ok_line n) = Some n /\ parse_ok_line (err_line reason) = None.
Proof. intros Hu. split; [by apply parse_ok_line_ok|done]. Qed.

Lemma request_witness :
  parse_request_header (put_request (str "a.txt") 7) 4 =
    Ok (new_Request <| client_fd := 4 |> <| op := PUT |> <| filename := str "a.txt" |>
          <| total_bytes := 7 |>).
Proof.
  apply (client_request_roundtrip (str "a.txt") 7 4); [|done].
  split; [done|by repeat constructor].
Defined.

Lemma response_witness :
  parse_ok_line (ok_line 42) = Some 42 /\ parse_ok_line (err_line (str "no")) = None.
Proof. by apply (server_response_roundtrip 42 (str "no")). Defined.
