(* ===== verification/Server.v ===== *)
(** One scheduling round of a request, [src/server.h] and [src/server.cpp]:
    [serve_get] sends whole lines of a file within the budget, [serve_put]
    stages bytes of an upload.  Each returns whether it succeeded, the request
    it was given with the fields it changed, and [bytes_processed]. *)

From S2P Require Import Prelude Text Queue Scheduling Metrics Effects FileIO Socket Protocol.

Local Open Scope Z_scope.

Abbreviation served := (bool * Request * Z)%type.

(** [send_error(...); return false;]. *)
Definition fail_with (r : Request) (bytes_processed : Z) (reason : bytes) : prog served :=
  _ ← send_error (client_fd r) reason;
  Ret (false, r, bytes_processed).

(** [file_dir + "/" + name]. *)
Definition path_in (file_dir name : bytes) : bytes := file_dir ++ str "/" ++ name.

(** ** [serve_get] *)

(** The loop that selects whole lines within the allowance: the bytes of the
    round and [a14_events].  Every turn adds a line, so that [budget] turns
    are enough. *)
Fixpoint select_lines (fuel : nat) (filepath : bytes) (budget : Z)
    (allow_long_line_overrun : bool) (line_offset round_bytes a14 : Z) : prog (Z * Z) :=
  if round_bytes <? budget then
    match fuel with
    | O => OutOfFuel
    | S fuel' =>
        r ← read_file_line filepath line_offset;
        match r with
        | None => Ret (round_bytes, a14)
        | Some (line_offset, line) =>
            let line_size := zlen line in
            if (round_bytes =? 0) && (budget <? line_size) then
              Ret (if allow_long_line_overrun then (line_size, u64 (a14 + 1))
                   else (round_bytes, a14))
            else if budget <? u64 (round_bytes + line_size) then Ret (round_bytes, a14)
            else
              select_lines fuel' filepath budget allow_long_line_overrun line_offset
                (u64 (round_bytes + line_size)) a14
        end
    end
  else Ret (round_bytes, a14).

(** The inner loop that gathers one packet: an error, or the new [line_offset],
    [remaining_round] and [packet]. *)
Fixpoint gather_packet (fuel : nat) (filepath : bytes) (packetization line_offset
    remaining_round lines_in_packet : Z) (packet : bytes) : prog (bytes + Z * Z * bytes) :=
  if (lines_in_packet <? u64 packetization) && (0 <? remaining_round) then
    match fuel with
    | O => OutOfFuel
    | S fuel' =>
        r ← read_file_line filepath line_offset;
        match r with
        | None => Ret (inl (str "file read error"))
        | Some (line_offset, line) =>
            let line_size := zlen line in
            if remaining_round <? line_size then Ret (inl (str "packetization error"))
            else
              gather_packet fuel' filepath packetization line_offset
                (remaining_round - line_size) (u64 (lines_in_packet + 1)) (packet ++ line)
        end
    end
  else Ret (inr (line_offset, remaining_round, packet)).

(** The outer loop, one [send_all] per packet. *)
Fixpoint send_packets (fuel : nat) (r : Request) (filepath : bytes)
    (packetization line_offset remaining_round bytes_processed : Z) : prog served :=
  if 0 <? remaining_round then
    match fuel with
    | O => OutOfFuel
    | S fuel' =>
        g ← gather_packet (S (Z.to_nat remaining_round)) filepath packetization line_offset
              remaining_round 0 [];
        match g with
        | inl reason => fail_with r bytes_processed reason
        | inr (line_offset, remaining_round, packet) =>
            ok ← send_all (client_fd r) packet;
            if negb ok then Ret (false, r, bytes_processed)
            else
              send_packets fuel' r filepath packetization line_offset remaining_round
                (u64 (bytes_processed + zlen packet))
        end
    end
  else Ret (true, r, bytes_processed).

(** [serve_get] from the point where the status line has been sent. *)
Definition serve_get_round (req : Request) (filepath : bytes) (file_size budget : Z)
    (allow_long_line_overrun : bool) (packetization : Z) : prog served :=
  if (file_size <=? offset req) || (budget =? 0) then Ret (true, req, 0)
  else if packetization <=? 0 then fail_with req 0 (str "invalid packetization")
  else
    let remaining := u64 (file_size - offset req) in
    let complete_request_round := remaining <=? budget in
    selected ← (if complete_request_round then Ret (remaining, a14_events req)
                else select_lines (S (Z.to_nat budget)) filepath budget
                       allow_long_line_overrun (offset req) 0 (a14_events req));
    let '(round_bytes, a14) := selected in
    let req := req <| a14_events := a14 |> in
    if round_bytes =? 0 then Ret (true, req, 0)
    else
      file ← if_open filepath;
      match file with
      | None => fail_with req 0 (str "cannot open file")
      | Some file =>
          if negb (if_good (if_seekg (i64 (offset req)) file))
          then fail_with req 0 (str "file seek error")
          else
            send_packets (S (Z.to_nat round_bytes)) req filepath packetization (offset req)
              round_bytes 0
      end.

Definition serve_get (req : Request) (file_dir : bytes) (budget : Z)
    (allow_long_line_overrun : bool) (packetization : Z) : prog served :=
  if negb (is_valid_filename (filename req)) then fail_with req 0 (str "invalid filename")
  else
    let filepath := path_in file_dir (filename req) in
    exists_ ← file_exists filepath;
    if negb exists_ then fail_with req 0 (str "file not found")
    else
      let file_size := total_bytes req in
      req ← (if negb (response_sent req) then
               _ ← send_response (client_fd req) file_size;
               Ret (req <| response_sent := true |>)
             else Ret req);
      serve_get_round req filepath file_size budget allow_long_line_overrun packetization.

(** ** [serve_put] *)

Definition CHUNK_SIZE : Z := 8192.

(** The first loop: bytes that were read together with the header.  [pos] is the
    write position of the stream. *)
Fixpoint write_pending (fuel : nat) (staging_path : bytes) (r : Request)
    (pos remaining_round bytes_processed : Z) : prog (bool * Request * Z * Z * Z) :=
  if (0 <? remaining_round) && (pending_offset r <? zlen (pending_bytes r)) then
    match fuel with
    | O => OutOfFuel
    | S fuel' =>
        let available := zlen (pending_bytes r) - pending_offset r in
        let chunk := Z.min remaining_round available in
        good ← call (WriteAt staging_path pos
                 (ztake chunk (zdrop (pending_offset r) (pending_bytes r))));
        if negb good then
          _ ← send_error (client_fd r) (str "file write error");
          Ret (false, r, pos, remaining_round, bytes_processed)
        else
          write_pending fuel' staging_path
            (r <| pending_offset := u64 (pending_offset r + chunk) |>)
            (pos + chunk) (remaining_round - chunk) (u64 (bytes_processed + chunk))
    end
  else Ret (true, r, pos, remaining_round, bytes_processed).

(** The second loop: bytes from the socket, at least one in every turn. *)
Fixpoint receive_body (fuel : nat) (staging_path : bytes) (r : Request)
    (buffer_size pos remaining_round bytes_processed : Z) : prog served :=
  if 0 <? remaining_round then
    match fuel with
    | O => OutOfFuel
    | S fuel' =>
        let chunk := Z.min buffer_size remaining_round in
        received ← recv_data_with_timeout (client_fd r) chunk 5000;
        match received with
        | RecvError => fail_with r bytes_processed (str "receive error")
        | Received [] => fail_with r bytes_processed (str "incomplete upload")
        | Received bs =>
            good ← call (WriteAt staging_path pos bs);
            if negb good then fail_with r bytes_processed (str "file write error")
            else
              receive_body fuel' staging_path r buffer_size (pos + zlen bs)
                (u64 (remaining_round - zlen bs)) (u64 (bytes_processed + zlen bs))
        end
    end
  else Ret (true, r, bytes_processed).

Definition staging_name (r : Request) : bytes :=
  filename r ++ str ".upload." ++ to_string_int (request_id r).

Definition serve_put (req : Request) (file_dir : bytes) (budget : Z) : prog served :=
  if negb (is_valid_filename (filename req)) then fail_with req 0 (str "invalid filename")
  else
    let req := if offset req =? 0 then req <| staging_filename := staging_name req |> else req in
    let staging_path := path_in file_dir (staging_filename req) in
    if total_bytes req =? 0 then
      is_open ← call (OpenTrunc staging_path);
      Ret (is_open, req, 0)
    else
      created ← (if offset req =? 0 then call (OpenTrunc staging_path) else Ret true);
      if negb created then fail_with req 0 (str "cannot create file")
      else
        is_open ← call (OpenUpdate staging_path);
        if negb is_open then fail_with req 0 (str "cannot open file")
        else if i64 (offset req) <? 0 then fail_with req 0 (str "file seek error")
        else
          let remaining := u64 (total_bytes req - offset req) in
          let to_receive := Z.min budget remaining in
          let buffer_size := Z.min CHUNK_SIZE to_receive in
          p ← write_pending (S (length (pending_bytes req))) staging_path req (offset req)
                to_receive 0;
          let '(ok, req, pos, remaining_round, bytes_processed) := p in
          if negb (ok : bool) then Ret (false, req, bytes_processed)
          else
            receive_body (S (Z.to_nat remaining_round)) staging_path req buffer_size pos
              remaining_round bytes_processed.

(** ** Specification of a GET round *)

(** The bytes of the longest run of whole lines that fits in [budget]. *)
Fixpoint fit (budget : Z) (ls : list bytes) : Z :=
  match ls with
  | [] => 0
  | l :: ls' => if zlen l <=? budget then zlen l + fit (budget - zlen l) ls' else 0
  end.

(** The bytes that a round sends of [rest], what is left of the file, and
    whether it is an overrun by a line longer than the budget. *)
Definition round_size (budget : Z) (overrun : bool) (rest : bytes) : Z * bool :=
  if (zlen rest =? 0) || (budget =? 0) then (0, false)
  else if zlen rest <=? budget then (zlen rest, false)
  else if zlen (first_line rest) <=? budget then (fit budget (lines rest), false)
  else if overrun then (zlen (first_line rest), true)
  else (0, false).

(** The request after the round. *)
Definition after_get (r : Request) (a14 : bool) : Request :=
  r <| response_sent := true |>
    <| a14_events ::= fun n => if a14 then u64 (n + 1) else n |>.

(** The status line, sent in the first round only. *)
Definition get_status (r : Request) : bytes :=
  if response_sent r then [] else ok_line (total_bytes r).

(** [n] is the size of a run of whole lines at the head of [s]. *)
Inductive aligned : Z -> bytes -> Prop :=
  | aligned_nil s : aligned 0 s
  | aligned_line n s :
      s <> [] -> aligned n (zdrop (zlen (first_line s)) s) ->
      aligned (zlen (first_line s) + n) s.

(** ** Lemmas *)

Lemma zlen_rest s : zlen (zdrop (zlen (first_line s)) s) = zlen s - zlen (first_line s).
Proof.
  pose proof (first_line_length s). rewrite zlen_zdrop by list_lia. lia.
Qed.

Lemma aligned_range n s : aligned n s -> 0 <= n <= zlen s.
Proof.
  induction 1 as [s|n s Hs _ IH]; [list_lia|].
  rewrite zlen_rest in IH. pose proof (first_line_nonempty s Hs). lia.
Qed.

Lemma aligned_pos n s :
  aligned n s -> 0 < n ->
  s <> [] /\ exists m, n = zlen (first_line s) + m /\ aligned m (zdrop (zlen (first_line s)) s).
Proof. destruct 1; [lia|]. eauto. Qed.

Lemma aligned_all s : aligned (zlen s) s.
Proof.
  induction s as [|s Hs IH] using lines_ind; [constructor|].
  rewrite zlen_rest in IH.
  replace (zlen s) with (zlen (first_line s) + (zlen s - zlen (first_line s))) by lia.
  by constructor.
Qed.

Lemma aligned_first s : s <> [] -> aligned (zlen (first_line s)) s.
Proof.
  intros Hs. rewrite <- (Z.add_0_r (zlen (first_line s))). constructor; [done|constructor].
Qed.

Lemma fit_aligned budget s : aligned (fit budget (lines s)) s.
Proof.
  revert budget. induction s as [|s Hs IH] using lines_ind; intros budget; [constructor|].
  rewrite lines_step by done. simpl. destruct (_ <=? budget); [by constructor|constructor].
Qed.

Lemma fit_le budget ls : 0 <= budget -> 0 <= fit budget ls <= budget.
Proof.
  revert budget. induction ls as [|l ls IH]; intros budget Hb; simpl; [lia|].
  destruct (Z.leb_spec (zlen l) budget); [|lia]. specialize (IH (budget - zlen l)). list_lia.
Qed.

Lemma round_size_spec budget overrun rest :
  0 <= budget ->
  let '(n, a14) := round_size budget overrun rest in
  aligned n rest /\ (a14 = false -> n <= budget) /\
  (a14 = true -> overrun = true /\ budget < n /\ n = zlen (first_line rest)) /\
  (rest <> [] -> 0 < budget -> n = 0 -> overrun = false /\ budget < zlen (first_line rest)).
Proof.
  intros Hb. unfold round_size.
  destruct (Z.eqb_spec (zlen rest) 0) as [H0|H0]; simpl.
  { apply zlen_zero in H0. simpl; split_and!; first [done|intros; lia|constructor]. }
  assert (rest <> []) as Hne by (intros ->; done).
  pose proof (first_line_nonempty rest Hne).
  destruct (Z.eqb_spec budget 0); [simpl; split_and!; first [done|intros; lia|constructor]|].
  destruct (Z.leb_spec (zlen rest) budget).
  { simpl; split_and!; first [done|intros; lia|apply aligned_all]. }
  destruct (Z.leb_spec (zlen (first_line rest)) budget) as [Hf|Hf].
  - pose proof (fit_le budget (lines rest) Hb).
    simpl; split_and!; first [done|intros; lia|apply fit_aligned|idtac]. rewrite lines_step by done. simpl.
    rewrite (proj2 (Z.leb_le _ _) Hf).
    pose proof (fit_le (budget - zlen (first_line rest))
      (lines (zdrop (zlen (first_line rest)) rest)) ltac:(lia)). lia.
  - destruct overrun; simpl; split_and!; first [done|intros; lia|by apply aligned_first|constructor].
Qed.

(** [select_lines] computes [fit], or the overrun. *)
Lemma run_select_lines fuel path c budget overrun offset round_bytes a14 w :
  faults w = [] -> files w !! path = Some (File c) -> zlen c < 2 ^ 63 ->
  0 <= offset <= zlen c -> 0 <= round_bytes <= budget -> 0 < budget < 2 ^ 63 ->
  budget - round_bytes < Z.of_nat fuel ->
  let rest := zdrop offset c in
  run (select_lines fuel path budget overrun offset round_bytes a14) w =
    Done (if (round_bytes =? 0) && (budget <? zlen (first_line rest))
          then if overrun then (zlen (first_line rest), u64 (a14 + 1)) else (0, a14)
          else (round_bytes + fit (budget - round_bytes) (lines rest), a14)) w.
Proof.
  intros Hf Hp Hc. revert offset round_bytes. induction fuel as [|fuel IH];
    intros offset round_bytes Ho Hr Hb Hfuel; [lia|]. cbv zeta. cbn [select_lines].
  pose proof (zlen_zdrop offset c ltac:(lia)) as Hl.
  destruct (Z.ltb_spec round_bytes budget) as [Hlt|Hge].
  2: { destruct (Z.eqb_spec round_bytes 0); [lia|]. cbn [andb]. rewrite run_ret.
    pose proof (fit_le (budget - round_bytes) (lines (zdrop offset c))). do 2 f_equal. lia. }
  rewrite run_bind, (run_read_file_line path c) by done. cbv zeta.
  destruct (Z.ltb_spec offset (zlen c)) as [Hoff|Hoff].
  2: { rewrite zdrop_all by lia. change (zlen (first_line [])) with 0.
    change (lines []) with (@nil bytes). cbn [fit].
    destruct (Z.ltb_spec budget 0); [lia|]. rewrite andb_false_r, Z.add_0_r. done. }
  assert (Hne : zdrop offset c <> []) by (intros E; rewrite E in Hl; list_lia).
  pose proof (first_line_length (zdrop offset c)). pose proof (first_line_nonempty _ Hne).
  rewrite (lines_step _ Hne). cbn [fit].
  set (L := zlen (first_line (zdrop offset c))) in *.
  destruct ((round_bytes =? 0) && (budget <? L)) eqn:Elong.
  { apply andb_true_iff in Elong as [E0 _]. apply Z.eqb_eq in E0 as ->. by destruct overrun. }
  rewrite u64_small by word. destruct (Z.ltb_spec budget (round_bytes + L)).
  { destruct (Z.leb_spec L (budget - round_bytes)); [lia|]. by rewrite Z.add_0_r. }
  destruct (Z.leb_spec L (budget - round_bytes)); [|lia].
  rewrite IH by lia. rewrite zdrop_zdrop by lia.
  destruct (Z.eqb_spec (round_bytes + L) 0); [lia|]. cbn [andb].
  rewrite Z.add_assoc. by rewrite Z.sub_add_distr.
Qed.

(** [gather_packet] takes whole lines: it moves them from the round to the
    packet, at least one while the packet has room. *)
Lemma run_gather_packet fuel path c packetization offset left lines_in packet w :
  faults w = [] -> files w !! path = Some (File c) -> zlen c < 2 ^ 63 ->
  0 <= offset <= zlen c -> aligned left (zdrop offset c) ->
  0 <= lines_in < 2 ^ 63 - left -> left < Z.of_nat fuel ->
  exists n, run (gather_packet fuel path packetization offset left lines_in packet) w =
      Done (inr (offset + n, left - n, packet ++ ztake n (zdrop offset c))) w /\
    0 <= n <= left /\ aligned (left - n) (zdrop (offset + n) c) /\
    (0 < left -> lines_in < u64 packetization -> 0 < n).
Proof.
  intros Hf Hp Hc. revert offset left lines_in packet. induction fuel as [|fuel IH];
    intros offset left lines_in packet Ho Ha Hli Hfuel;
    pose proof (aligned_range _ _ Ha) as Hrange; [lia|]. cbn [gather_packet].
  pose proof (zlen_zdrop offset c ltac:(lia)) as Hl.
  destruct ((lines_in <? u64 packetization) && (0 <? left)) eqn:Hcond.
  2: { exists 0. rewrite ztake_0, app_nil_r, Z.add_0_r, Z.sub_0_r by lia. split_and!; (done || lia). }
  to_prop. destruct (aligned_pos _ _ Ha ltac:(lia)) as (Hne & m & Hm & Ham).
  pose proof (first_line_length (zdrop offset c)). pose proof (first_line_nonempty _ Hne).
  pose proof (aligned_range _ _ Ham) as Hmr. rewrite zlen_rest in Hmr.
  rewrite run_bind, (run_read_file_line path c) by done. cbv zeta.
  destruct (Z.ltb_spec offset (zlen c)); [|lia].
  set (line := first_line (zdrop offset c)) in *.
  destruct (Z.ltb_spec left (zlen line)); [lia|]. rewrite u64_small by word.
  rewrite zdrop_zdrop in Ham by lia.
  destruct (IH (offset + zlen line) (left - zlen line) (lines_in + 1) (packet ++ line))
    as (n & Hrun & Hn & Han & _); [lia| |lia|lia|].
  { by replace (left - zlen line) with m by lia. }
  exists (zlen line + n). rewrite Hrun. split_and!; [|lia|lia| |lia].
  - rewrite ztake_add, zdrop_zdrop by lia.
    assert (ztake (zlen line) (zdrop offset c) = line) as ->.
    { rewrite <- (first_line_prefix (zdrop offset c)) at 1. by rewrite ztake_app_exact. }
    rewrite <- app_assoc. do 2 f_equal. f_equal. f_equal; lia.
  - replace (left - (zlen line + n)) with (left - zlen line - n) by lia.
    by rewrite Z.add_assoc.
Qed.

(** The files are as they were and sends on [fd] still succeed. *)
Lemma sent_on_stable fd data w w' path n :
  sent_on fd data w w' -> faults w = [] -> files w !! path = n ->
  faults w' = [] /\ files w' !! path = n /\ sendable fd w'.
Proof.
  intros Hs Hf Hp. destruct (sent_on_files _ _ _ _ Hs) as [E1 E2].
  rewrite E1, E2. eauto using sent_on_sendable.
Qed.

(** The packets of a round, in order, are the bytes of the round. *)
Lemma run_send_packets fuel r path c packetization offset left sofar w :
  faults w = [] -> files w !! path = Some (File c) -> zlen c < 2 ^ 62 ->
  sendable (client_fd r) w -> 0 < packetization < 2 ^ 31 ->
  0 <= offset <= zlen c -> aligned left (zdrop offset c) ->
  0 <= sofar -> sofar + left < 2 ^ 63 -> left < Z.of_nat fuel ->
  exists w', run (send_packets fuel r path packetization offset left sofar) w =
      Done (true, r, sofar + left) w' /\
    sent_on (client_fd r) (ztake left (zdrop offset c)) w w'.
Proof.
  intros Hf Hp Hc Hs Hpk. revert offset left sofar w Hf Hp Hs.
  induction fuel as [|fuel IH]; intros offset left sofar w Hf Hp Hs Ho Ha Hd Hb Hfuel;
    pose proof (aligned_range _ _ Ha) as Hrange; [lia|].
  pose proof (zlen_zdrop offset c ltac:(lia)) as Hl.
  cbn [send_packets]. destruct (Z.ltb_spec 0 left) as [Hpos|Hz].
  2: { assert (left = 0) as -> by lia. exists w. rewrite Z.add_0_r, ztake_0 by lia.
    split; [done|by apply sent_on_nothing]. }
  rewrite run_bind.
  destruct (run_gather_packet (S (Z.to_nat left)) path c packetization offset left 0 [] w)
    as (n & -> & Hn & Han & Hnpos); [done|done|lia|lia|done|lia|lia|].
  assert (0 < n) as Hn0 by (apply Hnpos; [done|]; rewrite u64_small; word).
  rewrite app_nil_l, run_bind.
  pose proof (zlen_ztake n (zdrop offset c) ltac:(lia)) as Hlt.
  destruct (run_send_all (client_fd r) (ztake n (zdrop offset c)) w Hs ltac:(lia))
    as (w1 & -> & Hsent). cbn [negb].
  destruct (sent_on_stable _ _ _ _ _ _ Hsent Hf Hp) as (Hf1 & Hp1 & Hs1).
  rewrite u64_small by word.
  destruct (IH (offset + n) (left - n) (sofar + zlen (ztake n (zdrop offset c))) w1)
    as (w' & -> & Hsent'); [done|done|done|lia|done|lia|lia|lia|].
  exists w'. split; [do 2 f_equal; lia|].
  replace left with (n + (left - n)) at 1 by lia.
  rewrite ztake_add, zdrop_zdrop by lia. by eapply sent_on_trans.
Qed.

(** A GET that is being served: its name is valid, its file has the size it was
    admitted with, and the connection takes what is sent. *)
Record get_ready (r : Request) (dir c : bytes) (w : world) : Prop := {
  gr_name : is_valid_filename (filename r) = true;
  gr_file : files w !! path_in dir (filename r) = Some (File c);
  gr_size : total_bytes r = zlen c;
  gr_small : zlen c < 2 ^ 62;
  gr_offset : 0 <= offset r <= zlen c;
  gr_faults : faults w = [];
  gr_sock : sendable (client_fd r) w
}.

Lemma ok_line_length n : zlen (ok_line n) <= 24.
Proof.
  unfold ok_line. pose proof (to_string_length n). rewrite !zlen_app.
  change (zlen (str "OK ")) with 3. change (zlen [newline]) with 1. lia.
Qed.

Lemma run_send_response fd n w :
  sendable fd w ->
  exists w', run (send_response fd n) w = Done tt w' /\ sent_on fd (ok_line n) w w'.
Proof.
  intros Hs. pose proof (ok_line_length n).
  destruct (run_send_all fd (ok_line n) w Hs ltac:(lia)) as (w' & Hrun & Hsent).
  exists w'. unfold send_response. by rewrite run_bind, Hrun.
Qed.

(** The status line goes out in the first round only. *)
Lemma run_get_status r w :
  sendable (client_fd r) w ->
  exists w', run (if negb (response_sent r) then
               _ ← send_response (client_fd r) (total_bytes r);
               Ret (r <| response_sent := true |>)
             else Ret r) w = Done (r <| response_sent := true |>) w' /\
    sent_on (client_fd r) (get_status r) w w'.
Proof.
  intros Hs. unfold get_status. destruct (response_sent r) eqn:E; cbn [negb].
  - exists w. split; [|by apply sent_on_nothing]. rewrite run_ret. f_equal.
    destruct r; field_simpl; by subst.
  - destruct (run_send_response (client_fd r) (total_bytes r) w Hs) as (w' & Hrun & Hsent).
    exists w'. by rewrite run_bind, Hrun.
Qed.

(** What [serve_get] has selected when it reaches the packets. *)
Lemma run_select r dir c budget overrun w :
  get_ready r dir c w -> 0 < budget -> offset r < total_bytes r ->
  let rest := zdrop (offset r) c in
  run (if u64 (total_bytes r - offset r) <=? budget
       then Ret (u64 (total_bytes r - offset r), a14_events r)
       else select_lines (S (Z.to_nat budget)) (path_in dir (filename r)) budget overrun
              (offset r) 0 (a14_events r)) w =
    Done ((round_size budget overrun rest).1,
          if (round_size budget overrun rest).2 then u64 (a14_events r + 1)
          else a14_events r) w.
Proof.
  intros [Hname Hfile Hsize Hsmall Hoff Hf Hs] Hb Hlt rest.
  pose proof (zlen_zdrop (offset r) c ltac:(lia)) as Hl. fold rest in Hl.
  rewrite u64_small by word. unfold round_size.
  destruct (Z.eqb_spec (zlen rest) 0); [lia|]. destruct (Z.eqb_spec budget 0); [lia|].
  cbn [orb]. replace (total_bytes r - offset r) with (zlen rest) by lia.
  destruct (Z.leb_spec (zlen rest) budget); [done|].
  rewrite (run_select_lines _ _ c) by (done || lia). fold rest. cbn [Z.eqb andb].
  destruct (Z.ltb_spec budget (zlen (first_line rest))) as [Hlong|Hshort].
  - destruct (Z.leb_spec (zlen (first_line rest)) budget); [lia|]. by destruct overrun.
  - destruct (Z.leb_spec (zlen (first_line rest)) budget); [|lia]. cbn [fst snd].
    by rewrite Z.sub_0_r.
Qed.

(** The round after the status line. *)
Lemma run_serve_get_round r dir c budget overrun packetization w :
  get_ready r dir c w -> 0 <= budget -> 0 < packetization < 2 ^ 31 -> response_sent r = true ->
  let rest := zdrop (offset r) c in
  let n := (round_size budget overrun rest).1 in
  exists w', run (serve_get_round r (path_in dir (filename r)) (total_bytes r) budget overrun
                    packetization) w =
      Done (true, after_get r (round_size budget overrun rest).2, n) w' /\
    sent_on (client_fd r) (ztake n rest) w w'.
Proof.
  intros Hr Hb Hpk Hsent rest n. pose proof Hr as [Hname Hfile Hsize Hsmall Hoff Hf Hs].
  pose proof (zlen_zdrop (offset r) c ltac:(lia)) as Hl. fold rest in Hl.
  pose proof (round_size_spec budget overrun rest Hb) as Hspec. fold n.
  unfold serve_get_round.
  destruct ((total_bytes r <=? offset r) || (budget =? 0)) eqn:Hstop.
  { assert ((zlen rest =? 0) || (budget =? 0) = true) as Hz.
    { apply orb_true_iff in Hstop as [H|H]; apply orb_true_iff; [left|by right].
      apply Z.eqb_eq. apply Z.leb_le in H. lia. }
    unfold n, round_size. rewrite Hz. cbn [fst snd]. exists w.
    rewrite ztake_0 by lia. split; [|by apply sent_on_nothing].
    rewrite run_ret. do 3 f_equal. destruct r. unfold after_get. field_simpl. by subst. }
  to_prop. destruct (Z.leb_spec packetization 0); [lia|]. rewrite run_bind.
  rewrite (run_select r dir c budget overrun w) by (done || lia). fold rest. fold n.
  destruct (round_size budget overrun rest) as [n' a14]. cbn [snd].
  destruct Hspec as (Ha & _). subst n. cbn [fst] in *.
  assert (r <| a14_events := if a14 then u64 (a14_events r + 1) else a14_events r |> =
    after_get r a14) as ->.
  { destruct r. unfold after_get. field_simpl. by subst. }
  destruct (Z.eqb_spec n' 0) as [->|Hn].
  { exists w. rewrite ztake_0 by lia. split; [done|by apply sent_on_nothing]. }
  pose proof (aligned_range _ _ Ha) as Hrange.
  rewrite run_bind, (run_open_read _ c) by done.
  replace (if_good _) with true.
  2: { unfold if_seekg. field_simpl. rewrite i64_small by lia.
    by destruct (Z.ltb_spec (offset r) 0); [lia|]. }
  cbn [negb].
  destruct (run_send_packets (S (Z.to_nat n')) (after_get r a14) (path_in dir (filename r)) c
    packetization (offset r) n' 0 w) as (w' & Hrun & Hw'); try done; try lia.
  exists w'. change (offset (after_get r a14)) with (offset r). by rewrite Hrun.
Qed.

(** The main lemma on [serve_get]. *)
Lemma run_serve_get r dir c budget overrun packetization w :
  get_ready r dir c w -> 0 <= budget -> 0 < packetization < 2 ^ 31 ->
  let rest := zdrop (offset r) c in
  let n := (round_size budget overrun rest).1 in
  exists w', run (serve_get r dir budget overrun packetization) w =
      Done (true, after_get r (round_size budget overrun rest).2, n) w' /\
    sent_on (client_fd r) (get_status r ++ ztake n rest) w w'.
Proof.
  intros Hr Hb Hpk rest n. pose proof Hr as [Hname Hfile Hsize Hsmall Hoff Hf Hs].
  unfold serve_get. rewrite Hname. cbn [negb]. cbv zeta.
  unfold file_exists. rewrite !run_bind, run_call. cbn [handle]. rewrite Hfile.
  cbn [fmap option_fmap option_map run negb]. rewrite run_bind.
  destruct (run_get_status r w Hs) as (w1 & Hrun & Hsent). rewrite Hrun. clear Hrun.
  destruct (sent_on_stable _ _ _ _ _ _ Hsent Hf Hfile) as (Hf1 & Hp1 & Hs1).
  destruct (run_serve_get_round (r <| response_sent := true |>) dir c budget overrun
    packetization w1) as (w' & Hrun & Hw'); [by constructor|done|done|done|].
  exists w'. split; [exact Hrun|]. by eapply sent_on_trans.
Qed.

(** C10: one GET round.  A round of a GET whose file is in place succeeds.  It
    sends the status line in the first round only and then [n] bytes of the file
    from the request's offset, and reports [n]; these are whole lines, at most
    [budget] bytes, except that a line longer than the budget is sent alone when
    overruns are allowed (and is counted in [a14_events]); nothing is sent only
    when nothing is left, the budget is zero, or that line must wait. *)
Theorem serve_get_spec r dir c budget overrun packetization w :
  get_ready r dir c w -> 0 <= budget -> 0 < packetization < 2 ^ 31 ->
  let rest := zdrop (offset r) c in
  exists n a14 w', run (serve_get r dir budget overrun packetization) w =
      Done (true, after_get r a14, n) w' /\
    sent_on (client_fd r) (get_status r ++ ztake n rest) w w' /\
    aligned n rest /\ (a14 = false -> n <= budget) /\
    (a14 = true -> overrun = true /\ budget < n /\ n = zlen (first_line rest)) /\
    (rest <> [] -> 0 < budget -> n = 0 -> overrun = false /\ budget < zlen (first_line rest)).
Proof.
  intros Hr Hb Hpk rest.
  destruct (run_serve_get r dir c budget overrun packetization w Hr Hb Hpk) as (w' & Hrun & Hs).
  fold rest in Hrun, Hs. pose proof (round_size_spec budget overrun rest Hb) as Hspec.
  destruct (round_size budget overrun rest) as [n a14].
  exists n, a14, w'. by split_and!; try apply Hspec.
Qed.

(** C24: packetization.  The number of lines gathered into one packet changes
    neither the bytes that the client receives, nor their order, nor the
    accounting of the round. *)
Theorem packetization_is_invisible r dir c budget overrun p1 p2 w :
  get_ready r dir c w -> 0 <= budget -> 0 < p1 < 2 ^ 31 -> 0 < p2 < 2 ^ 31 ->
  exists res w1 w2 data,
    run (serve_get r dir budget overrun p1) w = Done res w1 /\
    run (serve_get r dir budget overrun p2) w = Done res w2 /\
    sent_on (client_fd r) data w w1 /\ sent_on (client_fd r) data w w2.
Proof.
  intros Hr Hb H1 H2.
  destruct (run_serve_get r dir c budget overrun p1 w Hr Hb H1) as (w1 & Hrun1 & Hs1).
  destruct (run_serve_get r dir c budget overrun p2 w Hr Hb H2) as (w2 & Hrun2 & Hs2).
  by eexists _, w1, w2, _.
Qed.

(** A file that was replaced by one that ends before the request's offset: the
    round of RR or DRR sends nothing, succeeds, and changes nothing. *)
Lemma run_serve_get_shrunk r dir c budget overrun packetization w :
  is_valid_filename (filename r) = true -> files w !! path_in dir (filename r) = Some (File c) ->
  faults w = [] -> response_sent r = true -> zlen c <= offset r < total_bytes r ->
  total_bytes r < 2 ^ 62 -> 0 < budget < total_bytes r - offset r -> 0 < packetization < 2 ^ 31 ->
  run (serve_get r dir budget overrun packetization) w = Done (true, r, 0) w.
Proof.
  intros Hname Hfile Hf Hsent Hoff Htot Hb Hpk. unfold serve_get, serve_get_round.
  rewrite Hname. cbn [negb]. cbv zeta.
  unfold file_exists. rewrite !run_bind, run_call. cbn [handle]. rewrite Hfile.
  cbn [fmap option_fmap option_map run negb]. rewrite Hsent. cbn [negb].
  rewrite run_bind, run_ret.
  destruct (Z.leb_spec (total_bytes r) (offset r)); [lia|].
  destruct (Z.eqb_spec budget 0); [lia|]. cbn [orb].
  destruct (Z.leb_spec packetization 0); [lia|].
  pose proof (zlen_nonneg c). rewrite u64_small by word.
  destruct (Z.leb_spec (total_bytes r - offset r) budget); [lia|].
  rewrite run_bind. cbn [select_lines]. destruct (Z.ltb_spec 0 budget); [|lia].
  assert (run (read_file_line (path_in dir (filename r)) (offset r)) w = Done None w) as Hline.
  { unfold read_file_line. rewrite run_bind, (run_open_read _ c) by done.
    rewrite i64_small by lia. unfold if_seekg. field_simpl.
    destruct (Z.ltb_spec (offset r) 0); [lia|]. unfold if_getline. field_simpl.
    by rewrite zdrop_all by lia. }
  rewrite run_bind, Hline. cbn [Z.eqb]. rewrite run_ret. do 3 f_equal.
  destruct r. by field_simpl.
Qed.

(** ** A concrete download *)

Definition sample_get : Request :=
  new_Request <| client_fd := 4 |> <| filename := str "a" |> <| total_bytes := 7 |>.

Definition sample_files (w : world) : world := w <| files := {[str "d/a" := File two_lines]} |>.

Lemma sample_get_ready : get_ready sample_get (str "d") two_lines (sample_files (sample_conn [])).
Proof.
  split; [done|done|done|by vm_compute|by vm_compute|done|].
  exists (sample_sock []). split; [done|].
  apply not_elem_of_cons. split; [done|apply not_elem_of_nil].
Qed.

Lemma serve_get_witness :
  let w := sample_files (sample_conn []) in
  exists n a14 w', run (serve_get sample_get (str "d") 5 false 1) w =
      Done (true, after_get sample_get a14, n) w' /\
    sent_on 4 (get_status sample_get ++ ztake n two_lines) w w' /\ (a14 = false -> n <= 5).
Proof.
  destruct (serve_get_spec sample_get (str "d") two_lines 5 false 1 (sample_files (sample_conn []))
    sample_get_ready) as (n & a14 & w' & H1 & H2 & _ & H3 & _); [done|done|].
  exists n, a14, w'. split; [exact H1|]. split; [exact H2|exact H3].
Defined.

Lemma packetization_witness :
  let w := sample_files (sample_conn []) in
  exists res w1 w2 data,
    run (serve_get sample_get (str "d") 5 false 1) w = Done res w1 /\
    run (serve_get sample_get (str "d") 5 false 3) w = Done res w2 /\
    sent_on 4 data w w1 /\ sent_on 4 data w w2.
Proof.
  apply (packetization_is_invisible sample_get (str "d") two_lines 5 false 1 3
    (sample_files (sample_conn [])) sample_get_ready); done.
Defined.
