(* ===== verification/Threads.v ===== *)
(** The threads of the server, [src/main.cpp] and [src/clock_ns.h]: the acceptor,
    the parser pool and the worker pool.  Each thread runs a loop; its body is a
    program that returns whether the loop goes on. *)

From S2P Require Import Prelude Text Queue Scheduling Metrics Effects FileIO Socket Protocol.
From S2P Require Import Server.

Local Open Scope Z_scope.

Definition monotonic_ns : prog Z :=
  ts ← call ClockGettime;
  Ret (u64 (u64 (u64 ts.1 * 1000000000) + u64 ts.2)).

Definition parse_scheduling_policy (policy : bytes) : result SchedulingPolicy :=
  if beq policy (str "fcfs") then Ok FCFS
  else if beq policy (str "sjf") then Ok SJF
  else if beq policy (str "rr") then Ok RR
  else if beq policy (str "drr") then Ok DRR
  else Throw (str "invalid scheduling policy: " ++ policy).

(** ** The acceptor *)

(** The end of the loop: [fd_queue.close()]. *)
Definition acceptor_exit : prog bool := _ ← call FdClose; Ret false.

(** [if (shutdown_flag) break; continue;]. *)
Definition break_on_shutdown : prog bool :=
  stop ← call ReadShutdownFlag;
  if (stop : bool) then acceptor_exit else Ret true.

Definition acceptor_turn (listen_socket : Z) : prog bool :=
  stop ← call ReadShutdownFlag;
  if (stop : bool) then acceptor_exit
  else
    ready ← call (Select listen_socket 100000000);
    if ready =? 0 then Ret true
    else if ready <? 0 then break_on_shutdown
    else
      client_socket ← accept_connection listen_socket;
      if client_socket <? 0 then break_on_shutdown
      else
        pushed ← call (FdPush client_socket);
        if negb pushed then _ ← close_socket client_socket; Ret true
        else Ret true.

(** ** The parsers *)

(** [send_error(client_socket, reason); close_socket(client_socket); continue;]. *)
Definition refuse (client_socket : Z) (reason : bytes) : prog bool :=
  _ ← send_error client_socket reason;
  _ ← close_socket client_socket;
  Ret true.

(** Admission: the id and the arrival time are given and the request is queued. *)
Definition admit_request (client_socket : Z) (req : Request) : prog bool :=
  id ← call FetchAddRequestId;
  let req := req <| request_id := id |> in
  t ← monotonic_ns;
  let req := req <| arrival_ns := t |> in
  pushed ← call (RqPush req);
  if negb pushed then refuse client_socket (str "server shutting down") else Ret true.

(** The [try] block, after the header has been parsed. *)
Definition dispatch (file_dir : bytes) (client_socket : Z) (req : Request) : prog bool :=
  if op_eqb (op req) HEALTH then
    size ← call RqSize;
    _ ← send_response client_socket size;
    _ ← close_socket client_socket;
    Ret true
  else if negb (is_valid_filename (filename req)) then
    refuse client_socket (str "invalid filename")
  else if op_eqb (op req) GET then
    let file_path := path_in file_dir (filename req) in
    exists_ ← file_exists file_path;
    if negb exists_ then refuse client_socket (str "file not found")
    else
      size ← get_file_size file_path;
      admit_request client_socket (req <| total_bytes := size |>)
  else admit_request client_socket req.

Definition parser_turn (file_dir : bytes) : prog bool :=
  popped ← call FdWaitPop;
  match popped with
  | None => Ret false
  | Some client_socket =>
      h ← read_header_line client_socket 1000;
      let '(header, leftover) := h in
      if beq header [] then refuse client_socket (str "timeout or invalid request")
      else
        match parse_request_header header client_socket with
        | Throw e => refuse client_socket e
        | Ok req => dispatch file_dir client_socket (req <| pending_bytes := leftover |>)
        end
  end.

(** ** The workers *)

(** [scheduler.next(request_queue)]: the pop under the lock of the queue, the
    budget outside of it. *)
Definition scheduler_next (s : Scheduler) : prog ScheduleDecision :=
  taken ← match policy_ s with
          | SJF => call (RqWaitPopBest sjf_compare)
          | _ => call RqWaitPop
          end;
  Ret (decide_on s taken).

Definition stamp_start (req : Request) : prog Request :=
  if start_ns req =? 0 then t ← monotonic_ns; Ret (req <| start_ns := t |>)
  else Ret req.

(** The transfer of one round. *)
Definition transfer (file_dir : bytes) (s : Scheduler) (packetization budget : Z)
    (req : Request) : prog served :=
  match op req with
  | GET => serve_get req file_dir budget (policy_eqb (policy_ s) RR) packetization
  | PUT =>
      _ ← (if offset req =? 0 then send_response (client_fd req) 0 else Ret tt);
      serve_put req file_dir budget
  | HEALTH => Ret (false, req, 0)
  end.

(** The accounting of a successful round: the request and whether to requeue it. *)
Definition settle (s : Scheduler) (budget bytes_processed : Z) (req : Request) : Request * bool :=
  let req := account s bytes_processed req in
  let requeue := should_requeue req in
  (if requeue && policy_eqb (policy_ s) RR && op_eqb (op req) GET && (bytes_processed <? budget)
   then req <| forfeited_bytes := u64 (forfeited_bytes req + u64 (budget - bytes_processed)) |>
   else req, requeue).

(** [request_queue.complete(); close_socket(req.client_fd); continue;]. *)
Definition complete_and_close (req : Request) : prog bool :=
  _ ← call RqComplete;
  _ ← close_socket (client_fd req);
  Ret true.

(** The end of a request that is finished: commit of a PUT, metrics. *)
Definition finish (file_dir : bytes) (req : Request) : prog bool :=
  committed ←
    (if op_eqb (op req) PUT then
       renamed ← call (Rename (path_in file_dir (staging_filename req))
                              (path_in file_dir (filename req)));
       if negb (renamed =? 0) then
         _ ← send_error (client_fd req) (str "cannot commit file"); Ret false
       else _ ← send_response (client_fd req) 0; Ret true
     else Ret true);
  if negb committed then complete_and_close req
  else
    t ← monotonic_ns;
    let req := req <| finish_ns := t |> in
    _ ← call (RecordMetrics req);
    complete_and_close req.

Definition worker_turn (file_dir : bytes) (s : Scheduler) (packetization : Z) : prog bool :=
  decision ← scheduler_next s;
  if negb (valid decision) then Ret false
  else
    req ← stamp_start (request decision);
    result ← transfer file_dir s packetization (budget decision) req;
    let '(success, req, bytes_processed) := result in
    if negb (success : bool) then
      _ ← (if negb (beq (staging_filename req) [])
           then call (Remove (path_in file_dir (staging_filename req))) else Ret tt);
      complete_and_close req
    else
      let '(req, requeue) := settle s (budget decision) bytes_processed req in
      if (requeue : bool) then
        ok ← call (RqRequeue req);
        if negb ok then _ ← close_socket (client_fd req); Ret true else Ret true
      else finish file_dir req.
