(* ===== verification/Transfer.v ===== *)
(** Whole transfers: a request is served by the turns of a worker, round after
    round, until it is complete.  The theorems say what the client receives and
    what is stored, under every policy. *)

From S2P Require Import Prelude Text Queue Scheduling Metrics Effects FileIO Socket Protocol.
From S2P Require Import Server Threads.

Local Open Scope Z_scope.

(** ** The turns of one worker *)

Section turns.
Context (dir : bytes) (s : Scheduler) (p : Z).

(** [n] turns of a worker that runs alone. *)
Fixpoint run_turns (n : nat) (w : world) : option world :=
  match n with
  | O => Some w
  | S n' =>
      match run (worker_turn dir s p) w with Done true w' => run_turns n' w' | _ => None end
  end.

(** Only [r] is in the queue. *)
Definition alone (r : Request) (w : world) : Prop :=
  request_queue w = RequestQueue.mk [r] (RequestQueue.closed_ (request_queue w)) 0.

(** No request is left. *)
Definition idle (w : world) : Prop :=
  request_queue w = RequestQueue.mk [] (RequestQueue.closed_ (request_queue w)) 0.

End turns.

(** The bytes [data] went out on [fd]; files, other connections and the metrics
    are as before. *)
Record delivered (fd : Z) (data : bytes) (w w' : world) : Prop := {
  dl_files : files w' = files w;
  dl_faults : faults w' = faults w;
  dl_records : records_ w' = records_ w;
  dl_closed : closed_socks w' = closed_socks w;
  dl_sock : exists c t, socks w !! fd = Some c /\ (SendFails ∉ t) /\
    socks w' = <[fd := mkSock (rx c) t (sent c ++ data)]> (socks w)
}.

(** The connection is closed and the request recorded, after [data] was sent. *)
Record completed (r : Request) (data : bytes) (w w' : world) : Prop := {
  cp_files : files w' = files w;
  cp_idle : idle w';
  cp_records : exists m, (records_ w' = records_ w ++ [m]) /\
    m_request_id m = request_id r /\ m_op m = op r /\ m_filename m = filename r /\
    m_total_bytes m = total_bytes r;
  cp_sock : exists c t, socks w !! client_fd r = Some c /\
    socks w' = delete (client_fd r) (socks w) /\
    closed_socks w' = (client_fd r, mkSock (rx c) t (sent c ++ data)) :: closed_socks w
}.

(** ** Lemmas on the pieces of a turn *)

(** Only the clock moved. *)
Definition same_but_clock (w w' : world) : Prop :=
  exists n t, w' = w <| now := n |> <| ticks := t |>.

Lemma run_monotonic_ns w : exists t w', run monotonic_ns w = Done t w' /\ same_but_clock w w'.
Proof.
  unfold monotonic_ns. rewrite run_bind, run_call. cbn [handle]. rewrite run_ret.
  eexists _, _. split; [done|]. unfold tick. destruct (ticks w) as [|d l] eqn:E.
  - exists (now w), []. destruct w. simpl in *. by subst.
  - by eexists _, _.
Qed.

Lemma run_stamp_start r w :
  exists t w', run (stamp_start r) w = Done (r <| start_ns := t |>) w' /\ same_but_clock w w'.
Proof.
  unfold stamp_start. destruct (start_ns r =? 0).
  - rewrite run_bind. destruct (run_monotonic_ns w) as (t & w' & -> & H). by exists t, w'.
  - exists (start_ns r), w. split; [by destruct r|]. exists (now w), (ticks w). by destruct w.
Qed.

Lemma run_scheduler_next s r w :
  alone r w ->
  run (scheduler_next s) w = Done (decide_on s (Some r))
    (w <| request_queue := RequestQueue.mk [] (RequestQueue.closed_ (request_queue w)) 1 |>).
Proof.
  unfold alone. intros E. unfold scheduler_next.
  destruct (policy_ s); rewrite run_bind, run_call; cbn [handle]; rewrite E; done.
Qed.

Lemma delivered_trans fd d1 d2 w1 w2 w3 :
  delivered fd d1 w1 w2 -> delivered fd d2 w2 w3 -> delivered fd (d1 ++ d2) w1 w3.
Proof.
  intros [F1 A1 R1 C1 (c & t & Hc & _ & S1)] [F2 A2 R2 C2 (c' & t' & Hc' & Ht & S2)].
  split; [congruence..|]. exists c, t'. split_and!; [done..|].
  rewrite S1, lookup_insert_eq in Hc'. simplify_eq. rewrite S2, S1, insert_insert_eq. simpl.
  by rewrite app_assoc.
Qed.

Lemma delivered_sendable fd data w w' : delivered fd data w w' -> sendable fd w'.
Proof.
  intros [_ _ _ _ (c & t & _ & Ht & E)]. eexists. rewrite E. split; [apply lookup_insert_eq|done].
Qed.

(** The end of a round: the request is taken out of flight, its connection closed. *)
Lemma run_complete_and_close r c w :
  0 <= client_fd r -> RequestQueue.inflight_ (request_queue w) = 1 ->
  socks w !! client_fd r = Some c ->
  run (complete_and_close r) w = Done true
    (w <| request_queue := RequestQueue.mk (RequestQueue.queue_ (request_queue w))
                             (RequestQueue.closed_ (request_queue w)) 0 |>
       <| socks := delete (client_fd r) (socks w) |>
       <| closed_socks := (client_fd r, c) :: closed_socks w |>).
Proof.
  intros Hfd Hn Hc. unfold complete_and_close, close_socket. rewrite run_bind, run_call. cbn [handle].
  rewrite run_bind. rewrite (proj2 (Z.leb_le _ _) Hfd). rewrite run_call. cbn [handle].
  rewrite run_ret. f_equal. destruct w as [f so cs li no ti fa [q cl n] fq ni ig re sf].
  simpl in Hn, Hc. subst n. unfold close_sock. simpl. by rewrite Hc.
Qed.

(** The request is in flight and nothing else is in the queue. *)
Definition in_flight (w : world) : Prop :=
  request_queue w = RequestQueue.mk [] (RequestQueue.closed_ (request_queue w)) 1.

Lemma run_finish_get dir r c w :
  op r = GET -> 0 <= client_fd r -> in_flight w -> socks w !! client_fd r = Some c ->
  exists w', run (finish dir r) w = Done true w' /\ files w' = files w /\ idle w' /\
    (exists t, records_ w' = records_ w ++ [metrics_of (r <| finish_ns := t |>)]) /\
    socks w' = delete (client_fd r) (socks w) /\
    closed_socks w' = (client_fd r, c) :: closed_socks w.
Proof.
  intros Hop Hfd Hq Hc. unfold finish. rewrite Hop. cbn [op_eqb]. rewrite run_bind, run_ret.
  cbn [negb]. destruct (run_monotonic_ns w) as (t & w1 & Hrun & (n & l & ->)).
  rewrite run_bind, Hrun. cbv zeta. rewrite run_bind, run_call. cbn [handle]. clear Hrun.
  destruct w as [f so cs li no ti fa q fq ni ig re sf]. unfold in_flight in Hq. simpl in Hq, Hc.
  rewrite (run_complete_and_close _ c); [|done|by simpl; rewrite Hq|done].
  eexists. split; [done|]. unfold idle. simpl. rewrite Hq. split_and!; try done. by exists t.
Qed.

(** The request in the next round, after one that processed [n] bytes. *)
Record next_round (r r' : Request) (n de : Z) : Prop := {
  nr_id : request_id r' = request_id r;
  nr_fd : client_fd r' = client_fd r;
  nr_op : op r' = op r;
  nr_name : filename r' = filename r;
  nr_total : total_bytes r' = total_bytes r;
  nr_offset : offset r' = offset r + n;
  nr_deficit : deficit r' = de;
  nr_sent : response_sent r' = true
}.

Lemma get_budget_shape s r :
  exists d, (get_budget s r).2 = r <| deficit := d |> /\ (policy_ s <> DRR -> d = deficit r).
Proof.
  unfold get_budget. destruct (remaining r =? 0); [exists (deficit r); by destruct r|].
  destruct (policy_ s); try (exists (deficit r); by destruct r).
  eexists. split; [done|]. by intros [].
Qed.

(** The deficit after a round of [n] bytes that leaves something. *)
Definition deficit_after (s : Scheduler) (de n : Z) : Z :=
  if policy_eqb (policy_ s) DRR then Z.max 0 (de - n) else de.

Lemma settle_eq s b n r :
  wf_request r -> 0 <= n <= total_bytes r - offset r ->
  exists f, settle s b n r =
    (r <| rounds := u64 (rounds r + 1) |> <| offset := offset r + n |>
       <| deficit := deficit_after s (deficit r) n |> <| forfeited_bytes := f |>,
     offset r + n <? total_bytes r).
Proof.
  intros Hr Hn. pose proof (account_keeps_wf s n r Hr ltac:(lia)) as Hwf.
  unfold settle. cbv zeta. rewrite should_requeue_wf by done. clear Hwf.
  rewrite account_wf by (done || lia). rewrite !Z.min_l by lia.
  set (q := offset _ <? total_bytes _).
  assert (q = (offset r + n <? total_bytes r)) as Hq by done. clearbody q. subst q.
  unfold deficit_after. destruct (_ && _ && _ && _).
  - eexists. f_equal.
  - exists (forfeited_bytes r). done.
Qed.

Lemma settle_get s b n r r0 :
  wf_request r -> 0 <= n <= total_bytes r - offset r ->
  request_id r = request_id r0 -> client_fd r = client_fd r0 -> op r = op r0 ->
  filename r = filename r0 -> total_bytes r = total_bytes r0 -> offset r = offset r0 ->
  response_sent r = true ->
  next_round r0 (settle s b n r).1 n (deficit_after s (deficit r) n) /\
  (settle s b n r).2 = (offset r + n <? total_bytes r).
Proof.
  intros Hr Hn. intros. destruct (settle_eq s b n r Hr Hn) as (f & ->). cbn [fst snd].
  split; [|done]. split; field_simpl; (done || congruence).
Qed.

(** ** One turn on a GET *)

Section get.
Context (dir : bytes) (s : Scheduler) (p : Z) (Hs : wf_scheduler s) (Hp : 0 < p < 2 ^ 31).

(** A GET that is the only request, its file [c] in place. *)
Record get_alone (r : Request) (c : bytes) (w : world) : Prop := {
  ga_ready : get_ready r dir c w;
  ga_op : op r = GET;
  ga_fd : 0 <= client_fd r;
  ga_alone : alone r w;
  ga_wf : wf_request r;
  ga_fits : deficit_fits s r
}.

(** The bytes that its next round sends. *)
Definition round_bytes (r : Request) (c : bytes) : Z :=
  (round_size (get_budget s r).1 (policy_eqb (policy_ s) RR) (zdrop (offset r) c)).1.

Lemma get_ready_world r c w w' :
  get_ready r dir c w -> files w' = files w -> faults w' = faults w -> socks w' = socks w ->
  get_ready r dir c w'.
Proof.
  intros [? Hfile ? ? ? Hf (q & Hq & Ht)] E1 E2 E3. split; try done; [by rewrite E1|by rewrite E2|].
  exists q. by rewrite E3.
Qed.

Lemma get_budget_nonneg r : wf_request r -> 0 <= (get_budget s r).1.
Proof.
  destruct Hs as [Hq _]. intros (? & ? & Hd). unfold get_budget, remaining, is_u64 in *.
  pose proof (u64_range (total_bytes r - offset r)) as H1.
  pose proof (u64_range (deficit r + quantum_ s)) as H2. unfold is_u64 in *.
  destruct (_ <? _); [|done]. destruct (_ =? 0); [done|]. destruct (policy_ s); simpl; lia.
Qed.

Lemma get_budget_wf r : wf_request r -> wf_request (get_budget s r).2.
Proof.
  intros (? & ? & ?). unfold get_budget. destruct (_ =? 0); [done|].
  destruct (policy_ s); try done. unfold wf_request. field_simpl. split_and!; try lia.
  apply u64_range.
Qed.

(** The round itself: [serve_get] and the accounting. *)
Lemma run_round_get r c w :
  get_ready r dir c w -> op r = GET -> wf_request r ->
  forall b t, 0 <= b ->
  let r1 := r <| start_ns := t |> in
  let n := (round_size b (policy_eqb (policy_ s) RR) (zdrop (offset r) c)).1 in
  exists r2 w', run (transfer dir s p b r1) w = Done (true, r2, n) w' /\
    sent_on (client_fd r) (get_status r ++ ztake n (zdrop (offset r) c)) w w' /\
    0 <= n <= total_bytes r - offset r /\
    next_round r (settle s b n r2).1 n (deficit_after s (deficit r) n) /\
    (settle s b n r2).2 = (offset r + n <? total_bytes r) /\
    client_fd (settle s b n r2).1 = client_fd r.
Proof.
  intros Hr Hop Hwf b t Hb r1 n. unfold transfer. change (op r1) with (op r). rewrite Hop.
  assert (get_ready r1 dir c w) as Hr1 by (by destruct Hr).
  destruct (run_serve_get r1 dir c b (policy_eqb (policy_ s) RR) p w Hr1 Hb Hp)
    as (w' & Hrun & Hsent). change (offset r1) with (offset r) in *. fold n in Hrun, Hsent.
  set (a14 := (round_size b _ _).2) in Hrun.
  assert (0 <= n <= total_bytes r - offset r) as Hn.
  { pose proof (round_size_spec b (policy_eqb (policy_ s) RR) (zdrop (offset r) c) Hb) as Hspec.
    destruct Hr. subst n. destruct (round_size _ _ _) as [n' a']. destruct Hspec as [Ha _].
    apply aligned_range in Ha. rewrite zlen_zdrop in Ha by lia. simpl. lia. }
  exists (after_get r1 a14), w'. split; [done|]. split; [done|]. split; [done|].
  destruct (settle_get s b n (after_get r1 a14) r) as [Hnr Hq]; try done.
  split; [done|]. split; [done|]. apply Hnr.
Qed.

(** A turn on a GET: the request goes back to the queue with its progress, or it
    is completed. *)
Lemma worker_turn_get r c w :
  get_alone r c w ->
  let n := round_bytes r c in
  let data := get_status r ++ ztake n (zdrop (offset r) c) in
  exists w', run (worker_turn dir s p) w = Done true w' /\ 0 <= n <= total_bytes r - offset r /\
    if offset r + n <? total_bytes r
    then exists r', alone r' w' /\ delivered (client_fd r) data w w' /\
      next_round r r' n (deficit_after s (deficit (get_budget s r).2) n)
    else completed r data w w'.
Proof.
  intros [Hr Hop Hfd Halone Hwf Hfits] n data.
  pose proof (get_budget_nonneg r Hwf) as Hb. pose proof (get_budget_wf r Hwf) as Hwf1.
  destruct (get_budget_shape s r) as (d & Er & Hd).
  set (r1 := (get_budget s r).2) in *. set (b := (get_budget s r).1) in *.
  assert (get_ready r1 dir c w) as Hr1 by (rewrite Er; by destruct Hr).
  unfold worker_turn. rewrite run_bind, (run_scheduler_next s r) by done.
  set (w1 := w <| request_queue := _ |>). rewrite decide_on_Some. cbn [valid negb request budget].
  fold r1 b. rewrite run_bind.
  destruct (run_stamp_start r1 w1) as (t & w2 & -> & (now' & tk & Ew2)).
  assert (get_ready r1 dir c w2) as Hr2.
  { apply (get_ready_world r1 c w w2 Hr1); by rewrite Ew2. }
  destruct (run_round_get r1 c w2 Hr2 ltac:(by rewrite Er) Hwf1 b t Hb)
    as (r2 & w3 & Hrun & Hsent & Hn & Hnext & Hq & Hfd2).
  assert (offset r1 = offset r /\ total_bytes r1 = total_bytes r /\ client_fd r1 = client_fd r /\
    get_status r1 = get_status r) as (E1 & E2 & E3 & E4) by (by rewrite Er).
  rewrite E1 in Hrun, Hsent, Hn, Hnext, Hq, Hfd2.
  change (round_size b (policy_eqb (policy_ s) RR) (zdrop (offset r) c)).1 with n in *.
  rewrite E2 in Hn, Hq. rewrite E3 in Hsent, Hfd2.
  rewrite E4 in Hsent. rewrite run_bind, Hrun. cbn [negb]. clear Hrun Hr1 Hr2.
  assert (files w3 = files w /\ faults w3 = faults w /\ records_ w3 = records_ w /\
    closed_socks w3 = closed_socks w /\ in_flight w3 /\
    exists q tx', socks w !! client_fd r = Some q /\ (SendFails ∉ tx') /\
      socks w3 = <[client_fd r := mkSock (rx q) tx' (sent q ++ data)]> (socks w))
    as (F & A & R & C & Hfl & q & tx' & Hq' & Htx & S).
  { destruct Hsent as (q & tx' & Hq' & Htx & ->). subst w2 w1. clear -Hq' Htx. destruct w.
    simpl in *. split_and!; try done. by exists q, tx'. }
  clear Hsent w2 Ew2. destruct (settle s b n r2) as [r' requeue]. cbn [fst snd] in *.
  subst requeue.
  destruct (Z.ltb_spec (offset r + n) (total_bytes r)) as [Hlt|Hge].
  - rewrite run_bind, run_call. cbn [handle]. unfold RequestQueue.requeue, RequestQueue.release.
    unfold in_flight in Hfl. rewrite Hfl. cbn [RequestQueue.inflight_].
    destruct (Z.ltb_spec 0 1); [|lia]. cbn [negb]. rewrite run_ret.
    eexists. split; [done|]. split; [done|]. exists r'. clear Hd. destruct w3. simpl in *.
    split_and!; [done| |].
    + split; try done. by exists q, tx'.
    + destruct Hnext. rewrite Er in *. by split.
  - destruct (run_finish_get dir r' (mkSock (rx q) tx' (sent q ++ data)) w3)
      as (w4 & Hrun & F4 & I4 & (t4 & R4) & S4 & C4).
    + destruct Hnext as [_ _ -> _ _ _ _ _]. by rewrite Er.
    + by rewrite Hfd2.
    + done.
    + by rewrite S, Hfd2, lookup_insert_eq.
    + exists w4. split; [done|]. split; [done|]. split; [congruence|done| |].
      * eexists. split; [by rewrite R4, R|]. destruct Hnext. rewrite Er in *. done.
      * exists q, tx'. rewrite S4, C4, S, C, Hfd2. by rewrite delete_insert_eq.
Qed.

(** A round makes progress: it sends something, or under DRR the deficit grows
    towards the next line; the deficit stays below the size of the file. *)
Lemma round_progress r c w :
  get_alone r c w -> quantum_ s < 2 ^ 63 -> deficit r <= zlen c ->
  let n := round_bytes r c in
  let de := deficit_after s (deficit (get_budget s r).2) n in
  offset r + n < total_bytes r ->
  0 <= n /\ (policy_ s = DRR -> 0 <= de <= zlen c /\ (n = 0 -> deficit r < de)) /\
  (policy_ s <> DRR -> 0 < n /\ de = deficit r).
Proof.
  intros [Hr Hop Hfd Halone Hwf Hfits] Hq Hde n de Hlt.
  destruct Hr as [_ _ Hsize Hsmall Hoff _ _]. pose proof Hwf as (_ & Htot & Hd0).
  pose proof (zlen_zdrop (offset r) c ltac:(lia)) as Hl.
  assert (0 <= n) as Hn.
  { pose proof (round_size_spec (get_budget s r).1 (policy_eqb (policy_ s) RR)
      (zdrop (offset r) c) (get_budget_nonneg r Hwf)) as Hspec. subst n. unfold round_bytes.
    destruct (round_size _ _ _) as [n' a']. destruct Hspec as [Ha _].
    apply aligned_range in Ha. simpl. lia. }
  split; [done|]. assert (offset r < total_bytes r) as Hlt' by lia.
  pose proof (granted_range s r Hs Hwf Hlt') as Hg.
  pose proof (round_size_spec (granted s r) (policy_eqb (policy_ s) RR) (zdrop (offset r) c)
    ltac:(lia)) as Hspec.
  assert (n = (round_size (granted s r) (policy_eqb (policy_ s) RR) (zdrop (offset r) c)).1) as En.
  { subst n. unfold round_bytes. by rewrite get_budget_granted. }
  assert (granted s r < total_bytes r - offset r) as Hpart.
  { destruct (Z.ltb_spec (granted s r) (total_bytes r - offset r)); [done|].
    unfold round_size in En. destruct (Z.eqb_spec (zlen (zdrop (offset r) c)) 0); [lia|].
    destruct (Z.eqb_spec (granted s r) 0); [lia|]. cbn [orb] in En.
    destruct (Z.leb_spec (zlen (zdrop (offset r) c)) (granted s r)); simpl in En; lia. }
  assert (zdrop (offset r) c <> []) as Hne by (intros E; rewrite E in Hl; list_lia).
  pose proof (first_line_length (zdrop (offset r) c)) as Hfl.
  destruct (round_size _ _ _) as [n' a14]. cbn [fst] in En. subst n'.
  destruct Hspec as (Ha & Hle & Hover & Hzero). specialize (Hzero Hne ltac:(lia)).
  subst de. unfold deficit_after. rewrite get_budget_granted by done. cbn [snd].
  unfold granted in *. destruct Hs as [Hqu Hqpos]. unfold is_u64 in *.
  destruct (policy_ s) eqn:E; cbn [policy_eqb] in *; (split; intros E'; [|try done]); try done.
  - lia.
  - lia.
  - split; [|done]. destruct (Z.eq_dec n 0) as [E0|]; [|lia]. by destruct (Hzero E0).
  - assert (0 < quantum_ s) by (apply Hqpos; by right).
    destruct a14; [by destruct (Hover eq_refl)|]. specialize (Hle eq_refl).
    field_simpl. split; [lia|]. intros ->. lia.
Qed.

(** What is ready for the next round. *)
Lemma get_alone_next r c w r' w' data n de :
  get_alone r c w -> alone r' w' -> delivered (client_fd r) data w w' -> next_round r r' n de ->
  0 <= n -> offset r + n < total_bytes r -> quantum_ s < 2 ^ 63 -> 0 <= de ->
  (policy_ s = DRR -> de < 2 ^ 62) -> (policy_ s <> DRR -> de = deficit r) ->
  get_alone r' c w'.
Proof.
  intros [Hr Hop Hfd Halone Hwf Hfits] Hal Hdl [Eid Efd Eop Ename Etot Eoff Ede Esent] Hn Hlt Hq Hde
    Hdrr Hother.
  destruct Hr as [Hname Hfile Hsize Hsmall Hoff Hf Hsock].
  destruct Hwf as (? & ? & Hd0). pose proof (delivered_sendable _ _ _ _ Hdl) as Hsend.
  destruct Hdl as [F A _ _ _].
  split; rewrite ?Eop, ?Efd; try done.
  - split; rewrite ?Ename, ?F, ?A, ?Etot, ?Eoff, ?Efd; try done; lia.
  - unfold wf_request. rewrite Eoff, Etot, Ede. split_and!; try lia.
    unfold is_u64 in *. destruct (decide (policy_ s = DRR)) as [E|E]; [|by rewrite Hother].
    specialize (Hdrr E). lia.
  - intros E. rewrite Ede. specialize (Hdrr E). lia.
Qed.

Lemma completed_after r r' d1 d2 w w1 w2 n de :
  next_round r r' n de -> delivered (client_fd r) d1 w w1 -> completed r' d2 w1 w2 ->
  completed r (d1 ++ d2) w w2.
Proof.
  intros [Eid Efd Eop Ename Etot _ _ _] [F A R C (q & t & Hq & _ & S)]
    [F2 I2 (m & R2 & M1 & M2 & M3 & M4) (q2 & t2 & Hq2 & S2 & C2)].
  split; [congruence|done| |].
  - exists m. rewrite R2, R. split_and!; congruence.
  - rewrite Efd in *. rewrite S, lookup_insert_eq in Hq2. simplify_eq/=. exists q, t2.
    split_and!; [done| |].
    + by rewrite S2, S, delete_insert_eq.
    + by rewrite C2, C, app_assoc.
Qed.

(** Rounds until the end. *)
Lemma run_turns_get m r c w :
  get_alone r c w -> quantum_ s < 2 ^ 63 -> deficit r <= zlen c ->
  (total_bytes r - offset r) * (zlen c + 1) + (zlen c - deficit r) <= Z.of_nat m ->
  exists k w', run_turns dir s p k w = Some w' /\
    completed r (get_status r ++ zdrop (offset r) c) w w'.
Proof.
  revert r w. induction m as [m IH] using lt_wf_ind. intros r w Hga Hq Hde Hm.
  destruct (worker_turn_get r c w Hga) as (w1 & Hrun & Hn & Hend).
  pose proof (round_progress r c w Hga Hq Hde) as Hprog. cbv zeta in Hn, Hend, Hprog.
  set (n := round_bytes r c) in *.
  pose proof Hga as [[_ _ Hsize Hsmall Hoff _ _] _ _ _ Hwf _].
  destruct (Z.ltb_spec (offset r + n) (total_bytes r)) as [Hlt|Hge].
  - destruct Hend as (r' & Hal & Hdl & Hnr). specialize (Hprog Hlt) as (Hn0 & Hdrr & Hother).
    set (de := deficit_after s _ n) in *.
    pose proof Hwf as (_ & _ & Hd0). unfold is_u64 in Hd0.
    assert (0 <= de <= zlen c /\ (n = 0 -> deficit r < de)) as [Hde' Hgrow].
    { destruct (decide (policy_ s = DRR)) as [E|E]; [by apply Hdrr|].
      destruct (Hother E) as [? ->]. split; [lia|]. intros. lia. }
    clearbody de n.
    assert (get_alone r' c w1) as Hga'.
    { eapply get_alone_next; try done; [lia|intros; lia|]. intros E. by apply Hother. }
    destruct Hnr as [Eid Efd Eop Ename Etot Eoff Ede Esent] eqn:EE. clear EE.
    destruct (IH (Z.to_nat ((total_bytes r' - offset r') * (zlen c + 1) + (zlen c - deficit r'))))
      with (r := r') (w := w1) as (k & w' & Hk & Hc); try done.
    + rewrite Etot, Eoff, Ede. rewrite Z.sub_add_distr, Z.mul_sub_distr_r.
      assert (0 <= (total_bytes r - offset r) * (zlen c + 1)) by nia.
      destruct (Z.eq_dec n 0) as [E0|]; [subst n; specialize (Hgrow eq_refl); lia|].
      assert (zlen c + 1 <= n * (zlen c + 1) <= (total_bytes r - offset r) * (zlen c + 1)) by nia.
      lia.
    + rewrite Ede; lia.
    + rewrite Etot, Eoff, Ede. nia.
    + exists (S k), w'. split; [simpl; by rewrite Hrun|].
      assert (get_status r' = []) as Est by (unfold get_status; by rewrite Esent).
      rewrite Est, app_nil_l in Hc.
      replace (get_status r ++ zdrop (offset r) c) with
        ((get_status r ++ ztake n (zdrop (offset r) c)) ++ zdrop (offset r') c).
      * eapply completed_after; done.
      * rewrite Eoff, <- zdrop_zdrop, <- app_assoc, ztake_zdrop by lia. done.
  - exists 1%nat, w1. split; [simpl; by rewrite Hrun|].
    rewrite ztake_all in Hend; [done|]. rewrite zlen_zdrop by lia. lia.
Qed.

(** C3: a download is complete.  Under every policy, with every packetization, a
    GET that is alone with a worker is served in finitely many turns: the client
    receives the status line with the size of the file and then exactly the file,
    the connection is closed, the request recorded once, the files untouched. *)
Theorem get_is_served_completely r c w :
  get_alone r c w -> quantum_ s < 2 ^ 63 ->
  offset r = 0 -> deficit r = 0 -> response_sent r = false ->
  exists k w', run_turns dir s p k w = Some w' /\ completed r (ok_line (zlen c) ++ c) w w'.
Proof.
  intros Hga Hq Ho Hd Hsent. pose proof (ga_ready _ _ _ Hga) as [_ _ Hsize _ _ _ _].
  destruct (run_turns_get (Z.to_nat ((total_bytes r - offset r) * (zlen c + 1) +
    (zlen c - deficit r))) r c w Hga Hq) as (k & w' & Hk & Hc).
  - rewrite Hd. list_lia.
  - lia.
  - exists k, w'. split; [done|]. unfold get_status in Hc. rewrite Hsent, Ho, Hsize in Hc.
    by rewrite zdrop_0 in Hc by lia.
Qed.

End get.

(** ** A download whose file shrinks *)

Section shrunk.
Context (dir : bytes) (s : Scheduler) (p : Z).

(** A GET under RR, part of which was sent, whose file has since been replaced by
    a shorter one. *)
Record shrunk (r : Request) (c : bytes) (w : world) : Prop := {
  sk_rr : policy_ s = RR /\ 0 < quantum_ s;
  sk_pack : 0 < p < 2 ^ 31;
  sk_op : op r = GET;
  sk_name : is_valid_filename (filename r) = true;
  sk_file : files w !! path_in dir (filename r) = Some (File c);
  sk_offset : zlen c <= offset r;
  sk_left : quantum_ s < total_bytes r - offset r /\ total_bytes r < 2 ^ 62;
  sk_faults : faults w = [];
  sk_sent : response_sent r = true;
  sk_alone : alone r w
}.

Lemma worker_turn_shrunk r c w :
  shrunk r c w ->
  exists r' w', run (worker_turn dir s p) w = Done true w' /\ shrunk r' c w' /\
    offset r' = offset r /\ socks w' = socks w /\ closed_socks w' = closed_socks w /\
    records_ w' = records_ w.
Proof.
  intros [[Hrr Hq] Hp Hop Hname Hfile Hoff [Hleft Htot] Hf Hsent Halone].
  pose proof (zlen_nonneg c).
  assert (remaining r = total_bytes r - offset r) as Hrem.
  { unfold remaining. destruct (Z.ltb_spec (offset r) (total_bytes r)); [|lia].
    rewrite u64_small; word. }
  assert (get_budget s r = (quantum_ s, r)) as Hb.
  { unfold get_budget. rewrite Hrem, Hrr. destruct (Z.eqb_spec (total_bytes r - offset r) 0); [lia|].
    by rewrite Z.min_r by lia. }
  unfold worker_turn. rewrite run_bind, (run_scheduler_next s r) by done.
  rewrite decide_on_Some, Hb. cbn [valid negb request budget fst snd].
  set (w1 := w <| request_queue := _ |>). rewrite run_bind.
  destruct (run_stamp_start r w1) as (t & w2 & -> & (now' & tk & ->)). subst w1.
  set (w2 := _ <| ticks := tk |>). set (r1 := r <| start_ns := t |>).
  rewrite run_bind. unfold transfer. change (op r1) with (op r). rewrite Hop.
  rewrite (run_serve_get_shrunk r1 dir c) by (done || (change (total_bytes r1) with (total_bytes r);
    change (offset r1) with (offset r); lia)).
  cbn [negb]. unfold settle, account, should_requeue.
  assert (remaining (r1 <| rounds := u64 (rounds r1 + 1) |>) = total_bytes r - offset r) as Hrem1 by done.
  rewrite Hrem1, Hrr. cbn [policy_eqb]. cbv zeta. rewrite Z.min_l by lia.
  change (offset (r1 <| rounds := u64 (rounds r1 + 1) |>)) with (offset r).
  rewrite Z.add_0_r, (u64_small (offset r)) by word.
  set (r2 := r1 <| rounds := _ |> <| offset := offset r |>).
  change (remaining r2) with (remaining r). rewrite Hrem.
  destruct (Z.ltb_spec 0 (total_bytes r - offset r)); [|lia].
  change (op r2) with (op r). rewrite Hop. cbn [andb op_eqb].
  destruct (Z.ltb_spec 0 (quantum_ s)); [|lia].
  set (r3 := r2 <| forfeited_bytes := _ |>).
  rewrite run_bind, run_call. cbn [handle]. unfold RequestQueue.requeue, RequestQueue.release.
  change (RequestQueue.inflight_ (request_queue w2)) with 1. destruct (Z.ltb_spec 0 1); [|lia].
  cbn [negb]. rewrite run_ret. exists r3. eexists. split; [done|].
  clear Hb Hrem Hrem1. destruct w. split_and!; try done.
Qed.

Lemma run_turns_shrunk r c w k :
  shrunk r c w ->
  exists r' w', run_turns dir s p k w = Some w' /\ shrunk r' c w' /\ offset r' = offset r /\
    socks w' = socks w /\ closed_socks w' = closed_socks w /\ records_ w' = records_ w.
Proof.
  revert r w. induction k as [|k IH]; intros r w Hk; [by exists r, w|].
  destruct (worker_turn_shrunk r c w Hk) as (r1 & w1 & Hrun & Hk1 & Eo & Es & Ec & Er).
  destruct (IH r1 w1 Hk1) as (r' & w' & Hrun' & Ha & Eo' & Es' & Ec' & Er').
  exists r', w'. cbn [run_turns]. rewrite Hrun. split_and!; try done; congruence.
Qed.

End shrunk.

(** ** Concrete downloads *)

Definition drr4 : Scheduler := mkScheduler DRR 4.

Definition with_request (r : Request) (w : world) : world :=
  w <| request_queue := RequestQueue.mk [r] false 0 |>.

Definition sample_download : world := with_request sample_get (sample_files (sample_conn [])).

Lemma sample_get_alone : get_alone (str "d") drr4 sample_get two_lines sample_download.
Proof.
  split; try done. destruct sample_get_ready as [? ? ? ? ? ? (q & Hq & Ht)].
  split; try done. by exists q.
Qed.

Lemma get_complete_witness :
  exists k w', run_turns (str "d") drr4 1 k sample_download = Some w' /\
    completed sample_get (ok_line 7 ++ two_lines) sample_download w'.
Proof.
  apply (get_is_served_completely (str "d") drr4 1 ltac:(by vm_compute) ltac:(done) sample_get
    two_lines sample_download sample_get_alone); done.
Defined.

Definition rr2 : Scheduler := mkScheduler RR 2.

(** Four bytes were sent when the file was replaced by one of three bytes. *)
Definition sample_half : Request := sample_get <| offset := 4 |> <| response_sent := true |>.

Definition sample_replaced : world :=
  with_request sample_half (initial_world <| files := {[str "d/a" := File (str "one")]} |>).

Lemma sample_shrunk : shrunk (str "d") rr2 1 sample_half (str "one") sample_replaced.
Proof. done. Qed.
