(* ===== verification/Upload.v ===== *)
(** Uploads: the bytes that [serve_put] takes from a connection, how they are
    staged round after round, and what the final rename publishes. *)

From S2P Require Import Prelude Text Queue Scheduling Metrics Effects FileIO Socket Protocol.
From S2P Require Import Server Threads Transfer.

Local Open Scope Z_scope.

(** ** Specification *)

Definition incomplete : bytes := str "incomplete upload".

Definition broken : bytes := str "receive error".

(** What a round that still wants [left] bytes takes from the receiving side of a
    connection: the bytes, the error if there is one, and what is left there. *)
Fixpoint upload (left : Z) (l : list rx_event) : bytes * option bytes * list rx_event :=
  if left <=? 0 then ([], None, l)
  else
    match l with
    | [] => ([], Some incomplete, [])
    | Arrive bs :: l' =>
        match bs with
        | [] => ([], Some incomplete, l')
        | _ :: _ =>
            if zlen bs <=? left then
              let '(d, e, l'') := upload (left - zlen bs) l' in (bs ++ d, e, l'')
            else (ztake left bs, None, Arrive (zdrop left bs) :: l')
        end
    | Quiet :: l' | PeerClosed :: l' => ([], Some incomplete, l')
    | SelectError :: l' | RecvFails :: l' => ([], Some broken, l')
    end.

(** The receiving side only delivers data, in non-empty blocks. *)
Definition steady (l : list rx_event) : Prop :=
  Forall (fun e => match e with Arrive bs => bs <> [] | _ => False end) l.

Definition set_rx (l : list rx_event) (c : sock) : sock := c <| rx := l |>.

(** One call of [recv_data_with_timeout] on the tape. *)
Definition recv_once (size : Z) (l : list rx_event) : recv_result * list rx_event :=
  match l with
  | [] => (Received [], [])
  | Arrive bs :: l' =>
      if zlen bs <=? size then (Received bs, l')
      else (Received (ztake size bs), Arrive (zdrop size bs) :: l')
  | Quiet :: l' | PeerClosed :: l' => (Received [], l')
  | SelectError :: l' | RecvFails :: l' => (RecvError, l')
  end.

(** ** Receiving *)

Lemma run_recv fd size ms c w :
  socks w !! fd = Some c -> fd <> listen_socket ->
  exists n, run (recv_data_with_timeout fd size ms) w =
    Done (recv_once size (rx c)).1
      ((set_sock fd (set_rx (recv_once size (rx c)).2 c) w) <| now := n |>).
Proof.
  intros Hc Hfd. unfold recv_data_with_timeout. rewrite run_bind, run_call. cbn [handle].
  rewrite (proj2 (Z.eqb_neq _ _) Hfd). unfold select_sock. rewrite Hc.
  assert (forall w', w' <| now := now w' |> = w') as Hnow by (by intros []).
  assert (recv_once size (rx c) = recv_rx size (rx c) ->
    exists n, run (call (Recv fd size)) w = Done (recv_once size (rx c)).1
      ((set_sock fd (set_rx (recv_once size (rx c)).2 c) w) <| now := n |>)) as Hrecv.
  { intros E. exists (now w). rewrite run_call. cbn [handle]. unfold recv_sock. rewrite Hc.
    rewrite E. destruct (recv_rx size (rx c)) as [r l]. cbn [fst snd].
    change (now w) with (now (set_sock fd (set_rx l c) w)). by rewrite Hnow. }
  destruct (rx c) as [|[bs| | | |] l] eqn:E; cbn [Z.ltb Z.eqb]; try (by apply Hrecv).
  - by eexists.
  - exists (now w). cbn [recv_once fst snd].
    change (now w) with (now (set_sock fd (set_rx l c) w)). by rewrite Hnow.
Qed.

(** Reading in smaller blocks takes the same bytes. *)
Lemma upload_split left chunk bs l :
  0 < chunk < zlen bs -> chunk <= left ->
  upload left (Arrive bs :: l) =
    let '(d, e, l'') := upload (left - chunk) (Arrive (zdrop chunk bs) :: l) in
    (ztake chunk bs ++ d, e, l'').
Proof.
  intros Hc Hle. pose proof (zlen_zdrop chunk bs ltac:(lia)) as Hd. cbn [upload].
  destruct (Z.leb_spec left 0); [lia|]. destruct bs as [|b bs]; [list_lia|].
  destruct (Z.leb_spec (left - chunk) 0).
  - assert (left = chunk) as -> by lia. destruct (Z.leb_spec (zlen (b :: bs)) chunk); [lia|].
    by rewrite app_nil_r.
  - destruct (zdrop chunk (b :: bs)) as [|b' bs'] eqn:Ez; [list_lia|]. rewrite <- Ez in Hd |- *.
    rewrite Hd, Z.max_r by lia.
    destruct (Z.leb_spec (zlen (b :: bs)) left), (Z.leb_spec (zlen (b :: bs) - chunk) (left - chunk));
      try lia.
    + replace (left - chunk - (zlen (b :: bs) - chunk)) with (left - zlen (b :: bs)) by lia.
      destruct (upload _ l) as [[d e] l'']. by rewrite app_assoc, ztake_zdrop.
    + rewrite zdrop_zdrop by lia. replace left with (chunk + (left - chunk)) at 1 2 by lia.
      by rewrite ztake_add by lia.
Qed.

Lemma upload_length left l : zlen (upload left l).1.1 <= Z.max 0 left.
Proof.
  revert left. induction l as [|[bs| | | |] l IH]; intros left; cbn [upload];
    destruct (Z.leb_spec left 0); cbn [fst]; rewrite ?zlen_nil; try lia.
  destruct bs as [|b bs]; [cbn [fst]; rewrite zlen_nil; lia|]. destruct (Z.leb_spec (zlen (b :: bs)) left); cbn [fst].
  - specialize (IH (left - zlen (b :: bs))). destruct (upload _ l) as [[d e] l'']. cbn [fst] in *.
    rewrite zlen_app. lia.
  - rewrite zlen_ztake; lia.
Qed.

(** On a steady connection the round takes what has arrived. *)
Lemma upload_steady left l :
  steady l -> 0 <= left <= zlen (arrived l) ->
  exists l', upload left l = (ztake left (arrived l), None, l') /\ steady l' /\
    arrived l' = zdrop left (arrived l).
Proof.
  revert left. induction l as [|[bs| | | |] l IH]; intros left Hl Hleft; cbn [upload];
    try (by inversion Hl).
  - change (zlen (arrived [])) with 0 in Hleft. destruct (Z.leb_spec left 0); [|lia].
    by exists [].
  - inversion Hl as [|? ? Hbs Hl']. subst. cbn [arrived] in *. destruct (Z.leb_spec left 0).
    { assert (left = 0) as -> by lia. eexists. split_and!; [by rewrite ztake_0 by lia|done|].
      by rewrite zdrop_0 by lia. }
    destruct bs as [|b bs]; [done|]. rewrite zlen_app in Hleft.
    destruct (Z.leb_spec (zlen (b :: bs)) left).
    + destruct (IH (left - zlen (b :: bs)) Hl' ltac:(lia)) as (l' & -> & Hs & Ha).
      exists l'. split_and!; [|done|].
      * replace left with (zlen (b :: bs) + (left - zlen (b :: bs))) at 2 by lia.
        rewrite ztake_add, ztake_app_exact, zdrop_app_exact by list_lia. done.
      * rewrite Ha. replace left with (zlen (b :: bs) + (left - zlen (b :: bs))) at 2 by lia.
        rewrite <- zdrop_zdrop, zdrop_app_exact by list_lia. done.
    + eexists. split; [|split].
      * rewrite !ztake_take, take_app_le; [done|]. unfold zlen in *. lia.
      * constructor; [|done]. intros E. pose proof (zlen_zdrop left (b :: bs) ltac:(lia)) as Hz.
        rewrite E in Hz. list_lia.
      * cbn [arrived]. rewrite !zdrop_drop, drop_app_le; [done|]. unfold zlen in *. lia.
Qed.

(** One call, as a step of [upload]: it ends the round with an error, or it takes
    some bytes. *)
Lemma recv_once_upload chunk left l :
  0 < chunk <= left ->
  match (recv_once chunk l).1 with
  | RecvError => upload left l = ([], Some broken, (recv_once chunk l).2)
  | Received [] => upload left l = ([], Some incomplete, (recv_once chunk l).2)
  | Received got =>
      0 < zlen got <= chunk /\
      upload left l =
        let '(d, e, l') := upload (left - zlen got) (recv_once chunk l).2 in (got ++ d, e, l')
  end.
Proof.
  intros Hc. destruct l as [|[bs| | | |] l]; cbn [recv_once fst snd upload];
    try (destruct (Z.leb_spec left 0); [lia|]; done).
  destruct (Z.leb_spec (zlen bs) chunk) as [Hle|Hgt]; cbn [fst snd].
  - destruct bs as [|b bs]; destruct (Z.leb_spec left 0); try lia; [done|].
    destruct (Z.leb_spec (zlen (b :: bs)) left); [|lia]. split; [list_lia|done].
  - pose proof (zlen_ztake chunk bs ltac:(lia)) as Ht. pose proof (upload_split left chunk bs l) as Hs.
    cbn [upload] in Hs. rewrite Hs by lia. clear Hs.
    destruct (ztake chunk bs) as [|b got] eqn:E; [list_lia|]. rewrite <- E, Ht in *.
    split; [lia|]. by rewrite Z.min_l by lia.
Qed.

(** The world after a round took [d] from the connection [c] into a staging file. *)
Definition after_upload (fd : Z) (c : sock) (path content d : bytes) (l : list rx_event) (t : Z)
    (w : world) : world :=
  (set_file path (content ++ d) (set_sock fd (set_rx l c) w)) <| now := t |>.

Lemma after_upload_eq fd c path content d l t w :
  after_upload fd c path content d l t w =
    mkWorld (<[path := File (content ++ d)]> (files w)) (<[fd := set_rx l c]> (socks w))
      (closed_socks w) (listening w) t (ticks w) (faults w) (request_queue w) (fd_queue w)
      (next_request_id w) (ids_given w) (records_ w) (shutdown_flag w).
Proof. done. Qed.

Lemma after_upload_twice fd c path content d1 d2 l1 l2 t1 t2 w :
  after_upload fd (set_rx l1 c) path (content ++ d1) d2 l2 t2 (after_upload fd c path content d1 l1 t1 w) =
  after_upload fd c path content (d1 ++ d2) l2 t2 w.
Proof.
  rewrite !after_upload_eq. cbn. by rewrite !insert_insert_eq, app_assoc.
Qed.

Lemma after_upload_nothing fd c path content l t w :
  files w !! path = Some (File content) ->
  after_upload fd c path content [] l t w = (set_sock fd (set_rx l c) w) <| now := t |>.
Proof. intros H. unfold after_upload. rewrite app_nil_r, set_file_id; done. Qed.

Lemma run_receive_body fuel path r size left n c content w :
  socks w !! client_fd r = Some c -> client_fd r <> listen_socket ->
  files w !! path = Some (File content) -> faults w = [] ->
  (0 < left -> 0 < size) -> left < Z.of_nat fuel -> zlen content + left <= max_file_size ->
  0 <= n -> n + left < 2 ^ 64 ->
  let '(d, e, l) := upload left (rx c) in
  exists t, run (receive_body fuel path r size (zlen content) left n) w =
    run (match e with None => Ret (true, r, n + zlen d) | Some why => fail_with r (n + zlen d) why end)
      (after_upload (client_fd r) c path content d l t w).
Proof.
  intros Hc Hfd. revert left n c content w Hc. induction fuel as [|fuel IH];
    intros left n c content w Hc Hp Hf Hs Hfuel Hm Hn Hmax; cbn [receive_body];
    (destruct (Z.ltb_spec 0 left) as [Hpos|Hz];
     [|replace (upload left (rx c)) with (@nil Ascii.ascii, @None bytes, rx c)
         by (destruct (rx c); cbn [upload]; by rewrite (proj2 (Z.leb_le _ _)) by lia);
       exists (now w); rewrite after_upload_nothing, zlen_nil, Z.add_0_r by done;
       assert (set_rx (rx c) c = c) as -> by (by destruct c);
       rewrite set_sock_id by done; by destruct w]);
    [lia|].
  cbv zeta. specialize (Hs Hpos). set (chunk := Z.min size left). rewrite run_bind.
  destruct (run_recv (client_fd r) chunk 5000 c w Hc Hfd) as (t & ->).
  pose proof (recv_once_upload chunk left (rx c) ltac:(lia)) as Hup.
  destruct (recv_once chunk (rx c)) as [[|[|b got]] l]; cbn [fst snd] in *.
  - rewrite Hup. exists t. by rewrite after_upload_nothing, zlen_nil, Z.add_0_r by done.
  - rewrite Hup. exists t. by rewrite after_upload_nothing, zlen_nil, Z.add_0_r by done.
  - destruct Hup as [Hgot ->]. set (g := b :: got) in *. rewrite run_bind.
    rewrite (run_append path content g) by (done || lia). cbn [negb].
    change (set_file path (content ++ g) _) with (after_upload (client_fd r) c path content g l t w).
    rewrite !u64_small by (unfold is_u64, max_file_size in *; list_lia). rewrite <- zlen_app.
    specialize (IH (left - zlen g) (n + zlen g) (set_rx l c) (content ++ g)
      (after_upload (client_fd r) c path content g l t w)). cbn [rx set_rx] in IH.
    destruct (upload (left - zlen g) l) as [[d e] l'] eqn:E.
    change (rx (set_rx l c)) with l in IH. rewrite E in IH.
    destruct IH as (t' & ->); try done; try lia.
    + apply lookup_insert_eq.
    + apply lookup_insert_eq.
    + rewrite zlen_app. lia.
    + exists t'. by rewrite after_upload_twice, zlen_app, Z.add_assoc.
Qed.

(** ** One round of an upload *)

(** What is still to come of the upload: the bytes that were read together with the
    header, then those of the connection. *)
Definition pending_left (r : Request) : bytes := zdrop (pending_offset r) (pending_bytes r).

(** The round that wants [want] bytes: what it takes, the error, the rest of the
    tape. *)
Definition put_round (want : Z) (r : Request) (c : sock) : bytes * option bytes * list rx_event :=
  let k := Z.min want (zlen (pending_left r)) in
  let '(d, e, l) := upload (want - k) (rx c) in (ztake k (pending_left r) ++ d, e, l).

Definition after_put (want : Z) (r : Request) : Request :=
  r <| staging_filename := staging_name r |>
    <| pending_offset := pending_offset r + Z.min want (zlen (pending_left r)) |>.

Lemma run_write_pending fuel path r left n content w :
  files w !! path = Some (File content) -> faults w = [] ->
  0 <= left -> 0 <= pending_offset r <= zlen (pending_bytes r) -> zlen (pending_bytes r) < 2 ^ 63 ->
  zlen content + left <= max_file_size -> 0 <= n -> n + left < 2 ^ 64 ->
  let k := Z.min left (zlen (pending_left r)) in
  run (write_pending (S fuel) path r (zlen content) left n) w =
    Done (true, r <| pending_offset := pending_offset r + k |>, zlen content + k, left - k, n + k)
      (set_file path (content ++ ztake k (pending_left r)) w).
Proof.
  intros Hp Hf Hl Hpo Hlen Hm Hn Hn2 k.
  assert (zlen (pending_left r) = zlen (pending_bytes r) - pending_offset r) as Hpl.
  { unfold pending_left. rewrite zlen_zdrop by lia. lia. }
  cbn [write_pending].
  destruct ((0 <? left) && (pending_offset r <? zlen (pending_bytes r))) eqn:E.
  - to_prop. cbv zeta. rewrite <- Hpl. fold k. rewrite run_bind.
    fold (pending_left r). rewrite (run_append path content) by
      (done || (rewrite zlen_ztake; [unfold max_file_size in *|]; lia)). cbn [negb].
    rewrite !u64_small by (unfold is_u64; lia).
    set (r' := r <| pending_offset := pending_offset r + k |>).
    assert ((0 <? left - k) && (pending_offset r' <? zlen (pending_bytes r')) = false) as Hstop.
    { change (pending_offset r') with (pending_offset r + k).
      change (pending_bytes r') with (pending_bytes r). apply andb_false_iff. rewrite !Z.ltb_ge. lia. }
    destruct fuel; cbn [write_pending]; by rewrite Hstop.
  - assert (k = 0) as ->. { apply andb_false_iff in E as [E|E]; to_prop; lia. }
    rewrite run_ret, ztake_0, app_nil_r, set_file_id, !Z.add_0_r, Z.sub_0_r by (done || lia).
    do 4 f_equal. by destruct r.
Qed.

(** The staging file and the position of an upload agree. *)
Definition staging_at (dir : bytes) (r : Request) (content : bytes) (w : world) : Prop :=
  zlen content = offset r /\
  if offset r =? 0 then forall d, files w !! path_in dir (staging_name r) <> Some (Directory d)
  else files w !! path_in dir (staging_name r) = Some (File content) /\
       staging_filename r = staging_name r.

(** The bytes of a round, once the staging file [path] is open for update: those
    that arrived with the header, then those from the connection. *)
Lemma run_stage_bytes path r1 want content c w1 :
  files w1 !! path = Some (File content) -> faults w1 = [] ->
  socks w1 !! client_fd r1 = Some c -> client_fd r1 <> listen_socket -> 0 <= want ->
  0 <= pending_offset r1 <= zlen (pending_bytes r1) -> zlen (pending_bytes r1) < 2 ^ 63 ->
  zlen content + want <= max_file_size ->
  let r2 := r1 <| pending_offset := pending_offset r1 + Z.min want (zlen (pending_left r1)) |> in
  let '(d, e, l) := put_round want r1 c in
  exists t, run
    (p ← write_pending (S (length (pending_bytes r1))) path r1 (zlen content) want 0;
     let '(ok, req, pos, remaining_round, bytes_processed) := p in
     if negb (ok : bool) then Ret (false, req, bytes_processed)
     else
       receive_body (S (Z.to_nat remaining_round)) path req (Z.min CHUNK_SIZE want) pos
         remaining_round bytes_processed) w1 =
    run (match e with None => Ret (true, r2, zlen d) | Some why => fail_with r2 (zlen d) why end)
      (after_upload (client_fd r1) c path content d l t w1).
Proof.
  intros Hp Hf Hc Hfd Hw Hpo Hpl Hmax r2. pose proof (zlen_nonneg content).
  unfold max_file_size in Hmax. rewrite run_bind.
  rewrite (run_write_pending _ path r1 want 0 content w1)
    by (done || (unfold max_file_size; lia) || lia).
  cbn [negb]. rewrite Z.add_0_l. unfold put_round. fold r2.
  set (k := Z.min want (zlen (pending_left r1))) in *.
  pose proof (zlen_nonneg (pending_left r1)). set (g := ztake k (pending_left r1)) in *.
  assert (zlen g = k) as Hg by (subst g; rewrite zlen_ztake; lia).
  set (w2 := set_file path (content ++ g) w1).
  pose proof (run_receive_body (S (Z.to_nat (want - k))) path r2 (Z.min CHUNK_SIZE want) (want - k) k
    c (content ++ g) w2) as Hrb.
  destruct (upload (want - k) (rx c)) as [[d e] l].
  destruct Hrb as (t & Hrun); try done; try lia.
  - apply lookup_insert_eq.
  - unfold CHUNK_SIZE. lia.
  - rewrite zlen_app. unfold max_file_size. lia.
  - exists t. replace (zlen content + k) with (zlen (content ++ g)) by (rewrite zlen_app; lia).
    rewrite Hrun. rewrite zlen_app, Hg. f_equal.
    rewrite !after_upload_eq. cbn. by rewrite insert_insert_eq, <- app_assoc.
Qed.

(** The world in which the staging file of a round is open. *)
Definition staging_opened (dir : bytes) (r : Request) (w : world) : world :=
  if offset r =? 0 then set_file (path_in dir (staging_name r)) [] w else w.

Lemma staging_opened_spec dir r content c w :
  staging_at dir r content w -> faults w = [] -> socks w !! client_fd r = Some c ->
  let path := path_in dir (staging_name r) in
  let w1 := staging_opened dir r w in
  run (if offset r =? 0 then call (OpenTrunc path) else Ret true) w = Done true w1 /\
  files w1 !! path = Some (File content) /\ faults w1 = [] /\ socks w1 !! client_fd r = Some c /\
  forall d l t, after_upload (client_fd r) c path content d l t w1 =
    after_upload (client_fd r) c path content d l t w.
Proof.
  intros [Hlen Hst] Hf Hc path. unfold staging_opened. fold path.
  pose proof (zlen_nonneg content). destruct (Z.eqb_spec (offset r) 0) as [E|E].
  - assert (content = []) as -> by (apply zlen_zero; lia).
    split; [by apply run_open_trunc|]. split; [apply lookup_insert_eq|]. split_and!; try done.
    intros. rewrite !after_upload_eq. cbn. by rewrite insert_insert_eq.
  - split; [done|]. by destruct Hst.
Qed.

(** An upload of an empty file. *)
Lemma run_serve_put_empty dir r (r1 : Request) c w :
  staging_at dir r [] w -> faults w = [] -> socks w !! client_fd r = Some c ->
  run (is_open ← call (OpenTrunc (path_in dir (staging_name r))); Ret (is_open, r1, 0)) w =
  Done (true, r1, 0)
    (after_upload (client_fd r) c (path_in dir (staging_name r)) [] [] (rx c) (now w) w).
Proof.
  intros [Hlen Hst] Hf Hc. rewrite zlen_nil in Hlen. rewrite <- Hlen in Hst.
  change (0 =? 0) with true in Hst. cbv iota in Hst.
  rewrite run_bind, run_open_trunc by done. rewrite run_ret. f_equal.
  rewrite after_upload_eq. destruct c as [rx0 tx0 sent0]. cbn. destruct w. cbn in *.
  unfold set_file, set_rx. field_simpl. by rewrite (insert_id socks).
Qed.

Lemma run_serve_put dir r b content c w :
  is_valid_filename (filename r) = true -> staging_at dir r content w -> faults w = [] ->
  socks w !! client_fd r = Some c -> client_fd r <> listen_socket ->
  offset r <= total_bytes r -> total_bytes r <= max_file_size -> 0 <= b ->
  0 <= pending_offset r <= zlen (pending_bytes r) -> zlen (pending_bytes r) < 2 ^ 63 ->
  let want := Z.min b (total_bytes r - offset r) in
  let '(d, e, l) := put_round want r c in
  exists t, run (serve_put r dir b) w =
    run (match e with
         | None => Ret (true, after_put want r, zlen d)
         | Some why => fail_with (after_put want r) (zlen d) why
         end)
      (after_upload (client_fd r) c (path_in dir (staging_name r)) content d l t w).
Proof.
  intros Hname Hst Hf Hc Hfd Ho Htot Hb Hpo Hpl want. pose proof (zlen_nonneg content) as H0.
  pose proof Hst as [Hlen _]. unfold serve_put. rewrite Hname. cbn [negb].
  assert ((if offset r =? 0 then r <| staging_filename := staging_name r |> else r) =
    r <| staging_filename := staging_name r |>) as ->.
  { destruct Hst as [_ Hst]. destruct (offset r =? 0); [done|]. destruct Hst as [_ <-]. by destruct r. }
  set (r1 := r <| staging_filename := staging_name r |>). cbv zeta.
  change (staging_filename r1) with (staging_name r). change (total_bytes r1) with (total_bytes r).
  change (offset r1) with (offset r).
  destruct (Z.eqb_spec (total_bytes r) 0) as [E|E].
  { assert (content = []) as -> by (apply zlen_zero; lia).
    assert (put_round want r c = ([], None, rx c)) as ->.
    { unfold put_round, want. replace (Z.min b _) with 0 by lia.
      rewrite Z.min_l, ztake_0, Z.sub_0_r by list_lia. by destruct (rx c). }
    exists (now w). rewrite (run_serve_put_empty dir r r1 c) by done. rewrite run_ret. do 2 f_equal.
    unfold after_put. replace (Z.min want (zlen (pending_left r))) with 0 by (unfold want; list_lia).
    rewrite Z.add_0_r. by destruct r. }
  destruct (staging_opened_spec dir r content c w Hst Hf Hc) as (Hcr & Hp1 & Hf1 & Hc1 & Hw1).
  cbv zeta in Hcr. rewrite run_bind, Hcr. cbn [negb]. rewrite run_bind, run_call. cbn [handle].
  unfold open_update. rewrite next_fault_none, Hp1 by done. cbn [negb].
  unfold max_file_size in Htot. rewrite i64_small by lia.
  destruct (Z.ltb_spec (offset r) 0); [lia|]. rewrite u64_small by word. fold want. rewrite <- Hlen.
  pose proof (run_stage_bytes (path_in dir (staging_name r)) r1 want content c
    (staging_opened dir r w) Hp1 Hf1 Hc1 Hfd ltac:(lia) Hpo Hpl) as Hrun.
  cbv zeta in Hrun. change (put_round want r1 c) with (put_round want r c) in Hrun.
  destruct (put_round want r c) as [[d e] l].
  destruct Hrun as (t & Hrun); [unfold max_file_size; lia|]. exists t. rewrite <- Hw1. exact Hrun.
Qed.

(** ** One turn on an upload *)

Section put.
Context (dir : bytes) (s : Scheduler) (p : Z) (Hs : wf_scheduler s).

(** An upload that is the only request; [content] is what has been staged. *)
Record put_alone (r : Request) (content : bytes) (c : sock) (w : world) : Prop := {
  pa_op : op r = PUT;
  pa_name : is_valid_filename (filename r) = true;
  pa_fd : 0 <= client_fd r /\ client_fd r <> listen_socket;
  pa_alone : alone r w;
  pa_wf : wf_request r;
  pa_fits : deficit_fits s r;
  pa_total : total_bytes r <= max_file_size;
  pa_pending : 0 <= pending_offset r <= zlen (pending_bytes r) /\ zlen (pending_bytes r) < 2 ^ 63;
  pa_staging : staging_at dir r content w;
  pa_faults : faults w = [];
  pa_sock : socks w !! client_fd r = Some c /\ (SendFails ∉ tx c)
}.

(** The first round sends the status line that invites the body. *)
Definition put_status (r : Request) : bytes := if offset r =? 0 then ok_line 0 else [].

(** What a round changed: the staging file, the receiving side of the connection,
    and what was sent. *)
Definition progressed (r : Request) (c : sock) (content : bytes) (l : list rx_event) (data : bytes)
    (w w' : world) : Prop :=
  exists t tx', (SendFails ∉ tx') /\
    w' = after_upload (client_fd r) (mkSock (rx c) tx' (sent c ++ data))
           (path_in dir (staging_name r)) content [] l t w.

Lemma run_transfer_put r b content c w :
  is_valid_filename (filename r) = true -> op r = PUT -> staging_at dir r content w ->
  faults w = [] -> socks w !! client_fd r = Some c -> SendFails ∉ tx c ->
  client_fd r <> listen_socket ->
  offset r <= total_bytes r -> total_bytes r <= max_file_size -> 0 <= b ->
  0 <= pending_offset r <= zlen (pending_bytes r) -> zlen (pending_bytes r) < 2 ^ 63 ->
  let want := Z.min b (total_bytes r - offset r) in
  let '(d, e, l) := put_round want r c in
  exists w', progressed r c (content ++ d) l (put_status r) w w' /\
    run (transfer dir s p b r) w =
    run (match e with
         | None => Ret (true, after_put want r, zlen d)
         | Some why => fail_with (after_put want r) (zlen d) why
         end) w'.
Proof.
  intros Hname Hop Hst Hf Hc Htx Hfd Ho Htot Hb Hpo Hpl want. unfold transfer. rewrite Hop.
  assert (exists tx', (SendFails ∉ tx') /\
    run (if offset r =? 0 then send_response (client_fd r) 0 else Ret tt) w =
      Done tt (set_sock (client_fd r) (mkSock (rx c) tx' (sent c ++ put_status r)) w))
    as (tx' & Htx' & Hrun).
  { unfold put_status. destruct (offset r =? 0).
    - destruct (run_send_response (client_fd r) 0 w) as (w' & Hrun & (c' & t & Hc' & Ht & ->)).
      { by exists c. }
      simplify_eq. by exists t.
    - exists (tx c). split; [done|]. rewrite app_nil_r, run_ret. f_equal. destruct c.
      by rewrite set_sock_id. }
  rewrite run_bind, Hrun. set (c' := mkSock (rx c) tx' (sent c ++ put_status r)) in *.
  set (w1 := set_sock (client_fd r) c' w).
  pose proof (run_serve_put dir r b content c' w1 Hname Hst Hf (lookup_set_sock _ _ _) Hfd Ho Htot Hb
    Hpo Hpl) as Hput. cbv zeta in Hput. fold want in Hput.
  change (put_round want r c') with (put_round want r c) in Hput.
  destruct (put_round want r c) as [[d e] l]. destruct Hput as (t & ->).
  eexists. split; [|done]. exists t, tx'. split; [done|]. fold c'.
  rewrite !after_upload_eq. subst w1. cbn. by rewrite insert_insert_eq, app_nil_r.
Qed.

Lemma upload_complete left l d l' : upload left l = (d, None, l') -> zlen d = Z.max 0 left.
Proof.
  revert left d l'. induction l as [|[bs| | | |] l IH]; intros left d l'; cbn [upload];
    destruct (Z.leb_spec left 0); intros H0; simplify_eq; rewrite ?zlen_nil; try lia.
  destruct bs as [|b bs]; [done|]. destruct (Z.leb_spec (zlen (b :: bs)) left).
  - destruct (upload (left - zlen (b :: bs)) l) as [[d' e'] l''] eqn:E. simplify_eq.
    apply IH in E. rewrite (zlen_app (b :: bs)). lia.
  - simplify_eq. rewrite zlen_ztake; lia.
Qed.

Lemma put_round_complete want r c d l :
  0 <= want -> put_round want r c = (d, None, l) -> zlen d = want.
Proof.
  unfold put_round. intros Hw H. pose proof (zlen_nonneg (pending_left r)).
  destruct (upload _ (rx c)) as [[d' e] l'] eqn:E. simplify_eq. apply upload_complete in E.
  rewrite zlen_app, zlen_ztake; lia.
Qed.

Lemma put_round_length want r c : 0 <= want -> zlen (put_round want r c).1.1 <= want.
Proof.
  unfold put_round. intros Hw. pose proof (zlen_nonneg (pending_left r)).
  pose proof (upload_length (want - Z.min want (zlen (pending_left r))) (rx c)) as E.
  destruct (upload _ (rx c)) as [[d' e] l']. cbn [fst] in *.
  rewrite zlen_app, zlen_ztake; lia.
Qed.

(** The connection [c] has delivered bytes, [l] being left, and got [data], while its
    request is in flight. *)
Record conversed (fd : Z) (c : sock) (l : list rx_event) (data : bytes) (w w' : world) : Prop := {
  cv_closed : closed_socks w' = closed_socks w;
  cv_flight : in_flight w';
  cv_sock : exists tx', (SendFails ∉ tx') /\
    socks w' = <[fd := mkSock l tx' (sent c ++ data)]> (socks w)
}.

(** The world after the transfer of a round, before the accounting. *)
Record transferred (r : Request) (c : sock) (content : bytes) (l : list rx_event) (data : bytes)
    (w w' : world) : Prop := {
  tr_files : files w' = <[path_in dir (staging_name r) := File content]> (files w);
  tr_faults : faults w' = faults w;
  tr_records : records_ w' = records_ w;
  tr_conversed : conversed (client_fd r) c l data w w'
}.

(** The bytes that the next round asks for. *)
Definition wanted (r : Request) : Z := Z.min (get_budget s r).1 (total_bytes r - offset r).

(** The turn up to the end of the transfer: [r2] is the request after it. *)
Lemma worker_turn_put r content c w :
  put_alone r content c w ->
  let want := wanted r in
  let '(d, e, l) := put_round want r c in
  0 <= want /\
  exists de t w', transferred r c (content ++ d) l (put_status r) w w' /\
    (policy_ s = DRR -> offset r < total_bytes r -> de = deficit r + quantum_ s) /\
    (policy_ s <> DRR -> de = deficit r) /\ is_u64 de /\
    let r2 := after_put want (r <| deficit := de |> <| start_ns := t |>) in
    run (worker_turn dir s p) w =
    run (result ← match e with
                  | None => Ret (true, r2, zlen d)
                  | Some why => fail_with r2 (zlen d) why
                  end;
         let '(success, req, bytes_processed) := result in
         if negb (success : bool) then
           _ ← (if negb (beq (staging_filename req) [])
                then call (Remove (path_in dir (staging_filename req))) else Ret tt);
           complete_and_close req
         else
           let '(req, requeue) := settle s (get_budget s r).1 bytes_processed req in
           if (requeue : bool) then
             ok ← call (RqRequeue req);
             if negb ok then _ ← close_socket (client_fd req); Ret true else Ret true
           else finish dir req) w'.
Proof.
  intros [Hop Hname [Hfd0 Hfd] Halone Hwf Hfits Htot [Hpo Hpl] Hst Hf [Hc Htx]] want.
  pose proof (get_budget_nonneg s Hs r Hwf) as Hb. pose proof (get_budget_wf s r Hwf) as Hwf1.
  destruct (get_budget_shape s r) as (de & Er & Hde).
  unfold worker_turn. rewrite run_bind, (run_scheduler_next s r) by done.
  set (w1 := w <| request_queue := _ |>). rewrite decide_on_Some.
  cbn [valid negb request budget]. rewrite Er, run_bind.
  set (b := (get_budget s r).1) in *.
  destruct (run_stamp_start (r <| deficit := de |>) w1) as (t & w2 & -> & (now' & tk & Ew2)).
  set (r1 := r <| deficit := de |> <| start_ns := t |>).
  assert (files w2 = files w /\ faults w2 = faults w /\ socks w2 = socks w) as (F2 & A2 & S2)
    by (by rewrite Ew2).
  destruct Hwf as (Hoff & Htot2 & Hd0).
  pose proof (run_transfer_put r1 b content c w2) as Htr. cbv zeta in Htr.
  change (Z.min b (total_bytes r1 - offset r1)) with want in Htr. change (put_round want r1 c) with (put_round want r c) in Htr.
  change (put_status r1) with (put_status r) in Htr.
  destruct (put_round want r c) as [[d e] l].
  cbv beta iota in Htr. destruct Htr as (w3 & Hw3 & Hrun); try done; try lia.
  { destruct Hst as [? Hst]. split; [done|]. by rewrite F2. }
  { by rewrite A2. }
  { by rewrite S2. }
  { exact (proj2 Hoff). }
  destruct Hw3 as (t3 & tx' & Htx' & Hw3). split; [unfold want, wanted; fold b; lia|].
  exists de, t, w3. split.
  { rewrite Hw3, after_upload_eq. split; [..|split]; cbn.
    - by rewrite F2, app_nil_r.
    - done.
    - by rewrite Ew2.
    - by rewrite Ew2.
    - unfold in_flight. by rewrite Ew2.
    - exists tx'. split; [done|]. by rewrite S2. }
  split_and!.
  - intros E Hlt. assert ((get_budget s r).2 = r <| deficit := deficit r + quantum_ s |>) as Eg.
    { rewrite get_budget_granted by done. by rewrite E. }
    rewrite Er in Eg. apply (f_equal deficit) in Eg. done.
  - done.
  - rewrite Er in Hwf1. by destruct Hwf1 as (_ & _ & ?).
  - cbv zeta. rewrite run_bind, Hrun. fold r1. by rewrite run_bind.
Qed.

Lemma upload_error left l d why l' :
  upload left l = (d, Some why, l') -> why = incomplete \/ why = broken.
Proof.
  revert left d. induction l as [|[bs| | | |] l IH]; intros left d; cbn [upload];
    destruct (left <=? 0); intros H; simplify_eq; auto.
  destruct bs as [|b bs]; [simplify_eq; auto|]. destruct (_ <=? left); [|by simplify_eq].
  destruct (upload _ l) as [[d' e] l''] eqn:E. simplify_eq. eauto.
Qed.

Lemma put_round_error want r c d why l :
  put_round want r c = (d, Some why, l) -> zlen (err_line why) < 2 ^ 64.
Proof.
  unfold put_round. destruct (upload _ (rx c)) as [[d' e] l'] eqn:E. intros H. simplify_eq.
  by apply upload_error in E as [->| ->].
Qed.

(** One more answer on the connection. *)
Lemma run_answer fd data c l status w w1 :
  conversed fd c l status w w1 -> zlen data < 2 ^ 64 ->
  exists w2, run (send_all fd data) w1 = Done true w2 /\ conversed fd c l (status ++ data) w w2 /\
    files w2 = files w1 /\ faults w2 = faults w1 /\ records_ w2 = records_ w1.
Proof.
  intros [C Fl (tx' & Htx & S)] Hl.
  destruct (run_send_all fd data w1) as (w2 & Hrun & (c' & t & Hc' & Ht & ->)); [|done|].
  { eexists. rewrite S. split; [apply lookup_insert_eq|done]. }
  rewrite S, lookup_insert_eq in Hc'. simplify_eq. eexists. split; [done|].
  split; [|done]. split; try done. exists t. split; [done|].
  trans (<[fd := mkSock l t ((sent c ++ status) ++ data)]> (socks w1)); [done|].
  by rewrite S, insert_insert_eq, app_assoc.
Qed.

(** The end of the turn: the request is out of flight, the connection closed. *)
Lemma run_close r c l data w w1 :
  conversed (client_fd r) c l data w w1 -> 0 <= client_fd r ->
  exists w2, run (complete_and_close r) w1 = Done true w2 /\ files w2 = files w1 /\ idle w2 /\
    records_ w2 = records_ w1 /\ socks w2 = delete (client_fd r) (socks w) /\
    exists tx', closed_socks w2 = (client_fd r, mkSock l tx' (sent c ++ data)) :: closed_socks w.
Proof.
  intros [C Fl (tx' & Htx & S)] Hfd. unfold in_flight in Fl.
  rewrite (run_complete_and_close r (mkSock l tx' (sent c ++ data))).
  - eexists. split; [done|]. rewrite Fl. clear Fl. split_and!; try done.
    + trans (delete (client_fd r) (socks w1)); [done|].
      by rewrite S, delete_insert_eq.
    + exists tx'. by rewrite <- C.
  - done.
  - by rewrite Fl.
  - by rewrite S, lookup_insert_eq.
Qed.

(** C14: a broken upload leaves no trace.  When the connection of an upload ends, times
    out or fails before the round has its bytes, the client is told so, the staging
    file is removed, no other file changes, the connection is closed, nothing is
    recorded as completed, and the request is out of the queue. *)
Theorem broken_upload_is_cleaned_up r content c w d why l :
  put_alone r content c w -> put_round (wanted r) r c = (d, Some why, l) ->
  exists w' tx', run (worker_turn dir s p) w = Done true w' /\
    files w' = delete (path_in dir (staging_name r)) (files w) /\
    records_ w' = records_ w /\ idle w' /\
    socks w' = delete (client_fd r) (socks w) /\
    closed_socks w' =
      (client_fd r, mkSock l tx' (sent c ++ put_status r ++ err_line why)) :: closed_socks w.
Proof.
  intros Hpa Hround. pose proof (worker_turn_put r content c w Hpa) as Hturn. cbv zeta in Hturn.
  pose proof (put_round_error _ _ _ _ _ _ Hround) as Hlen. rewrite Hround in Hturn.
  destruct Hturn as (Hwant & de & t & w1 & [F1 A1 R1 Cv1] & _ & _ & _ & Hrun).
  rewrite Hrun. clear Hrun. set (r2 := after_put (wanted r) _).
  unfold fail_with, send_error. rewrite !run_bind.
  change (client_fd r2) with (client_fd r).
  destruct (run_answer (client_fd r) (err_line why) c l (put_status r) w w1 Cv1 Hlen)
    as (w2 & -> & Cv2 & F2 & A2 & R2).
  rewrite run_ret, run_ret. cbn [negb]. rewrite run_bind.
  change (staging_filename r2) with (staging_name r).
  assert (beq (staging_name r) [] = false) as ->.
  { apply beq_false. unfold staging_name. by destruct (filename r). }
  cbn [negb]. rewrite run_call. cbn [handle]. unfold remove_file, next_fault.
  rewrite A2, A1, (pa_faults _ _ _ _ Hpa), F2, F1, lookup_insert_eq. set (w3 := w2 <| files ::= delete _ |>).
  assert (conversed (client_fd r2) c l (put_status r ++ err_line why) w w3) as Cv3
    by (by destruct Cv2).
  destruct (run_close r2 c l _ w w3 Cv3 (proj1 (pa_fd _ _ _ _ Hpa)))
    as (w4 & Hrun & F4 & I4 & R4 & S4 & tx' & C4).
  exists w4, tx'. rewrite Hrun. split_and!; try done.
  - rewrite F4. trans (delete (path_in dir (staging_name r)) (files w2)); [done|].
    by rewrite F2, F1, delete_insert_eq.
  - rewrite R4. subst w3. by rewrite <- R1, <- R2.
Qed.

(** ** Uploads that arrive *)

(** What is still to come: with the header, then on the connection. *)
Definition stream (r : Request) (c : sock) : bytes := pending_left r ++ arrived (rx c).

Lemma put_round_steady want r c :
  steady (rx c) -> 0 <= want <= zlen (stream r c) ->
  exists l, put_round want r c = (ztake want (stream r c), None, l) /\ steady l /\
    zdrop (Z.min want (zlen (pending_left r))) (pending_left r) ++ arrived l =
      zdrop want (stream r c).
Proof.
  intros Hst Hw. unfold put_round, stream in *. set (q := pending_left r) in *.
  pose proof (zlen_nonneg q). rewrite zlen_app in Hw.
  destruct (upload_steady (want - Z.min want (zlen q)) (rx c) Hst ltac:(list_lia)) as (l & -> & Hl & Ha).
  exists l. split_and!; [|done|].
  - f_equal. f_equal. destruct (Z.min_spec want (zlen q)) as [[? ->]|[? ->]].
    + rewrite Z.sub_diag, (ztake_0 0), app_nil_r by lia. rewrite !ztake_take.
      rewrite take_app_le; [done|]. unfold zlen in *. lia.
    + rewrite ztake_all by lia. replace want with (zlen q + (want - zlen q)) at 2 by lia.
      rewrite ztake_add, ztake_app_exact, zdrop_app_exact by lia. done.
  - rewrite Ha. destruct (Z.min_spec want (zlen q)) as [[? ->]|[? ->]].
    + rewrite Z.sub_diag, (zdrop_0 0) by lia. rewrite !zdrop_drop.
      rewrite drop_app_le; [done|]. unfold zlen in *. lia.
    + rewrite zdrop_all by lia. replace want with (zlen q + (want - zlen q)) at 2 by lia.
      rewrite <- zdrop_zdrop, zdrop_app_exact by lia. done.
Qed.

(** The upload [r] has been stored: [body] is the file, the staging file is gone, the
    client got [data], the connection is closed, one record was added. *)
Record stored (r : Request) (body data : bytes) (c : sock) (w w' : world) : Prop := {
  st_files : files w' = <[path_in dir (filename r) := File body]>
    (delete (path_in dir (staging_name r)) (files w));
  st_idle : idle w';
  st_records : exists m, (records_ w' = records_ w ++ [m]) /\ m_request_id m = request_id r /\
    m_op m = PUT /\ m_filename m = filename r /\ m_total_bytes m = total_bytes r;
  st_socks : socks w' = delete (client_fd r) (socks w);
  st_closed : exists c', closed_socks w' = (client_fd r, c') :: closed_socks w /\
    sent c' = sent c ++ data
}.

Lemma staging_path_ne r : path_in dir (filename r) <> path_in dir (staging_name r).
Proof.
  unfold path_in, staging_name. intros E.
  apply (f_equal length) in E. rewrite !length_app in E.
  change (length (str ".upload.")) with 8%nat in E. lia.
Qed.

(** Commit: the rename, the second answer, the record. *)
Lemma run_finish_put r body c l data w w1 :
  op r = PUT -> 0 <= client_fd r -> staging_filename r = staging_name r ->
  (forall d, files w !! path_in dir (filename r) <> Some (Directory d)) ->
  transferred r c body l data w w1 -> faults w = [] ->
  exists w2, run (finish dir r) w1 = Done true w2 /\ stored r body (data ++ ok_line 0) c w w2.
Proof.
  intros Hop Hfd Hsn Hnd [F A R Cv] Hf. unfold finish. rewrite Hop. cbn [op_eqb]. rewrite Hsn.
  pose proof (staging_path_ne r) as Hne. rewrite run_bind, run_bind, run_call. cbn [handle].
  set (w2 := w1 <| files ::= fun m => <[path_in dir (filename r) := File body]>
    (delete (path_in dir (staging_name r)) m) |>).
  assert (rename_file (path_in dir (staging_name r)) (path_in dir (filename r)) w1 = (0, w2)) as ->.
  { unfold rename_file. rewrite next_fault_none by congruence. rewrite F, lookup_insert_eq.
    rewrite lookup_insert_ne by done.
    destruct (files w !! path_in dir (filename r)) as [[|d]|] eqn:E; try done.
    exfalso. by eapply Hnd. }
  cbn [Z.eqb negb]. rewrite run_bind. unfold send_response. rewrite run_bind.
  assert (conversed (client_fd r) c l data w w2) as Cv2 by (by destruct Cv).
  destruct (run_answer (client_fd r) (ok_line 0) c l data w w2 Cv2 ltac:(done))
    as (w3 & -> & Cv3 & F3 & _ & R3).
  rewrite !run_ret. cbn [negb]. rewrite run_bind.
  destruct (run_monotonic_ns w3) as (t & w4 & -> & (n & tk & ->)). cbv zeta.
  rewrite run_bind, run_call. cbn [handle]. set (w5 := _ <| records_ ::= _ |>).
  assert (conversed (client_fd r) c l (data ++ ok_line 0) w w5) as Cv5 by (by destruct Cv3).
  destruct (run_close (r <| finish_ns := t |>) c l _ w w5 Cv5 Hfd)
    as (w6 & Hrun & F6 & I6 & R6 & S6 & tx' & C6).
  exists w6. split; [done|]. split; try done.
  - rewrite F6. trans (files w3); [done|]. rewrite F3.
    trans (<[path_in dir (filename r) := File body]>
      (delete (path_in dir (staging_name r)) (files w1))); [done|].
    by rewrite F, delete_insert_eq.
  - exists (metrics_of (r <| finish_ns := t |>)). split; [|done]. rewrite R6.
    trans (record (r <| finish_ns := t |>) (records_ w3)); [done|].
    unfold record. f_equal. rewrite R3. exact R.
  - by eexists.
Qed.

(** What a round of an upload that goes on leaves for the next one. *)
Record next_put (r : Request) (c : sock) (n : Z) (r' : Request) (c' : sock) (w w' : world) : Prop := {
  np_job : request_id r' = request_id r /\ client_fd r' = client_fd r /\ filename r' = filename r /\
    total_bytes r' = total_bytes r;
  np_offset : offset r' = offset r + n;
  np_stream : stream r' c' = zdrop n (stream r c);
  np_steady : steady (rx c');
  np_files : exists content, files w' = <[path_in dir (staging_name r) := content]> (files w);
  np_records : records_ w' = records_ w;
  np_closed : closed_socks w' = closed_socks w;
  np_socks : socks w' = <[client_fd r := c']> (socks w);
  np_sent : sent c' = sent c ++ put_status r
}.

Lemma wanted_granted r :
  wf_request r -> deficit_fits s r -> offset r < total_bytes r ->
  wanted r = granted s r /\ 0 < granted s r <= total_bytes r - offset r.
Proof.
  intros Hwf Hfits Hlt. pose proof (granted_range s r Hs Hwf Hlt).
  unfold wanted. rewrite get_budget_granted by done. cbn [fst]. lia.
Qed.

Lemma wanted_done r : wf_request r -> total_bytes r <= offset r -> wanted r = 0.
Proof.
  intros (? & ? & ?) Hge. unfold wanted, get_budget, remaining.
  destruct (Z.ltb_spec (offset r) (total_bytes r)); [lia|]. cbn [Z.eqb fst]. lia.
Qed.

(** A round that has its bytes, and leaves some for the next one. *)
Lemma worker_turn_put_more r content c w :
  put_alone r content c w -> steady (rx c) -> total_bytes r - offset r <= zlen (stream r c) ->
  offset r + wanted r < total_bytes r ->
  exists r' c' w', run (worker_turn dir s p) w = Done true w' /\ 0 < wanted r /\
    put_alone r' (content ++ ztake (wanted r) (stream r c)) c' w' /\
    next_put r c (wanted r) r' c' w w'.
Proof.
  intros Hpa Hsteady Hstream Hlt. pose proof (worker_turn_put r content c w Hpa) as Hturn.
  cbv zeta in Hturn. destruct Hpa as [Hop Hname Hfd Halone Hwf Hfits Htot Hpd [Hlen _] Hf [Hc Htx]].
  assert (offset r < total_bytes r) as Hlt0.
  { destruct (Z.ltb_spec (offset r) (total_bytes r)); [done|]. rewrite wanted_done in Hlt by done. lia. }
  destruct (wanted_granted r Hwf Hfits Hlt0) as [Ew Hg]. rewrite <- Ew in Hg.
  destruct (put_round_steady (wanted r) r c Hsteady ltac:(lia)) as (l & Eround & Hl & Hrest).
  rewrite Eround in Hturn. set (d := ztake (wanted r) (stream r c)) in *.
  assert (zlen d = wanted r) as Hd by (subst d; rewrite zlen_ztake; lia).
  destruct Hturn as (_ & de & t & w1 & [F A R [C Fl (tx' & Htx' & S)]] & Hde & Hde' & Hdu & ->).
  rewrite run_bind, run_ret. cbn [negb]. rewrite Hd.
  set (r2 := after_put (wanted r) _).
  destruct Hwf as (Hoff & Htot2 & Hd0).
  destruct (settle_eq s (get_budget s r).1 (wanted r) r2) as (f & ->).
  { split; [exact Hoff|]. by split. }
  { change (total_bytes r2 - offset r2) with (total_bytes r - offset r). lia. }
  change (offset r2 + wanted r <? total_bytes r2) with (offset r + wanted r <? total_bytes r).
  rewrite (proj2 (Z.ltb_lt _ _) Hlt). change (deficit r2) with de.
  change (offset r2) with (offset r). set (r3 := r2 <| rounds := _ |> <| offset := _ |>
    <| deficit := _ |> <| forfeited_bytes := f |>).
  rewrite run_bind, run_call. cbn [handle]. unfold RequestQueue.requeue, RequestQueue.release.
  unfold in_flight in Fl. rewrite Fl. cbn [RequestQueue.inflight_]. destruct (Z.ltb_spec 0 1); [|lia].
  cbn [negb]. rewrite run_ret. set (w2 := w1 <| request_queue := _ |>).
  set (c' := mkSock l tx' (sent c ++ put_status r)).
  exists r3, c', w2. split; [done|]. split; [lia|].
  assert (deficit r3 = 0 \/ (policy_ s <> DRR /\ deficit r3 = deficit r)) as Hdr3.
  { change (deficit r3) with (deficit_after s de (wanted r)). unfold deficit_after.
    destruct (policy_ s) eqn:E; cbn [policy_eqb]; try (right; split; [done|by apply Hde']).
    left. rewrite Hde, Ew by done. unfold granted in *. rewrite E in *. lia. }
  split.
  - split; try done.
    + split; [change (offset r3) with (offset r + wanted r); change (total_bytes r3) with
        (total_bytes r); lia|]. split; [done|].
      unfold is_u64 in *. destruct Hdr3 as [->|[_ ->]]; lia.
    + intros E. destruct Hdr3 as [->|[? _]]; [|done]. destruct Hs as [Hq _]. unfold is_u64 in Hq. lia.
    + change (pending_offset r3) with
        (pending_offset r + Z.min (wanted r) (zlen (pending_left r))).
      change (pending_bytes r3) with (pending_bytes r).
      unfold pending_left. rewrite zlen_zdrop by lia. lia.
    + split; [rewrite zlen_app; change (offset r3) with (offset r + wanted r); lia|].
      change (offset r3) with (offset r + wanted r).
      destruct (Z.eqb_spec (offset r + wanted r) 0); [lia|]. split; [|done].
      trans (files w1 !! path_in dir (staging_name r)); [done|]. by rewrite F, lookup_insert_eq.
    + trans (faults w1); [done|]. congruence.
    + split; [|done]. trans (socks w1 !! client_fd r); [done|]. by rewrite S, lookup_insert_eq.
  - split; try done.
    + unfold stream at 1, pending_left. change (pending_bytes r3) with (pending_bytes r).
      change (pending_offset r3) with (pending_offset r + Z.min (wanted r) (zlen (pending_left r))).
      rewrite <- Hrest. f_equal. unfold pending_left. by rewrite zdrop_zdrop by list_lia.
    + by eexists.
Qed.

(** The last round, and the commit. *)
Lemma worker_turn_put_last r content c w :
  put_alone r content c w -> steady (rx c) -> total_bytes r - offset r <= zlen (stream r c) ->
  total_bytes r <= offset r + wanted r ->
  (forall d, files w !! path_in dir (filename r) <> Some (Directory d)) ->
  exists w', run (worker_turn dir s p) w = Done true w' /\
    stored r (content ++ ztake (total_bytes r - offset r) (stream r c)) (put_status r ++ ok_line 0)
      c w w'.
Proof.
  intros Hpa Hsteady Hstream Hge Hnd. pose proof (worker_turn_put r content c w Hpa) as Hturn.
  cbv zeta in Hturn. destruct Hpa as [Hop Hname Hfd Halone Hwf Hfits Htot Hpd Hst Hf Hc].
  assert (wanted r = total_bytes r - offset r) as Ew.
  { destruct Hwf as (? & _ & _). unfold wanted in *. lia. }
  pose proof Hwf as (Hoff & Htot2 & Hd0).
  destruct (put_round_steady (wanted r) r c Hsteady ltac:(lia)) as (l & Eround & Hl & Hrest).
  rewrite Eround in Hturn. rewrite <- Ew. set (d := ztake (wanted r) (stream r c)) in *.
  assert (zlen d = wanted r) as Hd by (subst d; rewrite zlen_ztake; lia).
  destruct Hturn as (_ & de & t & w1 & Htr & _ & _ & Hdu & ->).
  rewrite run_bind, run_ret. cbn [negb]. rewrite Hd.
  set (r2 := after_put (wanted r) _).
  destruct (settle_eq s (get_budget s r).1 (wanted r) r2) as (f & ->).
  { split; [exact Hoff|]. by split. }
  { change (total_bytes r2 - offset r2) with (total_bytes r - offset r). lia. }
  change (offset r2 + wanted r <? total_bytes r2) with (offset r + wanted r <? total_bytes r).
  rewrite (proj2 (Z.ltb_ge _ _)) by lia.
  set (r3 := r2 <| rounds := _ |> <| offset := _ |> <| deficit := _ |> <| forfeited_bytes := f |>).
  destruct (run_finish_put r3 (content ++ d) c l (put_status r) w w1) as (w2 & Hrun & Hst2); try done.
  { apply Hfd. }
  { by destruct Htr. }
  exists w2. split; [done|]. destruct Hst2. by split.
Qed.

Lemma stored_after r r' c c' n body data w w1 w2 :
  next_put r c n r' c' w w1 -> stored r' body data c' w1 w2 ->
  stored r body (put_status r ++ data) c w w2.
Proof.
  intros [(Eid & Efd & Ename & Etot) _ _ _ (q & F) R C S Esent]
    [F2 I2 (m & R2 & Hm1 & Hm2 & Hm3 & Hm4) S2 (c2 & C2 & Hsent)].
  assert (staging_name r' = staging_name r) as Es by (unfold staging_name; congruence).
  rewrite Ename, Es, F, delete_insert_eq in F2. rewrite Efd in *.
  split; try done.
  - exists m. rewrite R2, R. split_and!; congruence.
  - by rewrite S2, S, delete_insert_eq.
  - exists c2. rewrite C2, C. split; [done|]. by rewrite Hsent, Esent, app_assoc.
Qed.

Lemma run_turns_put m r content c w :
  put_alone r content c w -> steady (rx c) -> total_bytes r - offset r <= zlen (stream r c) ->
  (forall d, files w !! path_in dir (filename r) <> Some (Directory d)) ->
  total_bytes r - offset r <= Z.of_nat m ->
  exists k w', run_turns dir s p k w = Some w' /\
    stored r (content ++ ztake (total_bytes r - offset r) (stream r c)) (put_status r ++ ok_line 0)
      c w w'.
Proof.
  revert r content c w. induction m as [m IH] using lt_wf_ind.
  intros r content c w Hpa Hsteady Hstream Hnd Hm.
  destruct (Z.ltb_spec (offset r + wanted r) (total_bytes r)) as [Hlt|Hge].
  - destruct (worker_turn_put_more r content c w) as (r' & c' & w1 & Hrun & Hpos & Hpa' & Hnp); try done.
    pose proof Hnp as [(Eid & Efd & Ename & Etot) Eoff Estream Hsteady' (q & F) _ _ _ _].
    pose proof (pa_wf _ _ _ _ Hpa) as (Hoff & _).
    assert (zlen (stream r' c') = zlen (stream r c) - wanted r) as Hl.
    { rewrite Estream, zlen_zdrop; lia. }
    destruct (IH (Z.to_nat (total_bytes r' - offset r'))) with (r := r') (c := c') (w := w1)
      (content := content ++ ztake (wanted r) (stream r c)) as (k & w2 & Hk & Hstored); try done.
    + rewrite Etot, Eoff. lia.
    + rewrite Etot, Eoff. lia.
    + intros d. rewrite Ename, F. rewrite lookup_insert_ne; [apply Hnd|].
      apply not_eq_sym, staging_path_ne.
    + rewrite Etot, Eoff. lia.
    + exists (S k), w2. split; [simpl; by rewrite Hrun|].
      assert (put_status r' = []) as Eps.
      { unfold put_status. rewrite Eoff. destruct (Z.eqb_spec (offset r + wanted r) 0); [lia|done]. }
      rewrite Eps, app_nil_l, Etot, Eoff, Estream in Hstored.
      rewrite <- app_assoc, <- ztake_add in Hstored by lia.
      replace (wanted r + (total_bytes r - (offset r + wanted r))) with (total_bytes r - offset r)
        in Hstored by lia.
      by eapply stored_after.
  - destruct (worker_turn_put_last r content c w) as (w' & Hrun & Hstored); try done.
    exists 1%nat, w'. split; [simpl; by rewrite Hrun|done].
Qed.

(** C4: an upload is stored completely.  Under every policy, an upload that is alone
    with a worker and whose body arrives, split between the bytes read with the
    header and any number of later blocks, is served in finitely many turns: the
    file of the requested name is then exactly the announced number of bytes of
    the body, no staging file is left and no other file has changed, the client
    has got the invitation and the confirmation, the connection is closed, and the
    request is recorded once. *)
Theorem put_is_stored_completely r c w :
  put_alone r [] c w -> offset r = 0 -> steady (rx c) ->
  total_bytes r <= zlen (stream r c) ->
  (forall d, files w !! path_in dir (filename r) <> Some (Directory d)) ->
  exists k w', run_turns dir s p k w = Some w' /\
    stored r (ztake (total_bytes r) (stream r c)) (ok_line 0 ++ ok_line 0) c w w'.
Proof.
  intros Hpa Ho Hsteady Hstream Hnd.
  destruct (run_turns_put (Z.to_nat (total_bytes r)) r [] c w) as (k & w' & Hk & Hst); try done; try lia.
  exists k, w'. split; [done|]. unfold put_status in Hst. rewrite Ho, Z.sub_0_r in Hst. exact Hst.
Qed.

End put.

(** ** Concrete uploads *)

(** Two bytes came with the header; the connection delivers [l]. *)
Definition sample_put : Request :=
  new_Request <| request_id := 1 |> <| client_fd := 4 |> <| op := PUT |> <| filename := str "b" |>
    <| total_bytes := 5 |> <| pending_bytes := str "xy" |>.

Definition sample_peer (l : list rx_event) : sock := mkSock l [Accept 0] [].

Definition sample_upload (l : list rx_event) : world :=
  with_request sample_put (initial_world <| socks := {[4 := sample_peer l]} |>).

Lemma sample_put_alone l : put_alone (str "d") rr2 sample_put [] (sample_peer l) (sample_upload l).
Proof.
  split; try done. split; [done|]. apply not_elem_of_cons. split; [done|apply not_elem_of_nil].
Qed.

Lemma put_stored_witness :
  let l := [Arrive (str "zu"); Arrive (str "vw")] in
  exists k w', run_turns (str "d") rr2 1 k (sample_upload l) = Some w' /\
    stored (str "d") sample_put (str "xyzuv") (ok_line 0 ++ ok_line 0) (sample_peer l)
      (sample_upload l) w'.
Proof.
  apply (put_is_stored_completely (str "d") rr2 1 ltac:(by vm_compute) sample_put
    (sample_peer [Arrive (str "zu"); Arrive (str "vw")]) _ (sample_put_alone _)); try done.
  by repeat constructor.
Defined.

Lemma put_broken_witness :
  let l := [Arrive (str "z"); PeerClosed] in
  exists w' tx', run (worker_turn (str "d") (mkScheduler FCFS 0) 1) (sample_upload l) = Done true w' /\
    files w' = delete (str "d/b.upload.1") ∅ /\
    closed_socks w' = [(4, mkSock [] tx' (ok_line 0 ++ err_line incomplete))].
Proof.
  destruct (broken_upload_is_cleaned_up (str "d") (mkScheduler FCFS 0) 1 ltac:(split; [done|by intros [?|?]])
    sample_put [] (sample_peer [Arrive (str "z"); PeerClosed])
    (sample_upload [Arrive (str "z"); PeerClosed]) (str "xyz") incomplete [])
    as (w' & tx' & H1 & H2 & _ & _ & _ & H3).
  - split; try done. split; [done|]. apply not_elem_of_cons. split; [done|apply not_elem_of_nil].
  - by vm_compute.
  - exists w', tx'. split; [exact H1|]. split; [exact H2|exact H3].
Defined.
