(* ===== verification/Client.v ===== *)
(** The client, [src/client.cpp]: its two transfers and its health check, as
    programs over the same calls as the server, and its command line.

    The system calls that make a connection are parameters of the programs that
    use them: [socket], [inet_pton] and [connect] are not calls that the
    environment of the server has.  So is the size that [tellg] gives for a
    directory, which only [put_file] asks for. *)

From S2P Require Import Prelude Text Json Grammar Queue Scheduling Metrics Effects FileIO Config.
From S2P Require Import Socket Protocol Server Threads Transfer Upload.

Local Open Scope Z_scope.

Section client.
Context (socket_ : prog Z) (inet_pton : bytes -> prog Z) (connect_ : Z -> bytes -> Z -> prog Z).
(** What [tellg] gives at the end of a directory that was opened as a file: it
    depends on the file system. *)
Context (directory_tellg : bytes -> Z).

(** ** Connection and transport *)

Definition send_all_str (sock : Z) (data : bytes) : prog bool := send_all sock data.

Definition connect_to_server (cfg : Config) : prog Z :=
  sock ← socket_;
  if sock <? 0 then Ret (-1)
  else
    converted ← inet_pton (server_ip (server cfg));
    if converted <=? 0 then _ ← call (CloseFd sock); Ret (-1)
    else
      connected ← connect_ sock (server_ip (server cfg)) (u16 (server_port (server cfg)));
      if connected <? 0 then _ ← call (CloseFd sock); Ret (-1)
      else Ret sock.

(** The loop of [read_status_line]; every turn adds a byte to [line].  The loop
    over a received block is the one of [read_header_line]. *)
Fixpoint read_status_loop (fuel : nat) (sock : Z) (line : bytes) : prog (bool * bytes * bytes) :=
  if zlen line <? 8192 then
    match fuel with
    | O => OutOfFuel
    | S fuel' =>
        n ← call (Recv sock 4096);
        match n with
        | RecvError | Received [] => Ret (false, line, [])
        | Received block =>
            match scan_header line block with
            | (line, Some leftover) => Ret (true, line, leftover)
            | (line, None) => read_status_loop fuel' sock line
            end
        end
    end
  else Ret (false, line, []).

(** Whether there is a line, the line and [leftover]. *)
Definition read_status_line (sock : Z) : prog (bool * bytes * bytes) :=
  read_status_loop (Z.to_nat 8193) sock [].

(** The first loop of [recv_exact]: bytes that were received with the status
    line.  [out] is the path of the file written to, if any. *)
Fixpoint recv_prefix (fuel : nat) (size : Z) (prefix : bytes) (out : option bytes)
    (received prefix_off : Z) : prog (bool * Z) :=
  if (received <? size) && (prefix_off <? zlen prefix) then
    match fuel with
    | O => OutOfFuel
    | S fuel' =>
        let chunk := Z.min (size - received) (zlen prefix - prefix_off) in
        good ← match out with
               | Some path =>
                   call (WriteAt path received (ztake chunk (zdrop prefix_off prefix)))
               | None => Ret true
               end;
        if negb good then Ret (false, received)
        else recv_prefix fuel' size prefix out (received + chunk) (prefix_off + chunk)
    end
  else Ret (true, received).

(** The second loop: the rest from the connection, 8192 bytes at most at a time. *)
Fixpoint recv_rest (fuel : nat) (sock size : Z) (out : option bytes) (received : Z) : prog bool :=
  if received <? size then
    match fuel with
    | O => OutOfFuel
    | S fuel' =>
        n ← call (Recv sock (Z.min (size - received) 8192));
        match n with
        | RecvError | Received [] => Ret false
        | Received bs =>
            good ← match out with
                   | Some path => call (WriteAt path received bs)
                   | None => Ret true
                   end;
            if negb good then Ret false
            else recv_rest fuel' sock size out (u64 (received + zlen bs))
        end
    end
  else Ret true.

Definition recv_exact (sock size : Z) (prefix : bytes) (out : option bytes) : prog bool :=
  p ← recv_prefix (S (length prefix)) size prefix out 0 0;
  let '(ok, received) := p in
  if negb (ok : bool) then Ret false
  else recv_rest (S (Z.to_nat (size - received))) sock size out received.

(** ** The commands; the result is the exit status *)

(** [close(sock); return status;]. *)
Definition close_and_return (sock status : Z) : prog Z :=
  _ ← call (CloseFd sock); Ret status.

Definition get_file (cfg : Config) (filename : bytes) (write_to_disk : bool) : prog Z :=
  sock ← connect_to_server cfg;
  if sock <? 0 then Ret 1
  else
    ok ← send_all_str sock (get_request filename);
    if negb ok then close_and_return sock 1
    else
      status ← read_status_line sock;
      let '(ok, response, leftover) := status in
      if negb (ok : bool) then close_and_return sock 1
      else
        match parse_ok_line response with
        | None => close_and_return sock 1
        | Some file_size =>
            created ← (if (write_to_disk : bool) then call (OpenTrunc filename) else Ret true);
            if negb created then close_and_return sock 1
            else
              ok ← recv_exact sock file_size leftover
                     (if (write_to_disk : bool) then Some filename else None);
              close_and_return sock (if (ok : bool) then 0 else 1)
        end.

(** A longer string than this cannot be made: [std::length_error]. *)
Definition string_max_size : Z := 2 ^ 63 - 2.

(** [fs::path(local_path).filename()]: what follows the last slash. *)
Definition path_filename (path : bytes) : bytes :=
  fold_left (fun name c => if code c =? 47 then [] else name ++ [c]) path [].

(** [file.seekg(0, std::ios::end); file.tellg()]. *)
Definition end_position (path : bytes) (n : node) : Z :=
  match n with
  | File c => zlen c
  | Directory _ => directory_tellg path
  end.

(** [std::string(file_size, '\0')] and [file.read]: a directory cannot be read, so
    that the zeros stay. *)
Definition read_whole (file_size : Z) (n : node) : bytes :=
  match n with
  | File c => c
  | Directory _ => replicate (Z.to_nat file_size) (chr 0)
  end.

Definition put_file (cfg : Config) (local_path : bytes) : prog Z :=
  file ← call (OpenRead local_path);
  match file with
  | None => Ret 1
  | Some file =>
      let file_size := end_position local_path file in
      if file_size <? 0 then Ret 1
      else if string_max_size <? file_size then uncaught_exception
      else
        let data := read_whole file_size file in
        let wire_name := path_filename local_path in
        if beq wire_name [] || beq wire_name (str ".") || beq wire_name (str "..") then Ret 1
        else
          sock ← connect_to_server cfg;
          if sock <? 0 then Ret 1
          else
            ok ← send_all_str sock (put_request wire_name (zlen data));
            if negb ok then close_and_return sock 1
            else
              status ← read_status_line sock;
              let '(ok, initial, _) := status in
              if negb (ok : bool) || negb (beq (ztake 3 initial) (str "OK ")) then
                close_and_return sock 1
              else
                ok ← (if negb (beq data []) then send_all_str sock data else Ret true);
                if negb ok then close_and_return sock 1
                else
                  status ← read_status_line sock;
                  let '(ok, final_response, _) := status in
                  _ ← call (CloseFd sock);
                  Ret (if negb (ok : bool) then 1
                       else if negb (beq final_response (str "OK 0" ++ [newline])) then 1 else 0)
  end.

Definition health (cfg : Config) : prog Z :=
  sock ← connect_to_server cfg;
  if sock <? 0 then Ret 1
  else
    ok ← send_all_str sock (str "HEALTH" ++ [newline]);
    if negb ok then close_and_return sock 1
    else
      status ← read_status_line sock;
      let '(ok, _, _) := status in
      close_and_return sock (if (ok : bool) then 0 else 1).

(** ** The command line *)

Record ClientOptions := mkClientOptions {
  client_config_path : bytes;
  positional : list bytes;
  requests : Z;
  requests_set : bool
}.

#[export] Instance eta_ClientOptions : Eta ClientOptions := fun o =>
  mkClientOptions (client_config_path o) (positional o) (requests o) (requests_set o).

Definition default_client_options : ClientOptions :=
  mkClientOptions (str "config.json") [] (-1) false.

(** The loop over [argv]. *)
Fixpoint parse_client_args (args : list bytes) (o : ClientOptions) : result ClientOptions :=
  match args with
  | [] => Ok o
  | flag :: rest =>
      if beq flag (str "--config") then
        match rest with
        | [] => Throw (str "error: missing value for --config")
        | v :: rest => parse_client_args rest (o <| client_config_path := v |>)
        end
      else if beq flag (str "--requests") then
        match rest with
        | [] => Throw (str "error: missing value for --requests")
        | v :: rest =>
            match stoi v with
            | Ok n => parse_client_args rest (o <| requests := n |> <| requests_set := true |>)
            | Throw _ => Throw (str "error: invalid --requests")
            end
        end
      else if beq (ztake 1 flag) (str "-") then Throw (str "error: unknown flag " ++ flag)
      else parse_client_args rest (o <| positional ::= fun l => l ++ [flag] |>)
  end.

(** [main]; the load generator [load_workload] is a parameter. *)
Definition client_main (load_workload : Config -> bytes -> Z -> prog Z) (args : list bytes)
    : prog Z :=
  match parse_client_args args default_client_options with
  | Throw _ => Ret 1
  | Ok o =>
      match positional o with
      | [] => Ret 1
      | command :: arguments =>
          if requests_set o && negb (beq command (str "load")) then Ret 1
          else
            cfg ← load_config (client_config_path o) false;
            match cfg with
            | Throw _ => Ret 1
            | Ok cfg =>
                if beq command (str "health") then health cfg
                else if beq command (str "get") then
                  match arguments with [name] => get_file cfg name true | _ => Ret 1 end
                else if beq command (str "put") then
                  match arguments with [path] => put_file cfg path | _ => Ret 1 end
                else if beq command (str "load") then
                  match arguments with
                  | [dir] =>
                      if negb (requests_set o) || (requests o <=? 0) then Ret 1
                      else load_workload cfg dir (requests o)
                  | _ => Ret 1
                  end
                else Ret 1
            end
      end
  end.

End client.

(** ** Receiving *)

(** The world in which the connection [c] has [l] left to deliver. *)
Definition receiving (sock : Z) (c : Effects.sock) (l : list rx_event) (w : world) : world :=
  set_sock sock (set_rx l c) w.

Lemma receiving_lookup sock c l w : socks (receiving sock c l w) !! sock = Some (set_rx l c).
Proof. apply lookup_set_sock. Qed.

Lemma receiving_twice sock c l l' w :
  receiving sock (set_rx l c) l' (receiving sock c l w) = receiving sock c l' w.
Proof. unfold receiving. by rewrite set_sock_twice. Qed.

Lemma steady_arrived_nil l : steady l -> arrived l = [] -> l = [].
Proof.
  intros Hl. destruct Hl as [|e l He _]; [done|]. destruct e as [bs| | | |]; try done.
  simpl. intros [-> _]%app_nil. done.
Qed.

(** A [recv] takes some bytes of a steady tape [l1], and none of what follows it
    ([l2]) unless [l1] is empty. *)
Lemma recv_rx_steady size l1 l2 :
  0 < size -> steady l1 -> arrived l1 <> [] ->
  exists g l1', recv_rx size (l1 ++ l2) = (Received g, l1' ++ l2) /\ g <> [] /\ zlen g <= size /\
    arrived l1 = g ++ arrived l1' /\ steady l1'.
Proof.
  intros Hsize Hl Hne. destruct Hl as [|e l1 He Hl]; [done|]. destruct e as [bs| | | |]; try done.
  simpl. destruct (Z.leb_spec (zlen bs) size).
  - by exists bs, l1.
  - pose proof (zlen_ztake size bs ltac:(lia)). pose proof (zlen_zdrop size bs ltac:(lia)).
    exists (ztake size bs), (Arrive (zdrop size bs) :: l1). split_and!; [done| |lia| |].
    + intros E. rewrite E in *. list_lia.
    + simpl. by rewrite app_assoc, ztake_zdrop.
    + constructor; [|done]. intros E. rewrite E in *. list_lia.
Qed.

Lemma run_recv_steady sock size c l1 l2 w :
  socks w !! sock = Some c -> rx c = l1 ++ l2 -> 0 < size -> steady l1 -> arrived l1 <> [] ->
  exists g l1', run (call (Recv sock size)) w = Done (Received g) (receiving sock c (l1' ++ l2) w) /\
    g <> [] /\ zlen g <= size /\ arrived l1 = g ++ arrived l1' /\ steady l1'.
Proof.
  intros Hc Hrx Hsize Hl Hne. destruct (recv_rx_steady size l1 l2 Hsize Hl Hne) as (g & l1' & E & H).
  exists g, l1'. split; [|done]. rewrite run_call. cbn [handle]. unfold recv_sock. rewrite Hc, Hrx, E.
  done.
Qed.

(** The status line is what arrives up to the first newline. *)
Lemma run_read_status_loop fuel sock line text more c l1 l2 w :
  socks w !! sock = Some c -> rx c = l1 ++ l2 -> steady l1 ->
  arrived l1 = text ++ newline :: more -> newline ∉ text ->
  zlen line + zlen text < 8192 -> 8192 - zlen line <= Z.of_nat fuel ->
  exists leftover l1',
    run (read_status_loop fuel sock line) w =
      Done (true, line ++ text ++ [newline], leftover) (receiving sock c (l1' ++ l2) w) /\
    more = leftover ++ arrived l1' /\ steady l1'.
Proof.
  revert line text c l1 w. induction fuel as [|fuel IH]; intros line text c l1 w Hc Hrx Hl Ha Hnl Hlen Hfuel;
    [pose proof (zlen_nonneg text); lia|]. pose proof (zlen_nonneg text).
  cbn [read_status_loop]. destruct (Z.ltb_spec (zlen line) 8192); [|lia]. rewrite run_bind.
  destruct (run_recv_steady sock 4096 c l1 l2 w Hc Hrx ltac:(lia) Hl) as (g & l1' & -> & Hg & _ & Ha' & Hl');
    [rewrite Ha; by destruct text|].
  pose proof (scan_header_spec line g) as Hscan. destruct g as [|b g]; [done|].
  rewrite Ha in Ha'.
  destruct (scan_header line (b :: g)) as [line' [leftover|]].
  - destruct Hscan as (text' & -> & Hnl' & Eg). exists leftover, l1'.
    rewrite Eg, <- app_assoc in Ha'. simpl in Ha'.
    assert (text = text' /\ more = leftover ++ arrived l1') as [-> ->]; [|done].
    by apply app_first_inj in Ha'.
  - destruct Hscan as [-> Hb].
    apply app_cut_inj in Ha' as (text' & -> & Ha'); [|done].
    rewrite not_elem_of_app in Hnl. rewrite zlen_app in Hlen.
    assert (0 < zlen (b :: g)) by list_lia.
    destruct (IH (line ++ b :: g) text' (set_rx (l1' ++ l2) c) l1' (receiving sock c (l1' ++ l2) w))
      as (leftover & l1'' & -> & Hm & Hl''); try done; try tauto.
    + apply receiving_lookup.
    + rewrite zlen_app. lia.
    + rewrite zlen_app. lia.
    + exists leftover, l1''. rewrite receiving_twice. by rewrite <- !app_assoc.
Qed.

Lemma run_read_status_line sock text more c l1 l2 w :
  socks w !! sock = Some c -> rx c = l1 ++ l2 -> steady l1 ->
  arrived l1 = text ++ newline :: more -> newline ∉ text -> zlen text < 8192 ->
  exists leftover l1',
    run (read_status_line sock) w =
      Done (true, text ++ [newline], leftover) (receiving sock c (l1' ++ l2) w) /\
    more = leftover ++ arrived l1' /\ steady l1'.
Proof.
  intros. unfold read_status_line.
  destruct (run_read_status_loop (Z.to_nat 8193) sock [] text more c l1 l2 w)
    as (leftover & l1' & H'); try done.
  by exists leftover, l1'.
Qed.

(** ** Receiving a file *)

Lemma run_write_append (path content data : bytes) w :
  files w !! path = Some (File content) -> faults w = [] ->
  zlen content + zlen data <= max_file_size ->
  run (good ← call (WriteAt path (zlen content) data); Ret good) w =
    Done true (set_file path (content ++ data) w).
Proof. intros. rewrite run_bind, run_append by done. done. Qed.

(** The bytes received so far are the content of the file that is written. *)
Lemma run_recv_prefix fuel size prefix path content off w :
  files w !! path = Some (File content) -> faults w = [] -> size <= max_file_size ->
  0 <= off <= zlen prefix -> zlen content <= size -> (1 < fuel)%nat ->
  let n := Z.min (size - zlen content) (zlen prefix - off) in
  run (recv_prefix fuel size prefix (Some path) (zlen content) off) w =
    Done (true, zlen content + n) (set_file path (content ++ ztake n (zdrop off prefix)) w).
Proof.
  intros Hp Hf Hsize Hoff Hc Hfuel n. destruct fuel as [|[|fuel]]; [lia..|]. cbn [recv_prefix].
  destruct (Z.ltb_spec (zlen content) size); destruct (Z.ltb_spec off (zlen prefix)); cbn [andb].
  2-4: assert (n = 0) as -> by lia; rewrite ztake_0, app_nil_r, set_file_id, Z.add_0_r by (done || lia); done.
  cbv zeta. fold n. rewrite run_bind.
  assert (Hn : zlen (ztake n (zdrop off prefix)) = n) by (rewrite zlen_ztake, zlen_zdrop by lia; lia).
  rewrite (run_append path content) by (done || lia). cbn [negb].
  assert (E : (zlen content + n <? size) && (off + n <? zlen prefix) = false).
  { apply andb_false_iff. rewrite !Z.ltb_ge. lia. }
  by rewrite E.
Qed.

Lemma run_recv_rest fuel sock size path content c l w :
  socks w !! sock = Some c -> rx c = l -> steady l ->
  files w !! path = Some (File content) -> faults w = [] -> size <= max_file_size ->
  zlen content <= size <= zlen content + zlen (arrived l) -> size - zlen content < Z.of_nat fuel ->
  exists l',
    run (recv_rest fuel sock size (Some path) (zlen content)) w =
      Done true (set_file path (content ++ ztake (size - zlen content) (arrived l))
        (receiving sock c l' w)).
Proof.
  revert content c l w. induction fuel as [|fuel IH]; intros content c l w Hc Hrx Hl Hp Hf Hsize Hlen Hfuel;
    [lia|]. cbn [recv_rest]. destruct (Z.ltb_spec (zlen content) size).
  2: { exists l. assert (size - zlen content = 0) as -> by lia. rewrite ztake_0, app_nil_r by lia.
       unfold receiving. assert (set_rx l c = c) as -> by (subst l; by destruct c).
       by rewrite set_sock_id, set_file_id. }
  rewrite run_bind. set (chunk := Z.min (size - zlen content) 8192).
  destruct (run_recv_steady sock chunk c l [] w Hc) as (g & l' & -> & Hg & Hgl & Ha & Hl'); try done.
  { by rewrite app_nil_r. }
  { lia. }
  { intros E. rewrite E in Hlen. change (zlen (@nil Ascii.ascii)) with 0 in Hlen. lia. }
  rewrite app_nil_r. destruct g as [|b g]; [done|]. set (g' := b :: g) in *.
  rewrite run_bind, (run_append path content g') by (done || lia). cbn [negb].
  pose proof (zlen_nonneg g'). pose proof (zlen_nonneg content).
  rewrite u64_small by (unfold is_u64, max_file_size in *; lia). rewrite <- zlen_app.
  rewrite Ha, zlen_app in Hlen.
  assert (0 < zlen g') by (subst g'; list_lia).
  destruct (IH (content ++ g') (set_rx l' c) l' (set_file path (content ++ g') (receiving sock c l' w)))
    as (l'' & ->); try done.
  - apply receiving_lookup.
  - apply lookup_insert_eq.
  - rewrite zlen_app. lia.
  - rewrite zlen_app. lia.
  - exists l''. f_equal. rewrite zlen_app, Ha.
    replace (size - zlen content) with (zlen g' + (size - (zlen content + zlen g'))) by lia.
    rewrite ztake_add, ztake_app_exact, zdrop_app_exact, app_assoc by lia.
    unfold set_file, receiving, set_sock. destruct w. field_simpl.
    by rewrite !insert_insert_eq.
Qed.

Lemma run_recv_exact sock size prefix path c w :
  socks w !! sock = Some c -> steady (rx c) ->
  files w !! path = Some (File []) -> faults w = [] -> 0 <= size <= max_file_size ->
  size <= zlen (prefix ++ arrived (rx c)) ->
  exists l',
    run (recv_exact sock size prefix (Some path)) w =
      Done true (set_file path (ztake size (prefix ++ arrived (rx c))) (receiving sock c l' w)).
Proof.
  intros Hc Hl Hp Hf Hsize Hlen. unfold recv_exact. pose proof (zlen_nonneg prefix).
  assert (Hread : exists l', run (recv_rest (S (Z.to_nat (size - Z.min size (zlen prefix)))) sock size
      (Some path) (Z.min size (zlen prefix))) (set_file path (ztake size prefix) w) =
    Done true (set_file path (ztake size (prefix ++ arrived (rx c))) (receiving sock c l' w))).
  { assert (Hz : zlen (ztake size prefix) = Z.min size (zlen prefix)) by (apply zlen_ztake; lia).
    rewrite zlen_app in Hlen. rewrite <- Hz.
    destruct (run_recv_rest (S (Z.to_nat (size - zlen (ztake size prefix)))) sock size path
      (ztake size prefix) c (rx c) (set_file path (ztake size prefix) w)) as (l' & ->);
      try done; try lia; [apply lookup_insert_eq|list_lia|].
    exists l'. f_equal. destruct w. unfold set_file, receiving, set_sock. field_simpl.
    rewrite insert_insert_eq. do 3 f_equal. rewrite Hz.
    destruct (Z.min_spec size (zlen prefix)) as [[? ->]|[? ->]].
    - rewrite Z.sub_diag, (ztake_0 0), app_nil_r by lia. rewrite !ztake_take, take_app_le; [done|].
      unfold zlen in *. lia.
    - rewrite ztake_all by lia. replace size with (zlen prefix + (size - zlen prefix)) at 2 by lia.
      by rewrite ztake_add, ztake_app_exact, zdrop_app_exact by lia. }
  destruct Hread as (l' & Hread). exists l'. rewrite <- Hread, run_bind.
  destruct prefix as [|b prefix].
  - cbn [recv_prefix length]. rewrite andb_false_r. cbn [run negb].
    change (zlen []) with 0 in *. rewrite Z.min_r by lia.
    rewrite set_file_id; [done|]. by rewrite Hp.
  - pose proof (run_recv_prefix (S (length (b :: prefix))) size (b :: prefix) path [] 0 w) as Hpre.
    cbn zeta in Hpre. change (zlen []) with 0 in Hpre. rewrite !Z.sub_0_r, zdrop_0 in Hpre by lia.
    rewrite Hpre by (done || simpl; lia). cbn [negb app]. rewrite Z.add_0_l.
    f_equal. f_equal. destruct (Z.min_spec size (zlen (b :: prefix))) as [[? ->]|[? ->]]; [done|].
    by rewrite !ztake_all by lia.
Qed.

(** ** A conversation *)

(** Since [w], [data] went out on the connection [c], which now has [l] left to
    deliver; no send is going to fail there. *)
Definition talked (sock : Z) (c : Effects.sock) (l : list rx_event) (data : bytes) (w w' : world)
    : Prop :=
  exists t, (SendFails ∉ t) /\ w' = set_sock sock (mkSock l t (sent c ++ data)) w.

Lemma talked_start sock c w :
  socks w !! sock = Some c -> SendFails ∉ tx c -> talked sock c (rx c) [] w w.
Proof.
  intros Hc Ht. exists (tx c). split; [done|]. rewrite app_nil_r. destruct c. by rewrite set_sock_id.
Qed.

Lemma talked_send sock c l data more w w1 :
  talked sock c l data w w1 -> zlen more < 2 ^ 64 ->
  exists w2, run (send_all_str sock more) w1 = Done true w2 /\ talked sock c l (data ++ more) w w2.
Proof.
  intros (t & Ht & ->) Hl. unfold send_all_str.
  destruct (run_send_all sock more (set_sock sock (mkSock l t (sent c ++ data)) w))
    as (w2 & Hrun & (c' & t' & Hc' & Ht' & ->)); [|done|].
  { eexists. split; [apply lookup_set_sock|done]. }
  rewrite lookup_set_sock in Hc'. simplify_eq. eexists. split; [done|]. exists t'.
  split; [done|]. rewrite set_sock_twice. cbn. by rewrite app_assoc.
Qed.

Lemma talked_status sock c l1 l2 data text more w w1 :
  talked sock c (l1 ++ l2) data w w1 -> steady l1 ->
  arrived l1 = text ++ newline :: more -> newline ∉ text -> zlen text < 8192 ->
  exists leftover l1' w2,
    run (read_status_line sock) w1 = Done (true, text ++ [newline], leftover) w2 /\
    talked sock c (l1' ++ l2) data w w2 /\ more = leftover ++ arrived l1' /\ steady l1'.
Proof.
  intros (t & Ht & ->) Hl Ha Hnl Hlen.
  destruct (run_read_status_line sock text more (mkSock (l1 ++ l2) t (sent c ++ data)) l1 l2
    (set_sock sock (mkSock (l1 ++ l2) t (sent c ++ data)) w)) as (leftover & l1' & Hrun & Hm & Hl1');
    try done; [apply lookup_set_sock|].
  eexists leftover, l1', _. split_and!; [exact Hrun| |done|done].
  exists t. split; [done|]. unfold receiving. by rewrite set_sock_twice.
Qed.

(** The end of every command. *)
Lemma run_close_and_return sock status c w :
  socks w !! sock = Some c ->
  exists w2, run (close_and_return sock status) w = Done status w2 /\ files w2 = files w /\
    socks w2 = delete sock (socks w) /\ closed_socks w2 = (sock, c) :: closed_socks w.
Proof.
  intros Hc. unfold close_and_return. rewrite run_bind, run_call. cbn [handle].
  unfold close_sock. rewrite Hc. eexists. split; [done|]. by destruct w.
Qed.

(** ** The transfers *)

Section transfers.
Context (socket_ : prog Z) (inet_pton : bytes -> prog Z) (connect_ : Z -> bytes -> Z -> prog Z).
Context (directory_tellg : bytes -> Z).

(** The connection is made: [c] is its state, nothing has been sent on it. *)
Record dialled (cfg : Config) (sock : Z) (c : Effects.sock) (w w1 : world) : Prop := {
  di_run : run (connect_to_server socket_ inet_pton connect_ cfg) w = Done sock w1;
  di_sock : 0 <= sock /\ socks w1 !! sock = Some c;
  di_sends : SendFails ∉ tx c;
  di_fresh : sent c = [];
  di_files : files w1 = files w;
  di_faults : faults w1 = []
}.

(** The exchange is over: [data] was sent and the connection closed. *)
Definition hung_up (sock : Z) (data : bytes) (w1 w2 : world) : Prop :=
  socks w2 = delete sock (socks w1) /\
  exists c, closed_socks w2 = (sock, c) :: closed_socks w1 /\ sent c = data.

Lemma ok_line_text n :
  is_u64 n -> exists text, ok_line n = text ++ [newline] /\ (newline ∉ text) /\ zlen text < 8192.
Proof.
  intros Hn. destruct (to_string_spec n Hn) as (_ & _ & Hd). pose proof (to_string_length n).
  exists (str "OK " ++ to_string n). split_and!.
  - unfold ok_line. by rewrite app_assoc.
  - rewrite not_elem_of_app. split; [by apply (bool_decide_eq_true_1 _); vm_compute|].
    intros Hin. rewrite Forall_forall in Hd. by apply Hd in Hin.
  - rewrite zlen_app. change (zlen (str "OK ")) with 3. lia.
Qed.

(** [get_file]: the request goes out, and the announced number of bytes that
    follow the status line become the local file. *)
Lemma run_get_file cfg name sock c body more w w1 :
  dialled cfg sock c w w1 -> steady (rx c) -> arrived (rx c) = ok_line (zlen body) ++ body ++ more ->
  zlen (get_request name) < 2 ^ 64 -> zlen body <= max_file_size ->
  (forall d, files w !! name <> Some (Directory d)) ->
  exists w2, run (get_file socket_ inet_pton connect_ cfg name true) w = Done 0 w2 /\
    files w2 = <[name := File body]> (files w) /\ hung_up sock (get_request name) w1 w2.
Proof.
  intros [Hrun [Hpos Hc] Htx Hsent F Hf] Hsteady Ha Hl Hm Hnd. unfold get_file.
  rewrite run_bind, Hrun. destruct (Z.ltb_spec sock 0); [lia|].
  pose proof (talked_start sock c w1 Hc Htx) as T. rewrite run_bind.
  destruct (talked_send _ _ _ _ (get_request name) _ _ T Hl) as (w3 & -> & T3). cbn [negb].
  rewrite run_bind. pose proof (zlen_nonneg body).
  assert (Hu : is_u64 (zlen body)) by (unfold is_u64, max_file_size in *; lia).
  destruct (ok_line_text _ Hu) as (text & Etext & Hnl & Hlen). rewrite Etext, <- app_assoc in Ha.
  rewrite <- (app_nil_r (rx c)) in T3.
  destruct (talked_status _ _ _ _ _ text (body ++ more) _ _ T3 Hsteady Ha Hnl Hlen)
    as (leftover & l1 & w4 & -> & T4 & Hmore & Hl1). cbn [negb].
  rewrite <- Etext, (parse_ok_line_ok _ Hu), app_nil_r in *.
  destruct T4 as (t & Ht & ->). rewrite run_bind, run_call. cbn [handle]. unfold open_trunc.
  rewrite next_fault_none by done. change (files (set_sock _ _ _)) with (files w1). rewrite F.
  set (w5 := set_file name [] (set_sock sock (mkSock l1 t (sent c ++ [] ++ get_request name)) w1)).
  assert (Hopen : match files w !! name with
    | Some (Directory _) => (false, set_sock sock (mkSock l1 t (sent c ++ [] ++ get_request name)) w1)
    | _ => (true, w5) end = (true, w5)).
  { destruct (files w !! name) as [[?|d]|] eqn:E; try done. by destruct (Hnd d). }
  change ((set_sock _ _ _) <| files ::= _ |>) with w5. rewrite Hopen. cbn [negb].
  rewrite run_bind.
  assert (Hc5 : socks w5 !! sock = Some (mkSock l1 t (sent c ++ [] ++ get_request name)))
    by apply lookup_set_sock.
  destruct (run_recv_exact sock (zlen body) leftover name _ w5 Hc5) as (l2 & ->); try done; try lia.
  { apply lookup_insert_eq. }
  { cbn [rx]. rewrite <- Hmore. list_lia. }
  cbn [rx]. rewrite <- Hmore, ztake_app_exact by done.
  set (w6 := set_file name body (receiving sock _ l2 w5)).
  destruct (run_close_and_return sock 0 (set_rx l2 (mkSock l1 t (sent c ++ [] ++ get_request name))) w6)
    as (w7 & Hclose & F7 & S7 & C7); [apply receiving_lookup|].
  exists w7. split; [exact Hclose|]. split.
  - rewrite F7. change (files w6) with (<[name := File body]> (<[name := File []]> (files w1))).
    by rewrite insert_insert_eq, F.
  - split.
    + rewrite S7. change (socks w6) with (<[sock := set_rx l2 (mkSock l1 t (sent c ++ [] ++ get_request name))]>
        (<[sock := mkSock l1 t (sent c ++ [] ++ get_request name)]> (socks w1))).
      by rewrite !delete_insert_eq.
    + eexists. split; [exact C7|]. cbn. by rewrite Hsent.
Qed.

(** [put_file]: the header and the file go out, when the two answers of the server
    arrive one after the other. *)
Lemma run_put_file cfg path data sock c l1 l2 more w w1 :
  files w !! path = Some (File data) -> faults w = [] -> zlen data <= string_max_size ->
  path_filename path ∉ [[]; str "."; str ".."] ->
  zlen (put_request (path_filename path) (zlen data)) < 2 ^ 64 ->
  dialled cfg sock c w w1 -> rx c = l1 ++ l2 -> steady l1 -> steady l2 ->
  arrived l1 = ok_line 0 -> arrived l2 = ok_line 0 ++ more ->
  exists w2, run (put_file socket_ inet_pton connect_ directory_tellg cfg path) w = Done 0 w2 /\
    files w2 = files w /\
    hung_up sock (put_request (path_filename path) (zlen data) ++ data) w1 w2.
Proof.
  intros Hp Hf0 Hsize Hname Hl [Hrun [Hpos Hc] Htx Hsent F Hf] Hrx Hs1 Hs2 Ha1 Ha2.
  rewrite !not_elem_of_cons in Hname. destruct Hname as (N1 & N2 & N3 & _).
  unfold put_file. rewrite run_bind, run_call. cbn [handle]. unfold open_read.
  rewrite next_fault_none, Hp by done. cbn [end_position read_whole].
  destruct (Z.ltb_spec (zlen data) 0); [pose proof (zlen_nonneg data); lia|].
  destruct (Z.ltb_spec string_max_size (zlen data)); [lia|]. unfold string_max_size in Hsize.
  rewrite !(proj2 (beq_false _ _)) by done. cbn [orb].
  rewrite run_bind, Hrun. destruct (Z.ltb_spec sock 0); [lia|].
  pose proof (talked_start sock c w1 Hc Htx) as T. rewrite run_bind.
  destruct (talked_send _ _ _ _ _ _ _ T Hl) as (w3 & -> & T3). cbn [negb].
  rewrite run_bind. rewrite Hrx in T3.
  destruct (ok_line_text 0 ltac:(by vm_compute)) as (text & Etext & Hnl & Hlen).
  destruct (talked_status _ _ _ _ _ text [] _ _ T3 Hs1) as (lo & l1' & w4 & -> & T4 & Hm & Hl1); try done.
  { by rewrite Ha1, Etext. }
  symmetry in Hm. apply app_nil in Hm as [-> Hm]. apply steady_arrived_nil in Hm; [|done]. subst l1'.
  rewrite <- Etext. cbn [negb orb]. rewrite (proj2 (beq_spec _ _) eq_refl). cbn [negb].
  rewrite run_bind. cbn [app] in T4.
  assert (exists w5, run (if negb (beq data []) then send_all_str sock data else Ret true) w4 =
      Done true w5 /\ talked sock c l2
        (put_request (path_filename path) (zlen data) ++ data) w1 w5) as (w5 & -> & T5).
  { destruct (beq data []) eqn:Ed.
    - apply beq_spec in Ed as ->. exists w4. by rewrite app_nil_r.
    - destruct (talked_send _ _ _ _ data _ _ T4 ltac:(lia)) as (w5 & ? & ?). by exists w5. }
  cbn [negb]. rewrite run_bind. rewrite <- (app_nil_r l2) in T5.
  destruct (talked_status _ _ _ _ _ text more _ _ T5 Hs2) as (lo & l2' & w6 & -> & T6 & _); try done.
  { by rewrite Ha2, Etext, <- app_assoc. }
  destruct T6 as (t & Ht & ->). rewrite <- Etext.
  destruct (run_close_and_return sock 0 _ _ (lookup_set_sock sock (mkSock (l2' ++ []) t (sent c ++
    put_request (path_filename path) (zlen data) ++ data)) w1)) as (w7 & Hclose & F7 & S7 & C7).
  exists w7. split.
  - rewrite <- Hclose. unfold close_and_return. by rewrite !run_bind.
  - split; [by rewrite F7|]. split.
    + rewrite S7. apply (delete_insert_eq (socks w1)).
    + eexists. split; [exact C7|]. cbn. by rewrite Hsent.
Qed.

(** One block that holds more than the line. *)
Lemma run_read_status_block sock c block line leftover w :
  socks w !! sock = Some c -> rx c = [Arrive block] -> block <> [] -> zlen block <= 4096 ->
  scan_header [] block = (line, Some leftover) ->
  run (read_status_line sock) w = Done (true, line, leftover) (receiving sock c [] w).
Proof.
  intros Hc Hrx Hne Hlen Hscan. unfold read_status_line.
  assert (H : forall fuel, run (read_status_loop (S fuel) sock []) w =
    Done (true, line, leftover) (receiving sock c [] w)).
  { intros fuel. cbn [read_status_loop]. change (zlen [] <? 8192) with true. cbv iota.
    rewrite run_bind, run_call. cbn [handle].
    unfold recv_sock. rewrite Hc, Hrx. cbn [recv_rx]. destruct (Z.leb_spec (zlen block) 4096); [|lia].
    cbv beta iota. destruct block as [|b block]; [done|]. by rewrite Hscan. }
  destruct (Z.to_nat 8193) as [|fuel] eqn:E; [lia|apply H].
Qed.

(** Nothing is left to arrive. *)
Lemma run_read_status_end sock c w :
  socks w !! sock = Some c -> rx c = [] ->
  run (read_status_line sock) w = Done (false, [], []) (receiving sock c [] w).
Proof.
  intros Hc Hrx. unfold read_status_line.
  assert (H : forall fuel, run (read_status_loop (S fuel) sock []) w =
    Done (false, [], []) (receiving sock c [] w)).
  { intros fuel. cbn [read_status_loop]. change (zlen [] <? 8192) with true. cbv iota.
    rewrite run_bind, run_call. cbn [handle]. unfold recv_sock. by rewrite Hc, Hrx. }
  destruct (Z.to_nat 8193) as [|fuel] eqn:E; [lia|apply H].
Qed.

(** [put_file] of an empty file when both answers arrive in one block: it takes
    the second one for the [leftover] of the first, drops it, finds the connection
    closed, and exits with status 1. *)
Lemma run_put_file_empty cfg path sock c w w1 :
  files w !! path = Some (File []) -> faults w = [] ->
  path_filename path ∉ [[]; str "."; str ".."] ->
  zlen (put_request (path_filename path) 0) < 2 ^ 64 ->
  dialled cfg sock c w w1 -> rx c = [Arrive (ok_line 0 ++ ok_line 0)] ->
  exists w2, run (put_file socket_ inet_pton connect_ directory_tellg cfg path) w = Done 1 w2 /\
    files w2 = files w /\ hung_up sock (put_request (path_filename path) 0) w1 w2.
Proof.
  intros Hp Hf0 Hname Hl [Hrun [Hpos Hc] Htx Hsent F Hf] Hrx.
  rewrite !not_elem_of_cons in Hname. destruct Hname as (N1 & N2 & N3 & _).
  unfold put_file. rewrite run_bind, run_call. cbn [handle]. unfold open_read.
  rewrite next_fault_none, Hp by done. cbn [end_position read_whole].
  change (zlen [] <? 0) with false. change (string_max_size <? zlen []) with false. cbv iota zeta.
  rewrite !(proj2 (beq_false _ _)) by done. cbn [orb].
  rewrite run_bind, Hrun. destruct (Z.ltb_spec sock 0); [lia|].
  pose proof (talked_start sock c w1 Hc Htx) as T. rewrite run_bind.
  destruct (talked_send _ _ _ _ _ _ _ T Hl) as (w3 & Hsend & (t & Ht & ->)).
  change (zlen []) with 0. rewrite Hsend. cbn [negb app]. rewrite run_bind.
  erewrite (run_read_status_block sock _ (ok_line 0 ++ ok_line 0) (ok_line 0) (ok_line 0));
    [|apply lookup_set_sock|exact Hrx|done..].
  cbv iota beta. rewrite (proj2 (beq_spec (ztake 3 (ok_line 0)) (str "OK ")) eq_refl). cbn [negb orb].
  rewrite (proj2 (beq_spec (@nil Ascii.ascii) []) eq_refl). cbn [negb].
  rewrite run_bind, run_ret. cbn [negb]. rewrite run_bind.
  erewrite (run_read_status_end sock); [|apply receiving_lookup|done].
  cbv iota beta. unfold receiving. rewrite !set_sock_twice.
  match goal with |- context [set_sock sock ?c2 w1] =>
    destruct (run_close_and_return sock 1 _ _ (lookup_set_sock sock c2 w1))
      as (w7 & Hclose & F7 & S7 & C7) end.
  exists w7. split.
  - rewrite <- Hclose. unfold close_and_return. by rewrite !run_bind.
  - split; [by rewrite F7|]. split; [rewrite S7; apply (delete_insert_eq (socks w1))|].
    eexists. split; [exact C7|]. cbn. by rewrite Hsent.
Qed.

End transfers.

(** ** Concrete transfers *)

(** The client's computer: [connect] succeeds on descriptor 5, on which [l]
    arrives. *)
Definition sample_client (name content : bytes) (l : list rx_event) : world :=
  initial_world <| files := {[name := File content]} |>
    <| socks := {[5 := mkSock l [Accept 3] []]} |>.

Lemma sample_dialled name content l :
  dialled (Ret 5) (fun _ => Ret 1) (fun _ _ _ => Ret 0) (sample_config 9000) 5
    (mkSock l [Accept 3] []) (sample_client name content l) (sample_client name content l).
Proof.
  split; try done. apply not_elem_of_cons. split; [done|apply not_elem_of_nil].
Qed.
