(* ===== verification/Load.v ===== *)
(** The load generator of the client, the command [load] of [src/client.cpp]: the
    list of the workload, the seeding, and the threads that perform the requests.

    The order in which a directory is iterated is a parameter, and so are the calls
    that make a connection, as in the file Client.  The threads share two atomic
    counters; a thread moves by taking a number, by a whole transfer, in whatever
    state the world is then, and by counting a failure.  What the random number
    generators draw is a choice of the step. *)

From S2P Require Import Prelude Text Json Grammar Queue Scheduling Metrics Effects FileIO Config.
From S2P Require Import Report Socket Protocol Server Threads Transfer Upload Client.

Local Open Scope Z_scope.

(** ** The workload *)

Record WorkloadFile := mkWorkloadFile {
  wf_path : bytes;
  wf_name : bytes
}.

(** [std::string::operator<]: bytes compare as unsigned characters. *)
Fixpoint string_less (a b : bytes) : bool :=
  match a, b with
  | _, [] => false
  | [], _ :: _ => true
  | x :: a', y :: b' => (code x <? code y) || ((code x =? code y) && string_less a' b')
  end.

Section load.
Context `{Hstd : !StdSort}.
Context (socket_ : prog Z) (inet_pton : bytes -> prog Z) (connect_ : Z -> bytes -> Z -> prog Z).
Context (directory_tellg : bytes -> Z).
(** The paths in a directory and whether they are regular files. *)
Context (directory_iterator : bytes -> prog (list (bytes * bool))).

Definition list_workload (dir : bytes) : prog (list WorkloadFile) :=
  entries ← directory_iterator dir;
  let files :=
    foldr (fun '(path, is_regular_file) files =>
      let name := path_filename path in
      if negb is_regular_file || beq name [] || beq (ztake 1 name) (str ".") then files
      else mkWorkloadFile path name :: files) [] entries in
  Ret (std_sort (fun a b => string_less (wf_name a) (wf_name b)) files).

(** The loop that uploads every file once; [false] when an upload fails. *)
Fixpoint seed (cfg : Config) (files : list WorkloadFile) : prog bool :=
  match files with
  | [] => Ret true
  | file :: files' =>
      status ← put_file socket_ inet_pton connect_ directory_tellg cfg (wf_path file);
      if negb (status =? 0) then Ret false else seed cfg files'
  end.

(** [load_workload] up to the threads: the files, or [None] for exit status 1. *)
Definition prepare_load (cfg : Config) (dir : bytes) : prog (option (list WorkloadFile)) :=
  files ← list_workload dir;
  match files with
  | [] => Ret None
  | _ => seeded ← seed cfg files; Ret (if (seeded : bool) then Some files else None)
  end.

(** ** The threads *)

Inductive load_transfer :=
  | LoadGet (name : bytes)
  | LoadPut (path : bytes).

(** Where a thread is: at the top of its loop, in a transfer, about to count a
    failure, past the loop. *)
Inductive load_thread := AtTop | Transferring (t : load_transfer) | Failing | LoadReturned.

Record load_state := mkLoad {
  next_index : Z;   (* [next] *)
  failures : Z;
  load_threads : list load_thread;
  performed : list (load_transfer * Z)  (* history variable: transfers and their status *)
}.

(** What a step depends on: the draws of the thread, or the world in which its
    transfer is done. *)
Inductive choice :=
  | Draw (file : nat) (op_draw : Z)
  | Around (w : world).

Context (cfg : Config) (files : list WorkloadFile) (requests : Z).

Definition transfer_program (t : load_transfer) : prog Z :=
  match t with
  | LoadGet name => get_file socket_ inet_pton connect_ cfg name false
  | LoadPut path => put_file socket_ inet_pton connect_ directory_tellg cfg path
  end.

(** [None] for a transfer that does not return: it waits for ever, or an exception
    that it throws ends the process, and none of the threads moves again. *)
Definition transfer_status (t : load_transfer) (w : world) : option Z :=
  match run (transfer_program t) w with Done status _ => Some status | _ => None end.

(** One move of thread [i]. *)
Definition load_turn (i : nat) (c : choice) (y : load_state) : option load_state :=
  let '(mkLoad n f ts h) := y in
  match ts !! i, c with
  | Some AtTop, Draw k op_draw =>
      let n' := i32 (n + 1) in
      if requests <=? n then Some (mkLoad n' f (<[i := LoadReturned]> ts) h)
      else
        file ← files !! k;
        let t := if op_draw =? 0 then LoadGet (wf_name file) else LoadPut (wf_path file) in
        Some (mkLoad n' f (<[i := Transferring t]> ts) h)
  | Some (Transferring t), Around w =>
      status ← transfer_status t w;
      Some (mkLoad n f (<[i := if negb (status =? 0) then Failing else AtTop]> ts)
              (h ++ [(t, status)]))
  | Some Failing, _ => Some (mkLoad n (i32 (f + 1)) (<[i := AtTop]> ts) h)
  | _, _ => None
  end.

Definition load_step (y y' : load_state) : Prop := exists i c, load_turn i c y = Some y'.

Definition load_start : load_state :=
  mkLoad 0 0 (replicate (Z.to_nat (client_threads (server cfg))) AtTop) [].

(** The exit status after the joins. *)
Definition load_result (y : load_state) : Z := if negb (failures y =? 0) then 1 else 0.

Definition all_joined (y : load_state) : Prop := Forall (fun t => t = LoadReturned) (load_threads y).

(** ** Lemmas *)

(** A transfer of a file of the workload. *)
Definition of_workload (t : load_transfer) : Prop :=
  exists file, file ∈ files /\ (t = LoadGet (wf_name file) \/ t = LoadPut (wf_path file)).

Definition is_transferring (t : load_thread) : bool := match t with Transferring _ => true | _ => false end.
Definition is_failing (t : load_thread) : bool := match t with Failing => true | _ => false end.
Definition is_returned (t : load_thread) : bool := match t with LoadReturned => true | _ => false end.

Definition failed (h : list (load_transfer * Z)) : Z := zlen (filter (fun x => x.2 <> 0) h).

Record load_inv (y : load_state) : Prop := {
  li_threads : zlen (load_threads y) = client_threads (server cfg);
  li_next : next_index y = zlen (performed y) + count_if is_transferring (load_threads y) +
    count_if is_returned (load_threads y);
  li_issued : zlen (performed y) + count_if is_transferring (load_threads y) <= requests;
  li_done : 0 < count_if is_returned (load_threads y) ->
    zlen (performed y) + count_if is_transferring (load_threads y) = requests;
  li_failures : failures y + count_if is_failing (load_threads y) = failed (performed y);
  li_files : Forall (fun x => of_workload x.1) (performed y);
  li_current t : Transferring t ∈ load_threads y -> of_workload t
}.

(** How many more moves there can be. *)
Definition load_measure (y : load_state) : Z :=
  3 * (requests - zlen (performed y)) - count_if is_transferring (load_threads y) +
  count_if is_failing (load_threads y) +
  (zlen (load_threads y) - count_if is_returned (load_threads y)).

Context (Hrequests : 0 < requests)
  (Hcounts : 0 < client_threads (server cfg) /\ requests + client_threads (server cfg) < 2 ^ 31).

Lemma failed_app h x : failed (h ++ [x]) = failed h + (if decide (x.2 <> 0) then 1 else 0).
Proof. unfold failed. rewrite filter_app, zlen_app, filter_cons. by case_decide. Qed.

Lemma failed_range h : 0 <= failed h <= zlen h.
Proof.
  unfold failed, zlen. pose proof (length_filter (fun x : load_transfer * Z => x.2 <> 0) h). lia.
Qed.

(** The threads after a move of thread [i]. *)
Lemma load_threads_change (ts : list load_thread) i t t' :
  ts !! i = Some t -> zlen (<[i := t']> ts) = zlen ts /\
  (forall P, count_if P (<[i := t']> ts) = count_if P ts - Z.b2z (P t) + Z.b2z (P t')) /\
  (forall x, x ∈ <[i := t']> ts -> x = t' \/ x ∈ ts).
Proof.
  intros Hi. split; [|split].
  - unfold zlen. by rewrite length_insert.
  - intros P. by apply count_if_insert.
  - intros x (j & Hj)%list_elem_of_lookup. apply list_lookup_insert_Some in Hj as [(_ & -> & _)|[_ Hj]];
      [by left|right]. by eapply list_elem_of_lookup_2.
Qed.

Lemma load_step_inv y y' :
  load_inv y -> load_step y y' -> load_inv y' /\ load_measure y' < load_measure y.
Proof.
  intros [Hts Hnext Hissued Hdone Hfail Hfiles Hcur] (i & c & H).
  destruct y as [n f ts h]. simpl in *.
  match type of Hnext with _ = ?x => assert (Hn : n <= x <= n) by lia; clear Hnext end.
  destruct (ts !! i) as [t|] eqn:Hi; [|done].
  assert (Hch : forall t', zlen (<[i := t']> ts) = zlen ts /\
    (forall P, count_if P (<[i := t']> ts) = count_if P ts - Z.b2z (P t) + Z.b2z (P t')) /\
    (forall x, x ∈ <[i := t']> ts -> x = t' \/ x ∈ ts)) by (intros; by apply load_threads_change).
  pose proof (failed_range h). unfold load_measure.
  assert (Hret : count_if is_returned ts - Z.b2z (is_returned t) + 1 <= zlen ts).
  { destruct (Hch LoadReturned) as (Hl & Hc & _). specialize (Hc is_returned).
    pose proof (count_if_range is_returned (<[i := LoadReturned]> ts)). simpl in Hc. lia. }
  pose proof (count_if_range is_failing ts). pose proof (count_if_range is_returned ts).
  pose proof (count_if_range is_transferring ts).
  destruct t as [|t| |]; [destruct c as [k d|w]|destruct c as [k d|w]|..]; simplify_eq/=.
  - rewrite i32_small in H by lia. destruct (Z.leb_spec requests n).
    + simplify_eq. destruct (Hch LoadReturned) as (Hl & Hc & Hin).
      split; [split|]; simpl; rewrite ?Hl, ?Hc; simpl; try done; try lia.
      intros t Ht. destruct (Hin _ Ht) as [|Ht']; [done|]. by apply Hcur.
    + destruct (files !! k) as [file|] eqn:Hk; simplify_eq/=. set (t := if d =? 0 then _ else _).
      destruct (Hch (Transferring t)) as (Hl & Hc & Hin).
      split; [split|]; simpl; rewrite ?Hl, ?Hc; simpl; try done; try lia.
      intros u Hu. destruct (Hin _ Hu) as [E|Hu']; [|by apply Hcur]. injection E as ->.
      exists file. split; [by eapply list_elem_of_lookup_2|]. subst t. destruct (d =? 0); auto.
  - destruct (transfer_status t w) as [status|]; simplify_eq/=.
    assert (Hfiles' : Forall (fun x => of_workload x.1) (h ++ [(t, status)])).
    { apply Forall_app. split; [done|]. repeat constructor. simpl. apply Hcur.
      by eapply list_elem_of_lookup_2. }
    pose proof (failed_app h (t, status)) as Hf. simpl in Hf.
    assert (Hz : zlen (h ++ [(t, status)]) = zlen h + 1) by (by rewrite zlen_app).
    destruct (Z.eqb_spec status 0) as [E|E]; simpl in *;
      [rewrite decide_False in Hf by tauto|rewrite decide_True in Hf by done];
      [destruct (Hch AtTop) as (Hl & Hc & Hin)|destruct (Hch Failing) as (Hl & Hc & Hin)];
      (split; [split|]; simpl; rewrite ?Hl, ?Hc, ?Hf, ?Hz; simpl; try done; try lia;
       intros u Hu; destruct (Hin _ Hu) as [|Hu']; [done|by apply Hcur]).
  - destruct (Hch AtTop) as (Hl & Hc & Hin). rewrite i32_small by lia.
    (split; [split|]; simpl; rewrite ?Hl, ?Hc; simpl; try done; try lia;
     intros t Ht; destruct (Hin _ Ht) as [|Ht']; [done|]; by apply Hcur).
Qed.

Lemma load_start_inv :
  load_inv load_start /\ load_measure load_start = 3 * requests + client_threads (server cfg).
Proof.
  assert (Hl : zlen (replicate (Z.to_nat (client_threads (server cfg))) AtTop) =
    client_threads (server cfg)) by (unfold zlen; rewrite length_replicate; lia).
  assert (Hnone : forall P n, P AtTop = false -> count_if P (replicate n AtTop) = 0).
  { intros P n HP. apply count_if_none, Forall_forall. by intros t [-> _]%elem_of_replicate. }
  unfold load_measure, load_start.
  split; [split|]; simpl; rewrite ?Hnone, ?Hl by done; try done;
    try (change (zlen []) with 0; lia).
  intros t Ht. by apply elem_of_replicate in Ht as [? _].
Qed.

Lemma load_measure_nonneg y : load_inv y -> 0 <= load_measure y.
Proof.
  intros [_ _ Hi _ _ _ _]. unfold load_measure.
  pose proof (count_if_range is_failing (load_threads y)).
  pose proof (count_if_range is_returned (load_threads y)).
  pose proof (count_if_range is_transferring (load_threads y)). lia.
Qed.

Lemma load_trace_bound y ys : load_inv y -> trace load_step y ys -> zlen ys <= load_measure y.
Proof.
  intros Hy Htrace. induction Htrace as [y|y y' ys Hstep _ IH].
  - rewrite zlen_nil. by apply load_measure_nonneg.
  - destruct (load_step_inv _ _ Hy Hstep) as [Hy' Hm]. specialize (IH Hy'). rewrite zlen_cons. lia.
Qed.

Lemma load_reachable_inv y : rtc load_step load_start y -> load_inv y.
Proof.
  intros H. assert (forall y1, rtc load_step y1 y -> load_inv y1 -> load_inv y) as Hrtc.
  { induction 1 as [|y1 y2 y3 Hs _ IH]; [done|]. intros Hi. by apply IH, (load_step_inv y1). }
  by apply (Hrtc _ H), load_start_inv.
Qed.

Lemma failed_none h : failed h = 0 <-> Forall (fun x : load_transfer * Z => x.2 = 0) h.
Proof.
  unfold failed. induction h as [|x h IH]; [split; [constructor|done]|].
  rewrite filter_cons, Forall_cons, <- IH. pose proof (failed_range h) as H. unfold failed in H.
  case_decide as E; rewrite ?zlen_cons; [|tauto]. split; [lia|tauto].
Qed.

(** C21: the load generator performs exactly the requests it was asked for. Its
    threads take a bounded number of moves; none of them is stuck unless a transfer
    does not end; when they have all returned, [requests] transfers have been
    performed, each of a file of the workload, and the exit status is 0 exactly when
    none of them failed. *)
Theorem load_performs_every_request :
  (forall ys, trace load_step load_start ys ->
    zlen ys <= 3 * requests + client_threads (server cfg)) /\
  (forall y, rtc load_step load_start y ->
    (all_joined y ->
      zlen (performed y) = requests /\ Forall (fun x => of_workload x.1) (performed y) /\
      (load_result y = 0 <-> Forall (fun x => x.2 = 0) (performed y))) /\
    (files <> [] -> (forall y', ~ load_step y y') ->
      Forall (fun t => t = LoadReturned \/
        exists tr, t = Transferring tr /\ forall w, transfer_status tr w = None) (load_threads y))).
Proof.
  destruct load_start_inv as [Hstart Hmeasure].
  split; [intros ys H; rewrite <- Hmeasure; by apply load_trace_bound|].
  intros y Hy. apply load_reachable_inv in Hy as [Hts Hnext Hissued Hdone Hfail Hfiles Hcur].
  split.
  - intros Hj. assert (Hret : forall t, t ∈ load_threads y -> t = LoadReturned) by (by apply Forall_forall).
    assert (Hnone : forall P, P LoadReturned = false -> count_if P (load_threads y) = 0).
    { intros P HP. apply count_if_none, Forall_forall. intros t Ht. by rewrite (Hret t Ht). }
    assert (Hall : count_if is_returned (load_threads y) = zlen (load_threads y)).
    { apply count_if_all, Forall_forall. intros t Ht. by rewrite (Hret t Ht). }
    pose proof (Hnone is_transferring eq_refl). pose proof (Hnone is_failing eq_refl).
    specialize (Hdone ltac:(lia)). split; [lia|]. split; [done|].
    rewrite <- failed_none. unfold load_result. rewrite <- Hfail.
    destruct (Z.eqb_spec (failures y) 0); simpl; lia.
  - intros Hne Hstuck. apply Forall_forall. intros t (i & Hi)%list_elem_of_lookup.
    destruct y as [n f ts h]. simpl in Hi. destruct t as [|tr| |]; [|right|..|by left].
    + destruct files as [|file l] eqn:Ef; [done|]. destruct (decide (requests <= n)) as [Hn|Hn].
      * edestruct Hstuck. exists i, (Draw 0 0). simpl. rewrite Hi.
        by rewrite (proj2 (Z.leb_le _ _) Hn).
      * edestruct Hstuck. exists i, (Draw 0 0). simpl. rewrite Hi.
        rewrite (proj2 (Z.leb_gt _ _)) by lia. by rewrite Ef.
    + exists tr. split; [done|]. intros w. destruct (transfer_status tr w) as [status|] eqn:E; [|done].
      edestruct Hstuck. exists i, (Around w). simpl. by rewrite Hi, E.
    + edestruct Hstuck. exists i, (Draw 0 0). simpl. by rewrite Hi.
Qed.

End load.

(** ** A concrete run

    [client_threads] threads of the sample configuration perform two requests; the
    download succeeds, the upload finds its connection closed. *)

(** Hidden files and directories are left out, the names are in order. *)
Example list_workload_sample :
  run (list_workload (fun _ => Ret
    [(str "w/b", true); (str "w/.x", true); (str "w/ab", true); (str "w/d", false); (str "w/a", true)])
    (str "w")) initial_world =
  Done [mkWorkloadFile (str "w/a") (str "a"); mkWorkloadFile (str "w/ab") (str "ab");
        mkWorkloadFile (str "w/b") (str "b")] initial_world.
Proof. by vm_compute. Qed.

Definition load_files : list WorkloadFile := [mkWorkloadFile (str "w/a") (str "a")].

Definition sample_turn : nat -> choice -> load_state -> option load_state :=
  load_turn (Ret 5) (fun _ => Ret 1) (fun _ _ _ => Ret 0) (fun _ => -1) (sample_config 9000) load_files 2.

Fixpoint load_run (l : list (nat * choice)) (y : load_state) : load_state :=
  match l with
  | [] => y
  | (i, c) :: l' =>
      match sample_turn i c y with Some y' => load_run l' y' | None => load_run l' y end
  end.

Lemma load_run_sound l y :
  rtc (load_step (Ret 5) (fun _ => Ret 1) (fun _ _ _ => Ret 0) (fun _ => -1) (sample_config 9000) load_files 2)
    y (load_run l y).
Proof.
  revert y. induction l as [|[i c] l IH]; intros y; simpl; [done|].
  destruct (sample_turn i c y) as [y'|] eqn:E; [|done].
  eapply rtc_l; [|apply IH]. by exists i, c.
Qed.

Definition load_end : load_state :=
  load_run
    ([(0, Draw 0 0); (1, Draw 0 1);
      (0, Around (sample_client (str "w/a") [] [Arrive (ok_line 2 ++ str "xy")]));
      (1, Around (sample_client (str "w/a") [] [])); (1, Draw 0 0)]%nat ++
     map (fun i => (i, Draw 0 0)) (seq 0 8))
    (load_start (sample_config 9000)).

Lemma load_witness :
  (map snd (performed load_end) = [0; 1] /\ all_joined load_end) /\
  zlen (performed load_end) = 2 /\
  (load_result load_end = 0 <-> Forall (fun x => x.2 = 0) (performed load_end)).
Proof.
  assert (Hj : all_joined load_end) by (by repeat constructor).
  split; [split; [by vm_compute|done]|].
  edestruct (load_performs_every_request (Ret 5) (fun _ => Ret 1) (fun _ _ _ => Ret 0)
    (fun _ => -1) (sample_config 9000) load_files 2) as (_ & H); [done|by vm_compute|].
  destruct (H load_end) as (Hend & _); [apply load_run_sound|].
  destruct (Hend Hj) as (H1 & _ & H2). by split.
Defined.
