(* ===== verification/EndToEnd.v ===== *)
(** A request from end to end: the client, the bytes on the wire, a parser that
    admits the request, a worker that serves it, and the client again.  The two
    sides are separate worlds; they meet in the bytes that each sends and the
    other receives, however these are cut into blocks. *)

From S2P Require Import Prelude Text Json Grammar Queue Scheduling Metrics Effects FileIO Config.
From S2P Require Import Socket Protocol Server Threads Transfer Upload Client.

Local Open Scope Z_scope.

(** ** The parser's turn *)

(** The server when [fd] is the one connection that waits: the queues are open,
    nothing else is going on. *)
Record waiting (fd : Z) (c : sock) (w : world) : Prop := {
  wt_fd : 0 <= fd /\ fd <> listen_socket;
  wt_queue : fd_queue w = FdQueue.mk [fd] false;
  wt_requests : request_queue w = RequestQueue.new;
  wt_sock : socks w !! fd = Some c;
  wt_sends : SendFails ∉ tx c;
  wt_fresh : sent c = [];
  wt_faults : faults w = [];
  wt_clock : ticks w = []  (* the header arrives in time *)
}.

Lemma run_recv_data_steady fd size ms c l1 l2 w :
  socks w !! fd = Some c -> fd <> listen_socket -> rx c = l1 ++ l2 -> 0 < size -> steady l1 ->
  arrived l1 <> [] ->
  exists g l1', run (recv_data_with_timeout fd size ms) w =
      Done (Received g) (receiving fd c (l1' ++ l2) w) /\
    g <> [] /\ arrived l1 = g ++ arrived l1' /\ steady l1'.
Proof.
  intros Hc Hfd Hrx Hsize Hl Hne. unfold recv_data_with_timeout. rewrite run_bind, run_call.
  cbn [handle]. rewrite (proj2 (Z.eqb_neq _ _) Hfd). unfold select_sock. rewrite Hc, Hrx.
  destruct (run_recv_steady fd size c l1 l2 w Hc Hrx Hsize Hl Hne) as (g & l1' & Hrun & Hg & _ & Ha & Hs).
  exists g, l1'. split; [|done]. destruct Hl as [|e l1 He Hl]; [done|].
  by destruct e as [bs| | | |].
Qed.

Lemma tick_none w : ticks w = [] -> tick w = w.
Proof. unfold tick. by intros ->. Qed.

(** On a steady connection the header line is read whatever the blocks are. *)
Lemma run_read_header_steady fuel fd deadline line text more c l w :
  socks w !! fd = Some c -> fd <> listen_socket -> ticks w = [] -> now w < deadline ->
  rx c = l -> steady l -> arrived l = text ++ newline :: more -> newline ∉ text ->
  zlen line + zlen text < 8192 -> 8192 - zlen line <= Z.of_nat fuel ->
  exists leftover l',
    run (read_header_loop fuel fd deadline line) w =
      Done (line ++ text ++ [newline], leftover) (receiving fd c l' w) /\
    more = leftover ++ arrived l' /\ steady l'.
Proof.
  revert line text c l w. induction fuel as [|fuel IH];
    intros line text c l w Hc Hfd Htick Hnow Hrx Hl Ha Hnl Hlen Hfuel; pose proof (zlen_nonneg text);
    [lia|].
  cbn [read_header_loop]. destruct (Z.ltb_spec (zlen line) 8192); [|lia].
  rewrite run_bind, run_call. cbn [handle]. rewrite tick_none by done. cbv beta zeta iota.
  destruct (Z.leb_spec deadline (now w)); [lia|]. rewrite run_bind.
  match goal with |- context [recv_data_with_timeout fd 4096 ?t] => set (ms := t) end.
  rewrite <- (app_nil_r l) in Hrx.
  destruct (run_recv_data_steady fd 4096 ms c l [] w) as (g & l' & -> & Hg & Ha' & Hl'); try done.
  { rewrite Ha. by destruct text. }
  rewrite app_nil_r. pose proof (scan_header_spec line g) as Hscan. destruct g as [|b g]; [done|].
  rewrite Ha in Ha'. destruct (scan_header line (b :: g)) as [line' [leftover|]].
  - destruct Hscan as (text' & -> & Hnl' & Eg). exists leftover, l'.
    rewrite Eg, <- app_assoc in Ha'. simpl in Ha'.
    assert (text = text' /\ more = leftover ++ arrived l') as [-> ->]; [|done].
    by apply app_first_inj in Ha'.
  - destruct Hscan as [-> Hb].
    apply app_cut_inj in Ha' as (text' & -> & Ha'); [|done].
    rewrite not_elem_of_app in Hnl. rewrite zlen_app in Hlen.
    assert (0 < zlen (b :: g)) by list_lia.
    destruct (IH (line ++ b :: g) text' (set_rx l' c) l' (receiving fd c l' w))
      as (leftover & l'' & -> & Hm & Hl''); try done; try tauto; try (rewrite zlen_app; lia).
    + apply receiving_lookup.
    + exists leftover, l''. rewrite receiving_twice. by rewrite <- !app_assoc.
Qed.

(** The server once the request [r] has been admitted and waits for a worker. *)
Record admitted (r : Request) (c : sock) (l : list rx_event) (w w1 : world) : Prop := {
  ad_queue : request_queue w1 = RequestQueue.mk [r] false 0;
  ad_files : files w1 = files w;
  ad_faults : faults w1 = [];
  ad_records : records_ w1 = records_ w;
  ad_closed : closed_socks w1 = closed_socks w;
  ad_socks : socks w1 = <[client_fd r := set_rx l c]> (socks w)
}.

(** The fields of an admitted request, [leftover] being what came with the header. *)
Definition admits (r0 : Request) (size : Z) (leftover : bytes) (r : Request) : Prop :=
  exists id t, r = r0 <| pending_bytes := leftover |> <| total_bytes := size |>
    <| request_id := id |> <| arrival_ns := t |>.

Lemma run_admit fd c l r w w1 :
  socks w1 = <[fd := set_rx l c]> (socks w) -> client_fd r = fd ->
  files w1 = files w -> faults w1 = [] -> records_ w1 = records_ w ->
  closed_socks w1 = closed_socks w -> request_queue w1 = RequestQueue.new ->
  exists id t w2, run (admit_request fd r) w1 = Done true w2 /\
    admitted (r <| request_id := id |> <| arrival_ns := t |>) c l w w2.
Proof.
  intros S Hfd F Fl R C Q. unfold admit_request. rewrite run_bind, run_call. cbn [handle]. cbv zeta.
  rewrite run_bind. set (w2 := _ <| ids_given ::= _ |>).
  destruct (run_monotonic_ns w2) as (t & w3 & -> & (n & tk & ->)). cbv zeta.
  rewrite run_bind, run_call. cbn [handle].
  change (request_queue (w2 <| now := n |> <| ticks := tk |>)) with (request_queue w1). rewrite Q.
  cbn. exists (next_request_id w1), t. eexists. split; [done|]. subst fd. by split.
Qed.

Lemma run_stat path content w :
  files w !! path = Some (File content) -> is_u64 (zlen content) ->
  run (file_exists path) w = Done true w /\ run (get_file_size path) w = Done (zlen content) w.
Proof.
  intros Hp Hs. unfold file_exists, get_file_size. rewrite !run_bind, !run_call. cbn [handle].
  rewrite Hp. cbn. by rewrite u64_small.
Qed.

Lemma arrived_steady_app l1 l2 : steady l1 -> arrived (l1 ++ l2) = arrived l1 ++ arrived l2.
Proof.
  induction 1 as [|e l1 He Hl IH]; [done|]. destruct e as [bs| | | |]; try done.
  cbn. by rewrite IH, app_assoc.
Qed.

Section served.
Context (dir : bytes).

(** What the parser does with a header that it accepts. *)
Lemma run_parser_turn fd c text more r0 w :
  waiting fd c w -> steady (rx c) -> arrived (rx c) = text ++ newline :: more ->
  newline ∉ text -> zlen text < 8192 ->
  parse_request_header (text ++ [newline]) fd = Ok r0 -> client_fd r0 = fd ->
  op r0 <> HEALTH -> is_valid_filename (filename r0) = true ->
  (op r0 = GET -> exists content, files w !! path_in dir (filename r0) = Some (File content) /\
     is_u64 (zlen content)) ->
  exists leftover l r w1, run (parser_turn dir) w = Done true w1 /\
    more = leftover ++ arrived l /\ steady l /\
    admits r0 (match op r0, files w !! path_in dir (filename r0) with
               | GET, Some n => node_size n
               | _, _ => total_bytes r0
               end) leftover r /\
    admitted r c l w w1.
Proof.
  intros [[Hpos Hne] Qf Qr Hc Htx _ Hf Hck] Hs Ha Hnl Hlen Hparse Hfd Hop Hname Hget.
  set (w0 := w <| fd_queue := FdQueue.mk [] false |>).
  assert (Hpop : handle FdWaitPop w = Some (Some fd, w0)) by (cbn; by rewrite Qf).
  unfold parser_turn. rewrite run_bind, run_call, Hpop, run_bind. unfold read_header_line.
  rewrite run_bind, run_call. cbn [handle]. rewrite tick_none by done. cbv beta zeta iota.
  destruct (run_read_header_steady (Z.to_nat 8193) fd (now w0 + 1000 * 1000000) [] text more c (rx c) w0)
    as (leftover & l & -> & Hm & Hl); try done.
  { lia. }
  rewrite (proj2 (beq_false _ _)) by (by destruct text). cbn [app]. rewrite Hparse.
  exists leftover, l. cut (exists r w1,
    run (dispatch dir fd (r0 <| pending_bytes := leftover |>)) (receiving fd c l w0) = Done true w1 /\
    admits r0 (match op r0, files w !! path_in dir (filename r0) with
               | GET, Some n => node_size n | _, _ => total_bytes r0 end) leftover r /\
    admitted r c l w w1).
  { intros (r & w1 & H1 & H2 & H3). by exists r, w1. }
  unfold dispatch. cbn [op filename client_fd].
  change (op (r0 <| pending_bytes := leftover |>)) with (op r0).
  change (filename (r0 <| pending_bytes := leftover |>)) with (filename r0).
  rewrite Hname. cbn [negb]. destruct (op r0) eqn:Eop; [| |done]; cbn [op_eqb].
  - destruct Hget as (content & Hfile & Hsize); [done|]. rewrite Hfile. cbn [node_size].
    destruct (run_stat (path_in dir (filename r0)) content (receiving fd c l w0) Hfile Hsize)
      as [He Hg]. rewrite run_bind, He. cbn [negb]. rewrite run_bind, Hg.
    destruct (run_admit fd c l (r0 <| pending_bytes := leftover |> <| total_bytes := zlen content |>)
      w (receiving fd c l w0)) as (id & t & w2 & Hrun & Had); try done.
    eexists _, w2. split; [exact Hrun|]. split; [by exists id, t|done].
  - destruct (run_admit fd c l (r0 <| pending_bytes := leftover |>) w (receiving fd c l w0))
      as (id & t & w2 & Hrun & Had); try done.
    eexists _, w2. split; [exact Hrun|]. split; [|done]. exists id, t. by destruct r0.
Qed.

(** ** Both sides *)

Context (s : Scheduler) (p : Z) (Hs : wf_scheduler s) (Hp : 0 < p < 2 ^ 31).

(** A parser turn and then some worker turns lead from [w] to [w2]. *)
Definition serves (w w2 : world) : Prop :=
  exists w1 k, run (parser_turn dir) w = Done true w1 /\ run_turns dir s p k w1 = Some w2.

(** The server has closed the connection after it sent [answer] on it. *)
Definition answered (fd : Z) (answer : bytes) (w w2 : world) : Prop :=
  exists c, closed_socks w2 = (fd, c) :: closed_socks w /\ sent c = answer.

Lemma word_without_newline name : is_word name -> newline ∉ name.
Proof. intros [_ H] Hin. rewrite Forall_forall in H. by apply H in Hin. Qed.

(** The header that the client sends, as a line. *)
Lemma get_request_line name :
  is_word name -> zlen name < 8000 ->
  exists text, get_request name = text ++ [newline] /\ (newline ∉ text) /\ zlen text < 8192.
Proof.
  intros Hn%word_without_newline Hl. exists (str "GET " ++ name). unfold get_request.
  rewrite not_elem_of_app, zlen_app. change (zlen (str "GET ")) with 4.
  split_and!; [by rewrite app_assoc| |done|lia].
  by apply (bool_decide_eq_true_1 _); vm_compute.
Qed.

Lemma put_request_line name n :
  is_word name -> zlen name < 8000 -> is_u64 n ->
  exists text, put_request name n = text ++ [newline] /\ (newline ∉ text) /\ zlen text < 8192.
Proof.
  intros Hn%word_without_newline Hl Hu.
  pose proof (word_without_newline _ (to_string_is_word n Hu)) as Hd.
  pose proof (to_string_length n).
  exists (str "PUT " ++ name ++ str " " ++ to_string n). unfold put_request.
  rewrite !not_elem_of_app, !zlen_app. change (zlen (str "PUT ")) with 4. change (zlen (str " ")) with 1.
  split_and!; [by rewrite <- !app_assoc| |done| |done|lia];
    by apply (bool_decide_eq_true_1 _); vm_compute.
Qed.

Lemma serve_download fd c name body w :
  waiting fd c w -> steady (rx c) -> arrived (rx c) = get_request name ->
  is_word name -> is_valid_filename name = true -> zlen name < 8000 ->
  files w !! path_in dir name = Some (File body) -> zlen body < 2 ^ 62 -> quantum_ s < 2 ^ 63 ->
  exists w2, serves w w2 /\ answered fd (ok_line (zlen body) ++ body) w w2 /\ files w2 = files w.
Proof.
  intros Hw Hst Ha Hword Hname Hlen Hfile Hsmall Hq.
  pose proof Hw as [[Hfd Hnl] _ _ Hc Htx Hfresh _ _]. pose proof (zlen_nonneg body).
  destruct (get_request_line name Hword Hlen) as (text & Et & Htext & Htl).
  rewrite Et in Ha. pose proof (parse_get_request name fd Hword) as Hparse. rewrite Et in Hparse.
  destruct (run_parser_turn fd c text [] _ w Hw Hst Ha Htext Htl Hparse)
    as (lo & l & r & w1 & Hrun & _ & _ & (id & t & ->) & [Q F Fl R C S]); try done.
  { intros _. exists body. split; [done|]. unfold is_u64. lia. }
  cbn in Q, S. rewrite Hfile in *. cbn [node_size] in *.
  match type of Q with _ = RequestQueue.mk [?r0] _ _ => set (r := r0) in * end.
  assert (Hga : get_alone dir s r body w1).
  { split; [|done|done| |split; [cbn; lia|split; [cbn; lia|by vm_compute]]|].
    - split; [done|by rewrite F|done|done|cbn; lia|done|].
      exists (set_rx l c). by rewrite S, lookup_insert_eq.
    - unfold alone. by rewrite Q.
    - intros _. cbn. destruct Hs as [[? ?] _]. lia. }
  destruct (run_turns_get dir s p Hs Hp (Z.to_nat (zlen body * (zlen body + 1) + zlen body)) r body w1 Hga)
    as (k & w2 & Hk & [F2 _ _ (c' & t' & Hc' & _ & C2)]); try done.
  { change (total_bytes r) with (zlen body). change (offset r) with 0. change (deficit r) with 0.
    rewrite Z2Nat.id; nia. }
  rewrite S, lookup_insert_eq in Hc'. simplify_eq.
  exists w2. split; [by exists w1, k|]. split; [|by rewrite F2].
  eexists. split; [rewrite C2, C; done|]. cbn. rewrite Hfresh. by rewrite zdrop_0 by done.
Qed.

(** C1: a download from end to end. The request that [get_file] sends is parsed,
    admitted and served; the bytes that the server sends in answer, received by
    the client in any blocks, become a local file that is the file of the server,
    and [get_file] exits with status 0. The files of the server are unchanged. *)
Theorem download_end_to_end socket_ inet_pton connect_ cfg name body fd c ws sock cc wc wc1 :
  waiting fd c ws -> steady (rx c) -> arrived (rx c) = get_request name ->
  is_word name -> is_valid_filename name = true -> zlen name < 8000 ->
  files ws !! path_in dir name = Some (File body) -> zlen body < 2 ^ 62 -> quantum_ s < 2 ^ 63 ->
  dialled socket_ inet_pton connect_ cfg sock cc wc wc1 -> steady (rx cc) ->
  (forall d, files wc !! name <> Some (Directory d)) ->
  let answer := ok_line (zlen body) ++ body in
  exists ws2, serves ws ws2 /\ answered fd answer ws ws2 /\ files ws2 = files ws /\
    (arrived (rx cc) = answer ->
     exists wc2, run (get_file socket_ inet_pton connect_ cfg name true) wc = Done 0 wc2 /\
       files wc2 = <[name := File body]> (files wc) /\ hung_up sock (get_request name) wc1 wc2).
Proof.
  intros Hw Hst Ha Hword Hname Hlen Hfile Hsmall Hq Hd Hcc Hnd answer.
  destruct (serve_download fd c name body ws) as (ws2 & Hserve & Hans & F); try done.
  exists ws2. split_and!; try done. intros Harr.
  eapply (run_get_file _ _ _ cfg name sock cc body []); try done.
  - by rewrite app_nil_r.
  - unfold get_request. rewrite !zlen_app. change (zlen (str "GET ")) with 4.
    change (zlen [newline]) with 1. lia.
  - unfold max_file_size. lia.
Qed.

Lemma put_request_length name n : zlen (put_request name n) <= zlen name + 100.
Proof.
  unfold put_request. rewrite !zlen_app. change (zlen (str "PUT ")) with 4.
  change (zlen (str " ")) with 1. change (zlen [newline]) with 1.
  pose proof (to_string_length n). lia.
Qed.

(** A name that the server accepts is one that [put_file] sends. *)
Lemma valid_wire_name name :
  is_valid_filename name = true -> name ∉ [[]; str "."; str ".."].
Proof.
  unfold is_valid_filename. intros H. rewrite !not_elem_of_cons.
  repeat case_match; to_prop; try done.
  split_and!; [by apply beq_false..|apply not_elem_of_nil].
Qed.

(** The upload [r] of [data] has been admitted and waits for a worker; [c1] is its
    connection. *)
Record upload_admitted (fd : Z) (name data : bytes) (r : Request) (c1 : sock) (w w1 : world) : Prop := {
  ua_alone : put_alone dir s r [] c1 w1;
  ua_steady : steady (rx c1);
  ua_stream : stream r c1 = data;
  ua_total : total_bytes r = zlen data;
  ua_offset : offset r = 0;
  ua_name : filename r = name;
  ua_fd : client_fd r = fd;
  ua_sent : sent c1 = [];
  ua_files : files w1 = files w;
  ua_closed : closed_socks w1 = closed_socks w
}.

Lemma admit_upload fd c name data w :
  waiting fd c w -> steady (rx c) -> arrived (rx c) = put_request name (zlen data) ++ data ->
  is_word name -> is_valid_filename name = true -> zlen name < 8000 ->
  zlen data <= max_file_size ->
  (forall n d, files w !! path_in dir n <> Some (Directory d)) ->
  exists r c1 w1, run (parser_turn dir) w = Done true w1 /\ upload_admitted fd name data r c1 w w1.
Proof.
  intros Hw Hst Ha Hword Hname Hlen Hsmall Hnd.
  pose proof Hw as [[Hfd Hnl] _ _ Hc Htx Hfresh _ _]. pose proof (zlen_nonneg data).
  assert (Hu : is_u64 (zlen data)) by (unfold is_u64, max_file_size in *; lia).
  destruct (put_request_line name (zlen data) Hword Hlen Hu) as (text & Et & Htext & Htl).
  rewrite Et, <- app_assoc in Ha. cbn [app] in Ha.
  pose proof (parse_put_request name (zlen data) fd Hword Hu) as Hparse. rewrite Et in Hparse.
  destruct (run_parser_turn fd c text data _ w Hw Hst Ha Htext Htl Hparse)
    as (lo & l & r & w1 & Hrun & Hdata & Hl & (id & t & ->) & [Q F Fl R C S]); try done.
  match type of Q with _ = RequestQueue.mk [?r0] _ _ => set (r := r0) in * end.
  change (client_fd r) with fd in S.
  assert (Hlo : zlen lo <= zlen data) by (rewrite Hdata; list_lia).
  exists r, (set_rx l c), w1. split; [done|]. split; try done.
  2: { unfold stream, pending_left. change (pending_offset r) with 0.
    change (pending_bytes r) with lo. rewrite zdrop_0 by done. by rewrite Hdata. }
  split; try done.
  - unfold alone. by rewrite Q.
  - split; [cbn; lia|]. split; [unfold is_u64 in Hu; cbn; lia|by vm_compute].
  - intros _. cbn. destruct Hs as [[? ?] _]. lia.
  - unfold max_file_size in *. cbn. split; [split; [lia|apply zlen_nonneg]|lia].
  - split; [done|]. cbn. intros d. rewrite F. apply Hnd.
  - rewrite S, lookup_insert_eq. done.
Qed.

(** What the worker's last turn leaves behind, seen from before the parser's. *)
Lemma upload_outcome fd name data r c1 body w w1 w2 :
  upload_admitted fd name data r c1 w w1 -> body = data ->
  stored dir r ([] ++ body) (put_status r ++ ok_line 0) c1 w1 w2 ->
  answered fd (ok_line 0 ++ ok_line 0) w w2 /\
  files w2 !! path_in dir name = Some (File data) /\
  exists staging, forall other, other <> path_in dir name -> other <> path_in dir staging ->
    files w2 !! other = files w !! other.
Proof.
  intros [_ _ _ _ Ho Hn Hfd Hsent F C] -> [F2 _ _ _ (c' & C2 & S2)]. cbn [app] in F2.
  rewrite Hn in F2. unfold put_status in S2. rewrite Ho, Hsent in S2. split_and!.
  - exists c'. by rewrite C2, C, Hfd.
  - by rewrite F2, lookup_insert_eq.
  - exists (staging_name r). intros other H1 H2.
    rewrite F2, lookup_insert_ne, lookup_delete_ne, F by done. done.
Qed.

Lemma serve_upload fd c name data w :
  waiting fd c w -> steady (rx c) -> arrived (rx c) = put_request name (zlen data) ++ data ->
  is_word name -> is_valid_filename name = true -> zlen name < 8000 ->
  zlen data <= max_file_size ->
  (forall n d, files w !! path_in dir n <> Some (Directory d)) ->
  exists w2, serves w w2 /\ answered fd (ok_line 0 ++ ok_line 0) w w2 /\
    files w2 !! path_in dir name = Some (File data) /\
    exists staging, forall other, other <> path_in dir name -> other <> path_in dir staging ->
      files w2 !! other = files w !! other.
Proof.
  intros Hw Hst Ha Hword Hname Hlen Hsmall Hnd.
  destruct (admit_upload fd c name data w) as (r & c1 & w1 & Hrun & Hua); try done.
  pose proof Hua as [Hpa Hst1 Hstream Htot Hoff _ _ _ F _].
  assert (E : ztake (total_bytes r - offset r) (stream r c1) = data).
  { rewrite Hstream, Htot, Hoff, ztake_all; [done|lia]. }
  destruct (run_turns_put dir s p Hs (Z.to_nat (zlen data)) r [] c1 w1 Hpa)
    as (k & w2 & Hk & Hstored); try done; try lia.
  { rewrite Hstream. lia. }
  { intros d. rewrite F. apply Hnd. }
  exists w2. split; [by exists w1, k|]. by eapply upload_outcome.
Qed.

(** C2: an upload from end to end. What [put_file] sends for a file is what the
    server needs to store it, and what the server answers is what [put_file]
    expects: the file that the server then has under that name is the local file,
    and [put_file] exits with status 0 when the two answers arrive one after the
    other. No file but that one and a staging file changes. *)
Theorem upload_end_to_end socket_ inet_pton connect_ directory_tellg cfg path data fd c ws sock cc l1 l2 wc wc1 :
  let name := path_filename path in
  waiting fd c ws -> steady (rx c) -> arrived (rx c) = put_request name (zlen data) ++ data ->
  is_word name -> is_valid_filename name = true -> zlen name < 8000 ->
  zlen data <= max_file_size ->
  (forall n d, files ws !! path_in dir n <> Some (Directory d)) ->
  files wc !! path = Some (File data) -> faults wc = [] ->
  dialled socket_ inet_pton connect_ cfg sock cc wc wc1 -> rx cc = l1 ++ l2 ->
  steady l1 -> steady l2 -> arrived l1 = ok_line 0 ->
  let answer := ok_line 0 ++ ok_line 0 in
  exists ws2, serves ws ws2 /\ answered fd answer ws ws2 /\
    files ws2 !! path_in dir name = Some (File data) /\
    (exists staging, forall other, other <> path_in dir name -> other <> path_in dir staging ->
       files ws2 !! other = files ws !! other) /\
    (arrived (rx cc) = answer ->
     exists wc2, run (put_file socket_ inet_pton connect_ directory_tellg cfg path) wc = Done 0 wc2 /\
       files wc2 = files wc /\ hung_up sock (put_request name (zlen data) ++ data) wc1 wc2).
Proof.
  intros name Hw Hst Ha Hword Hname Hlen Hsmall Hnd Hfile Hf Hd Hrx Hl1 Hl2 Ha1 answer.
  destruct (serve_upload fd c name data ws) as (ws2 & Hserve & Hans & Hstored & Hother); try done.
  exists ws2. split_and!; try done. intros Harr.
  rewrite Hrx, arrived_steady_app, Ha1 in Harr by done. apply app_inv_head in Harr.
  eapply (run_put_file _ _ _ _ cfg path data sock cc l1 l2 []); try done.
  - unfold max_file_size, string_max_size in *. lia.
  - by apply valid_wire_name.
  - fold name. pose proof (put_request_length name (zlen data)). lia.
Qed.

(** C20: an upload of an empty file can be reported as failed although it succeeds.
    When the header of an empty upload has arrived and nothing else, one turn of a
    parser and one turn of a worker send both answers, the one that invites the body
    and the one that confirms it, store the empty file under its name, and close the
    connection.  When the two answers reach [put_file] in
    one block, it takes the second for the leftover of the first, drops it, finds
    the connection ended and exits with status 1. *)
Theorem empty_upload_reported_as_failed socket_ inet_pton connect_ directory_tellg cfg path
    fd c ws sock cc wc wc1 :
  let name := path_filename path in
  waiting fd c ws -> steady (rx c) -> arrived (rx c) = put_request name 0 ->
  is_word name -> is_valid_filename name = true -> zlen name < 8000 ->
  (forall n d, files ws !! path_in dir n <> Some (Directory d)) ->
  files wc !! path = Some (File []) -> faults wc = [] ->
  dialled socket_ inet_pton connect_ cfg sock cc wc wc1 ->
  let answer := ok_line 0 ++ ok_line 0 in
  exists ws1 ws2,
    run (parser_turn dir) ws = Done true ws1 /\ run (worker_turn dir s p) ws1 = Done true ws2 /\
    answered fd answer ws ws2 /\ files ws2 !! path_in dir name = Some (File []) /\
    (rx cc = [Arrive answer] ->
     exists wc2, run (put_file socket_ inet_pton connect_ directory_tellg cfg path) wc = Done 1 wc2 /\
       files wc2 = files wc /\ hung_up sock (put_request name 0) wc1 wc2).
Proof.
  intros name Hw Hst Ha Hword Hname Hlen Hnd Hfile Hf Hd answer.
  destruct (admit_upload fd c name [] ws) as (r & c1 & ws1 & Hrun & Hua); try done.
  { rewrite app_nil_r. exact Ha. }
  pose proof Hua as [Hpa Hst1 Hstream Htot Hoff _ _ _ F _]. change (zlen []) with 0 in Htot.
  destruct (worker_turn_put_last dir s p Hs r [] c1 ws1 Hpa Hst1) as (ws2 & Hturn & Hstored).
  { rewrite Hstream, Htot, Hoff. done. }
  { rewrite (wanted_done s r (pa_wf _ _ _ _ _ _ Hpa)); lia. }
  { intros d. rewrite F. apply Hnd. }
  exists ws1, ws2. split; [done|]. split; [done|].
  rewrite Hstream, Htot, Hoff in Hstored.
  destruct (upload_outcome fd name [] r c1 [] ws ws1 ws2 Hua eq_refl Hstored) as (Hans & Hfile2 & _).
  split; [done|]. split; [done|]. intros Hrx.
  eapply (run_put_file_empty _ _ _ _ cfg path sock cc); try done.
  - by apply valid_wire_name.
  - fold name. pose proof (put_request_length name 0). lia.
Qed.

End served.

(** ** A concrete download and a concrete upload *)

(** A server with the file a of two lines, on which one connection waits. *)
Definition sample_server (blocks : list bytes) : world :=
  (sample_files (sample_conn blocks)) <| fd_queue := FdQueue.mk [4] false |>.

Lemma sample_waiting blocks : waiting 4 (sample_sock blocks) (sample_server blocks).
Proof.
  split; try done. apply not_elem_of_cons. split; [done|apply not_elem_of_nil].
Qed.

Lemma sample_no_directory blocks n d :
  files (sample_server blocks) !! path_in (str "d") n <> Some (Directory d).
Proof.
  change (files (sample_server blocks)) with ({[str "d/a" := File two_lines]} : gmap bytes node).
  by intros [_ ?]%lookup_singleton_Some.
Qed.

Lemma download_witness :
  let blocks := [str "GET "; str "a" ++ [newline]] in
  let answer := [Arrive (str "OK 7" ++ [newline] ++ str "on");
                 Arrive (str "e" ++ [newline] ++ str "two")] in
  exists ws2 wc2,
    serves (str "d") drr4 1 (sample_server blocks) ws2 /\
    answered 4 (arrived answer) (sample_server blocks) ws2 /\
    run (get_file (Ret 5) (fun _ => Ret 1) (fun _ _ _ => Ret 0) (sample_config 9000) (str "a") true)
      (sample_client (str "old") [] answer) = Done 0 wc2 /\
    files wc2 = <[str "a" := File two_lines]> {[str "old" := File []]}.
Proof.
  intros blocks answer.
  destruct (download_end_to_end (str "d") drr4 1 ltac:(by vm_compute) ltac:(done)
    (Ret 5) (fun _ => Ret 1) (fun _ _ _ => Ret 0) (sample_config 9000) (str "a") two_lines
    4 (sample_sock blocks) (sample_server blocks) 5 (mkSock answer [Accept 3] [])
    (sample_client (str "old") [] answer) (sample_client (str "old") [] answer))
    as (ws2 & Hserves & Hans & _ & Hclient);
    try done; try apply sample_waiting; try apply sample_dialled; try (by repeat constructor).
  destruct Hclient as (wc2 & H1 & H2 & _); [done|].
  exists ws2, wc2. split; [exact Hserves|]. split; [exact Hans|]. split; [exact H1|exact H2].
Defined.

Lemma upload_witness :
  let blocks := [str "PUT e 5"; [newline] ++ str "hel"; str "lo"] in
  let answers := [Arrive (str "OK 0" ++ [newline]); Arrive (str "OK"); Arrive (str " 0" ++ [newline])] in
  exists ws2 wc2,
    serves (str "d") drr4 1 (sample_server blocks) ws2 /\
    answered 4 (arrived answers) (sample_server blocks) ws2 /\
    files ws2 !! str "d/e" = Some (File (str "hello")) /\
    run (put_file (Ret 5) (fun _ => Ret 1) (fun _ _ _ => Ret 0) (fun _ => -1) (sample_config 9000) (str "x/e"))
      (sample_client (str "x/e") (str "hello") answers) = Done 0 wc2.
Proof.
  intros blocks answers.
  destruct (upload_end_to_end (str "d") drr4 1 ltac:(by vm_compute)
    (Ret 5) (fun _ => Ret 1) (fun _ _ _ => Ret 0) (fun _ => -1) (sample_config 9000) (str "x/e") (str "hello")
    4 (sample_sock blocks) (sample_server blocks) 5 (mkSock answers [Accept 3] [])
    [Arrive (str "OK 0" ++ [newline])] [Arrive (str "OK"); Arrive (str " 0" ++ [newline])]
    (sample_client (str "x/e") (str "hello") answers) (sample_client (str "x/e") (str "hello") answers))
    as (ws2 & Hserves & Hans & Hfile & _ & Hclient);
    try done; try apply sample_waiting; try apply sample_dialled; try (by repeat constructor).
  - apply sample_no_directory.
  - destruct Hclient as (wc2 & H1 & _); [done|].
    exists ws2, wc2. split; [exact Hserves|]. split; [exact Hans|]. split; [exact Hfile|exact H1].
Defined.

Lemma empty_upload_witness :
  let blocks := [str "PUT e 0"; [newline]] in
  let answer := ok_line 0 ++ ok_line 0 in
  exists ws1 ws2 wc2,
    run (parser_turn (str "d")) (sample_server blocks) = Done true ws1 /\
    run (worker_turn (str "d") drr4 1) ws1 = Done true ws2 /\
    answered 4 answer (sample_server blocks) ws2 /\
    files ws2 !! str "d/e" = Some (File []) /\
    run (put_file (Ret 5) (fun _ => Ret 1) (fun _ _ _ => Ret 0) (fun _ => -1) (sample_config 9000) (str "x/e"))
      (sample_client (str "x/e") [] [Arrive answer]) = Done 1 wc2.
Proof.
  intros blocks answer.
  destruct (empty_upload_reported_as_failed (str "d") drr4 1 ltac:(by vm_compute)
    (Ret 5) (fun _ => Ret 1) (fun _ _ _ => Ret 0) (fun _ => -1) (sample_config 9000) (str "x/e")
    4 (sample_sock blocks) (sample_server blocks) 5 (mkSock [Arrive answer] [Accept 3] [])
    (sample_client (str "x/e") [] [Arrive answer]) (sample_client (str "x/e") [] [Arrive answer]))
    as (ws1 & ws2 & Hparse & Hwork & Hans & Hfile & Hclient);
    try done; try apply sample_waiting; try apply sample_dialled; try (by repeat constructor).
  - apply sample_no_directory.
  - destruct Hclient as (wc2 & H1 & _); [done|].
    exists ws1, ws2, wc2. split; [exact Hparse|]. split; [exact Hwork|]. split; [exact Hans|].
    split; [exact Hfile|exact H1].
Defined.
