(* ===== verification/Ownership.v ===== *)
(** The discipline that every thread keeps with the resources of the server.

    A connection is owned by one thread at a time: by the acceptor or a parser
    between taking it and passing it on, by a worker during a round.  A worker
    also owns the staging file of the upload that it serves.  [own_step] says
    what the owner may do: use the connection, hand it over through the queue
    that its kind of thread feeds, write to the staging file, commit it, end the
    round ([requeue] or [complete]) and close the connection, once.

    [possible] is the rely side, what the operating system and the queues may
    answer; [own_step] is the guarantee side.  The theorem says that the bodies
    of the three loops keep to the discipline and end, whatever is answered; the
    file System shows that together they establish what they rely on. *)

From S2P Require Import Prelude Text Queue Scheduling Metrics Effects FileIO Socket Protocol.
From S2P Require Import Server Threads.

Local Open Scope Z_scope.

(** ** The discipline *)

(** The loops a thread can be in. *)
Inductive role := Acceptor | Parser | Worker.

#[export] Instance role_eq_dec : EqDecision role.
Proof. solve_decision. Defined.

(** What identifies a request during its life. *)
Record job := mkJob {
  job_fd : Z;
  job_id : Z;
  job_op : Operation;
  job_name : bytes
}.

#[export] Instance job_eq_dec : EqDecision job.
Proof. solve_decision. Defined.

Definition job_of (r : Request) : job := mkJob (client_fd r) (request_id r) (op r) (filename r).

(** [staging_name] of the job. *)
Definition job_staging (j : job) : bytes :=
  job_name j ++ str ".upload." ++ to_string_int (job_id j).

Inductive own :=
  | Idle                  (* owns nothing *)
  | Holding (fd : Z) (id : option Z)
      (* between [accept] or the pop of a descriptor and its hand-over; the id is
         the one that was drawn for the request *)
  | Serving (j : job)   (* between the pop of a request and the end of the round *)
  | Closing (fd : Z)    (* after [complete], before the close *)
  | Leaving.            (* owns nothing and has been told to leave the loop *)

#[export] Instance own_eq_dec : EqDecision own.
Proof. solve_decision. Defined.

Definition owned_fd (o : own) : list Z :=
  match o with
  | Idle | Leaving => []
  | Holding fd _ | Closing fd => [fd]
  | Serving j => [job_fd j]
  end.

(** The file in which the round of [r] stages its upload is its own. *)
Definition staged (r : Request) : Prop :=
  op r = PUT -> staging_filename r = job_staging (job_of r).

(** What holds of a request while it is served. *)
Record sound (r : Request) : Prop := {
  sound_fd : 0 <= client_fd r;
  sound_offset : 0 <= offset r;
  sound_name : is_valid_filename (filename r) = true;
  sound_pending : zlen (pending_bytes r) < 2 ^ 32;
  sound_size : op r = GET -> total_bytes r <= max_file_size;
  sound_staging : staging_filename r = [] \/
    (op r = PUT /\ staging_filename r = job_staging (job_of r))
}.

(** What holds of a request in the queue. *)
Definition request_ok (r : Request) : Prop := sound r /\ (offset r = 0 \/ staged r).

#[export] Instance staged_dec r : Decision (staged r).
Proof. unfold staged. apply _. Defined.

#[export] Instance sound_dec r : Decision (sound r).
Proof.
  refine (cast_if (decide (0 <= client_fd r /\ 0 <= offset r /\ is_valid_filename (filename r) = true /\
    zlen (pending_bytes r) < 2 ^ 32 /\ (op r = GET -> total_bytes r <= max_file_size) /\
    (staging_filename r = [] \/
     (op r = PUT /\ staging_filename r = job_staging (job_of r)))))).
  - abstract (destruct_and!; by constructor).
  - abstract (intros []; tauto).
Defined.

#[export] Instance request_ok_dec r : Decision (request_ok r).
Proof. unfold request_ok. apply _. Defined.

(** What a call may return. *)
Definition possible {A} (e : event A) : A -> Prop :=
  match e in event A return A -> Prop with
  | Recv _ size => fun r =>
      match r with Received bs => 0 <= size -> zlen bs <= size | RecvError => True end
  | Send _ data => fun n => data <> [] -> n < 0 \/ 0 < n <= zlen data
  | Stat _ => fun st => match st with Some size => 0 <= size <= max_file_size | None => True end
  | OpenRead _ => fun n =>
      match n with Some (File c) => zlen c <= max_file_size | _ => True end
  | FdWaitPop => fun o => match o with Some fd => 0 <= fd | None => True end
  | RqWaitPop => fun o => match o with Some r => request_ok r | None => True end
  | RqWaitPopBest _ => fun o => match o with Some r => request_ok r | None => True end
  | RqRequeue _ => fun b => b = true
  | _ => fun _ => True
  end.

Section discipline.
Context (dir : bytes) (ro : role).

(** The connection [fd] may be used. *)
Definition may_use (fd : Z) (o : own) : bool :=
  match o with Holding fd' _ => fd =? fd' | Serving j => fd =? job_fd j | _ => false end.

(** The file [path] may be written. *)
Definition may_write (path : bytes) (o : own) : bool :=
  match o with
  | Serving j =>
      op_eqb (job_op j) PUT && is_valid_filename (job_name j) &&
      beq path (path_in dir (job_staging j))
  | _ => false
  end.

(** What popping a request, or being told that there are no more, makes of [o]. *)
Definition popped (r : option Request) (o : own) : option own :=
  match ro, o, r with
  | Worker, Idle, Some r => Some (Serving (job_of r))
  | Worker, Idle, None => Some Leaving
  | _, _, _ => None
  end.

Definition own_step {A} (e : event A) : A -> own -> option own :=
  match e in event A return A -> own -> option own with
  | AcceptFd _ => fun fd o =>
      match ro, o with
      | Acceptor, Idle => Some (if fd <? 0 then Idle else Holding fd None)
      | _, _ => None
      end
  | FdWaitPop => fun r o =>
      match ro, o, r with
      | Parser, Idle, Some fd => Some (Holding fd None)
      | Parser, Idle, None => Some Leaving
      | _, _, _ => None
      end
  | FdPush fd => fun (b : bool) o =>
      match ro, o with
      | Acceptor, Holding fd' _ => if fd =? fd' then Some (if b then Idle else o) else None
      | _, _ => None
      end
  | FdClose => fun _ o => match ro, o with Acceptor, Idle => Some Leaving | _, _ => None end
  | RqPush r => fun (b : bool) o =>
      match ro, o with
      | Parser, Holding fd (Some id) =>
          if decide (client_fd r = fd /\ request_id r = id /\ request_ok r) then Some (if b then Idle else o) else None
      | _, _ => None
      end
  | FetchAddRequestId => fun id o =>
      match ro, o with Parser, Holding fd None => Some (Holding fd (Some id)) | _, _ => None end
  | RqWaitPop => popped
  | RqWaitPopBest _ => popped
  | RqRequeue r => fun _ o =>
      match o with
      | Serving j => if decide (job_of r = j /\ request_ok r) then Some Idle else None
      | _ => None
      end
  | RqComplete => fun _ o => match o with Serving j => Some (Closing (job_fd j)) | _ => None end
  | RecordMetrics r => fun _ o =>
      match o with Serving j => if decide (job_of r = j) then Some o else None | _ => None end
  | CloseFd fd => fun _ o =>
      match o with
      | Holding fd' _ | Closing fd' => if fd =? fd' then Some Idle else None
      | _ => None
      end
  | Send fd _ => fun _ o => if may_use fd o then Some o else None
  | Recv fd _ => fun _ o => if may_use fd o then Some o else None
  | Select fd _ => fun _ o => if (fd =? listen_socket) || may_use fd o then Some o else None
  | OpenTrunc path => fun _ o => if may_write path o then Some o else None
  | OpenUpdate path => fun _ o => if may_write path o then Some o else None
  | WriteAt path _ _ => fun _ o => if may_write path o then Some o else None
  | Remove path => fun _ o => if may_write path o then Some o else None
  | Rename from to => fun _ o =>
      match o with
      | Serving j => if may_write from o && beq to (path_in dir (job_name j)) then Some o else None
      | _ => None
      end
  | RqClose => fun _ _ => None
  | _ => fun _ o => Some o
  end.

End discipline.

(** A program that ends in ownership state [Q r]. *)
Abbreviation keeps dir ro := (follows (fun _ e => possible e) (fun _ e => own_step dir ro e)).

(** A call, then the rest. *)
Ltac own_call := apply follows_call; intros ? ?; cbn [own_step].

Lemma may_use_serving r : may_use (client_fd r) (Serving (job_of r)) = true.
Proof. apply Z.eqb_refl. Qed.

Lemma may_write_serving dir r :
  sound r -> op r = PUT -> staging_filename r = job_staging (job_of r) ->
  may_write dir (path_in dir (staging_filename r)) (Serving (job_of r)) = true.
Proof.
  intros [] Hop ->. cbn [may_write job_op job_name job_of]. rewrite Hop, sound_name0.
  by apply beq_spec.
Qed.

Section programs.
Context (dir : bytes) (ro : role).

(** ** Programs that only use the connection *)

Section use.
Context (fd : Z) (o : own) (Huse : may_use fd o = true).

Lemma keeps_send_all_loop fuel data n :
  0 <= n <= zlen data -> zlen data < 2 ^ 64 -> zlen data - n < Z.of_nat fuel ->
  keeps dir ro (fun _ o' => o' = o) (send_all_loop fuel fd data n) o.
Proof.
  intros Hn Hd. revert n Hn. induction fuel as [|fuel IH]; intros n Hn Hfuel; [lia|].
  cbn [send_all_loop]. destruct (Z.ltb_spec n (zlen data)); [|done].
  own_call. rewrite Huse. destruct (Z.ltb_spec a 0); [done|].
  pose proof (zlen_zdrop n data ltac:(lia)). destruct H0; [|lia|].
  { intros E. rewrite E in *. list_lia. }
  rewrite u64_small by word. apply IH; lia.
Qed.

Lemma keeps_send_all data :
  zlen data < 2 ^ 64 -> keeps dir ro (fun _ o' => o' = o) (send_all fd data) o.
Proof. intros. apply keeps_send_all_loop; [list_lia|done|unfold zlen; lia]. Qed.

Lemma keeps_send_response n : keeps dir ro (fun _ o' => o' = o) (send_response fd n) o.
Proof.
  unfold send_response. pose proof (ok_line_length n).
  eapply follows_bind_mono; [apply keeps_send_all; lia|]. by intros ? ? ->.
Qed.

Lemma keeps_send_error e :
  zlen e < 2 ^ 63 -> keeps dir ro (fun _ o' => o' = o) (send_error fd e) o.
Proof.
  intros He. unfold send_error. eapply follows_bind_mono; [apply keeps_send_all|by intros ? ? ->].
  unfold err_line. rewrite !zlen_app. change (zlen (str "ERR ")) with 4.
  change (zlen [newline]) with 1. lia.
Qed.

Lemma keeps_recv size ms :
  keeps dir ro (fun r o' => o' = o /\ match r with Received bs => 0 <= size -> zlen bs <= size
                                    | RecvError => True end)
    (recv_data_with_timeout fd size ms) o.
Proof.
  unfold recv_data_with_timeout. own_call. rewrite Huse, orb_true_r.
  destruct (_ <? 0); [done|]. destruct (_ =? 0); [done|].
  intros r Hr. cbn [own_step]. by rewrite Huse.
Qed.

Lemma scan_header_length line block :
  zlen (scan_header line block).1 <= zlen line + zlen block /\
  match (scan_header line block).2 with
  | Some rest => zlen rest <= zlen block
  | None => zlen (scan_header line block).1 = zlen line + zlen block
  end.
Proof.
  revert line. induction block as [|c block IH]; intros line; simpl; [list_lia|].
  case_decide; [simpl; list_lia|]. specialize (IH (line ++ [c])).
  destruct (scan_header _ _) as [l [rest|]]; simpl in *; list_lia.
Qed.

(** Sizes of a header line and of what was read with it. *)
Definition header_sizes (h : bytes * bytes) (o' : own) : Prop :=
  o' = o /\ zlen h.1 <= 12288 /\ zlen h.2 <= 4096.

Lemma keeps_read_header_loop fuel deadline line :
  zlen line <= 12288 -> 8192 - zlen line < Z.of_nat fuel ->
  keeps dir ro header_sizes (read_header_loop fuel fd deadline line) o.
Proof.
  revert line. induction fuel as [|fuel IH]; intros line Hl Hfuel; cbn [read_header_loop];
    destruct (Z.ltb_spec (zlen line) 8192); try done; [lia|].
  own_call. destruct (deadline <=? _); [done|].
  eapply follows_bind_mono; [apply keeps_recv|]. intros r o' [-> Hr].
  destruct r as [|[|c bs]]; [done..|]. specialize (Hr ltac:(lia)).
  pose proof (scan_header_length line (c :: bs)) as Hs.
  destruct (scan_header line (c :: bs)) as [l [left|]]; cbn [fst snd] in Hs.
  - cbn [follows]. split_and!; simpl; (done || lia).
  - apply IH; list_lia.
Qed.

Lemma keeps_read_header_line ms : keeps dir ro header_sizes (read_header_line fd ms) o.
Proof.
  unfold read_header_line. own_call. apply keeps_read_header_loop; [done|].
  rewrite zlen_nil. lia.
Qed.

End use.

(** ** Programs that do not touch connections *)

Lemma keeps_monotonic_ns o : keeps dir ro (fun _ o' => o' = o) monotonic_ns o.
Proof. unfold monotonic_ns. by own_call. Qed.

Lemma keeps_file_exists path o : keeps dir ro (fun _ o' => o' = o) (file_exists path) o.
Proof. unfold file_exists. by own_call. Qed.

Lemma keeps_get_file_size path o :
  keeps dir ro (fun n o' => o' = o /\ 0 <= n <= max_file_size) (get_file_size path) o.
Proof.
  unfold get_file_size. own_call. destruct a as [n|]; simpl in *; unfold max_file_size in *.
  - split; [done|]. rewrite u64_small; word.
  - split; [done|lia].
Qed.

(** The position and the size of an open file. *)
Lemma keeps_if_open path o :
  keeps dir ro (fun file o' => o' = o /\ match file with
      | Some s => match if_content s with Some c => zlen c <= max_file_size | None => True end
      | None => True end) (if_open path) o.
Proof. unfold if_open. own_call. by destruct a as [[c|n]|]. Qed.

Lemma if_getline_length s :
  if_failed (if_getline s).2 = false ->
  match if_content s with
  | None => False
  | Some c =>
      let line := (if_getline s).1 in
      0 < zlen (if negb (if_eof (if_getline s).2) then line ++ [newline] else line) <= zlen c
  end.
Proof.
  unfold if_getline, if_failed. destruct (negb (if_good s)) eqn:G; [done|].
  destruct (if_content s) as [c|]; [|field_simpl; by rewrite orb_true_r].
  assert (if_eof s = false) as E.
  { apply negb_false_iff in G. unfold if_good in G. by destruct (if_eof s). }
  pose proof (first_line_length (zdrop (if_pos s) c)) as H1.
  pose proof (first_line_nonempty (zdrop (if_pos s) c)) as H2.
  assert (zlen (zdrop (if_pos s) c) <= zlen c).
  { rewrite <- (ztake_zdrop (if_pos s) c) at 2. list_lia. }
  pose proof (split_line_spec (zdrop (if_pos s) c)) as H3. unfold first_line in *.
  destruct (split_line (zdrop (if_pos s) c)) as [l [|]]; field_simpl.
  - rewrite E. cbn [negb]. destruct H3 as (rest & E' & _).
    intros _. split; [|lia]. apply H2. rewrite E'. by destruct l.
  - destruct (beq l []) eqn:El; field_simpl; [done|]. intros _. split; [|lia].
    apply H2. destruct H3 as [-> _]. intros ->. done.
Qed.

Lemma keeps_read_file_line path offset o :
  keeps dir ro (fun r o' => o' = o /\ match r with
      | Some (_, line) => 0 < zlen line <= max_file_size | None => True end)
    (read_file_line path offset) o.
Proof.
  unfold read_file_line. eapply follows_bind_mono; [apply keeps_if_open|]. intros file o' [-> Hs].
  destruct file as [file|]; [|done]. cbv zeta. destruct (negb _); [done|].
  pose proof (if_getline_length (if_seekg (i64 offset) file)) as Hg.
  assert (if_content (if_seekg (i64 offset) file) = if_content file) as E.
  { unfold if_seekg. repeat case_match; done. }
  rewrite E in Hg.
  destruct (if_getline _) as [line file']. cbn [fst snd] in Hg.
  destruct (if_failed file') eqn:F; [done|]. specialize (Hg eq_refl).
  destruct (if_content file) as [c|]; [|done].
  assert (Hl : 0 < zlen (if negb (if_eof file') then line ++ [newline] else line) <= max_file_size)
    by lia.
  unfold if_tellg.
  set (file'' := if if_good file' then file' else file' <| if_fail := true |>).
  assert (if_eof file'' = if_eof file') as -> by (subst file''; by destruct (if_good file')).
  destruct (_ =? -1); [|done].
  eapply follows_bind_mono; [apply keeps_get_file_size|]. by intros ? ? [-> _].
Qed.

(** ** Rounds *)

(** A round keeps the identity of its request and goes on serving it; an upload
    whose round succeeded has its staging file. *)
Definition serving (r : Request) (res : served) (o : own) : Prop :=
  let '(ok, r', _) := res in
  job_of r' = job_of r /\ o = Serving (job_of r) /\ sound r' /\ (ok = true -> staged r').

Lemma keeps_fail_with r n reason :
  sound r -> zlen reason < 2 ^ 63 ->
  keeps dir ro (serving r) (fail_with r n reason) (Serving (job_of r)).
Proof.
  intros Hr Hl. unfold fail_with.
  eapply follows_bind_mono; [apply keeps_send_error; [apply may_use_serving|done]|].
  by intros ? ? ->.
Qed.

Lemma keeps_select_lines fuel path budget overrun offset n a14 o :
  budget < 2 ^ 63 -> 0 <= n < 2 ^ 63 -> budget - n < Z.of_nat fuel ->
  keeps dir ro (fun res o' => o' = o /\ 0 <= res.1 < 2 ^ 63)
    (select_lines fuel path budget overrun offset n a14) o.
Proof.
  intros Hb. revert offset n. induction fuel as [|fuel IH]; intros offset n Hn Hfuel;
    cbn [select_lines]; destruct (Z.ltb_spec n budget); try done; [lia|].
  eapply follows_bind_mono; [apply keeps_read_file_line|].
  intros [[off line]|] o' [-> Hl]; [|done]. cbv zeta. unfold max_file_size in Hl.
  destruct (_ && _); [destruct overrun; (split; [done|cbn [fst]; lia])|]. rewrite u64_small by word.
  destruct (Z.ltb_spec budget (n + zlen line)); [done|]. apply IH; lia.
Qed.

Lemma keeps_gather_packet fuel path p offset left k packet o :
  0 <= left < Z.of_nat fuel ->
  keeps dir ro (fun g o' => o' = o /\ match g with
      | inl reason => zlen reason < 2 ^ 63
      | inr (_, left', packet') =>
          0 <= left' <= left /\ zlen packet' = zlen packet + (left - left') /\
          (k < u64 p -> 0 < left -> left' < left)
      end) (gather_packet fuel path p offset left k packet) o.
Proof.
  revert offset left k packet. induction fuel as [|fuel IH]; intros offset left k packet Hl;
    [lia|]. cbn [gather_packet]. destruct ((k <? u64 p) && (0 <? left)) eqn:E.
  2: { split; [done|]. split_and!; [lia|lia|lia|]. intros H1 H2. apply andb_false_iff in E.
    destruct E as [E|E]; to_prop; lia. }
  eapply follows_bind_mono; [apply keeps_read_file_line|].
  intros [[off line]|] o' [-> Hline]; [|done]. cbv zeta.
  destruct (Z.ltb_spec left (zlen line)); [done|].
  eapply follows_mono; [|apply IH; lia]. intros [reason|[[off' left'] packet']] o'; [done|].
  intros (-> & H1 & H2 & _). rewrite zlen_app in H2. split_and!; (done || lia).
Qed.

Lemma keeps_send_packets fuel r path p offset left n :
  sound r -> staged r -> 0 < u64 p -> 0 <= left < 2 ^ 64 -> left < Z.of_nat fuel ->
  keeps dir ro (serving r) (send_packets fuel r path p offset left n) (Serving (job_of r)).
Proof.
  intros Hr Hst Hp. revert offset left n. induction fuel as [|fuel IH];
    intros offset left n Hl Hfuel; [lia|].
  cbn [send_packets]. destruct (Z.ltb_spec 0 left); [|done].
  eapply follows_bind_mono; [apply keeps_gather_packet; lia|].
  intros [reason|[[off left'] packet]] o' [-> Hg]; [by apply keeps_fail_with|].
  destruct Hg as (H1 & H2 & H3). rewrite zlen_nil in H2.
  eapply follows_bind_mono; [apply keeps_send_all; [apply may_use_serving|lia]|].
  intros ok o' ->. destruct ok; [apply IH; lia|done].
Qed.

Lemma keeps_serve_get_round r path budget overrun p :
  sound r -> op r = GET -> p < 2 ^ 31 ->
  keeps dir ro (serving r) (serve_get_round r path (total_bytes r) budget overrun p)
    (Serving (job_of r)).
Proof.
  intros Hr Hop Hp. assert (staged r) as Hst by (intros E; congruence).
  unfold serve_get_round.
  destruct ((total_bytes r <=? offset r) || (budget =? 0)) eqn:E0; [done|]. to_prop.
  destruct (Z.leb_spec p 0); [by apply keeps_fail_with|].
  pose proof (sound_offset r Hr) as Ho. pose proof (sound_size r Hr Hop) as Hsize.
  unfold max_file_size in Hsize. rewrite u64_small by word.
  eapply (follows_bind_mono _ _ (fun res o' => o' = Serving (job_of r) /\ 0 <= res.1 < 2 ^ 63)).
  { destruct (Z.leb_spec (total_bytes r - offset r) budget).
    - split; [done|]. simpl. lia.
    - apply keeps_select_lines; lia. }
  intros [n a14] o' [-> Hn]. cbn [fst] in Hn. cbv zeta.
  set (r' := r <| a14_events := a14 |>).
  assert (sound r') as Hr2 by (by destruct Hr; constructor).
  change (serving r) with (serving r'). change (job_of r) with (job_of r').
  destruct (Z.eqb_spec n 0); [done|].
  eapply follows_bind_mono; [apply keeps_if_open|]. intros file o' [-> _].
  destruct file as [file|]; [|by apply keeps_fail_with].
  destruct (negb _); [by apply keeps_fail_with|].
  apply keeps_send_packets; [done|done|rewrite u64_small; word|lia|lia].
Qed.

Lemma keeps_serve_get r fdir budget overrun p :
  sound r -> op r = GET -> p < 2 ^ 31 ->
  keeps dir ro (serving r) (serve_get r fdir budget overrun p) (Serving (job_of r)).
Proof.
  intros Hr Hop Hp. unfold serve_get. destruct (negb _); [by apply keeps_fail_with|]. cbv zeta.
  eapply follows_bind_mono; [apply keeps_file_exists|]. intros ex o' ->.
  destruct (negb ex); [by apply keeps_fail_with|].
  eapply (follows_bind_mono _ _ (fun r' o' => (r' = r \/ r' = r <| response_sent := true |>) /\
    o' = Serving (job_of r))).
  { destruct (negb _); [|by split; [left|]].
    eapply follows_bind_mono; [apply keeps_send_response, may_use_serving|].
    intros ? ? ->. by split; [right|]. }
  intros r' o' [[->| ->] ->]; [by apply keeps_serve_get_round|].
  set (r' := r <| response_sent := true |>). change (serving r) with (serving r').
  change (job_of r) with (job_of r'). change (total_bytes r) with (total_bytes r').
  apply keeps_serve_get_round; [|done..]. by destruct Hr; constructor.
Qed.

(** Bytes that came with the header are written in one turn of the loop. *)
Lemma keeps_write_pending fuel r pos left n :
  sound r -> staged r -> op r = PUT ->
  keeps dir ro (fun '(_, r', _, left', _) o =>
      job_of r' = job_of r /\ o = Serving (job_of r) /\ sound r' /\
      staging_filename r' = staging_filename r /\ left' <= left)
    (write_pending (S fuel) (path_in dir (staging_filename r)) r pos left n) (Serving (job_of r)).
Proof.
  intros Hr Hst Hop. cbn [write_pending]. destruct (_ && _) eqn:E; [|done]. to_prop. cbv zeta.
  own_call. rewrite may_write_serving by auto.
  set (chunk := Z.min left (zlen (pending_bytes r) - pending_offset r)) in *.
  destruct (negb _).
  { eapply follows_bind_mono; [by apply keeps_send_error; [apply may_use_serving|]|].
    by intros ? ? ->. }
  set (r' := r <| pending_offset := u64 (pending_offset r + chunk) |>).
  pose proof (sound_pending r Hr).
  assert ((0 <? left - chunk) && (pending_offset r' <? zlen (pending_bytes r')) = false) as Hstop.
  { apply andb_false_iff. destruct (Z.min_spec left (zlen (pending_bytes r) - pending_offset r))
      as [[? Hc]|[? Hc]]; fold chunk in Hc; rewrite Z.ltb_ge; [lia|right].
    subst r'. field_simpl. rewrite Hc, Z.ltb_ge. rewrite u64_small by word. lia. }
  assert (sound r') by (by destruct Hr; constructor).
  destruct fuel; cbn [write_pending]; rewrite Hstop; cbn [follows]; split_and!; (done || lia).
Qed.

Lemma keeps_receive_body fuel path r size pos left n :
  sound r -> staged r -> op r = PUT -> path = path_in dir (staging_filename r) ->
  (0 < left -> 0 < size) -> left < 2 ^ 64 -> left < Z.of_nat fuel ->
  keeps dir ro (serving r) (receive_body fuel path r size pos left n) (Serving (job_of r)).
Proof.
  intros Hr Hst Hop ->. revert pos left n. induction fuel as [|fuel IH];
    intros pos left n Hs Hl Hfuel; cbn [receive_body];
    destruct (Z.ltb_spec 0 left); try done; [lia|].
  cbv zeta. eapply follows_bind_mono; [apply keeps_recv, may_use_serving|]. intros res o' [-> Hres].
  destruct res as [|[|c bs]]; [by apply keeps_fail_with..|].
  own_call. rewrite may_write_serving by auto.
  destruct (negb _); [by apply keeps_fail_with|].
  assert (0 < zlen (c :: bs)) by list_lia. rewrite (u64_small (left - _)) by word.
  apply IH; lia.
Qed.

Lemma keeps_serve_put r budget :
  sound r -> op r = PUT -> offset r = 0 \/ staged r ->
  keeps dir ro (serving r) (serve_put r dir budget) (Serving (job_of r)).
Proof.
  intros Hr Hop Hok. unfold serve_put. destruct (negb _); [by apply keeps_fail_with|].
  set (r' := if offset r =? 0 then r <| staging_filename := staging_name r |> else r).
  assert (job_of r = job_of r' /\ sound r' /\ staged r' /\ op r' = PUT) as (Ej & Hr' & Hst & Hop').
  { subst r'. destruct (Z.eqb_spec (offset r) 0); [|by destruct Hok].
    split_and!; try done. by destruct Hr; constructor; try right. }
  unfold serving. rewrite Ej. fold (serving r'). clearbody r'. clear r Hr Hop Hok Ej.
  pose proof (Hst Hop') as Hname. cbv zeta.
  destruct (total_bytes r' =? 0).
  { own_call. by rewrite may_write_serving. }
  eapply (follows_bind_mono _ _ (fun _ o' => o' = Serving (job_of r'))).
  { destruct (offset r' =? 0); [|done]. intros ? _. cbn [own_step]. by rewrite may_write_serving. }
  intros created o' ->. destruct (negb created); [by apply keeps_fail_with|].
  own_call. rewrite may_write_serving by done.
  destruct (negb _); [by apply keeps_fail_with|].
  destruct (i64 _ <? 0); [by apply keeps_fail_with|].
  pose proof (u64_range (total_bytes r' - offset r')) as Hrem. unfold is_u64 in Hrem.
  eapply follows_bind_mono; [by apply keeps_write_pending|].
  intros [[[[ok r2] pos] left] n] o'. cbv beta iota. intros (E2 & -> & Hr2 & Es & Hleft).
  assert (staged r2) as Hst2.
  { intros _. by rewrite Es, E2. }
  unfold serving. rewrite <- E2. fold (serving r2).
  destruct (negb ok); [done|]. apply keeps_receive_body; try done; try lia.
  - injection E2 as _ _ E2 _. congruence.
  - by rewrite Es.
  - unfold CHUNK_SIZE. lia.
Qed.

Lemma keeps_transfer s p budget r :
  request_ok r -> p < 2 ^ 31 ->
  keeps dir ro (serving r) (transfer dir s p budget r) (Serving (job_of r)).
Proof.
  intros [Hr Hok] Hp. unfold transfer. destruct (op r) eqn:E; [by apply keeps_serve_get| |done].
  eapply (follows_bind_mono _ _ (fun _ o' => o' = Serving (job_of r))).
  { destruct (offset r =? 0); [apply keeps_send_response, may_use_serving|done]. }
  intros ? o' ->. by apply keeps_serve_put.
Qed.

End programs.

(** ** The bodies of the loops *)

(** At the end of a turn nothing is owned; the loop ends exactly when the thread
    was told to leave. *)
Definition all_returned (again : bool) (o : own) : Prop := o = if again then Idle else Leaving.

Section turns.
Context (dir : bytes).

Lemma keeps_close ro fd o :
  0 <= fd -> (exists id, o = Holding fd id) \/ o = Closing fd ->
  keeps dir ro all_returned (_ ← close_socket fd; Ret true) o.
Proof.
  intros Hfd Ho. unfold close_socket. rewrite (proj2 (Z.leb_le _ _) Hfd).
  own_call. destruct Ho as [[id ->] | ->]; by rewrite Z.eqb_refl.
Qed.

Lemma may_use_holding fd id : may_use fd (Holding fd id) = true.
Proof. apply Z.eqb_refl. Qed.

Lemma keeps_refuse ro fd id reason :
  0 <= fd -> zlen reason < 2 ^ 63 -> keeps dir ro all_returned (refuse fd reason) (Holding fd id).
Proof.
  intros Hfd Hl. unfold refuse.
  eapply follows_bind_mono; [apply keeps_send_error; [apply may_use_holding|done]|].
  intros ? ? ->. apply keeps_close; [done|by left; eexists].
Qed.

Lemma keeps_break_on_shutdown : keeps dir Acceptor all_returned break_on_shutdown Idle.
Proof.
  unfold break_on_shutdown. own_call. destruct (_ : bool); [|done].
  unfold acceptor_exit. by own_call.
Qed.

Lemma keeps_acceptor_turn :
  keeps dir Acceptor all_returned (acceptor_turn listen_socket) Idle.
Proof.
  unfold acceptor_turn. own_call. destruct (_ : bool).
  { unfold acceptor_exit. by own_call. }
  own_call. rewrite Z.eqb_refl. cbn [orb]. destruct (_ =? 0); [done|].
  destruct (_ <? 0); [apply keeps_break_on_shutdown|].
  unfold accept_connection. apply follows_bind. own_call.
  destruct (Z.ltb_spec a1 0) as [Hneg|Hpos].
  { cbn [follows Z.ltb]. destruct (Z.ltb_spec (-1) 0); [apply keeps_break_on_shutdown|lia]. }
  cbn [follows]. rewrite (proj2 (Z.ltb_ge _ _) Hpos).
  own_call. rewrite Z.eqb_refl. destruct a2; cbn [negb]; [done|].
  apply keeps_close; [done|by left; eexists].
Qed.

(** A request as the parser hands it over. *)
Lemma keeps_admit fd r :
  client_fd r = fd -> sound r -> offset r = 0 -> staging_filename r = [] ->
  keeps dir Parser all_returned (admit_request fd r) (Holding fd None).
Proof.
  intros E Hr Ho Hst. unfold admit_request. own_call. cbv zeta.
  eapply follows_bind_mono; [apply keeps_monotonic_ns|]. intros t o' ->. cbv zeta.
  set (r' := r <| request_id := a |> <| arrival_ns := t |>).
  assert (request_ok r') as Hok.
  { split; [|by left]. destruct Hr. constructor; try done. by left. }
  own_call. rewrite decide_True by done.
  destruct a0; cbn [negb]; [done|]. apply keeps_refuse; [|done]. subst fd. apply Hr.
Qed.

(** What the parser knows of a request that has just been parsed. *)
Record parsed (fd : Z) (r : Request) : Prop := {
  parsed_fd : client_fd r = fd;
  parsed_offset : offset r = 0;
  parsed_staging : staging_filename r = [];
  parsed_size : op r = GET -> total_bytes r = 0
}.

Lemma parse_request_header_parsed header fd r :
  parse_request_header header fd = Ok r -> parsed fd r.
Proof.
  unfold parse_request_header. intros H. repeat case_match; simplify_eq; by constructor.
Qed.

Lemma keeps_dispatch fd r :
  0 <= fd -> parsed fd r -> zlen (pending_bytes r) < 2 ^ 32 ->
  keeps dir Parser all_returned (dispatch dir fd r) (Holding fd None).
Proof.
  intros Hfd [E Ho Hst Hsize] Hp. unfold dispatch. destruct (op_eqb (op r) HEALTH).
  { own_call. eapply follows_bind_mono; [apply keeps_send_response, may_use_holding|].
    intros ? ? ->. apply keeps_close; [done|by left; eexists]. }
  destruct (negb _) eqn:Hname; [by apply keeps_refuse|]. apply negb_false_iff in Hname.
  destruct (op_eqb (op r) GET) eqn:Eop.
  2: { apply keeps_admit; try done. constructor; try done; try lia; [|by left].
    intros G. by rewrite G in Eop. }
  cbv zeta. eapply follows_bind_mono; [apply keeps_file_exists|]. intros ex o' ->.
  destruct (negb ex); [by apply keeps_refuse|].
  eapply follows_bind_mono; [apply keeps_get_file_size|]. intros size o' [-> Hs].
  apply keeps_admit; try done. constructor; try done; field_simpl; try lia. by left.
Qed.

Lemma keeps_parser_turn : keeps dir Parser all_returned (parser_turn dir) Idle.
Proof.
  unfold parser_turn. own_call. destruct a as [fd|]; [|done]. simpl in H.
  eapply follows_bind_mono; [apply keeps_read_header_line, may_use_holding|].
  intros [header leftover] o' (-> & H1 & H2). cbn [fst snd] in H1, H2.
  destruct (beq header []); [by apply keeps_refuse|].
  destruct (parse_request_header header fd) as [r|e] eqn:E.
  - apply parse_request_header_parsed in E. apply keeps_dispatch; [done| |].
    + by destruct E.
    + field_simpl. lia.
  - apply parse_request_header_error_length in E. apply keeps_refuse; [done|lia].
Qed.

Lemma keeps_complete_and_close fd r :
  0 <= client_fd r -> fd = job_of r ->
  keeps dir Worker all_returned (complete_and_close r) (Serving fd).
Proof.
  intros Hfd ->. unfold complete_and_close. own_call. apply keeps_close; [done|by right].
Qed.

Lemma keeps_finish r :
  sound r -> staged r ->
  keeps dir Worker all_returned (finish dir r) (Serving (job_of r)).
Proof.
  intros Hr Hst. pose proof (sound_fd r Hr) as Hfd. unfold finish.
  eapply (follows_bind_mono _ _ (fun _ o' => o' = Serving (job_of r))).
  { destruct (op_eqb (op r) PUT) eqn:E; [|done].
    assert (op r = PUT) as Hop by (by destruct (op r)).
    own_call. rewrite may_write_serving by auto. rewrite (proj2 (beq_spec _ _) eq_refl). cbn [andb].
    destruct (negb _).
    - eapply follows_bind_mono; [by apply keeps_send_error; [apply may_use_serving|]|].
      by intros ? ? ->.
    - eapply follows_bind_mono; [apply keeps_send_response, may_use_serving|]. by intros ? ? ->. }
  intros committed o' ->. destruct (negb committed); [by apply keeps_complete_and_close|].
  eapply follows_bind_mono; [apply keeps_monotonic_ns|]. intros t o' ->. cbv zeta.
  own_call. rewrite decide_True by done. by apply keeps_complete_and_close.
Qed.

(** The scheduler changes neither the identity of a request nor its staging. *)
Lemma decide_on_request s r :
  let r' := request (decide_on s (Some r)) in
  job_of r' = job_of r /\ (request_ok r -> request_ok r').
Proof.
  cbv zeta. rewrite decide_on_Some. cbn [request]. unfold get_budget.
  destruct (remaining r =? 0); [done|]. destruct (policy_ s); try done.
  split; [done|]. intros [[] ?]. by split; [constructor|].
Qed.

Lemma settle_request s b n r :
  let r' := (settle s b n r).1 in
  job_of r' = job_of r /\ (sound r -> sound r') /\ (staged r -> staged r').
Proof.
  assert (Ha : forall n', job_of (account s n' r) = job_of r /\
    (sound r -> sound (account s n' r)) /\ (staged r -> staged (account s n' r))).
  { intros n'. unfold account. cbv zeta. pose proof (fun x => proj1 (u64_range x)) as Hu.
    destruct (policy_eqb (policy_ s) DRR); [destruct (deficit _ <=? _)|];
      (split_and!; [done|intros []; constructor; (done || apply Hu)|done]). }
  unfold settle. cbv zeta. destruct (_ && _ && _ && _); cbn [fst]; [|apply Ha].
  destruct (Ha n) as (? & Hs & ?). split_and!; try done. intros Hr.
  destruct (Hs Hr). by constructor.
Qed.

(** The pop of [scheduler_next]: nothing owned when there is no decision. *)
Lemma keeps_scheduler_next s :
  keeps dir Worker (fun d o => if valid d
      then request_ok (request d) /\ o = Serving (job_of (request d)) else o = Leaving)
    (scheduler_next s) Idle.
Proof.
  unfold scheduler_next.
  eapply (follows_bind_mono _ _ (fun taken o => match taken with
    | Some r => request_ok r /\ o = Serving (job_of r) | None => o = Leaving end)).
  { destruct (policy_ s); intros a Ha; cbn [own_step popped]; by destruct a. }
  intros [r|] o; [|done]. intros [Hok ->]. cbn [follows].
  destruct (decide_on_request s r) as [E Hok']. rewrite E. rewrite decide_on_Some in *.
  by split; [apply Hok'|].
Qed.

Lemma keeps_stamp_start r o :
  keeps dir Worker (fun r' o' => (job_of r' = job_of r /\ (request_ok r -> request_ok r')) /\ o' = o)
    (stamp_start r) o.
Proof.
  unfold stamp_start. destruct (start_ns r =? 0); [|done].
  eapply follows_bind_mono; [apply keeps_monotonic_ns|]. intros ? ? ->.
  split; [split; [done|]|done]. intros [[] ?]. by split; [constructor|].
Qed.

Lemma keeps_worker_turn s p :
  p < 2 ^ 31 -> keeps dir Worker all_returned (worker_turn dir s p) Idle.
Proof.
  intros Hp. unfold worker_turn. eapply follows_bind_mono; [apply keeps_scheduler_next|].
  intros d o Hd. cbv beta in Hd. destruct (valid d); cbn [negb]; [|done].
  destruct Hd as [Hok ->].
  eapply follows_bind_mono; [apply keeps_stamp_start|]. intros r o' [[Er Hr] ->].
  rewrite <- Er. specialize (Hr Hok).
  eapply follows_bind_mono; [by apply keeps_transfer|]. intros [[ok r'] n] o'.
  intros (E & -> & Hr' & Hst). rewrite <- E.
  pose proof (sound_fd _ Hr') as Hfd. destruct ok; cbn [negb].
  - pose proof (settle_request s (budget d) n r') as Es. specialize (Hst eq_refl).
    destruct (settle s (budget d) n r') as [r'' requeue]. cbn [fst] in Es.
    destruct Es as (E2 & Hr2 & Hst2). specialize (Hr2 Hr'). specialize (Hst2 Hst). rewrite <- E2.
    destruct requeue; [|by apply keeps_finish].
    own_call. rewrite decide_True by (split; [done|]; split; [done|by right]).
    simpl in H. by subst.
  - eapply (follows_bind_mono _ _ (fun _ o' => o' = Serving (job_of r'))).
    { destruct (negb _) eqn:Est; [|done]. apply negb_true_iff, beq_false in Est.
      destruct (sound_staging r' Hr') as [|[Hop Hs]]; [done|].
      intros ? _. cbn [own_step]. by rewrite may_write_serving. }
    intros ? o' ->. by apply keeps_complete_and_close.
Qed.

End turns.

(** C13: resources are linear and turns end.  Whatever the operating system and
    the queues answer, one turn of the acceptor, of a parser or of a worker is
    over after finitely many calls.  It uses a connection only while it owns it,
    writes only to the staging file of the upload that it serves and renames
    only that file to the name that was asked for, ends every round it has popped
    by exactly one [requeue] or [complete], closes a connection exactly once and
    only after [complete], or passes it on, and owns nothing when the turn is
    over; the loop is left only after a queue has reported that it is finished or,
    by the acceptor, after it has closed the queue of descriptors. *)
Theorem turns_keep_discipline dir s packetization :
  packetization < 2 ^ 31 ->
  keeps dir Acceptor all_returned (acceptor_turn listen_socket) Idle /\
  keeps dir Parser all_returned (parser_turn dir) Idle /\
  keeps dir Worker all_returned (worker_turn dir s packetization) Idle.
Proof.
  intros. split_and!; [apply keeps_acceptor_turn|apply keeps_parser_turn|].
  by apply keeps_worker_turn.
Qed.

Lemma discipline_witness :
  keeps (str "d") Worker all_returned (worker_turn (str "d") (mkScheduler FCFS 0) 1) Idle.
Proof. by apply (turns_keep_discipline (str "d") (mkScheduler FCFS 0) 1). Defined.
