(* ===== verification/System.v ===== *)
(** The running server, the second half of [main] in [src/main.cpp]: the threads
    interleave call by call, a signal may arrive at any time, and the main thread
    joins the threads in order and closes the request queue in between.  The
    theorems hold in every state that is reachable under any scheduling of the
    threads and any behaviour of the clients and the operating system. *)

From S2P Require Import Prelude Text Queue Scheduling Metrics Effects FileIO Socket Protocol.
From S2P Require Import Server Threads Ownership.

Local Open Scope Z_scope.

(** A thread: the loop it runs and what is left of its current turn; [None] once
    it has returned. *)
Record thread := mkThread {
  t_role : role;
  t_code : option (prog bool)
}.

(** Where [main] is: joining the acceptor and the parsers, joining the workers
    (the request queue is closed), past the joins. *)
Inductive phase := JoiningIntake | JoiningWorkers | Joined.

Record system := mkSystem {
  env : world;
  threads : list thread;
  main_ : phase
}.

Section system.
Context (file_dir : bytes) (scheduler : Scheduler) (packetization : Z).

(** The body of the loop of each kind of thread. *)
Definition turn (r : role) : prog bool :=
  match r with
  | Acceptor => acceptor_turn listen_socket
  | Parser => parser_turn file_dir
  | Worker => worker_turn file_dir scheduler packetization
  end.

(** The joins that [main] is waiting for are over. *)
Definition intake_returned (ts : list thread) : Prop :=
  Forall (fun t => t_role t = Worker \/ t_code t = None) ts.

Definition all_threads_returned (ts : list thread) : Prop :=
  Forall (fun t => t_code t = None) ts.

(** What the server can do by itself: a call of one of the threads, the end of a
    turn, the end of a loop, progress of [main]. *)
Inductive move : system -> system -> Prop :=
  | move_call w ts m i r A (e : event A) k a w' :
      ts !! i = Some (mkThread r (Some (Vis e k))) -> handle e w = Some (a, w') ->
      move (mkSystem w ts m) (mkSystem w' (<[i := mkThread r (Some (k a))]> ts) m)
  | move_again w ts m i r :
      ts !! i = Some (mkThread r (Some (Ret true))) ->
      move (mkSystem w ts m) (mkSystem w (<[i := mkThread r (Some (turn r))]> ts) m)
  | move_return w ts m i r :
      ts !! i = Some (mkThread r (Some (Ret false))) ->
      move (mkSystem w ts m) (mkSystem w (<[i := mkThread r None]> ts) m)
  | move_join_intake w ts :
      intake_returned ts ->
      move (mkSystem w ts JoiningIntake)
           (mkSystem (w <| request_queue ::= RequestQueue.close |>) ts JoiningWorkers)
  | move_join_workers w ts :
      all_threads_returned ts ->
      move (mkSystem w ts JoiningWorkers) (mkSystem w ts Joined).

(** [handle_signal]: the flag; what closing the listening socket does to the
    acceptor is part of the tape of that socket. *)
Definition handle_signal (w : world) : world := w <| shutdown_flag := true |>.

Inductive step (y : system) : system -> Prop :=
  | step_move y' : move y y' -> step y y'
  | step_signal : step y (mkSystem (handle_signal (env y)) (threads y) (main_ y)).

(** The steps that are not a call of a thread: the end of a turn or of a loop,
    progress of [main], the signal. *)
Inductive silent_step : system -> system -> Prop :=
  | silent_again w ts m i r :
      ts !! i = Some (mkThread r (Some (Ret true))) ->
      silent_step (mkSystem w ts m) (mkSystem w (<[i := mkThread r (Some (turn r))]> ts) m)
  | silent_return w ts m i r :
      ts !! i = Some (mkThread r (Some (Ret false))) ->
      silent_step (mkSystem w ts m) (mkSystem w (<[i := mkThread r None]> ts) m)
  | silent_join_intake w ts :
      intake_returned ts ->
      silent_step (mkSystem w ts JoiningIntake)
        (mkSystem (w <| request_queue ::= RequestQueue.close |>) ts JoiningWorkers)
  | silent_join_workers w ts :
      all_threads_returned ts -> silent_step (mkSystem w ts JoiningWorkers) (mkSystem w ts Joined)
  | silent_signal w ts m : silent_step (mkSystem w ts m) (mkSystem (handle_signal w) ts m).

(** Thread [i] makes the call [e], which returns [a]. *)
Definition calls (i : nat) {A} (e : event A) (a : A) (y y' : system) : Prop :=
  exists r k, threads y !! i = Some (mkThread r (Some (Vis e k))) /\
    handle e (env y) = Some (a, env y') /\
    y' = mkSystem (env y') (<[i := mkThread r (Some (k a))]> (threads y)) (main_ y).

Lemma step_cases y y' :
  step y y' <-> (exists i A (e : event A) a, calls i e a y y') \/ silent_step y y'.
Proof.
  split.
  - intros [y'' []|]; [left|right..].
    + exists i, A, e, a. by exists r, k.
    + by apply silent_again.
    + by apply silent_return.
    + by apply silent_join_intake.
    + by apply silent_join_workers.
    + destruct y. apply silent_signal.
  - intros [(i & A & e & a & r & k & Hi & H & ->)|[]].
    + destruct y. apply step_move. by eapply move_call.
    + apply step_move. by apply move_again.
    + apply step_move. by apply move_return.
    + apply step_move. by apply move_join_intake.
    + apply step_move. by apply move_join_workers.
    + apply (step_signal (mkSystem w ts m)).
Qed.

(** The server once its threads are started: [server_threads] workers, the
    parsers and the acceptor. *)
Definition start_thread (r : role) : thread := mkThread r (Some (turn r)).

Definition parser_count (client_threads : Z) : Z := Z.max 8 client_threads.

Definition roles (server_threads client_threads : Z) : list role :=
  replicate (Z.to_nat server_threads) Worker ++
  replicate (Z.to_nat (parser_count client_threads)) Parser ++ [Acceptor].

Definition start (w : world) (server_threads client_threads : Z) : system :=
  mkSystem w (map start_thread (roles server_threads client_threads)) JoiningIntake.

(** No file is larger than the file system allows. *)
Definition files_ok (w : world) : Prop :=
  map_Forall (fun _ n => 0 <= node_size n <= max_file_size) (files w).

(** The shared objects as [main] constructs them. *)
Definition fresh_objects (w : world) : Prop :=
  files_ok w /\ socks w = ∅ /\ request_queue w = RequestQueue.new /\ fd_queue w = FdQueue.new /\
  next_request_id w = 1 /\ ids_given w = 0 /\ records_ w = [] /\ shutdown_flag w = false.

(** Thread counts are positive [int]s and [packetization] is an [int]. *)
Definition sane_counts (server_threads client_threads : Z) : Prop :=
  0 < server_threads < 2 ^ 31 /\ 0 < client_threads < 2 ^ 31 /\ packetization < 2 ^ 31.

Definition reachable (server_threads client_threads : Z) (y : system) : Prop :=
  sane_counts server_threads client_threads /\
  exists w, fresh_objects w /\ rtc step (start w server_threads client_threads) y.

(** ** An executable scheduler, to build concrete runs *)

(** One step of thread [i]. *)
Definition thread_move (i : nat) (y : system) : option system :=
  match threads y !! i with
  | Some (mkThread r (Some (Vis e k))) =>
      match handle e (env y) with
      | Some (a, w') => Some (mkSystem w' (<[i := mkThread r (Some (k a))]> (threads y)) (main_ y))
      | None => None
      end
  | Some (mkThread r (Some (Ret true))) =>
      Some (mkSystem (env y) (<[i := mkThread r (Some (turn r))]> (threads y)) (main_ y))
  | Some (mkThread r (Some (Ret false))) =>
      Some (mkSystem (env y) (<[i := mkThread r None]> (threads y)) (main_ y))
  | _ => None
  end.

Definition has_returned (t : thread) : bool := match t_code t with None => true | _ => false end.

Definition is_worker (t : thread) : bool := match t_role t with Worker => true | _ => false end.

Definition main_move (y : system) : option system :=
  match main_ y with
  | JoiningIntake =>
      if forallb (fun t => is_worker t || has_returned t) (threads y)
      then Some (mkSystem ((env y) <| request_queue ::= RequestQueue.close |>) (threads y)
                   JoiningWorkers)
      else None
  | JoiningWorkers =>
      if forallb has_returned (threads y) then Some (mkSystem (env y) (threads y) Joined) else None
  | Joined => None
  end.

(** A schedule names the threads in the order in which they move; the number
    after the last thread is [main]. *)
Fixpoint schedule (l : list nat) (y : system) : system :=
  match l with
  | [] => y
  | i :: l' =>
      let y' := if (i <? length (threads y))%nat then thread_move i y else main_move y in
      match y' with Some y' => schedule l' y' | None => schedule l' y end
  end.

Lemma thread_move_cases i y y' :
  thread_move i y = Some y' ->
  (exists A (e : event A) a, calls i e a y y') \/ silent_step y y'.
Proof.
  destruct y as [w ts m]. unfold thread_move. simpl. intros H.
  destruct (ts !! i) as [[r [[[]|A e k|]|]]|] eqn:Hi; simplify_eq.
  - right. by apply silent_again.
  - right. by apply silent_return.
  - destruct (handle e w) as [[a w']|] eqn:E; simplify_eq. left. exists A, e, a. by exists r, k.
Qed.

Lemma thread_move_sound i y y' : thread_move i y = Some y' -> move y y'.
Proof.
  destruct y as [w ts m]. unfold thread_move. simpl. intros H.
  destruct (ts !! i) as [[r [[[]|A e k|]|]]|] eqn:Hi; simplify_eq.
  - by eapply move_again.
  - by eapply move_return.
  - destruct (handle e w) as [[a w']|] eqn:E; simplify_eq. by eapply move_call.
Qed.

Lemma main_move_sound y y' : main_move y = Some y' -> move y y'.
Proof.
  destruct y as [w ts m]. unfold main_move. simpl. intros H. destruct m; [| |done].
  - destruct (forallb _ ts) eqn:E; simplify_eq. apply move_join_intake.
    apply Forall_forall. intros t Ht. rewrite forallb_forall in E.
    specialize (E t (proj1 (list_elem_of_In _ _) Ht)).
    apply orb_true_iff in E as [E|E]; destruct t as [[] []]; simpl in *; try done; by (left + right).
  - destruct (forallb _ ts) eqn:E; simplify_eq. apply move_join_workers.
    apply Forall_forall. intros t Ht. rewrite forallb_forall in E.
    specialize (E t (proj1 (list_elem_of_In _ _) Ht)). by destruct t as [? []].
Qed.

Lemma schedule_sound l y : rtc step y (schedule l y).
Proof.
  revert y. induction l as [|i l IH]; intros y; simpl; [done|].
  destruct (if (i <? length (threads y))%nat then thread_move i y else main_move y) as [y'|] eqn:E;
    [|done].
  eapply rtc_l; [apply step_move|apply IH].
  destruct (i <? length (threads y))%nat; [by eapply thread_move_sound|by apply main_move_sound].
Qed.

(** A signal arrives between two schedules. *)
Lemma schedule_signal_sound l1 l2 y :
  let y1 := schedule l1 y in
  rtc step y (schedule l2 (mkSystem (handle_signal (env y1)) (threads y1) (main_ y1))).
Proof.
  etrans; [apply (schedule_sound l1)|]. eapply rtc_l; [apply step_signal|]. apply schedule_sound.
Qed.

End system.

(** ** What one call does to the shared objects *)

(** The method of the request queue that a call is. *)
Definition rq_call {A} (e : event A) : A -> option RequestQueue.call :=
  match e in event A return A -> option RequestQueue.call with
  | RqPush r => fun b => Some (RequestQueue.Push r b)
  | RqWaitPop => fun o => Some (RequestQueue.WaitPop o)
  | RqWaitPopBest c => fun o => Some (RequestQueue.WaitPopBest c o)
  | RqRequeue r => fun _ => Some (RequestQueue.Requeue r)
  | RqComplete => fun _ => Some RequestQueue.Complete
  | RqClose => fun _ => Some RequestQueue.Close
  | _ => fun _ => None
  end.

Definition rq_put {A} (e : event A) (a : A) : list Request :=
  match rq_call e a with Some c => RequestQueue.put_in c | None => [] end.

Definition rq_taken {A} (e : event A) (a : A) : list Request :=
  match rq_call e a with Some c => RequestQueue.taken_out c | None => [] end.

(** The descriptors that a call puts in the queue of descriptors, takes out of
    it, opens and closes. *)
Definition fd_put {A} (e : event A) : A -> list Z :=
  match e in event A return A -> list Z with
  | FdPush fd => fun b : bool => if b then [fd] else []
  | _ => fun _ => []
  end.

Definition fd_taken {A} (e : event A) : A -> list Z :=
  match e in event A return A -> list Z with
  | FdWaitPop => fun o => match o with Some fd => [fd] | None => [] end
  | _ => fun _ => []
  end.

Definition fd_opened {A} (e : event A) : A -> list Z :=
  match e in event A return A -> list Z with
  | AcceptFd _ => fun fd => if fd <? 0 then [] else [fd]
  | _ => fun _ => []
  end.

Definition fd_closed {A} (e : event A) : list Z :=
  match e with CloseFd fd => [fd] | _ => [] end.

Definition is_fd_close {A} (e : event A) : bool := match e with FdClose => true | _ => false end.

Definition open_fds (w : world) : list Z := elements (dom (socks w)).

(** Case analysis on everything that the meaning of a call looks at. *)
Ltac handle_cases H :=
  cbn [handle] in H; unfold mbind, option_bind in H;
  unfold select_listen, select_sock, recv_sock, send_sock, send_bytes, close_sock, accept_sock,
    open_read, open_trunc, open_update, write_at, rename_file, remove_file, next_fault, tick in *;
  repeat (case_match; simplify_eq/=); simplify_eq/=.

Lemma handle_rq {A} (e : event A) w a w' :
  handle e w = Some (a, w') ->
  match rq_call e a with
  | Some c => RequestQueue.perform c (request_queue w) (request_queue w')
  | None => request_queue w' = request_queue w
  end.
Proof.
  intros H. destruct e; cbn [rq_call]; try (by handle_cases H); cbn [handle] in H.
  - destruct (RequestQueue.push r (request_queue w)) eqn:E. simplify_eq. by constructor.
  - destruct (RequestQueue.wait_pop (request_queue w)) as [[]|] eqn:E; simplify_eq/=. by constructor.
  - destruct (RequestQueue.wait_pop_best _ _) as [[]|] eqn:E; simplify_eq/=. by constructor.
  - destruct (RequestQueue.requeue r (request_queue w)) as [b q] eqn:E. simplify_eq.
    assert (a = true) as -> by (unfold RequestQueue.requeue in E; by simplify_eq). by constructor.
  - simplify_eq. constructor.
  - simplify_eq. constructor.
Qed.

Lemma handle_fdq {A} (e : event A) w a w' :
  handle e w = Some (a, w') ->
  FdQueue.queue_ (fd_queue w) ++ fd_put e a = fd_taken e a ++ FdQueue.queue_ (fd_queue w') /\
  FdQueue.closed_ (fd_queue w') = is_fd_close e || FdQueue.closed_ (fd_queue w).
Proof.
  intros H. destruct e; cbn [fd_put fd_taken is_fd_close orb]; rewrite ?app_nil_r;
    try (by handle_cases H); cbn [handle] in H.
  - unfold FdQueue.push in H. destruct (FdQueue.closed_ (fd_queue w)) eqn:E; simplify_eq/=;
      rewrite ?app_nil_r; by rewrite ?E.
  - unfold FdQueue.wait_pop in H. destruct (FdQueue.wait_ready (fd_queue w)); [|done].
    destruct (FdQueue.queue_ (fd_queue w)) eqn:E; simplify_eq/=; by rewrite ?E.
Qed.

Lemma open_fds_set fd s s' w :
  socks w !! fd = Some s -> open_fds (set_sock fd s' w) ≡ₚ open_fds w.
Proof.
  unfold open_fds. intros H. apply elem_of_dom_2 in H. unfold set_sock. field_simpl.
  rewrite dom_insert_L. f_equiv. set_solver.
Qed.

Lemma open_fds_fresh fd s w :
  socks w !! fd = None -> open_fds (set_sock fd s w) ≡ₚ fd :: open_fds w.
Proof.
  unfold open_fds. intros H. apply not_elem_of_dom_2 in H. unfold set_sock. field_simpl.
  rewrite dom_insert_L. by apply elements_union_singleton.
Qed.

Lemma open_fds_close fd w :
  fd ∈ open_fds w -> open_fds w ≡ₚ fd :: open_fds (close_sock fd w).
Proof.
  unfold open_fds. rewrite elem_of_elements. intros H. unfold close_sock.
  apply elem_of_dom in H as [s Hs]. rewrite Hs. field_simpl. rewrite dom_delete_L.
  rewrite <- elements_union_singleton by set_solver. f_equiv.
  apply elem_of_dom_2 in Hs. rewrite <- union_difference_singleton_L by done. done.
Qed.

(** The open connections and what a call does to them. *)
Lemma handle_open_fds {A} (e : event A) w a w' :
  handle e w = Some (a, w') -> Forall (fun fd => fd ∈ open_fds w) (fd_closed e) ->
  fd_opened e a ++ open_fds w ≡ₚ fd_closed e ++ open_fds w' /\
  Forall (fun fd => listen_socket < fd) (fd_opened e a).
Proof.
  intros H Hc. assert (socks w' = socks w -> open_fds w ≡ₚ open_fds w') as Hsame.
  { unfold open_fds. by intros ->. }
  destruct e; cbn [fd_opened fd_closed app];
    try (split; [apply Hsame; by handle_cases H|done]); cbn [handle] in H.
  - split; [|done]. destruct (fd =? listen_socket); [apply Hsame; by handle_cases H|].
    apply (inj Some) in H. unfold select_sock in H. destruct (socks w !! fd) eqn:E; [|by simplify_eq].
    destruct (rx s) as [|[] l]; simplify_eq; try done; symmetry;
      exact (open_fds_set fd s (s <| rx := l |>) w E).
  - split; [|done]. unfold recv_sock in H. destruct (socks w !! fd) eqn:E; [|by simplify_eq].
    destruct (recv_rx _ _). simplify_eq. by erewrite open_fds_set.
  - split; [|done]. unfold send_sock in H. destruct (socks w !! fd) eqn:E; [|by simplify_eq].
    destruct (send_bytes _ _). simplify_eq. by erewrite open_fds_set.
  - split; [|done]. simplify_eq. cbn [fd_closed] in Hc. inversion Hc. by apply open_fds_close.
  - unfold accept_sock in H. destruct (listening w) as [|[| | |fd r t] l]; try by simplify_eq.
    destruct (Z.leb_spec fd listen_socket); cbn [orb] in H; [by simplify_eq|].
    case_bool_decide as E; [by simplify_eq|]. simplify_eq. unfold listen_socket in *.
    destruct (Z.ltb_spec a 0); [lia|]. split; [|by repeat constructor].
    rewrite open_fds_fresh; [done|]. by apply eq_None_not_Some.
Qed.

(** File sizes stay within what the file system allows. *)
Lemma zlen_overwrite pos data c :
  0 <= pos -> 0 <= zlen (overwrite pos data c) <= Z.max (zlen c) (pos + zlen data).
Proof.
  intros Hpos. unfold overwrite. rewrite !zlen_app. split; [list_lia|].
  assert (zlen (replicate (Z.to_nat (pos - zlen c)) (chr 0)) = Z.max 0 (pos - zlen c)) as ->.
  { unfold zlen. rewrite length_replicate. lia. }
  pose proof (zlen_nonneg c). pose proof (zlen_nonneg data).
  rewrite zlen_ztake, zlen_zdrop by lia. lia.
Qed.

Lemma next_fault_files w : files (next_fault w).2 = files w.
Proof. unfold next_fault. by destruct (faults w). Qed.

Lemma handle_files {A} (e : event A) w a w' :
  handle e w = Some (a, w') -> files_ok w -> files_ok w'.
Proof.
  intros H Hf. assert (files w' = files w -> files_ok w') as Hsame.
  { unfold files_ok. by intros ->. }
  destruct e; try (apply Hsame; by handle_cases H); unfold files_ok in *; cbn [handle] in H;
    apply (inj Some) in H.
  - unfold open_trunc in H. pose proof (next_fault_files w) as E. rewrite <- E in Hf.
    destruct (next_fault w) as [b w1]. cbn [snd] in *. destruct b; [by simplify_eq|].
    repeat (case_match; simplify_eq/=); try done; by apply map_Forall_insert_2.
  - unfold write_at in H. pose proof (next_fault_files w) as E. rewrite <- E in Hf.
    destruct (next_fault w) as [b w1]. cbn [snd] in *.
    destruct (b || (pos <? 0) || (max_file_size <? pos + zlen data)) eqn:Eb; [by simplify_eq|].
    destruct (files w1 !! path) as [[c|]|] eqn:Ec; simplify_eq; try done.
    apply map_Forall_insert_2; [|done]. specialize (Hf _ _ Ec). simpl in *.
    destruct b; [done|]. to_prop. pose proof (zlen_overwrite pos data c). lia.
  - unfold rename_file in H. pose proof (next_fault_files w) as E. rewrite <- E in Hf.
    destruct (next_fault w) as [b w1]. cbn [snd] in *. destruct b; [by simplify_eq|].
    destruct (files w1 !! from) as [[c|]|] eqn:Ec; simplify_eq; try done.
    assert (files_ok (w1 <| files ::= fun m => <[to:=File c]> (delete from m) |>)).
    { apply map_Forall_insert_2; [by apply (Hf _ _ Ec)|by apply map_Forall_delete]. }
    destruct (files w1 !! to) as [[|]|]; by simplify_eq.
  - unfold remove_file in H. pose proof (next_fault_files w) as E. rewrite <- E in Hf.
    destruct (next_fault w) as [b w1]. cbn [snd] in *.
    repeat (case_match; simplify_eq/=); try done; by apply map_Forall_delete.
Qed.

Lemma zlen_recv_rx size l :
  match (recv_rx size l).1 with Received bs => 0 <= size -> zlen bs <= size | RecvError => True end.
Proof.
  induction l as [|[] l IH]; simpl; try done. destruct (Z.leb_spec (zlen bs) size); simpl; [lia|].
  intros. rewrite zlen_ztake; lia.
Qed.

(** The environment keeps what the threads rely on. *)
Lemma handle_possible {A} (e : event A) w a w' :
  handle e w = Some (a, w') -> files_ok w ->
  Forall (fun fd => 0 <= fd) (FdQueue.queue_ (fd_queue w)) ->
  Forall request_ok (RequestQueue.queue_ (request_queue w)) -> possible e a.
Proof.
  intros H Hf Hfd Hrq. destruct e; try done; cbn [handle possible] in *.
  - apply (inj Some) in H. unfold recv_sock in H. destruct (socks w !! fd); [|by simplify_eq].
    pose proof (zlen_recv_rx size (rx s)). destruct (recv_rx size (rx s)). by simplify_eq.
  - apply (inj Some) in H. intros Hne. assert (0 < zlen data) by (destruct data; [done|list_lia]).
    unfold send_sock, send_bytes in H. repeat (case_match; simplify_eq/=); lia.
  - simplify_eq. destruct (files w' !! path) eqn:E; [|done]. exact (Hf _ _ E).
  - apply (inj Some) in H. unfold open_read in H. pose proof (next_fault_files w) as E.
    destruct (next_fault w) as [[|] w1]; simplify_eq/=; [done|]. rewrite E.
    destruct (files w !! path) as [[c|]|] eqn:Ec; [|done..]. exact (proj2 (Hf _ _ Ec)).
  - unfold FdQueue.wait_pop in H. destruct (FdQueue.wait_ready (fd_queue w)); [|done].
    destruct (FdQueue.queue_ (fd_queue w)); simplify_eq/=; [done|]. by inversion Hfd.
  - unfold RequestQueue.wait_pop in H. destruct (RequestQueue.wait_ready (request_queue w)); [|done].
    destruct (RequestQueue.queue_ (request_queue w)); simplify_eq/=; [done|]. by inversion Hrq.
  - destruct (RequestQueue.wait_pop_best _ _) as [[o q]|] eqn:E; simplify_eq/=.
    apply RequestQueueFacts.wait_pop_best_inv in E as [(-> & _)|(i & r & -> & Hi & _)]; [done|].
    by eapply Forall_lookup_1.
  - unfold RequestQueue.requeue in H. by simplify_eq.
Qed.

(** ** What one call does to the ownership *)

Definition returned {A} (e : event A) (a : A) : Z :=
  match rq_call e a with Some c => RequestQueue.returned c | None => 0 end.

Definition is_serving (o : own) : bool := match o with Serving _ => true | _ => false end.

(** Descriptors are passed on, neither dropped nor copied. *)
Lemma own_flow dir ro {A} (e : event A) a o o' :
  own_step dir ro e a o = Some o' ->
  owned_fd o' ++ fd_put e a ++ map client_fd (rq_put e a) ++ fd_closed e ≡ₚ
    owned_fd o ++ fd_taken e a ++ map client_fd (rq_taken e a) ++ fd_opened e a /\
  Forall (fun fd => fd ∈ owned_fd o) (fd_closed e) /\
  Forall request_ok (rq_put e a) /\
  Z.b2z (is_serving o') = Z.b2z (is_serving o) + zlen (rq_taken e a) - returned e a.
Proof.
  destruct e; cbn [own_step fd_put fd_taken fd_closed fd_opened]; unfold rq_put, rq_taken, returned;
    cbn [rq_call RequestQueue.put_in RequestQueue.taken_out RequestQueue.returned];
    unfold popped; intros H; repeat case_match; simplify_eq/=; to_prop; simplify_eq/=;
    destruct_and?; simplify_eq/=;
    rewrite ?app_nil_r; (split_and!; [by auto using Permutation_refl|..]);
    first [by apply Forall_nil|by apply Forall_singleton|apply Forall_singleton; by left|list_lia].
Qed.

(** The id that a thread has drawn or serves, and the ids that a call draws. *)
Definition owned_id (o : own) : list Z :=
  match o with Holding _ (Some id) => [id] | Serving j => [job_id j] | _ => [] end.

Definition drawn {A} (e : event A) : A -> list Z :=
  match e in event A return A -> list Z with FetchAddRequestId => fun id => [id] | _ => fun _ => [] end.

(** Ids are passed on, never copied; they are dropped with the request. *)
Lemma own_ids dir ro {A} (e : event A) a o o' :
  own_step dir ro e a o = Some o' ->
  exists dropped, owned_id o' ++ map request_id (rq_put e a) ++ dropped ≡ₚ
    owned_id o ++ map request_id (rq_taken e a) ++ drawn e a.
Proof.
  intros H. assert (o' = o -> rq_put e a = [] -> rq_taken e a = [] -> drawn e a = [] ->
    exists dropped, owned_id o' ++ map request_id (rq_put e a) ++ dropped ≡ₚ
      owned_id o ++ map request_id (rq_taken e a) ++ drawn e a) as Hsame.
  { intros -> -> -> ->. by exists []. }
  destruct e; try (apply Hsame; [|done..]; cbn [own_step] in H; by repeat case_match; simplify_eq);
    cbn [own_step] in H; unfold popped in H; repeat case_match; simplify_eq/=; destruct_and?;
    simplify_eq/=; first [by exists []|by eexists|idtac].
Qed.

(** The id counter. *)
Lemma handle_ids {A} (e : event A) w a w' :
  handle e w = Some (a, w') ->
  (drawn e a = [] /\ ids_given w' = ids_given w /\ next_request_id w' = next_request_id w) \/
  (drawn e a = [next_request_id w] /\ ids_given w' = ids_given w + 1 /\
   next_request_id w' = i32 (next_request_id w + 1)).
Proof.
  intros H. destruct e; try (left; by handle_cases H); cbn [handle] in H.
  right. by simplify_eq.
Qed.

(** ** Ownership and the shared state *)

(** The descriptors that are in the two queues. *)
Definition held (w : world) : list Z :=
  FdQueue.queue_ (fd_queue w) ++ map client_fd (RequestQueue.queue_ (request_queue w)).

Definition serving_count (os : list own) : Z := zlen (filter (fun o => is_serving o = true) os).

Lemma serving_count_middle os1 o os2 :
  serving_count (os1 ++ o :: os2) = Z.b2z (is_serving o) + serving_count (os1 ++ os2).
Proof.
  unfold serving_count. rewrite !filter_app, filter_cons, !zlen_app.
  case_decide as E; [rewrite E; cbn [Z.b2z]; rewrite zlen_cons; lia|]. by destruct (is_serving o).
Qed.

Lemma serving_count_range os : 0 <= serving_count os <= zlen os.
Proof.
  split; [unfold serving_count; list_lia|]. unfold serving_count, zlen.
  pose proof (length_filter (fun o => is_serving o = true) os). lia.
Qed.

(** The ids of the requests that are being admitted, served or queued. *)
Definition live_ids (w : world) (os : list own) : list Z :=
  concat (map owned_id os) ++ map request_id (RequestQueue.queue_ (request_queue w)).

(** The counter is an [int]: ids are distinct until it has wrapped around. *)
Definition ids_distinct (w : world) (os : list own) : Prop :=
  ids_given w < 2 ^ 31 - 1 ->
  NoDup (live_ids w os) /\ Forall (fun id => 1 <= id <= ids_given w) (live_ids w os).

(** What holds of the shared state, [os] saying what each thread owns. *)
Record world_inv (w : world) (os : list own) : Prop := {
  wi_files : files_ok w;
  wi_requests : Forall request_ok (RequestQueue.queue_ (request_queue w));
  wi_fds : concat (map owned_fd os) ++ held w ≡ₚ open_fds w;
  wi_open : Forall (fun fd => listen_socket < fd) (open_fds w);
  wi_inflight : RequestQueue.inflight_ (request_queue w) = serving_count os;
  wi_few : zlen os < 2 ^ 64;
  wi_next : 0 <= ids_given w /\ next_request_id w = i32 (1 + ids_given w);
  wi_ids : ids_distinct w os
}.

Lemma wi_owned w os1 o os2 :
  world_inv w (os1 ++ o :: os2) -> Forall (fun fd => fd ∈ open_fds w) (owned_fd o).
Proof.
  intros [_ _ Hfds _ _ _ _ _]. apply Forall_forall. intros fd Hfd. rewrite <- Hfds.
  rewrite map_app, concat_app. set_solver.
Qed.

Lemma wi_possible {A} (e : event A) a w w' os :
  world_inv w os -> handle e w = Some (a, w') -> possible e a.
Proof.
  intros [Hf Hr Hfds Ho _ _ _ _] H. eapply handle_possible; try done.
  apply Forall_forall. intros fd Hfd. rewrite <- Hfds in Ho. rewrite Forall_forall in Ho.
  specialize (Ho fd). unfold listen_socket in Ho.
  assert (fd ∈ concat (map owned_fd os) ++ held w) as H3 by (unfold held; set_solver).
  specialize (Ho H3). lia.
Qed.

(** The request queue after a call of a thread that owned [o]. *)
Lemma call_rq {A} (e : event A) a w w' os1 o o' os2 dir ro :
  world_inv w (os1 ++ o :: os2) -> own_step dir ro e a o = Some o' ->
  handle e w = Some (a, w') ->
  let q := request_queue w in
  let q' := request_queue w' in
  RequestQueue.queue_ q ++ rq_put e a ≡ₚ rq_taken e a ++ RequestQueue.queue_ q' /\
  RequestQueue.inflight_ q' = serving_count (os1 ++ o' :: os2) /\
  (RequestQueue.closed_ q' = RequestQueue.closed_ q).
Proof.
  intros [Hf Hr Hfds Ho Hn Hfew _ _] Hs H q q'. pose proof (handle_rq e w a w' H) as Hq.
  destruct (own_flow dir ro e a o o' Hs) as (_ & _ & _ & Hc).
  unfold rq_put, rq_taken, returned in *. fold q in Hq, Hn. fold q' in Hq.
  rewrite serving_count_middle in *. pose proof (serving_count_range (os1 ++ os2)) as Hr2.
  assert (zlen (os1 ++ os2) + 1 < 2 ^ 64) as Hfew'.
  { unfold zlen in *. rewrite length_app in *. simpl in Hfew. lia. }
  destruct (rq_call e a) as [c|] eqn:Ec.
  - split_and!.
    + by apply RequestQueueFacts.perform_conserves.
    + rewrite (RequestQueueFacts.perform_inflight c q q' Hq);
        [lia|destruct (is_serving o); simpl in *; lia|].
      split; [|done]. destruct (is_serving o), (is_serving o'); simpl in *; lia.
    + destruct (RequestQueueFacts.perform_closed c q q' Hq) as [->|]; [|done].
      destruct e; simplify_eq/=.
  - rewrite Hq, app_nil_r. split_and!; [done| |done].
    rewrite Hn, Hc. rewrite zlen_nil. lia.
Qed.

Lemma call_ids {A} (e : event A) a w w' os1 o o' os2 dir ro :
  world_inv w (os1 ++ o :: os2) -> own_step dir ro e a o = Some o' ->
  handle e w = Some (a, w') ->
  (0 <= ids_given w' /\ next_request_id w' = i32 (1 + ids_given w')) /\
  ids_distinct w' (os1 ++ o' :: os2).
Proof.
  intros Hi Hs H. destruct (call_rq e a w w' os1 o o' os2 dir ro Hi Hs H) as (Hq & _ & _).
  destruct Hi as [_ _ _ _ _ _ [Hg Hnext] Hids]. unfold ids_distinct, live_ids in *.
  destruct (own_ids dir ro e a o o' Hs) as (dropped & Hflow).
  assert ((concat (map owned_id (os1 ++ o' :: os2)) ++
      map request_id (RequestQueue.queue_ (request_queue w'))) ++ dropped ≡ₚ
    drawn e a ++ concat (map owned_id (os1 ++ o :: os2)) ++
      map request_id (RequestQueue.queue_ (request_queue w))) as Hperm.
  { apply (Permutation_map request_id) in Hq. rewrite !map_app in *.
    rewrite !concat_app in *. simpl in *. clear -Hq Hflow. perm_lia. }
  destruct (handle_ids e w a w' H) as [(Hd & -> & Hn)|(Hd & -> & Hn)]; rewrite Hn, Hd in *.
  - split; [done|]. intros Hsmall. destruct (Hids Hsmall) as [Hnd Hall]. simpl in Hperm.
    rewrite <- Hperm in Hnd, Hall. apply NoDup_app in Hnd as (? & _). by apply Forall_app in Hall as [? _].
  - split; [split; [lia|]; rewrite Hnext, i32_add_1; f_equal; lia|].
    intros Hsmall. destruct (Hids ltac:(lia)) as [Hnd Hall].
    rewrite Hnext, i32_small in Hperm by lia.
    assert (NoDup ((1 + ids_given w) :: concat (map owned_id (os1 ++ o :: os2)) ++
      map request_id (RequestQueue.queue_ (request_queue w)))) as Hnd'.
    { apply NoDup_cons. split; [|done]. intros Hin. rewrite Forall_forall in Hall.
      specialize (Hall _ Hin). lia. }
    assert (Forall (fun id => 1 <= id <= ids_given w + 1) ((1 + ids_given w) ::
      concat (map owned_id (os1 ++ o :: os2)) ++
      map request_id (RequestQueue.queue_ (request_queue w)))) as Hall'.
    { apply Forall_cons. split; [lia|]. eapply Forall_impl; [exact Hall|]. simpl. lia. }
    simpl in Hperm. rewrite <- Hperm in Hnd', Hall'.
    apply NoDup_app in Hnd' as (? & _). by apply Forall_app in Hall' as [? _].
Qed.

Lemma call_world {A} (e : event A) a w w' os1 o o' os2 dir ro :
  world_inv w (os1 ++ o :: os2) -> own_step dir ro e a o = Some o' ->
  handle e w = Some (a, w') -> world_inv w' (os1 ++ o' :: os2).
Proof.
  intros Hi Hs H. destruct (call_rq e a w w' os1 o o' os2 dir ro Hi Hs H) as (Hq & Hn & _).
  pose proof (wi_owned w os1 o os2 Hi) as Hown.
  destruct (call_ids e a w w' os1 o o' os2 dir ro Hi Hs H) as [Hnext Hids].
  destruct Hi as [Hf Hr Hfds Ho Hn0 Hfew _ _]. cbv zeta in Hq, Hn.
  destruct (own_flow dir ro e a o o' Hs) as (Hflow & Hcl & Hput & _).
  destruct (handle_fdq e w a w' H) as [Hfd _].
  destruct (handle_open_fds e w a w' H) as [Hopen Hnew].
  { rewrite Forall_forall in *. auto. }
  assert (Hfds' : concat (map owned_fd (os1 ++ o' :: os2)) ++ held w' ≡ₚ open_fds w').
  { assert (FdQueue.queue_ (fd_queue w) ++ fd_put e a ≡ₚ
      fd_taken e a ++ FdQueue.queue_ (fd_queue w')) as Hfd' by (by rewrite Hfd).
    apply (Permutation_map client_fd) in Hq. unfold held in *. rewrite !map_app in *.
    rewrite !concat_app in *. simpl in *. clear -Hq Hflow Hfd' Hopen Hfds. perm_lia. }
  split; [by eapply handle_files| |done| |done| |done|done].
  - rewrite Forall_forall in *. intros r Hin.
    assert (r ∈ rq_taken e a ++ RequestQueue.queue_ (request_queue w')) as Hin' by set_solver.
    rewrite <- Hq in Hin'. apply elem_of_app in Hin' as [?|?]; auto.
  - rewrite Forall_forall in *. intros fd Hin.
    assert (fd ∈ fd_closed e ++ open_fds w') as Hin' by set_solver.
    rewrite <- Hopen in Hin'. apply elem_of_app in Hin' as [?|?]; auto.
  - unfold zlen in *. by rewrite length_app in *.
Qed.

(** ** What a thread that leaves its loop has seen *)

Definition gone (r : role) (w : world) : Prop :=
  match r with
  | Acceptor => FdQueue.closed_ (fd_queue w) = true
  | Parser => FdQueue.closed_ (fd_queue w) = true /\ FdQueue.queue_ (fd_queue w) = []
  | Worker =>
      RequestQueue.closed_ (request_queue w) = true /\
      RequestQueue.queue_ (request_queue w) = [] /\
      RequestQueue.inflight_ (request_queue w) = 0
  end.

Lemma gone_stable {A} (e : event A) a w w' os1 o o' os2 dir ro r :
  world_inv w (os1 ++ o :: os2) -> own_step dir ro e a o = Some o' ->
  handle e w = Some (a, w') -> gone r w -> gone r w'.
Proof.
  intros Hi Hs H. destruct (handle_fdq e w a w' H) as [Hfd Hcl].
  destruct r; cbn [gone]; [intros Hc; by rewrite Hcl, Hc, orb_true_r| |].
  - intros [Hc Hq]. split; [by rewrite Hcl, Hc, orb_true_r|]. rewrite Hq in Hfd.
    assert (fd_put e a = []) as E.
    { destruct e; try done. cbn [handle] in H. unfold FdQueue.push in H. rewrite Hc in H.
      by simplify_eq. }
    rewrite E in Hfd. symmetry in Hfd. by apply app_eq_nil in Hfd as [_ ?].
  - intros (Hc & Hq & Hn). pose proof (handle_rq e w a w' H) as Hp.
    destruct (own_flow dir ro e a o o' Hs) as (_ & _ & _ & Hb).
    pose proof (wi_inflight _ _ Hi) as Hn'. rewrite Hn, serving_count_middle in Hn'.
    pose proof (serving_count_range (os1 ++ os2)).
    assert (is_serving o = false) as Ho by (destruct (is_serving o); simpl in *; lia).
    unfold rq_taken, returned in Hb. rewrite Ho in Hb.
    destruct (rq_call e a) as [c|]; [|by rewrite Hp].
    destruct (RequestQueueFacts.perform_drained c _ _ Hp Hq Hc Hn) as (-> & _); [|done].
    split; [|done]. destruct (is_serving o'); simpl in Hb; lia.
Qed.

Lemma gone_new dir ro {A} (e : event A) a w w' o :
  own_step dir ro e a o = Some Leaving -> o <> Leaving -> handle e w = Some (a, w') -> gone ro w'.
Proof.
  intros Hs Ho H.
  destruct e; cbn [own_step] in Hs; unfold popped in Hs; repeat case_match; simplify_eq;
    cbn [handle gone] in *.
  - unfold FdQueue.wait_pop, FdQueue.wait_ready in H. repeat case_match; by simplify_eq/=.
  - by simplify_eq.
  - unfold RequestQueue.wait_pop, RequestQueue.wait_ready in H.
    destruct (RequestQueue.queue_ (request_queue w)) eqn:E; [|by simplify_eq/=].
    destruct (_ && _) eqn:Eb; simplify_eq/=. to_prop. by rewrite E.
  - unfold RequestQueue.wait_pop_best, RequestQueue.wait_ready in H.
    destruct (RequestQueue.queue_ (request_queue w)) eqn:E; [|by simplify_eq/=].
    destruct (_ && _) eqn:Eb; simplify_eq/=. to_prop. by rewrite E.
Qed.

(** ** The invariant *)

Section invariant.
Context (dir : bytes) (s : Scheduler) (p : Z) (st ct : Z).

(** What holds of a thread: the rest of its turn keeps the discipline. *)
Record thread_inv (w : world) (t : thread) (o : own) : Prop := {
  ti_code : match t_code t with
            | Some code => keeps dir (t_role t) all_returned code o
            | None => o = Leaving
            end;
  ti_gone : o = Leaving -> gone (t_role t) w;
  ti_closed : FdQueue.closed_ (fd_queue w) = true -> t_role t = Acceptor -> o = Leaving
}.

Record invariant (y : system) (os : list own) : Prop := {
  inv_threads : Forall2 (thread_inv (env y)) (threads y) os;
  inv_world : world_inv (env y) os;
  inv_roles : map t_role (threads y) = roles st ct;
  inv_main : (RequestQueue.closed_ (request_queue (env y)) = true) <-> (main_ y <> JoiningIntake);
  inv_intake : main_ y <> JoiningIntake -> intake_returned (threads y);
  inv_joined : main_ y = Joined -> all_threads_returned (threads y)
}.

Lemma roles_acceptor rs1 rs2 :
  roles st ct = rs1 ++ Acceptor :: rs2 -> (Acceptor ∉ rs1) /\ rs2 = [].
Proof.
  unfold roles. rewrite app_assoc. intros E.
  assert (~ Acceptor ∈ (replicate (Z.to_nat st) Worker ++
    replicate (Z.to_nat (parser_count ct)) Parser)) as Hn.
  { rewrite elem_of_app, !elem_of_replicate. naive_solver. }
  destruct rs2 as [|r rs2 _] using rev_ind.
  - apply app_inj_tail in E as [<- _]. done.
  - rewrite app_comm_cons, app_assoc in E. apply app_inj_tail in E as [E ->].
    rewrite E in Hn. set_solver.
Qed.

(** A thread in the middle of the list. *)
Lemma threads_split w ts os i t :
  Forall2 (thread_inv w) ts os -> ts !! i = Some t ->
  exists ts1 ts2 os1 o os2,
    ts = ts1 ++ t :: ts2 /\ os = os1 ++ o :: os2 /\
    Forall2 (thread_inv w) ts1 os1 /\ thread_inv w t o /\ Forall2 (thread_inv w) ts2 os2 /\
    length os1 = i /\ forall t', <[i := t']> ts = ts1 ++ t' :: ts2.
Proof.
  intros Hf Hi. destruct (list_elem_of_split_length ts i t Hi) as (ts1 & ts2 & -> & ->).
  apply Forall2_app_inv_l in Hf as (os1 & os2' & H1 & H2 & ->).
  apply Forall2_cons_inv_l in H2 as (o & os2 & H2 & H3 & ->).
  exists ts1, ts2, os1, o, os2. split_and!; try done.
  { by rewrite (Forall2_length _ _ _ H1). }
  intros t'.
  rewrite <- (Nat.add_0_r (length ts1)). by rewrite insert_app_r.
Qed.

(** Another thread than the caller keeps its part of the invariant. *)
Lemma thread_stable {A} (e : event A) a w w' os1 o o' os2 r t o1 :
  world_inv w (os1 ++ o :: os2) -> own_step dir r e a o = Some o' ->
  handle e w = Some (a, w') -> (r = Acceptor -> t_role t <> Acceptor) ->
  thread_inv w t o1 -> thread_inv w' t o1.
Proof.
  intros Hi Hs H Hr [Hcode Hgone Hclosed].
  split; [done|intros ->; by eapply gone_stable, Hgone|].
  destruct (handle_fdq e w a w' H) as [_ ->]. intros Hc Hro.
  apply orb_true_iff in Hc as [Hc|Hc]; [|by apply Hclosed].
  destruct e; simplify_eq/=. destruct r; try done. by destruct Hr.
Qed.

Lemma others_stable {A} (e : event A) a w w' os1 o o' os2 r ts1 c ts2 :
  world_inv w (os1 ++ o :: os2) -> own_step dir r e a o = Some o' ->
  handle e w = Some (a, w') -> map t_role (ts1 ++ mkThread r c :: ts2) = roles st ct ->
  Forall2 (thread_inv w) ts1 os1 -> Forall2 (thread_inv w) ts2 os2 ->
  Forall2 (thread_inv w') ts1 os1 /\ Forall2 (thread_inv w') ts2 os2.
Proof.
  intros Hi Hs H Hr H1 H2. rewrite map_app in Hr. simpl in Hr. symmetry in Hr.
  assert (forall t, t ∈ ts1 \/ t ∈ ts2 -> r = Acceptor -> t_role t <> Acceptor) as Hne.
  { intros t Ht -> Hro. apply roles_acceptor in Hr as [Hn Hnil]. apply map_eq_nil in Hnil as ->.
    destruct Ht as [Ht|Ht]; [|by apply elem_of_nil in Ht].
    destruct Hn. rewrite <- Hro. by apply list_elem_of_fmap_2. }
  split.
  - apply Forall2_same_length_lookup. apply Forall2_same_length_lookup in H1 as [? H1].
    split; [done|]. intros i t o1 Ht Ho. eapply thread_stable; eauto.
    intros. apply Hne; [|done]. left. by eapply list_elem_of_lookup_2.
  - apply Forall2_same_length_lookup. apply Forall2_same_length_lookup in H2 as [? H2].
    split; [done|]. intros i t o1 Ht Ho. eapply thread_stable; eauto.
    intros. apply Hne; [|done]. right. by eapply list_elem_of_lookup_2.
Qed.

Lemma turn_keeps r : p < 2 ^ 31 -> keeps dir r all_returned (turn dir s p r) Idle.
Proof.
  intros Hp. destruct r; [apply keeps_acceptor_turn|apply keeps_parser_turn|].
  by apply keeps_worker_turn.
Qed.

(** Replacing the code of a thread that is inside its loop. *)
Lemma returned_middle ts1 ts2 r code code' :
  (intake_returned (ts1 ++ mkThread r (Some code) :: ts2) ->
   intake_returned (ts1 ++ mkThread r code' :: ts2)) /\
  (all_threads_returned (ts1 ++ mkThread r (Some code) :: ts2) -> False).
Proof.
  unfold intake_returned, all_threads_returned. rewrite !Forall_app, !Forall_cons. simpl.
  split; [|naive_solver]. intros (H1 & [H2|H2] & H3); [|done]. by split_and!; try left.
Qed.

(** A change of one thread. *)
Lemma invariant_thread w w' m ts1 r code code' ts2 os1 o o' os2 :
  invariant (mkSystem w (ts1 ++ mkThread r (Some code) :: ts2) m) (os1 ++ o :: os2) ->
  Forall2 (thread_inv w') ts1 os1 -> Forall2 (thread_inv w') ts2 os2 ->
  thread_inv w' (mkThread r code') o' -> world_inv w' (os1 ++ o' :: os2) ->
  RequestQueue.closed_ (request_queue w') = RequestQueue.closed_ (request_queue w) ->
  invariant (mkSystem w' (ts1 ++ mkThread r code' :: ts2) m) (os1 ++ o' :: os2).
Proof.
  intros [Ht Hw Hr Hm Hi Hj] H1 H2 H3 Hw' Hc. simpl in *.
  destruct (returned_middle ts1 ts2 r code code') as [R1 R2]. split; simpl.
  - by apply Forall2_app; [|constructor].
  - done.
  - rewrite <- Hr, !map_app. done.
  - by rewrite Hc.
  - intros Hne. apply R1, Hi, Hne.
  - intros E. by destruct R2; apply Hj.
Qed.

(** What a step changes: nothing that the threads share or own but the closing of
    the request queue, or what a call of one thread does. *)
Inductive change (y y' : system) (os os' : list own) : Prop :=
  | change_nothing :
      os' = os -> socks (env y') = socks (env y) -> fd_queue (env y') = fd_queue (env y) ->
      RequestQueue.queue_ (request_queue (env y')) = RequestQueue.queue_ (request_queue (env y)) ->
      change y y' os os'
  | change_call ro (A : Type) (e : event A) a os1 o o' os2 :
      map t_role (threads y) !! length os1 = Some ro ->
      os = os1 ++ o :: os2 -> os' = os1 ++ o' :: os2 ->
      own_step dir ro e a o = Some o' -> handle e (env y) = Some (a, env y') ->
      change y y' os os'.

(** A call of thread [i]: only what this thread owns changes. *)
Lemma invariant_call y y' i A (e : event A) a os :
  invariant y os -> calls i e a y y' ->
  exists ro os1 o o' os2,
    length os1 = i /\ map t_role (threads y) !! i = Some ro /\ os = os1 ++ o :: os2 /\
    own_step dir ro e a o = Some o' /\ invariant y' (os1 ++ o' :: os2).
Proof.
  intros Hinv (r & k & Hi & H & ->). destruct y as [w ts m], y' as [w' ts' m']. simpl in *.
  pose proof (inv_threads _ _ Hinv) as Ht. simpl in Ht.
  destruct (threads_split w ts os i _ Ht Hi)
    as (ts1 & ts2 & os1 & o & os2 & -> & -> & H1 & [Hcode Hgone Hclosed] & H2 & Hlen & ->).
  pose proof (inv_world _ _ Hinv) as Hw. pose proof (inv_roles _ _ Hinv) as Hr. simpl in *.
  pose proof (Hcode a (wi_possible e a w w' _ Hw H)) as Hk.
  destruct (own_step dir r e a o) as [o'|] eqn:Hs; [|done].
  exists r, os1, o, o', os2. split_and!; try done.
  { rewrite <- Hlen, map_app, <- (Forall2_length _ _ _ H1), <- (length_map t_role), lookup_app_r by done.
    by rewrite Nat.sub_diag. }
  destruct (others_stable e a w w' os1 o o' os2 r ts1 _ ts2 Hw Hs H Hr H1 H2).
  destruct (call_rq e a w w' os1 o o' os2 dir r Hw Hs H) as (_ & _ & Hc).
  eapply invariant_thread; try done; [|by eapply call_world].
  split; simpl; [done| |].
  - intros ->. destruct (decide (o = Leaving)) as [->|Hne].
    + eapply gone_stable; eauto.
    + by eapply gone_new.
  - destruct (handle_fdq e w a w' H) as [_ ->]. intros Hfc ->.
    apply orb_true_iff in Hfc as [Hfc|Hfc].
    + destruct e; simplify_eq/=. by destruct o; simplify_eq.
    + specialize (Hclosed Hfc eq_refl). subst o.
      destruct e; simplify_eq/=; try done; unfold popped in *; repeat case_match; simplify_eq/=; done.
Qed.

(** The other steps change nothing that a thread owns. *)
Lemma invariant_silent y y' os :
  p < 2 ^ 31 -> invariant y os -> silent_step dir s p y y' -> invariant y' os.
Proof.
  intros Hp Hinv Hstep. destruct Hstep.
  - pose proof (inv_threads _ _ Hinv) as Ht. simpl in Ht.
    destruct (threads_split w ts os i _ Ht H)
      as (ts1 & ts2 & os1 & o & os2 & -> & -> & H1 & [Hcode Hgone Hclosed] & H2 & _ & ->).
    simpl in *. unfold all_returned in Hcode. subst o.
    eapply invariant_thread; try done; [|by apply (inv_world _ _ Hinv)].
    by split; [apply turn_keeps|..].
  - pose proof (inv_threads _ _ Hinv) as Ht. simpl in Ht.
    destruct (threads_split w ts os i _ Ht H)
      as (ts1 & ts2 & os1 & o & os2 & -> & -> & H1 & [Hcode Hgone Hclosed] & H2 & _ & ->).
    simpl in *. unfold all_returned in Hcode. subst o.
    eapply invariant_thread; try done. by apply (inv_world _ _ Hinv).
  - destruct Hinv as [Ht [] Hr Hm Hi Hj]. simpl in *. split; simpl; try done.
    eapply Forall2_impl; [exact Ht|]. intros t o [Hc Hg Hcl]. split; [done| |done].
    intros Ho. specialize (Hg Ho). by destruct (t_role t); field_simpl; destruct_and?.
  - destruct Hinv as [Ht Hw Hr Hm Hi Hj]. simpl in *. split; simpl; try done.
    + rewrite Hm. by split.
    + intros _. by apply Hi.
  - destruct Hinv as [Ht [] Hr Hm Hi Hj]. simpl in *.
    split; simpl; try done. eapply Forall2_impl; [exact Ht|]. by intros t o [].
Qed.

Lemma invariant_step y y' os :
  p < 2 ^ 31 -> invariant y os -> step dir s p y y' ->
  exists os', invariant y' os' /\ change y y' os os'.
Proof.
  intros Hp Hinv [(i & A & e & a & Hcall)|Hsilent]%step_cases.
  - destruct (invariant_call y y' i A e a os Hinv Hcall)
      as (ro & os1 & o & o' & os2 & Hlen & Hro & -> & Hs & Hinv').
    exists (os1 ++ o' :: os2). split; [done|]. destruct Hcall as (r & k & _ & H & _).
    eapply (change_call _ _ _ _ ro A e); try done. by rewrite Hlen.
  - exists os. split; [by eapply invariant_silent|]. by apply change_nothing; destruct Hsilent.
Qed.

Lemma invariant_start w :
  sane_counts p st ct -> fresh_objects w ->
  invariant (start dir s p w st ct) (replicate (length (roles st ct)) Idle).
Proof.
  intros (Hst & Hct & Hp) (Hf & Hs & Hrq & Hfd & Hnext & Hgiven & _). unfold start. split; simpl; try done.
  - apply Forall2_same_length_lookup. rewrite length_map, length_replicate. split; [done|].
    intros i t o Ht Ho. apply lookup_replicate in Ho as [-> _].
    apply list_lookup_fmap_Some in Ht as (r & -> & _). split; simpl; [|done|by rewrite Hfd].
    by apply turn_keeps.
  - assert (concat (map owned_fd (replicate (length (roles st ct)) Idle)) = []) as E.
    { generalize (length (roles st ct)) as n. induction n; done. }
    assert (open_fds w = []) as Eo by (unfold open_fds; by rewrite Hs).
    split; rewrite ?E, ?Eo; try done; unfold held; rewrite ?Hrq, ?Hfd; try done.
    + simpl. generalize (length (roles st ct)) as n. induction n; done.
    + unfold zlen, roles, parser_count. rewrite length_replicate, !length_app, !length_replicate.
      simpl. lia.
    + by rewrite Hnext, Hgiven.
    + intros _. assert (live_ids w (replicate (length (roles st ct)) Idle) = []) as ->.
      2: { split; [by apply NoDup_nil|done]. }
      unfold live_ids. rewrite Hrq. simpl. rewrite app_nil_r. generalize (length (roles st ct)) as n.
      induction n; done.
  - rewrite map_map. simpl. by rewrite map_id.
  - rewrite Hrq. done.
Qed.

Lemma invariant_reachable y :
  reachable dir s p st ct y -> exists os, invariant y os.
Proof.
  intros (Hc & w & Hw & Hsteps).
  assert (forall y1 y2, rtc (step dir s p) y1 y2 -> forall os, invariant y1 os ->
    exists os', invariant y2 os') as Hrtc.
  { induction 1 as [y1|y1 y2 y3 Hstep _ IH]; intros os Hinv; [eauto|].
    destruct (invariant_step _ _ _ (proj2 (proj2 Hc)) Hinv Hstep) as (os1 & ? & _). eauto. }
  eapply Hrtc; [exact Hsteps|]. by apply invariant_start.
Qed.

End invariant.
