(* ===== verification/Demo.v ===== *)
(** A concrete run of the server, which the witnesses of the files Lifecycle and
    Safety use.

    Two workers, eight parsers and the acceptor (threads 0-1, 2-9 and 10; 11 is
    [main]) serve two uploads of the same name and a download under RR with a
    quantum of one byte. *)

From S2P Require Import Prelude Text Queue Scheduling Metrics Effects FileIO Socket Protocol.
From S2P Require Import Server Threads Ownership System.

Local Open Scope Z_scope.

Definition demo_dir : bytes := str "d".

Definition demo_scheduler : Scheduler := mkScheduler RR 1.

Definition demo_world : world :=
  mkWorld {[ str "d/a" := File (str "one" ++ [newline] ++ str "two" ++ [newline]) ]} ∅ []
    [Connection 4 [Arrive (str "PUT b 3" ++ [newline] ++ str "xy"); Arrive (str "z")] [];
     Connection 5 [Arrive (str "GET a" ++ [newline])] [];
     Connection 6 [Arrive (str "PUT b 2" ++ [newline] ++ str "pq")] []]
    1000 [] [] RequestQueue.new FdQueue.new 1 0 [] false.

Definition demo_start : system := start demo_dir demo_scheduler 1 demo_world 2 1.

(** A list of how often which thread moves. *)
Definition moves (l : list (nat * nat)) : list nat :=
  concat (map (fun '(n, i) => replicate n i) l).

Definition demo_run (l : list (nat * nat)) : system :=
  schedule demo_dir demo_scheduler 1 (moves l) demo_start.

(** The three connections are accepted and their requests are in the queue. *)
Definition demo_intake : list (nat * nat) := [(30, 10); (60, 2); (60, 3); (60, 4)]%nat.

(** A signal arrives then, and the server runs to its end. *)
Definition demo_end : system :=
  let y := demo_run demo_intake in
  schedule demo_dir demo_scheduler 1
    (moves ([(5, 10)] ++ map (fun i => (5, i)) (seq 2 8) ++
      [(1, 11); (400, 0); (5, 1); (1, 11)])%nat)
    (mkSystem (handle_signal (env y)) (threads y) (main_ y)).

Lemma demo_fresh : sane_counts 1 2 1 /\ fresh_objects demo_world.
Proof.
  split; [by vm_compute|]. split_and!; try done. apply map_Forall_singleton. by vm_compute.
Qed.

Lemma demo_reachable l : reachable demo_dir demo_scheduler 1 2 1 (demo_run l).
Proof.
  split; [apply demo_fresh|]. exists demo_world. split; [apply demo_fresh|apply schedule_sound].
Qed.

Lemma demo_end_reachable : reachable demo_dir demo_scheduler 1 2 1 demo_end.
Proof.
  split; [apply demo_fresh|]. exists demo_world.
  split; [apply demo_fresh|apply schedule_signal_sound].
Qed.

(** The run ends with every request served: what was sent on each connection, the
    last upload to be committed, and the ids in the order of completion. *)
Example demo_end_result :
  main_ demo_end = Joined /\
  map (fun '(fd, c) => (fd, sent c)) (closed_socks (env demo_end)) =
    [(4, ok_line 0 ++ ok_line 0); (6, ok_line 0 ++ ok_line 0);
     (5, ok_line 8 ++ str "one" ++ [newline] ++ str "two" ++ [newline])] /\
  files (env demo_end) !! str "d/b" = Some (File (str "xyz")) /\
  map m_request_id (records_ (env demo_end)) = [2; 3; 1].
Proof. by vm_compute. Qed.

