(* ===== verification/Launch.v ===== *)
(** The beginning and the end of [main] in [src/main.cpp]: the command line, the
    checks of its options, the configuration file and the construction of the
    scheduler, up to the state in which the threads are started; and the report
    after the joins.  What is in between is in the file System. *)

From S2P Require Import Prelude Text Json Grammar Queue Scheduling Metrics Effects FileIO Config.
From S2P Require Import Report Socket Protocol Server Threads Ownership System Demo.

Local Open Scope Z_scope.

(** The local variables that the command line sets. *)
Record Options := mkOptions {
  config_path : bytes;
  sched_policy : bytes;
  dir_option : bytes;
  metrics_out : bytes;
  quantum : Z;
  packetization : Z;
  quantum_set : bool
}.

#[export] Instance eta_Options : Eta Options := fun o =>
  mkOptions (config_path o) (sched_policy o) (dir_option o) (metrics_out o) (quantum o)
    (packetization o) (quantum_set o).

Definition default_options : Options :=
  mkOptions (str "config.json") [] [] (str "metrics.csv") 0 1 false.

(** The loop over [argv]; the text of an exception is what is written to
    [std::cerr] before the exit with status 1. *)
Fixpoint parse_args (args : list bytes) (o : Options) : result Options :=
  match args with
  | [] => Ok o
  | flag :: rest =>
      let need_value (k : bytes -> result Options) : result Options :=
        match rest with
        | [] => Throw (str "error: missing value for " ++ flag)
        | v :: _ => k v
        end in
      let after (o : Options) : result Options :=
        match rest with [] => Ok o | _ :: rest => parse_args rest o end in
      if beq flag (str "--config") then need_value (fun v => after (o <| config_path := v |>))
      else if beq flag (str "--sched") then need_value (fun v => after (o <| sched_policy := v |>))
      else if beq flag (str "--file") then need_value (fun v => after (o <| dir_option := v |>))
      else if beq flag (str "--quantum") then
        need_value (fun v =>
          match stoull v with
          | Ok n => after (o <| quantum_set := true |> <| quantum := n |>)
          | Throw _ => Throw (str "error: invalid --quantum")
          end)
      else if beq flag (str "--p") then
        need_value (fun v =>
          match stoi v with
          | Ok n => after (o <| packetization := n |>)
          | Throw _ => Throw (str "error: invalid --p")
          end)
      else if beq flag (str "--metrics-out") then
        need_value (fun v => after (o <| metrics_out := v |>))
      else Throw (str "error: unknown or incomplete argument: " ++ flag)
  end.

Definition needs_quantum (policy : bytes) : bool :=
  beq policy (str "rr") || beq policy (str "drr").

Definition check_options (o : Options) : result SchedulingPolicy :=
  if beq (sched_policy o) [] then Throw (str "error: missing required flag '--sched'")
  else if beq (dir_option o) [] then Throw (str "error: missing required flag '--file'")
  else if packetization o <=? 0 then Throw (str "error: --p must be a positive integer")
  else
    match parse_scheduling_policy (sched_policy o) with
    | Throw e => Throw (str "error: " ++ e)
    | Ok policy =>
        if needs_quantum (sched_policy o) && (negb (quantum_set o) || (quantum o =? 0))
        then Throw (str "error: --quantum required for " ++ sched_policy o)
        else if (beq (sched_policy o) (str "fcfs") || beq (sched_policy o) (str "sjf")) &&
                quantum_set o
        then Throw (str "error: --quantum not allowed for " ++ sched_policy o)
        else Ok policy
    end.

(** How [main] goes on: it exits with a message and status 1, it is terminated by
    the exception of the constructor of [Scheduler], or it has what it needs to
    start the threads. *)
Inductive launched :=
  | Exit (message : bytes)
  | Terminate (what : bytes)
  | Started (o : Options) (s : Scheduler) (cfg : Config).

Definition launch (args : list bytes) : prog launched :=
  match parse_args args default_options with
  | Throw e => Ret (Exit e)
  | Ok o =>
      match check_options o with
      | Throw e => Ret (Exit e)
      | Ok policy =>
          cfg ← load_config (config_path o) false;
          match cfg with
          | Throw e => Ret (Exit e)
          | Ok cfg =>
              match new_Scheduler policy (quantum o) with
              | Throw e => Ret (Terminate e)
              | Ok s => Ret (Started o s cfg)
              end
          end
      end
  end.

(** [main] from the listening socket on, in the world [w]. *)
Definition started (o : Options) (s : Scheduler) (cfg : Config) (w : world) : system :=
  start (dir_option o) s (packetization o) w (server_threads (server cfg))
    (client_threads (server cfg)).

(** [main] past the joins: what the summary prints, and whether the CSV file was
    written; a failure is only a message. *)
Definition epilogue `{!StdSort} (o : Options) (metrics : list RequestMetrics)
    : prog (Z * option Summary * bool) :=
  let summary := print_summary metrics in
  written ← write_csv metrics (metrics_out o);
  _ ← close_socket listen_socket;
  Ret (summary, written).

(** ** Lemmas *)

Lemma run_load_config path required w :
  exists res, run (load_config path required) w = Done res (next_fault w).2 /\
    forall c, res = Ok c -> exists root, describes required root c.
Proof.
  unfold load_config. rewrite run_bind. unfold if_open. rewrite run_bind, run_call.
  cbn [handle]. unfold open_read. destruct (next_fault w) as [fault w1]. rewrite run_ret.
  assert (Hopen : forall n, exists res,
    run (match n with
         | None => Ret (Throw (str "error: could not open config file '" ++ path ++ str "'"))
         | Some file =>
             match parse (rest_of_file file) with
             | None => OutOfFuel
             | Some (Throw e) => Ret (Throw e)
             | Some (Ok root) => Ret (config_of_json required root)
             end
         end) w1 = Done res w1 /\
    forall c, res = Ok c -> exists root, describes required root c).
  { intros [file|]; [|by eexists; split].
    pose proof (parse_answers (rest_of_file file)) as Ha.
    destruct (parse _) as [[root|e]|]; [|by eexists; split|done].
    eexists. split; [done|]. intros c Hc. exists root. by apply config_of_json_ok. }
  apply Hopen.
Qed.

Lemma next_fault_fresh w : fresh_objects w -> fresh_objects (next_fault w).2.
Proof. unfold fresh_objects, files_ok, next_fault. by destruct w as [? ? ? ? ? ? []]. Qed.

Lemma stoull_range s n : stoull s = Ok n -> is_u64 n.
Proof.
  unfold stoull. destruct (scan_number s) as [neg ds] eqn:E.
  destruct (beq ds []); [done|]. destruct (Z.ltb_spec (dec_value ds) (2 ^ 64)); [|done].
  intros. simplify_eq. destruct neg; [apply u64_range|].
  assert (Forall (fun c => isdigit c = true) ds) as Hd%dec_value_nonneg; [|by split].
  assert (Hall : forall t, Forall (fun c => isdigit c = true) (span_digits t)).
  { clear. induction t as [|c t IH]; [constructor|]. simpl.
    destruct (isdigit c) eqn:Hc; [by constructor|constructor]. }
  unfold scan_number in E. destruct (skip_space s); simplify_eq; [constructor|].
  repeat case_match; simplify_eq; apply Hall.
Qed.

Lemma stoi_range s n : stoi s = Ok n -> - 2 ^ 31 <= n < 2 ^ 31.
Proof.
  unfold stoi. destruct (scan_number s) as [neg ds]. intros H. repeat case_match; simplify_eq; to_prop; lia.
Qed.

(** The options that [parse_args] builds fit their types. *)
Definition options_typed (o : Options) : Prop :=
  is_u64 (quantum o) /\ - 2 ^ 31 <= packetization o < 2 ^ 31 /\
  (quantum_set o = false -> quantum o = 0).

Lemma parse_args_typed args o o' :
  parse_args args o = Ok o' -> options_typed o -> options_typed o'.
Proof.
  revert o. induction args as [args IH] using (induction_ltof1 _ length). unfold ltof in IH.
  intros o H Ho. destruct args as [|flag rest]; simpl in H; [by simplify_eq|].
  destruct rest as [|v rest].
  { repeat case_match; done. }
  assert (Hrest : forall o1, parse_args rest o1 = Ok o' -> options_typed o1 -> options_typed o')
    by (intros; eapply (IH rest); simpl; (done || lia)).
  repeat case_match; simplify_eq; (eapply Hrest; [exact H|]); destruct o, Ho as (? & ? & ?);
    unfold options_typed; field_simpl; (split; [|split]);
    try assumption; try discriminate; eauto using stoull_range, stoi_range.
Qed.

Lemma check_options_spec o policy :
  check_options o = Ok policy -> options_typed o ->
  dir_option o <> [] /\ 0 < packetization o /\
  parse_scheduling_policy (sched_policy o) = Ok policy /\
  ((policy = RR \/ policy = DRR) -> quantum_set o = true /\ 0 < quantum o) /\
  ((policy = FCFS \/ policy = SJF) -> quantum o = 0).
Proof.
  unfold check_options, needs_quantum. intros H (Hq & _ & Hset). unfold is_u64 in Hq.
  destruct (beq (sched_policy o) []); [done|].
  destruct (beq (dir_option o) []) eqn:Hdir; [done|]. apply beq_false in Hdir.
  destruct (Z.leb_spec (packetization o) 0); [done|].
  destruct (parse_scheduling_policy (sched_policy o)) as [p|] eqn:Hp; [|done].
  assert (Hname : sched_policy o = match p with
    | FCFS => str "fcfs" | SJF => str "sjf" | RR => str "rr" | DRR => str "drr" end).
  { unfold parse_scheduling_policy in Hp. repeat case_match; simplify_eq; by apply beq_spec. }
  rewrite Hname in H. split_and!; try done.
  all: destruct p; vm_compute (beq _ _) in H; simpl in H;
    destruct (quantum_set o); destruct (Z.eqb_spec (quantum o) 0); simpl in H; simplify_eq;
    try done.
  all: intros [?|?]; try done; first [by auto | split; [done|lia]].
Qed.

(** ** Theorem *)

(** C19: what the threads are given is well typed and in range. On every command
    line and configuration file, [main] exits with a message or starts the server;
    the constructor of [Scheduler] is never reached with a zero quantum, so that
    its exception never terminates the program. When the server is started, the
    quantum is an [uint64_t], positive under RR and DRR and zero otherwise, the
    packetization and the thread counts are positive [int]s, the port is a port,
    and the started system satisfies the hypotheses of the theorems on reachable
    states. *)
Theorem launch_establishes_types args w :
  fresh_objects w ->
  exists out w', run (launch args) w = Done out w' /\
    match out with
    | Exit _ => True
    | Terminate _ => False
    | Started o s cfg =>
        wf_scheduler s /\ (policy_ s = FCFS \/ policy_ s = SJF -> quantum_ s = 0) /\
        parse_scheduling_policy (sched_policy o) = Ok (policy_ s) /\
        dir_option o <> [] /\ 0 < packetization o < 2 ^ 31 /\
        is_port (server_port (server cfg)) /\
        1 <= server_threads (server cfg) < 2 ^ 31 /\ 1 <= client_threads (server cfg) < 2 ^ 31 /\
        reachable (dir_option o) s (packetization o) (server_threads (server cfg))
          (client_threads (server cfg)) (started o s cfg w')
    end.
Proof.
  intros Hw. unfold launch.
  destruct (parse_args args default_options) as [o|e] eqn:Ha; [|by eexists _, w].
  apply parse_args_typed in Ha as Ht; [|done].
  destruct (check_options o) as [policy|e] eqn:Hc; [|by eexists _, w].
  destruct (check_options_spec o policy Hc Ht) as (Hdir & Hp & Hpol & Hrr & Hff).
  destruct (run_load_config (config_path o) false w) as (res & Hl & Hres).
  rewrite run_bind, Hl. destruct res as [cfg|e]; [|by eexists _, _].
  destruct (Hres cfg eq_refl) as (root & (sj & _ & Hs) & _).
  apply describes_server_range in Hs as (Hport & Hst & Hct).
  destruct (new_Scheduler policy (quantum o)) as [s|e] eqn:Hn.
  - eexists _, _. split; [done|].
    pose proof (new_Scheduler_wf _ _ _ Hn (proj1 Ht)) as Hwf.
    assert (s = mkScheduler policy (quantum o)) as -> by (unfold new_Scheduler in Hn; by case_match; simplify_eq).
    destruct Ht as (_ & Hpt & _). split_and!; try done; try lia.
    split; [split_and!; lia|]. exists (next_fault w).2. split; [by apply next_fault_fresh|done].
  - unfold new_Scheduler in Hn. destruct (_ && _) eqn:E; [|done]. to_prop.
    destruct policy; simpl in *; try done; destruct Hrr as [_ ?]; auto; lia.
Qed.

(** ** Examples *)

Definition sample_args (quantum : bytes) : list bytes :=
  [str "--sched"; str "drr"; str "--file"; str "files"; str "--quantum"; quantum].

Lemma launch_witness :
  exists out w', run (launch (sample_args (str "4096"))) (sample_file (sample_text (str "9000"))) =
      Done out w' /\
    out = Started (mkOptions (str "config.json") (str "drr") (str "files") (str "metrics.csv") 4096 1
            true) (mkScheduler DRR 4096) (sample_config 9000).
Proof.
  destruct (launch_establishes_types (sample_args (str "4096"))
    (sample_file (sample_text (str "9000")))) as (out & w' & H & _).
  - split_and!; try done. unfold files_ok, sample_file. simpl. apply map_Forall_singleton. by vm_compute.
  - exists out, w'. split; [exact H|].
    assert (E : match run (launch (sample_args (str "4096"))) (sample_file (sample_text (str "9000")))
      with Done out _ => Some out | _ => None end = Some out) by by rewrite H.
    vm_compute in E. by injection E.
Defined.

(** [stoull] accepts a sign: a quantum of -1 is taken as 2^64 - 1. *)
Example negative_quantum_is_accepted :
  match run (launch (sample_args (str "-1"))) (sample_file (sample_text (str "9000"))) with
  | Done (Started _ s _) _ => s = mkScheduler DRR (2 ^ 64 - 1)
  | _ => False
  end.
Proof. by vm_compute. Qed.

(** After the run of the file Demo, the CSV file has a line for each of the three
    requests, in the order of their ids, and the summary counts them. *)
Example demo_report :
  match run (epilogue default_options (records_ (env demo_end))) (env demo_end) with
  | Done (summary, written) w =>
      written = true /\ summary.1 = 3 /\
      option_map (fun n => match n with File c => lines c | Directory _ => [] end)
        (files w !! str "metrics.csv") =
      Some (csv_header :: map csv_row
        [nth 2 (records_ (env demo_end)) (sample_record 0);
         nth 0 (records_ (env demo_end)) (sample_record 0);
         nth 1 (records_ (env demo_end)) (sample_record 0)])
  | _ => False
  end.
Proof. by vm_compute. Qed.
