(* ===== verification/Lifecycle.v ===== *)
(** What the server promises about a connection, as an abstract machine, and the
    proof that the running server of the file System implements it.

    The machine knows nothing of threads, queues and calls: it maps each open
    connection to the place where it is in its life.  [lifecycle] says which
    moves there are and how many requests may be in service at a time.  The
    server refines it: a run of the server, step by step, is a run of the
    machine, and the machine shows which sockets are open, what is in the two
    queues and how many rounds are in progress. *)

From S2P Require Import Prelude Text Queue Scheduling Metrics Effects FileIO Socket Protocol.
From S2P Require Import Server Threads Ownership System Demo.

Local Open Scope Z_scope.

(** ** The abstract machine *)

Inductive place :=
  | Accepted             (* by the acceptor *)
  | Waiting              (* for a parser, in the queue of descriptors *)
  | Reading              (* a parser reads the request *)
  | Queued (j : job)     (* in the request queue *)
  | InService (j : job)  (* a worker serves a round *)
  | Ending.              (* the request is completed, the connection not closed yet *)

#[export] Instance place_eq_dec : EqDecision place.
Proof. solve_decision. Defined.

Abbreviation board := (gmap Z place).

Definition serves_round (p : place) : bool := match p with InService _ => true | _ => false end.

(** A request that goes round again is the same request. *)
Inductive next_place (fd : Z) : place -> place -> Prop :=
  | next_waiting : next_place fd Accepted Waiting
  | next_reading : next_place fd Waiting Reading
  | next_admitted j : job_fd j = fd -> next_place fd Reading (Queued j)
  | next_served j : next_place fd (Queued j) (InService j)
  | next_again j : next_place fd (InService j) (Queued j)
  | next_ending j : next_place fd (InService j) Ending.

(** A connection is closed when it is refused, when its request cannot be read and
    when its request is completed; never while it is queued or in service. *)
Definition may_end (p : place) : bool :=
  match p with Accepted | Reading | Ending => true | _ => false end.

Definition rounds_in (l : list (Z * place)) : Z :=
  zlen (filter (fun x => serves_round x.2 = true) l).

Definition in_service (m : board) : Z := rounds_in (map_to_list m).

Inductive lifecycle (workers : Z) (m : board) : board -> Prop :=
  | connection_opens fd : m !! fd = None -> lifecycle workers m (<[fd := Accepted]> m)
  | connection_moves fd p p' :
      m !! fd = Some p -> next_place fd p p' ->
      (serves_round p' = true -> in_service m < workers) ->
      lifecycle workers m (<[fd := p']> m)
  | connection_closes fd p :
      m !! fd = Some p -> may_end p = true -> lifecycle workers m (delete fd m).

(** What the machine shows of the server. *)
Record shows (m : board) (w : world) : Prop := {
  shows_open : dom m = dom (socks w);
  shows_waiting fd : m !! fd = Some Waiting <-> fd ∈ FdQueue.queue_ (fd_queue w);
  shows_queued fd j : m !! fd = Some (Queued j) <->
    exists r, r ∈ RequestQueue.queue_ (request_queue w) /\ client_fd r = fd /\ job_of r = j;
  shows_rounds : in_service m = RequestQueue.inflight_ (request_queue w)
}.

(** ** Where the connections of a state of the server are *)

Definition places (r : role) (o : own) : list (Z * place) :=
  match o with
  | Idle | Leaving => []
  | Holding fd _ => [(fd, match r with Acceptor => Accepted | _ => Reading end)]
  | Serving j => [(job_fd j, InService j)]
  | Closing fd => [(fd, Ending)]
  end.

Definition waits (fd : Z) : Z * place := (fd, Waiting).
Definition queued (r : Request) : Z * place := (client_fd r, Queued (job_of r)).

Definition entries (rs : list role) (os : list own) (w : world) : list (Z * place) :=
  concat (zip_with places rs os) ++ map waits (FdQueue.queue_ (fd_queue w)) ++
  map queued (RequestQueue.queue_ (request_queue w)).

(** Only workers serve. *)
Definition fits (r : role) (o : own) : Prop := is_serving o = true -> r = Worker.

(** ** Lemmas *)

Lemma rounds_in_app l k : rounds_in (l ++ k) = rounds_in l + rounds_in k.
Proof. unfold rounds_in. by rewrite filter_app, zlen_app. Qed.

Lemma rounds_in_perm l k : l ≡ₚ k -> rounds_in l = rounds_in k.
Proof. unfold rounds_in, zlen. by intros ->. Qed.

Lemma rounds_in_one fd p : rounds_in [(fd, p)] = Z.b2z (serves_round p).
Proof. by destruct p. Qed.

Lemma rounds_in_waits l : rounds_in (map waits l) = 0.
Proof. unfold rounds_in. induction l; [done|]. simpl. by rewrite filter_cons_False. Qed.

Lemma rounds_in_queued l : rounds_in (map queued l) = 0.
Proof. unfold rounds_in. induction l; [done|]. simpl. by rewrite filter_cons_False. Qed.

Lemma serving_count_cons o os :
  serving_count (o :: os) = Z.b2z (is_serving o) + serving_count os.
Proof. apply (serving_count_middle [] o os). Qed.

Lemma rounds_in_places rs os :
  length rs = length os -> rounds_in (concat (zip_with places rs os)) = serving_count os.
Proof.
  revert os. induction rs as [|r rs IH]; intros [|o os] Hl; simplify_eq/=; [done|].
  rewrite rounds_in_app, IH by done. rewrite serving_count_cons.
  f_equal. destruct o; [done|by destruct r|done..].
Qed.

Lemma rounds_in_entries rs os w :
  length rs = length os -> rounds_in (entries rs os w) = serving_count os.
Proof.
  intros Hl. unfold entries. rewrite !rounds_in_app, rounds_in_waits, rounds_in_queued.
  rewrite rounds_in_places by done. lia.
Qed.

Lemma entries_fds rs os w :
  length rs = length os -> (entries rs os w).*1 = concat (map owned_fd os) ++ held w.
Proof.
  intros Hl. unfold entries, held. rewrite !fmap_app. f_equal; [|f_equal].
  - revert os Hl. induction rs as [|r rs IH]; intros [|o os] Hl; simplify_eq/=; [done|].
    rewrite fmap_app, IH by done. f_equal. by destruct o.
  - rewrite <- list_fmap_compose. by induction (FdQueue.queue_ (fd_queue w)); f_equal/=.
  - rewrite <- list_fmap_compose. by induction (RequestQueue.queue_ (request_queue w)); f_equal/=.
Qed.

Lemma serving_count_workers rs os :
  Forall2 fits rs os -> serving_count os <= zlen (filter (fun r => r = Worker) rs).
Proof.
  induction 1 as [|r o rs os Hf _ IH]; [done|].
  rewrite serving_count_cons, filter_cons. unfold fits in Hf.
  destruct (is_serving o) eqn:E; simpl.
  - rewrite decide_True by auto. rewrite zlen_cons. lia.
  - case_decide; rewrite ?zlen_cons; lia.
Qed.

(** *** What a call does to the places *)

Definition put_entries {A} (e : event A) (a : A) : list (Z * place) :=
  map waits (fd_put e a) ++ map queued (rq_put e a).

Definition taken_entries {A} (e : event A) (a : A) : list (Z * place) :=
  map waits (fd_taken e a) ++ map queued (rq_taken e a).

(** From the entries [E] to [E']. *)
Inductive moves_entries (E E' : list (Z * place)) : Prop :=
  | entries_same : E ≡ₚ E' -> moves_entries E E'
  | entry_opens fd : (fd, Accepted) :: E ≡ₚ E' -> moves_entries E E'
  | entry_moves fd p p' :
      next_place fd p p' -> (fd, p') :: E ≡ₚ (fd, p) :: E' -> moves_entries E E'
  | entry_closes fd p : may_end p = true -> E ≡ₚ (fd, p) :: E' -> moves_entries E E'.

Lemma moves_entries_app l E E' : moves_entries E E' -> moves_entries (l ++ E) (l ++ E').
Proof.
  intros [H|fd H|fd p p' Hn H|fd p Hm H].
  - apply entries_same. by rewrite H.
  - apply (entry_opens _ _ fd). rewrite <- H. apply Permutation_middle.
  - apply (entry_moves _ _ fd p p'); [done|]. rewrite !Permutation_middle. by rewrite H.
  - apply (entry_closes _ _ fd p); [done|]. rewrite H. by rewrite Permutation_middle.
Qed.

Lemma moves_entries_cancel l E E' : moves_entries (l ++ E) (l ++ E') -> moves_entries E E'.
Proof.
  intros [H|fd H|fd p p' Hn H|fd p Hm H].
  - apply entries_same. by apply (inj (l ++.)) in H.
  - apply (entry_opens _ _ fd). rewrite Permutation_middle in H. by apply (inj (l ++.)) in H.
  - apply (entry_moves _ _ fd p p'); [done|]. rewrite !Permutation_middle in H.
    by apply (inj (l ++.)) in H.
  - apply (entry_closes _ _ fd p); [done|]. rewrite Permutation_middle in H.
    by apply (inj (l ++.)) in H.
Qed.

#[export] Instance moves_entries_proper : Proper ((≡ₚ) ==> (≡ₚ) ==> iff) moves_entries.
Proof.
  assert (forall E1 E2 E1' E2', E1 ≡ₚ E2 -> E1' ≡ₚ E2' -> moves_entries E1 E1' ->
    moves_entries E2 E2') as H.
  { intros E1 E2 E1' E2' HE HE' [H|fd H|fd p p' Hn H|fd p Hm H]; rewrite HE, HE' in H.
    - by apply entries_same.
    - by apply (entry_opens _ _ fd).
    - by apply (entry_moves _ _ fd p p').
    - by apply (entry_closes _ _ fd p). }
  intros E1 E2 HE E1' E2' HE'. split; by apply H.
Qed.

(** The owner and the queues. *)
Lemma own_places dir ro {A} (e : event A) a o o' :
  own_step dir ro e a o = Some o' ->
  moves_entries (places ro o ++ taken_entries e a) (places ro o' ++ put_entries e a).
Proof.
  intros H. assert (o' = o -> put_entries e a = [] -> taken_entries e a = [] ->
    moves_entries (places ro o ++ taken_entries e a) (places ro o' ++ put_entries e a)) as Hsame.
  { intros -> -> ->. by apply entries_same. }
  destruct e; try (apply Hsame; [|done..]; cbn [own_step] in H; by repeat case_match; simplify_eq);
    cbn [own_step] in H; unfold popped in H; repeat case_match; simplify_eq/=; destruct_and?;
    to_prop; simplify_eq/=;
    unfold put_entries, taken_entries, rq_put, rq_taken, waits, queued;
    cbn [rq_call RequestQueue.put_in RequestQueue.taken_out fd_put fd_taken map app places];
    first [by apply entries_same
          |eapply entry_opens; reflexivity
          |eapply entry_closes; [|reflexivity]; by try destruct ro
          |eapply entry_moves; [|apply Permutation_swap]; by constructor].
Qed.

Lemma own_fits dir ro {A} (e : event A) a o o' :
  own_step dir ro e a o = Some o' -> fits ro o -> fits ro o'.
Proof.
  unfold fits. intros H Hf Ho'. destruct e; cbn [own_step] in H; unfold popped in H;
    repeat case_match; simplify_eq/=; auto.
Qed.

(** *** The board *)

Lemma elem_of_entries (m : board) E fd p :
  map_to_list m ≡ₚ E -> m !! fd = Some p <-> (fd, p) ∈ E.
Proof. intros <-. symmetry. apply elem_of_map_to_list. Qed.

Lemma board_moves (m : board) E E' fd p p' :
  map_to_list m ≡ₚ E -> next_place fd p p' -> (fd, p') :: E ≡ₚ (fd, p) :: E' ->
  m !! fd = Some p /\ map_to_list (<[fd := p']> m) ≡ₚ E'.
Proof.
  intros Hm Hn H. assert (Hne : p <> p') by (by destruct Hn).
  assert (Hp : m !! fd = Some p).
  { apply (elem_of_entries m E); [done|].
    assert ((fd, p) ∈ (fd, p') :: E) as Hin by (rewrite H; by left).
    apply elem_of_cons in Hin as [?|?]; [by simplify_eq|done]. }
  split; [done|]. rewrite <- Hm, <- (map_to_list_delete m fd p Hp) in H.
  rewrite <- insert_delete_eq, map_to_list_insert by apply lookup_delete_eq.
  rewrite Permutation_swap in H. by apply Permutation_cons_inv in H.
Qed.

Lemma board_opens (m : board) E E' fd p :
  map_to_list m ≡ₚ E -> (fd, p) :: E ≡ₚ E' -> NoDup E'.*1 ->
  m !! fd = None /\ map_to_list (<[fd := p]> m) ≡ₚ E'.
Proof.
  intros Hm H Hnd. assert (Hf : m !! fd = None).
  { rewrite <- H in Hnd. apply NoDup_cons in Hnd as [Hnin _]. apply eq_None_not_Some.
    intros [q Hq]. destruct Hnin. apply (elem_of_entries m E) in Hq; [|done].
    by apply (list_elem_of_fmap_2 fst _ (fd, q)). }
  split; [done|]. by rewrite map_to_list_insert, Hm.
Qed.

Lemma board_closes (m : board) E E' fd p :
  map_to_list m ≡ₚ E -> E ≡ₚ (fd, p) :: E' ->
  m !! fd = Some p /\ map_to_list (delete fd m) ≡ₚ E'.
Proof.
  intros Hm H. assert (Hp : m !! fd = Some p).
  { apply (elem_of_entries m E); [done|]. rewrite H. by left. }
  split; [done|]. rewrite <- Hm, <- (map_to_list_delete m fd p Hp) in H.
  by apply Permutation_cons_inv in H.
Qed.

(** The place of a connection that a thread has is not in a queue. *)
Lemma elem_of_places rs os fd q :
  (fd, q) ∈ concat (zip_with places rs os) ->
  match q with Waiting | Queued _ => False | _ => True end.
Proof.
  intros H. apply list_elem_of_In, in_concat in H as (l & Hl & H).
  apply list_elem_of_In, elem_of_lookup_zip_with in Hl as (i & r & o & -> & _ & _).
  destruct o; simpl in H; destruct_or?; simplify_eq; try done; by destruct r.
Qed.

(** ** The simulation *)

Section refinement.
Context (dir : bytes) (s : Scheduler) (p : Z) (st ct : Z).

Record simulates_with (y : system) (m : board) (os : list own) : Prop := {
  sim_invariant : invariant dir st ct y os;
  sim_fits : Forall2 fits (roles st ct) os;
  sim_places : map_to_list m ≡ₚ entries (roles st ct) os (env y)
}.

Definition simulates (y : system) (m : board) : Prop := exists os, simulates_with y m os.

Lemma roles_workers : 0 <= st -> zlen (filter (fun r => r = Worker) (roles st ct)) = st.
Proof.
  intros Hst. unfold roles. rewrite !filter_app, !zlen_app.
  assert (forall r n, zlen (filter (fun r => r = Worker) (replicate n r)) =
    if decide (r = Worker) then Z.of_nat n else 0) as Hrep.
  { intros r n. induction n as [|n IH]; simpl; [by case_decide|].
    rewrite filter_cons. case_decide; rewrite ?zlen_cons, IH; [lia|done]. }
  change [Acceptor] with (replicate 1 Acceptor). rewrite !Hrep. rewrite decide_True by done. rewrite !decide_False by done.
  lia.
Qed.

Lemma simulates_shows y m : simulates y m -> shows m (env y).
Proof.
  intros [os [Hinv Hfits Hm]]. pose proof (Forall2_length _ _ _ Hfits) as Hl.
  pose proof (inv_world _ _ _ _ _ Hinv) as Hw. split.
  - apply set_eq. intros fd. trans (fd ∈ open_fds (env y)); [|by unfold open_fds; rewrite elem_of_elements].
    rewrite <- (wi_fds _ _ Hw), <- (entries_fds (roles st ct)) by done. rewrite elem_of_dom.
    rewrite list_elem_of_fmap. split.
    + intros [q Hq]. exists (fd, q). split; [done|]. by eapply elem_of_entries.
    + intros ([fd' q] & -> & Hq). exists q. by eapply elem_of_entries.
  - intros fd. rewrite (elem_of_entries m _ _ _ Hm). unfold entries.
    rewrite !elem_of_app. split; [intros [H|[H|H]]|].
    + exfalso. by apply elem_of_places in H.
    + by apply list_elem_of_fmap in H as (? & [= ->] & H).
    + by apply list_elem_of_fmap in H as (? & [=] & _).
    + intros H. right. left. by apply (list_elem_of_fmap_2 waits).
  - intros fd j. rewrite (elem_of_entries m _ _ _ Hm). unfold entries.
    rewrite !elem_of_app. split; [intros [H|[H|H]]|].
    + exfalso. by apply elem_of_places in H.
    + by apply list_elem_of_fmap in H as (? & [=] & _).
    + apply list_elem_of_fmap in H as (r & [= -> ->] & H). by exists r.
    + intros (r & H & <- & <-). right. right. by apply (list_elem_of_fmap_2 queued).
  - unfold in_service. rewrite (rounds_in_perm _ _ Hm), rounds_in_entries by done.
    symmetry. apply Hw.
Qed.

Lemma change_entries y y' os os' :
  invariant dir st ct y os -> Forall2 fits (roles st ct) os -> change dir y y' os os' ->
  Forall2 fits (roles st ct) os' /\
  moves_entries (entries (roles st ct) os (env y)) (entries (roles st ct) os' (env y')).
Proof.
  intros Hinv Hfits Hch. destruct Hch as [-> _ Hfd Hrq|ro A e a os1 o o' os2 Hro -> -> Hs H].
  { split; [done|]. apply entries_same. unfold entries. by rewrite Hfd, Hrq. }
  rewrite (inv_roles _ _ _ _ _ Hinv) in Hro.
  destruct (list_elem_of_split_length _ _ _ Hro) as (rs1 & rs2 & Hrs & Hlen).
  rewrite Hrs in *. apply Forall2_app_inv in Hfits as [Hf1 Hf2]; [|done].
  apply Forall2_cons in Hf2 as [Hf Hf2]. split.
  { apply Forall2_app; [done|]. constructor; [|done]. by eapply own_fits. }
  destruct (handle_fdq e _ a _ H) as [Hfd _].
  destruct (call_rq e a _ _ os1 o o' os2 dir ro (inv_world _ _ _ _ _ Hinv) Hs H) as (Hrq & _ & _).
  cbv zeta in Hrq. apply (f_equal (map waits)) in Hfd. apply (Permutation_map queued) in Hrq.
  pose proof (own_places _ _ _ _ _ _ Hs) as Hp.
  set (X := concat (zip_with places rs1 os1) ++ concat (zip_with places rs2 os2) ++
    map waits (FdQueue.queue_ (fd_queue (env y'))) ++
    map queued (RequestQueue.queue_ (request_queue (env y')))).
  apply (moves_entries_app X) in Hp. apply (moves_entries_cancel (put_entries e a)).
  unfold entries. rewrite !zip_with_app, !concat_app by done. cbn [zip_with concat].
  unfold put_entries, taken_entries in *. rewrite !map_app in *. subst X.
  eapply moves_entries_proper; [| |exact Hp].
  - clear -Hfd Hrq. assert (map waits (FdQueue.queue_ (fd_queue (env y))) ++ map waits (fd_put e a) ≡ₚ
      map waits (fd_taken e a) ++ map waits (FdQueue.queue_ (fd_queue (env y')))) as Hfd'
      by (by rewrite Hfd). clear Hfd. perm_lia.
  - perm_lia.
Qed.

Lemma simulation_step y y' m :
  sane_counts p st ct -> simulates y m -> step dir s p y y' ->
  exists m', stutter (lifecycle st) m m' /\ simulates y' m'.
Proof.
  intros Hc [os [Hinv Hfits Hm]] Hstep.
  destruct (invariant_step _ _ _ _ _ _ _ _ (proj2 (proj2 Hc)) Hinv Hstep) as (os' & Hinv' & Hch).
  destruct (change_entries _ _ _ _ Hinv Hfits Hch) as [Hfits' Hmoves].
  pose proof (Forall2_length _ _ _ Hfits) as Hl. pose proof (Forall2_length _ _ _ Hfits') as Hl'.
  assert (Hsim : forall m', map_to_list m' ≡ₚ entries (roles st ct) os' (env y') -> simulates y' m')
    by (intros m' ?; by exists os').
  destruct Hmoves as [H|fd H|fd q q' Hn H|fd q He H].
  - exists m. split; [by left|]. apply Hsim. by rewrite Hm.
  - destruct (board_opens m _ _ fd Accepted Hm H) as [Hf Hm'].
    { rewrite entries_fds by done. rewrite (wi_fds _ _ (inv_world _ _ _ _ _ Hinv')).
      unfold open_fds. apply NoDup_elements. }
    eexists. split; [right; by apply connection_opens|by apply Hsim].
  - destruct (board_moves m _ _ fd q q' Hm Hn H) as [Hq Hm'].
    eexists. split; [right; eapply connection_moves; try done|by apply Hsim].
    intros Hserves. unfold in_service. rewrite (rounds_in_perm _ _ Hm).
    pose proof (rounds_in_perm _ _ H) as Hrounds.
    change ((fd, q') :: ?l) with ([(fd, q')] ++ l) in Hrounds.
    change ((fd, q) :: ?l) with ([(fd, q)] ++ l) in Hrounds.
    rewrite !rounds_in_app, !rounds_in_one, !rounds_in_entries in * by done.
    pose proof (serving_count_workers _ _ Hfits') as Hw.
    rewrite roles_workers in Hw by (destruct Hc; lia).
    rewrite Hserves in Hrounds. destruct Hn; simplify_eq/=; lia.
  - destruct (board_closes m _ _ fd q Hm H) as [Hq Hm'].
    eexists. split; [right; by eapply connection_closes|by apply Hsim].
Qed.

Lemma simulation_start w :
  sane_counts p st ct -> fresh_objects w -> simulates (start dir s p w st ct) ∅.
Proof.
  intros Hc Hw. exists (replicate (length (roles st ct)) Idle). split.
  - by apply invariant_start.
  - apply Forall2_same_length_lookup. rewrite length_replicate. split; [done|].
    intros i r o _ Ho. by apply lookup_replicate in Ho as [-> _].
  - destruct Hw as (_ & _ & Hrq & Hfd & _). unfold entries, start. simpl. rewrite Hrq, Hfd.
    rewrite map_to_list_empty. simpl. rewrite app_nil_r.
    generalize (roles st ct) as rs. induction rs; done.
Qed.

(** C5: refinement. Every run of the server, under any scheduling of its threads
    and any behaviour of its clients, is step by step a run of the abstract machine
    (a step of the server is one step of the machine or none), which shows the open
    sockets, the contents of both queues and the number of rounds in progress. *)
Theorem server_refines_lifecycle w ys :
  sane_counts p st ct -> fresh_objects w -> trace (step dir s p) (start dir s p w st ct) ys ->
  exists ms, trace (stutter (lifecycle st)) ∅ ms /\ Forall2 (fun y m => shows m (env y)) ys ms.
Proof.
  intros Hc Hw Htrace. pose proof (simulation_start w Hc Hw) as Hsim.
  revert Hsim. generalize (∅ : board) as m. clear Hw.
  induction Htrace as [y|y y' ys Hstep _ IH]; intros m Hsim.
  - exists []. split; constructor.
  - destruct (simulation_step _ _ _ Hc Hsim Hstep) as (m' & Hm & Hsim').
    destruct (IH m' Hsim') as (ms & Hms & Hshows). exists (m' :: ms).
    split; constructor; try done. by apply simulates_shows.
Qed.

End refinement.

(** ** A concrete run *)

(** The states that [schedule] goes through. *)
Fixpoint schedule_states dir s p (l : list nat) (y : system) : list system :=
  match l with
  | [] => []
  | i :: l' =>
      let y' := if (i <? length (threads y))%nat then thread_move dir s p i y else main_move y in
      match y' with
      | Some y' => y' :: schedule_states dir s p l' y'
      | None => schedule_states dir s p l' y
      end
  end.

Lemma schedule_states_trace dir s p l y : trace (step dir s p) y (schedule_states dir s p l y).
Proof.
  revert y. induction l as [|i l IH]; intros y; simpl; [constructor|].
  destruct (if (i <? length (threads y))%nat then thread_move dir s p i y else main_move y)
    as [y'|] eqn:E; [|done].
  constructor; [|apply IH]. apply step_move.
  destruct (i <? length (threads y))%nat; [by eapply thread_move_sound|by apply main_move_sound].
Qed.

Definition demo_states : list system :=
  schedule_states demo_dir demo_scheduler 1 (moves (demo_intake ++ [(400, 0)])%nat) demo_start.

(** Three connections are opened, served in several rounds each and closed. *)
Example demo_states_end :
  (100 <? length demo_states)%nat = true /\
  option_map (fun y => length (closed_socks (env y))) (last demo_states) = Some 3%nat.
Proof. by vm_compute. Qed.

Lemma lifecycle_witness :
  exists ms, trace (stutter (lifecycle 2)) ∅ ms /\
    Forall2 (fun y m => shows m (env y)) demo_states ms.
Proof.
  apply (server_refines_lifecycle demo_dir demo_scheduler 1 2 1 demo_world demo_states).
  - apply demo_fresh.
  - apply demo_fresh.
  - apply schedule_states_trace.
Defined.
