(* ===== verification/History.v ===== *)
(** Which request each thread of the running server serves: the runs of the file
    System, with a history that follows the calls that hand requests over. *)

From S2P Require Import Prelude Queue Scheduling Effects Threads Ownership System.

Local Open Scope Z_scope.

(** What a call makes of the request [o] that its thread serves: a pop gives it
    one, handing it back or completing it takes it. *)
Definition now_serving {A} (e : event A) : A -> option Request -> option Request :=
  match e in event A return A -> option Request -> option Request with
  | RqWaitPop => fun taken _ => taken
  | RqWaitPopBest _ => fun taken _ => taken
  | RqRequeue _ => fun _ _ => None
  | RqComplete => fun _ _ => None
  | _ => fun _ o => o
  end.

Section history.
Context (dir : bytes) (s : Scheduler) (p : Z) (st ct : Z).

(** [y] has been reached in a run in which thread [i] now serves [g !! i]. *)
Inductive serving : system -> list (option Request) -> Prop :=
  | serving_start w :
      sane_counts p st ct -> fresh_objects w ->
      serving (start dir s p w st ct) (replicate (length (roles st ct)) None)
  | serving_call y g i A (e : event A) a y' :
      serving y g -> calls i e a y y' -> serving y' (alter (now_serving e a) i g)
  | serving_silent y g y' :
      serving y g -> silent_step dir s p y y' -> serving y' g.

(** Every run has a history, and the history adds nothing to the runs. *)
Lemma serving_reachable y : reachable dir s p st ct y <-> exists g, serving y g.
Proof.
  split.
  - intros (Hc & w & Hw & Hsteps).
    assert (forall y1 y2, rtc (step dir s p) y1 y2 ->
      forall g, serving y1 g -> exists g', serving y2 g') as Hrtc.
    { induction 1 as [y1|y1 y2 y3 Hstep _ IH]; intros g Hg; [eauto|].
      apply step_cases in Hstep as [(i & A & e & a & Hcall)|Hsilent].
      - eapply IH. by eapply serving_call.
      - eapply IH. by eapply serving_silent. }
    eapply Hrtc; [exact Hsteps|]. by apply serving_start.
  - intros (g & Hg). induction Hg as [w Hc Hw|y g i A e a y' _ (Hc & w & Hw & H) Hcall|
      y g y' _ (Hc & w & Hw & H) Hsilent]; (split; [done|]); exists w; (split; [done|]).
    + done.
    + eapply rtc_r; [exact H|]. apply step_cases. left. by exists i, A, e, a.
    + eapply rtc_r; [exact H|]. apply step_cases. by right.
Qed.

(** The job that a thread owns. *)
Definition own_job (o : own) : option job := match o with Serving j => Some j | _ => None end.

Lemma now_serving_job ro {A} (e : event A) a o o' r :
  own_step dir ro e a o = Some o' -> own_job o = job_of <$> r ->
  own_job o' = job_of <$> now_serving e a r.
Proof.
  intros Hs Hr. destruct e; cbn [own_step now_serving] in *; unfold popped in *;
    repeat case_match; simplify_eq/=; done.
Qed.

(** The history agrees with what the threads own. *)
Lemma serving_invariant y g :
  serving y g ->
  exists os, invariant dir st ct y os /\ Forall2 (fun o r => own_job o = job_of <$> r) os g.
Proof.
  induction 1 as [w Hc Hw|y g i A e a y' _ (os & Hinv & Hg) Hcall|
    y g y' Hrun (os & Hinv & Hg) Hsilent].
  - eexists. split; [by apply invariant_start|]. generalize (length (roles st ct)) as n.
    induction n; by constructor.
  - destruct (invariant_call dir st ct y y' i A e a os Hinv Hcall)
      as (ro & os1 & o & o' & os2 & <- & _ & -> & Hs & Hinv').
    eexists. split; [exact Hinv'|]. apply Forall2_app_inv_l in Hg as (g1 & g2' & H1 & H2 & ->).
    apply Forall2_cons_inv_l in H2 as (r & g2 & Hr & H2 & ->).
    rewrite (Forall2_length _ _ _ H1), alter_app_r_alt, Nat.sub_diag by done.
    apply Forall2_app; [done|]. constructor; [|done]. by eapply now_serving_job.
  - exists os. split; [|done]. eapply invariant_silent; [|done|done].
    assert (reachable dir s p st ct y) as ((_ & _ & ?) & _); [|done].
    apply serving_reachable. by exists g.
Qed.

End history.
