(* ===== verification/Safety.v ===== *)
(** What holds in every reachable state of the running server: exclusive use of
    connections, no refused request before shutdown, absence of deadlock, what
    shutdown leaves behind, which thread changes which file for which request, who
    stages where, and how a download can keep a shutdown from ending. *)

From S2P Require Import Prelude Text Queue Scheduling Metrics Effects FileIO Socket Protocol.
From S2P Require Import Server Threads Transfer Ownership System Demo History.

Local Open Scope Z_scope.

Section theorems.
Context (dir : bytes) (s : Scheduler) (p : Z) (st ct : Z).

(** C12: connections are owned once.  In every reachable state each open
    connection is in exactly one place: owned by one thread, or waiting in the
    queue of descriptors or in the request queue; no closed connection is left in
    any of them, and [inflight_] is the number of threads that serve a round. *)
Theorem connections_owned_once y :
  reachable dir s p st ct y ->
  exists owners,
    Forall2 (fun t o => match t_code t with
      | Some code => keeps dir (t_role t) all_returned code o
      | None => o = Leaving end) (threads y) owners /\
    NoDup (concat (map owned_fd owners) ++ held (env y)) /\
    (forall fd, fd ∈ (concat (map owned_fd owners) ++ held (env y)) <->
      is_Some (socks (env y) !! fd)) /\
    RequestQueue.inflight_ (request_queue (env y)) = serving_count owners.
Proof.
  intros Hr. destruct (invariant_reachable _ _ _ _ _ y Hr) as [os [Ht Hw _ _ _ _]].
  exists os. split_and!.
  - eapply Forall2_impl; [exact Ht|]. by intros t o [].
  - rewrite (wi_fds _ _ Hw). unfold open_fds. apply NoDup_elements.
  - intros fd. rewrite (wi_fds _ _ Hw). unfold open_fds. by rewrite elem_of_elements, elem_of_dom.
  - apply Hw.
Qed.

(** The connection that a call uses; waiting for it to become readable counts. *)
Definition touched {A} (e : event A) : option Z :=
  match e with
  | Send fd _ | Recv fd _ | CloseFd fd => Some fd
  | Select fd _ => if fd =? listen_socket then None else Some fd
  | _ => None
  end.

Lemma touched_owned dir' ro {A} (e : event A) k o fd :
  touched e = Some fd -> keeps dir' ro all_returned (Vis e k) o -> fd ∈ owned_fd o.
Proof.
  intros Ht Hk. assert (exists a, possible e a) as [a Ha].
  { destruct e; try done; [by exists 0|exists RecvError|exists (-1)|by exists tt]; [done|]. simpl. lia. }
  specialize (Hk a Ha). destruct e; cbn [touched] in Ht; simplify_eq;
    cbn [own_step may_use owned_fd] in *; try (destruct (_ =? listen_socket); [done|simplify_eq]);
    destruct o; cbn [may_use owned_fd orb] in *; try done;
    repeat case_match; try done; to_prop; subst; by left.
Qed.

(** What two threads own is disjoint. *)
Lemma owners_disjoint (f : own -> list Z) (os : list own) i j o1 o2 x :
  os !! i = Some o1 -> os !! j = Some o2 -> i <> j -> x ∈ f o1 -> x ∈ f o2 ->
  NoDup (concat (map f os)) -> False.
Proof.
  revert i j. induction os as [|o os IH]; intros i j Hi Hj Hne H1 H2; [done|].
  simpl. rewrite NoDup_app. intros (_ & Hd & Hn).
  assert (forall k o', os !! k = Some o' -> x ∈ f o' -> x ∈ concat (map f os)) as Hin.
  { intros k o' Hk Ho'. apply list_elem_of_In, in_concat. exists (f o').
    split; [|by apply list_elem_of_In]. apply in_map, list_elem_of_In.
    by eapply list_elem_of_lookup_2. }
  destruct i as [|i], j as [|j]; simplify_eq/=.
  - eapply Hd; [exact H1|]. by eapply Hin.
  - eapply Hd; [exact H2|]. by eapply Hin.
  - eapply (IH i j); try done. by intros ->.
Qed.

(** The connection that a thread is about to use. *)
Definition using_fd (t : thread) : option Z :=
  match t_code t with Some (Vis e k) => touched e | _ => None end.

Lemma using_owned w t o fd :
  thread_inv dir w t o -> using_fd t = Some fd -> fd ∈ owned_fd o.
Proof.
  intros [Hc _ _]. unfold using_fd. destruct t as [r [[b|A e k|]|]]; try done. simpl in *.
  intros Hu. by eapply touched_owned.
Qed.

(** C8: no data race on a connection.  When two different threads are about to
    use connections, these are different connections, and they are open: no
    descriptor is used by two threads at the same time, used after it has been
    closed, or closed twice. *)
Theorem no_two_threads_share_a_connection y i j fd1 fd2 :
  reachable dir s p st ct y -> i <> j ->
  threads y !! i ≫= using_fd = Some fd1 -> threads y !! j ≫= using_fd = Some fd2 ->
  fd1 <> fd2 /\ is_Some (socks (env y) !! fd1) /\ is_Some (socks (env y) !! fd2).
Proof.
  intros Hr Hne Hu1 Hu2. destruct (invariant_reachable _ _ _ _ _ y Hr) as [os [Ht Hw _ _ _ _]].
  apply bind_Some in Hu1 as (t1 & Hi & Hu1). apply bind_Some in Hu2 as (t2 & Hj & Hu2).
  destruct (Forall2_lookup_l _ _ _ _ _ Ht Hi) as (o1 & Ho1 & Hc1).
  destruct (Forall2_lookup_l _ _ _ _ _ Ht Hj) as (o2 & Ho2 & Hc2).
  apply (using_owned _ _ _ _ Hc1) in Hu1. apply (using_owned _ _ _ _ Hc2) in Hu2.
  assert (NoDup (concat (map owned_fd os) ++ held (env y))) as Hn.
  { rewrite (wi_fds _ _ Hw). unfold open_fds. apply NoDup_elements. }
  apply NoDup_app in Hn as (Hn & _ & _).
  assert (forall k o fd, os !! k = Some o -> fd ∈ owned_fd o -> is_Some (socks (env y) !! fd)) as Hopen.
  { intros k o fd Hk Hfd. apply list_elem_of_split_length in Hk as (os1 & os2 & -> & _).
    pose proof (wi_owned _ _ _ _ Hw) as H. rewrite Forall_forall in H. specialize (H fd Hfd).
    unfold open_fds in H. by rewrite elem_of_elements, elem_of_dom in H. }
  split; [|eauto]. intros ->. by eapply (owners_disjoint owned_fd os i j).
Qed.

(** C7: a clean end.  When [main] is past its joins, every connection that was ever
    accepted has been closed, nothing waits in a queue and no round is in flight. *)
Theorem shutdown_leaves_nothing y :
  reachable dir s p st ct y -> main_ y = Joined ->
  socks (env y) = ∅ /\ FdQueue.queue_ (fd_queue (env y)) = [] /\
  RequestQueue.queue_ (request_queue (env y)) = [] /\
  RequestQueue.inflight_ (request_queue (env y)) = 0.
Proof.
  intros Hr Hm. destruct (invariant_reachable _ _ _ _ _ y Hr) as [os [Ht Hw Hro _ _ Hj]].
  specialize (Hj Hm). destruct Hr as [((Hst & _) & Hct & _) _].
  assert (forall i t o, threads y !! i = Some t -> os !! i = Some o ->
    o = Leaving /\ gone (t_role t) (env y)) as Hall.
  { intros i t o Hi Ho. pose proof (Forall2_lookup_lr _ _ _ _ _ _ Ht Hi Ho) as [Hc Hg _].
    unfold all_threads_returned in Hj. rewrite Forall_forall in Hj.
    rewrite (Hj t) in Hc by (by eapply list_elem_of_lookup_2). auto. }
  assert (forall r, r ∈ roles st ct -> gone r (env y)) as Hgone.
  { intros r Hin. rewrite <- Hro in Hin. apply list_elem_of_fmap in Hin as (t & -> & Hin).
    apply list_elem_of_lookup_1 in Hin as [i Hi].
    destruct (Forall2_lookup_l _ _ _ _ _ Ht Hi) as (o & Ho & _). by eapply Hall. }
  destruct (Hgone Parser) as [_ Hfd].
  { unfold roles, parser_count. rewrite !elem_of_app, !elem_of_replicate. right. left. split; [done|lia]. }
  destruct (Hgone Worker) as (_ & Hrq & Hn).
  { unfold roles. rewrite !elem_of_app, !elem_of_replicate. left. split; [done|lia]. }
  assert (concat (map owned_fd os) = []) as E.
  { apply Forall2_length in Ht as Hlen.
    assert (Forall (fun o => o = Leaving) os) as Hl.
    { apply Forall_lookup. intros i o Ho. destruct (threads y !! i) eqn:Hi; [by eapply Hall|].
      apply lookup_ge_None in Hi. apply lookup_lt_Some in Ho. lia. }
    clear -Hl. induction Hl as [|? ? -> _ IH]; [done|]. exact IH. }
  pose proof (wi_fds _ _ Hw) as Hfds. unfold held in Hfds. rewrite E, Hfd, Hrq in Hfds.
  simpl in Hfds. split_and!; try done. apply Permutation_nil_l in Hfds. unfold open_fds in Hfds.
  symmetry in Hfds. apply elements_empty_inv in Hfds.
  by apply dom_empty_inv.
Qed.

(** What the [push] that a thread is about to make returns. *)
Definition push_result (w : world) (t : thread) : option bool :=
  match t_code t with
  | Some (Vis (RqPush r) _) => Some (RequestQueue.push r (request_queue w)).1
  | Some (Vis (FdPush fd) _) => Some (FdQueue.push fd (fd_queue w)).1
  | _ => None
  end.

(** C16: no request is refused.  The queues are closed only when nobody is left to
    push: the acceptor closes the queue of descriptors as its last call, and the
    request queue is closed after the acceptor and the parsers have been joined.
    So in every reachable state a [push] that a thread is about to make succeeds,
    before the signal and after it: the requests of connections that were
    accepted earlier are still admitted, and the answer "server shutting down" is never
    sent. *)
Theorem pushes_are_accepted y i b :
  reachable dir s p st ct y -> threads y !! i ≫= push_result (env y) = Some b -> b = true.
Proof.
  intros Hr Hp. destruct (invariant_reachable _ _ _ _ _ y Hr) as [os [Ht Hw Hro Hm Hin _]].
  apply bind_Some in Hp as ([r [[?|A e k|]|]] & Hi & Hp); try done.
  destruct (Forall2_lookup_l _ _ _ _ _ Ht Hi) as (o & Ho & [Hc _ Hcl]). simpl in Hc, Hcl.
  destruct e; cbn [push_result t_code] in Hp; try done; simplify_eq; specialize (Hc true I);
    cbn [own_step] in Hc.
  - unfold FdQueue.push. destruct (FdQueue.closed_ (fd_queue (env y))) eqn:E; [|done].
    destruct r; try done. by rewrite (Hcl eq_refl eq_refl) in Hc.
  - unfold RequestQueue.push. destruct (RequestQueue.closed_ (request_queue (env y))) eqn:E; [|done].
    unfold intake_returned in Hin. rewrite Forall_forall in Hin.
    destruct (Hin (proj1 Hm eq_refl) _ (list_elem_of_lookup_2 _ _ _ Hi)) as [Hwk|]; [|done].
    simpl in Hwk. by subst.
Qed.

(** A thread that is inside its turn can go on unless it waits for a queue. *)
Lemma thread_can_move y i r code o :
  threads y !! i = Some (mkThread r (Some code)) -> keeps dir r all_returned code o ->
  (exists y', move dir s p y y') \/
  (r = Parser /\ o = Idle /\ FdQueue.closed_ (fd_queue (env y)) = false) \/
  (r = Worker /\ o = Idle /\ RequestQueue.wait_ready (request_queue (env y)) = false).
Proof.
  intros Hi Hk. destruct y as [w ts m]. simpl in *. destruct code as [b|A e k|]; [| |done].
  { left. destruct b; eexists; [by eapply move_again|by eapply move_return]. }
  destruct (handle e w) as [[a w']|] eqn:H.
  { left. eexists. by eapply move_call. }
  right. destruct e; try done; cbn [handle] in H.
  - destruct (FdQueue.push _ _) in H. done.
  - left. specialize (Hk None I). cbn [own_step] in Hk. destruct r, o; try done. split_and!; try done.
    unfold FdQueue.wait_pop, FdQueue.wait_ready in H. destruct (FdQueue.queue_ (fd_queue w)); [|done].
    by destruct (FdQueue.closed_ (fd_queue w)).
  - destruct (RequestQueue.push _ _) in H. done.
  - right. specialize (Hk None I). cbn [own_step popped] in Hk. destruct r, o; try done.
    split_and!; try done. unfold RequestQueue.wait_pop in H.
    destruct (RequestQueue.wait_ready (request_queue w)); [|done].
    by destruct (RequestQueue.queue_ (request_queue w)).
  - right. specialize (Hk None I). cbn [own_step popped] in Hk. destruct r, o; try done.
    split_and!; try done. unfold RequestQueue.wait_pop_best in H.
    destruct (RequestQueue.wait_ready (request_queue w)); [|done].
    by destruct (RequestQueue.queue_ (request_queue w)).
Qed.

Lemma one_or_all (P : Prop) (Q : nat -> Prop) n :
  (forall i, (i < n)%nat -> P \/ Q i) -> P \/ forall i, (i < n)%nat -> Q i.
Proof.
  induction n as [|n IH]; intros H; [right; lia|].
  destruct IH as [|IH]; [intros; apply H; lia|by left|].
  destruct (H n) as [|Hn]; [lia|by left|]. right. intros i Hi.
  destruct (decide (i = n)) as [->|]; [done|]. apply IH. lia.
Qed.

(** The ways in which a thread cannot move. *)
Definition stuck (w : world) (t : thread) (o : own) : Prop :=
  t_code t = None \/
  (t_role t = Parser /\ FdQueue.closed_ (fd_queue w) = false) \/
  (t_role t = Worker /\ o = Idle /\ RequestQueue.wait_ready (request_queue w) = false).

Lemma move_or_stuck y os :
  invariant dir st ct y os ->
  (exists y', move dir s p y y') \/
  forall i t o, threads y !! i = Some t -> os !! i = Some o -> stuck (env y) t o.
Proof.
  intros [Ht _ _ _ _ _].
  destruct (one_or_all (exists y', move dir s p y y')
    (fun i => forall t o, threads y !! i = Some t -> os !! i = Some o -> stuck (env y) t o)
    (length (threads y))) as [|H]; [|by left|].
  - intros i _. destruct (threads y !! i) as [t|] eqn:Hi; [|by right].
    destruct (Forall2_lookup_l _ _ _ _ _ Ht Hi) as (o & Ho & [Hc _ _]).
    destruct t as [r [code|]]; simpl in Hc.
    + destruct (thread_can_move y i r code o Hi Hc) as [|[(-> & _ & H)|(-> & -> & H)]]; [by left|..];
        right; intros t' o' ? ?; simplify_eq; right; [left|right]; done.
    + right. intros t' o' ? ?. simplify_eq. by left.
  - right. intros i t o Hi Ho. eapply H; try done. by eapply lookup_lt_Some.
Qed.

Lemma serving_exists os : 0 < serving_count os -> exists i j, os !! i = Some (Serving j).
Proof.
  intros H. destruct (filter (fun o => is_serving o = true) os) as [|o l] eqn:E.
  { unfold serving_count in H. rewrite E in H. list_lia. }
  assert (o ∈ filter (fun o => is_serving o = true) os) as Hin by (rewrite E; by left).
  apply list_elem_of_filter in Hin as [Ho Hin]. apply list_elem_of_lookup_1 in Hin as [i Hi].
  destruct o; try done. eauto.
Qed.

(** C6: no deadlock.  As long as [main] has not finished its joins, some thread can
    take its next step, or [main] can: the threads never wait for each other in a
    circle, and during shutdown a worker waits on the empty queue only while
    another worker is inside a round. *)
Theorem server_never_deadlocks y :
  reachable dir s p st ct y -> main_ y <> Joined -> exists y', move dir s p y y'.
Proof.
  intros Hr Hm. destruct (invariant_reachable _ _ _ _ _ y Hr) as [os Hinv].
  destruct (move_or_stuck y os Hinv) as [|Hstuck]; [done|].
  destruct Hinv as [Ht Hw Hro Hclosed Hin _].
  destruct y as [w ts m]. simpl in *. destruct m; [| |done].
  - assert (FdQueue.closed_ (fd_queue w) = true) as Hfd.
    { assert (Acceptor ∈ map t_role ts) as Hacc.
      { rewrite Hro. unfold roles. rewrite !elem_of_app. right. right. by left. }
      apply list_elem_of_fmap in Hacc as (t & Et & Hacc). apply list_elem_of_lookup_1 in Hacc as [i Hi].
      destruct (Forall2_lookup_l _ _ _ _ _ Ht Hi) as (o & Ho & [Hc Hg _]).
      destruct (Hstuck i t o Hi Ho) as [E|[[E _]|[E _]]]; [|congruence..].
      rewrite E in Hc. specialize (Hg Hc). by rewrite <- Et in Hg. }
    eexists. apply move_join_intake. apply Forall_lookup. intros i t Hi.
    destruct (Forall2_lookup_l _ _ _ _ _ Ht Hi) as (o & Ho & _).
    destruct (Hstuck i t o Hi Ho) as [E|[[_ E]|[E _]]]; [by right|congruence|by left].
  - assert (forall i t, ts !! i = Some t -> t_role t = Parser -> t_code t = None) as Hparser.
    { intros i t Hi E. specialize (Hin ltac:(done)). unfold intake_returned in Hin.
      rewrite Forall_lookup in Hin. destruct (Hin i t Hi); [congruence|done]. }
    destruct (decide (RequestQueue.wait_ready (request_queue w) = false)) as [Hwait|Hwait].
    + assert (0 < serving_count os) as Hs.
      { pose proof (serving_count_range os). rewrite <- (wi_inflight _ _ Hw) in *.
        unfold RequestQueue.wait_ready in Hwait. rewrite (proj2 Hclosed) in Hwait by done.
        destruct (RequestQueue.queue_ (request_queue w)); [|done]. cbn [andb] in Hwait. to_prop. lia. }
      apply serving_exists in Hs as (i & j & Hi).
      destruct (Forall2_lookup_r _ _ _ _ _ Ht Hi) as (t & Hti & [Hc _ _]).
      destruct (Hstuck i t _ Hti Hi) as [E|[[E _]|(E & ? & _)]]; [by rewrite E in Hc| |done].
      by rewrite (Hparser _ _ Hti E) in Hc.
    + eexists. apply move_join_workers. apply Forall_lookup. intros i t Hi.
      destruct (Forall2_lookup_l _ _ _ _ _ Ht Hi) as (o & Ho & _).
      destruct (Hstuck i t o Hi Ho) as [E|[[E ?]|(_ & _ & ?)]]; [done| |done].
      by apply (Hparser i).
Qed.

(** The calls that can change the file [path]. *)
Lemma handle_changes_file {A} (e : event A) w a w' path :
  handle e w = Some (a, w') -> files w' !! path <> files w !! path ->
  match e with
  | OpenTrunc q | WriteAt q _ _ | Remove q => path = q
  | Rename from to => path = from \/ (path = to /\ files w' !! path = files w !! from)
  | _ => False
  end.
Proof.
  intros H Hne. assert (files w' = files w -> False) as Hsame by (by intros E; rewrite E in Hne).
  destruct e; try (destruct Hsame; by handle_cases H); cbn [handle] in H; apply (inj Some) in H.
  - unfold open_trunc in H. pose proof (next_fault_files w) as E.
    destruct (next_fault w) as [b w1]. cbn [snd] in E. rewrite <- E in *.
    destruct (decide (path = path0)) as [|Hp]; [done|]. destruct Hne.
    repeat case_match; simplify_eq; field_simpl; by rewrite ?lookup_insert_ne.
  - unfold write_at in H. pose proof (next_fault_files w) as E.
    destruct (next_fault w) as [b w1]. cbn [snd] in E. rewrite <- E in *.
    destruct (decide (path = path0)) as [|Hp]; [done|]. destruct Hne.
    repeat case_match; simplify_eq; field_simpl; by rewrite ?lookup_insert_ne.
  - unfold rename_file in H. pose proof (next_fault_files w) as E.
    destruct (next_fault w) as [b w1]. cbn [snd] in E. rewrite <- E in *.
    destruct (decide (path = from)) as [|Hp]; [by left|right].
    destruct b; [by simplify_eq|]. destruct (files w1 !! from) as [[c|]|] eqn:Ef; [|by simplify_eq..].
    assert (w' = w1 \/ w' = w1 <| files ::= fun m => <[to:=File c]> (delete from m) |>) as [->|Ew].
    { destruct (files w1 !! to) as [[|]|]; simplify_eq; auto. }
    { done. }
    subst w'. field_simpl. destruct (decide (path = to)) as [->|Hp2].
    + by rewrite lookup_insert_eq.
    + destruct Hne. by rewrite lookup_insert_ne, lookup_delete_ne by done.
  - unfold remove_file in H. pose proof (next_fault_files w) as E.
    destruct (next_fault w) as [b w1]. cbn [snd] in E. rewrite <- E in *.
    destruct (decide (path = path0)) as [|Hp]; [done|]. destruct Hne.
    repeat case_match; simplify_eq; field_simpl; by rewrite ?lookup_delete_ne.
Qed.

(** C9: files change only by staging and commit.  Every reachable state has a
    history that says which request each thread serves.  Whatever the history,
    when a call of thread [i] changes the file at a path, then thread [i] serves an
    upload of a valid name whose connection is open, and the path is the staging
    file of that very upload, or it is the path of its name and receives the whole
    staging file by a rename; the steps that are no calls change no file.  So a
    thread that serves a download, or nothing, never changes a file, an upload
    changes no file but these two, and nothing outside the directory of the server
    changes. *)
Theorem files_change_by_staging_and_commit y :
  reachable dir s p st ct y ->
  (exists g, serving dir s p st ct y g) /\
  (forall g i A (e : event A) a y' path,
     serving dir s p st ct y g -> calls i e a y y' ->
     files (env y') !! path <> files (env y) !! path ->
     exists r, g !! i = Some (Some r) /\ op r = PUT /\
       is_valid_filename (filename r) = true /\ is_Some (socks (env y) !! client_fd r) /\
       (path = path_in dir (staging_name r) \/
        (path = path_in dir (filename r) /\
         files (env y') !! path = files (env y) !! path_in dir (staging_name r)))) /\
  (forall y', silent_step dir s p y y' -> files (env y') = files (env y)).
Proof.
  intros Hr. split; [by apply serving_reachable|].
  split; [|intros y' []; done].
  intros g i A e a y' path Hg Hcall Hne.
  destruct (serving_invariant dir s p st ct y g Hg) as (os & Hinv & Hg2).
  destruct (invariant_call dir st ct y y' i A e a os Hinv Hcall)
    as (ro & os1 & o & o' & os2 & Hlen & _ & -> & Hc & _).
  destruct Hcall as (ro' & k & _ & H & _). apply (handle_changes_file e _ a _ path H) in Hne.
  assert (exists r, g !! i = Some r /\ own_job o = job_of <$> r) as (r & Hgi & Hor).
  { destruct (Forall2_lookup_l _ _ _ i o Hg2) as (r & ? & ?); [|eauto].
    rewrite lookup_app_r, Hlen, Nat.sub_diag by lia. done. }
  assert (forall q, may_write dir q o = true -> exists r, g !! i = Some (Some r) /\
    o = Serving (job_of r) /\ op r = PUT /\ is_valid_filename (filename r) = true /\
    is_Some (socks (env y) !! client_fd r) /\ q = path_in dir (staging_name r)) as Hjob.
  { intros q Hq. destruct o as [| |j| |]; try done. cbn [may_write] in Hq.
    destruct r as [r|]; [|done]. cbn in Hor. simplify_eq. exists r. to_prop.
    cbn [job_of job_op job_name] in *. destruct (op r); try done.
    split_and!; try done; [|by apply beq_spec].
    pose proof (wi_owned _ _ _ _ (inv_world _ _ _ _ _ Hinv)) as Hown. inversion Hown as [|? ? Hfd _].
    unfold open_fds in Hfd. by rewrite elem_of_elements, elem_of_dom in Hfd. }
  destruct e; try done; cbn [own_step] in Hc; subst.
  - destruct (may_write dir path0 o) eqn:E; [|done].
    destruct (Hjob _ E) as (r0 & ? & _ & ? & ? & ? & ?). exists r0. auto 10.
  - destruct (may_write dir path0 o) eqn:E; [|done].
    destruct (Hjob _ E) as (r0 & ? & _ & ? & ? & ? & ?). exists r0. auto 10.
  - destruct o as [| |j| |]; try done. destruct (may_write dir from (Serving j)) eqn:E; [|done].
    destruct (beq to (path_in dir (job_name j))) eqn:E2; [|done]. apply beq_spec in E2.
    destruct (Hjob _ E) as (r0 & ? & Hj & ? & ? & ? & ?). simplify_eq/=. exists r0.
    split_and!; [done..|]. destruct Hne as [->|[-> ?]]; [by left|by right].
  - destruct (may_write dir path0 o) eqn:E; [|done].
    destruct (Hjob _ E) as (r0 & ? & _ & ? & ? & ? & ?). exists r0. auto 10.
Qed.








(** ** A shutdown that does not end *)

Lemma handle_shutdown_flag {A} (e : event A) w a w' :
  handle e w = Some (a, w') -> shutdown_flag w' = shutdown_flag w.
Proof. intros H. destruct e; by handle_cases H. Qed.

(** The server is shutting down, all threads but the worker [i] have returned, and
    the request that it serves next is a download whose file has shrunk. *)
Record only_worker (i : nat) (r : Request) (c : bytes) (y : system) : Prop := {
  ow_main : main_ y = JoiningWorkers;
  ow_flag : shutdown_flag (env y) = true;
  ow_worker : threads y !! i = Some (mkThread Worker (Some (turn dir s p Worker)));
  ow_others j t : j <> i -> threads y !! j = Some t -> t_code t = None;
  ow_shrunk : shrunk dir s p r c (env y)
}.

(** The same in the middle of a turn: it will end, with the request back in the
    queue. *)
Record worker_goes_on (i : nat) (c : bytes) (y : system) : Prop := {
  wg_main : main_ y = JoiningWorkers;
  wg_flag : shutdown_flag (env y) = true;
  wg_worker : exists code r w', threads y !! i = Some (mkThread Worker (Some code)) /\
    run code (env y) = Done true w' /\ shrunk dir s p r c w';
  wg_others j t : j <> i -> threads y !! j = Some t -> t_code t = None
}.

Lemma worker_goes_on_turn i r c y :
  only_worker i r c y -> worker_goes_on i c y.
Proof.
  intros [Hm Hf Hi Ho Hk]. split; try done.
  destruct (worker_turn_shrunk dir s p r c (env y) Hk) as (r' & w' & Hrun & Hk' & _).
  by exists (turn dir s p Worker), r', w'.
Qed.

Lemma worker_goes_on_step i c y y' :
  worker_goes_on i c y -> step dir s p y y' -> worker_goes_on i c y'.
Proof.
  intros [Hm Hf (code & r & w' & Hi & Hrun & Hk) Ho] Hstep.
  assert (i < length (threads y))%nat as Hlt by (by eapply lookup_lt_Some).
  assert (forall w1 code', shutdown_flag w1 = true ->
    (exists r1 w2, run code' w1 = Done true w2 /\ shrunk dir s p r1 c w2) ->
    worker_goes_on i c
      (mkSystem w1 (<[i := mkThread Worker (Some code')]> (threads y)) (main_ y))) as Hgo.
  { intros w1 code' Hf1 (r1 & w2 & H1 & H2). split; simpl; try done.
    - exists code', r1, w2. by rewrite list_lookup_insert_eq by done.
    - intros j t Hj Ht. rewrite list_lookup_insert_ne in Ht by done. by eapply Ho. }
  apply step_cases in Hstep as [(j & A & e & a & r1 & k & Hj & H & ->)|Hsilent].
  - destruct (decide (j = i)) as [->|Hne]; [|by specialize (Ho j _ Hne Hj)].
    rewrite Hi in Hj. simplify_eq. apply Hgo; [by rewrite (handle_shutdown_flag e _ a _ H)|].
    exists r, w'. split; [|done]. cbn [run] in Hrun. by rewrite H in Hrun.
  - destruct Hsilent as [w ts m j r1 Hj|w ts m j r1 Hj|w ts Hin|w ts Hall|w ts m]; simpl in *; try done.
    + destruct (decide (j = i)) as [->|Hne]; [|by specialize (Ho j _ Hne Hj)].
      rewrite Hi in Hj. simplify_eq. apply Hgo; [done|]. cbn [run] in Hrun. simplify_eq.
      destruct (worker_turn_shrunk dir s p r c w' Hk) as (r' & w'' & ? & ? & _). by exists r', w''.
    + destruct (decide (j = i)) as [->|Hne]; [|by specialize (Ho j _ Hne Hj)].
      rewrite Hi in Hj. simplify_eq.
    + unfold all_threads_returned in Hall. rewrite Forall_forall in Hall.
      by specialize (Hall _ (list_elem_of_lookup_2 _ _ _ Hi)).
    + assert (handle_signal w = w) as -> by (destruct w; simpl in Hf; by subst).
      split; simpl; try done. by exists code, r, w'.
Qed.

(** C29: a download can keep the server from ending.  Under RR, let the file of a
    download that is partly sent be replaced by one that ends before the position
    of the download, while more than one quantum of the announced size is left.
    Then every further round succeeds with nothing sent and queues the request
    again: after any number of turns it waits at the same offset, nothing has been
    sent or recorded, and its connection is not closed.  And when the server is
    shutting down and only the worker with this request is left, [main] never gets
    past its joins, whatever steps follow. *)
Theorem shrunk_download_never_ends r c :
  (forall w k, shrunk dir s p r c w ->
     exists r' w', run_turns dir s p k w = Some w' /\ shrunk dir s p r' c w' /\
       offset r' = offset r /\ socks w' = socks w /\ closed_socks w' = closed_socks w /\
       records_ w' = records_ w) /\
  (forall i y y', only_worker i r c y -> rtc (step dir s p) y y' -> main_ y' = JoiningWorkers).
Proof.
  split; [intros w k; apply run_turns_shrunk|].
  intros i y y' Hy Hsteps. apply (wg_main i c). apply worker_goes_on_turn in Hy.
  induction Hsteps as [|y1 y2 y3 Hstep _ IH]; [done|]. by apply IH, (worker_goes_on_step _ _ y1).
Qed.

End theorems.

(** ** Concrete instances *)

Lemma owned_once_witness :
  reachable demo_dir demo_scheduler 1 2 1 (demo_run demo_intake) /\
  exists owners, NoDup (concat (map owned_fd owners) ++ held (env (demo_run demo_intake))).
Proof.
  split; [apply demo_reachable|].
  destruct (connections_owned_once _ _ _ _ _ _ (demo_reachable demo_intake)) as (owners & _ & H & _).
  by exists owners.
Defined.

Lemma race_witness :
  let y := demo_run [(30, 10); (4, 2); (4, 3)]%nat in
  4 <> 5 /\ is_Some (socks (env y) !! 4) /\ is_Some (socks (env y) !! 5).
Proof.
  apply (no_two_threads_share_a_connection demo_dir demo_scheduler 1 2 1
    (demo_run [(30, 10); (4, 2); (4, 3)]%nat) 2 3 4 5).
  - apply demo_reachable.
  - done.
  - by vm_compute.
  - by vm_compute.
Defined.

Lemma shutdown_witness : socks (env demo_end) = ∅ /\ main_ demo_end = Joined.
Proof.
  assert (main_ demo_end = Joined) as Hm by (by vm_compute). split; [|done].
  apply (shutdown_leaves_nothing demo_dir demo_scheduler 1 2 1 demo_end); [|done].
  apply demo_end_reachable.
Defined.

Lemma pushes_witness :
  let y := demo_run [(30, 10); (7, 2)]%nat in
  threads y !! 2%nat ≫= push_result (env y) = Some true /\ true = true.
Proof.
  cbv zeta. assert (threads (demo_run [(30, 10); (7, 2)]%nat) !! 2%nat ≫=
    push_result (env (demo_run [(30, 10); (7, 2)]%nat)) = Some true) as H by (by vm_compute).
  split; [done|]. exact (pushes_are_accepted demo_dir demo_scheduler 1 2 1 _ 2 true
    (demo_reachable _) H).
Defined.

Lemma deadlock_witness : exists y', move demo_dir demo_scheduler 1 (demo_run demo_intake) y'.
Proof.
  apply (server_never_deadlocks demo_dir demo_scheduler 1 2 1 (demo_run demo_intake)).
  - apply demo_reachable.
  - by vm_compute.
Defined.

(** Worker 0 is about to create the staging file of the first upload. *)
Definition demo_writing : system := demo_run (demo_intake ++ [(3, 0)])%nat.

Definition demo_written : system :=
  match thread_move demo_dir demo_scheduler 1 0 demo_writing with
  | Some y' => y'
  | None => demo_writing
  end.

(** The move of worker 0 is a call: the file system is another one after it. *)
Lemma demo_call :
  exists A (e : event A) a, calls 0 e a demo_writing demo_written.
Proof.
  assert (thread_move demo_dir demo_scheduler 1 0 demo_writing = Some demo_written) as H.
  { assert (match thread_move demo_dir demo_scheduler 1 0 demo_writing with
            | Some _ => true | None => false end = true) as H by (by vm_compute).
    unfold demo_written. by destruct (thread_move _ _ _ _ _). }
  destruct (thread_move_cases _ _ _ _ _ _ H) as [|Hsilent]; [done|].
  assert (files (env demo_written) = files (env demo_writing)) as E by (by destruct Hsilent).
  apply (f_equal (fun m => m !! str "d/b.upload.1")) in E. by vm_compute in E.
Qed.

Lemma files_change_witness :
  exists g r, serving demo_dir demo_scheduler 1 2 1 demo_writing g /\
    g !! 0%nat = Some (Some r) /\ op r = PUT /\ is_valid_filename (filename r) = true /\
    is_Some (socks (env demo_writing) !! client_fd r) /\
    (str "d/b.upload.1" = path_in demo_dir (staging_name r) \/
     (str "d/b.upload.1" = path_in demo_dir (filename r) /\
      files (env demo_written) !! str "d/b.upload.1" =
        files (env demo_writing) !! path_in demo_dir (staging_name r))).
Proof.
  destruct demo_call as (A & e & a & Hcall).
  destruct (files_change_by_staging_and_commit demo_dir demo_scheduler 1 2 1 demo_writing
    (demo_reachable _)) as ((g & Hg) & H & _).
  destruct (H g 0%nat A e a demo_written (str "d/b.upload.1") Hg Hcall) as (r & Hr).
  - by vm_compute.
  - exists g, r. split; [exact Hg|exact Hr].
Defined.


(** One worker, one parser and the acceptor; the parser and the acceptor have
    returned and the queue is closed. *)
Definition sample_shutdown : system :=
  mkSystem
    (sample_replaced <| shutdown_flag := true |>
       <| request_queue := RequestQueue.mk [sample_half] true 0 |>)
    [mkThread Worker (Some (turn (str "d") rr2 1 Worker)); mkThread Parser None; mkThread Acceptor None]
    JoiningWorkers.

Lemma sample_only_worker :
  only_worker (str "d") rr2 1 0 sample_half (str "one") sample_shutdown.
Proof. split; try done. intros [|[|[|j]]] t ? ?; by simplify_eq/=. Qed.

Lemma shrunk_witness :
  (exists r' w', run_turns (str "d") rr2 1 100 sample_replaced = Some w' /\
     shrunk (str "d") rr2 1 r' (str "one") w' /\ offset r' = 4 /\
     socks w' = socks sample_replaced /\ closed_socks w' = closed_socks sample_replaced /\
     records_ w' = records_ sample_replaced) /\
  (forall y', rtc (step (str "d") rr2 1) sample_shutdown y' -> main_ y' = JoiningWorkers).
Proof.
  destruct (shrunk_download_never_ends (str "d") rr2 1 sample_half (str "one")) as [H1 H2].
  split; [exact (H1 _ 100%nat sample_shrunk)|].
  intros y'. exact (H2 0%nat sample_shutdown y' sample_only_worker).
Defined.
